(** * The Verific front end of Yosys ([frontends/verific/verific.cc])

    A shallow embedding of the importer that translates an elaborated
    Verific netlist into RTLIL, of its SVA sequence compiler, of the
    past-value register coalescer and of the external-net resolver,
    together with the properties the design document states about them.

    Conventions.  A C++ pointer to an object of the (read-only) Verific
    data base is modelled by the object itself, carrying a numeric
    identity where the code compares or keys on the pointer; a null
    pointer is [None].  Fatal exits ([log_error], [log_cmd_error],
    [log_abort], a failing [log_assert], an uncaught exception, a null
    dereference) are values of [error]; a function that may exit that
    way returns a [result]. *)

From Stdlib Require Import ZArith Lia Ascii String OrdersEx.
From stdpp Require Import gmap strings list pretty functions sorting.

Local Open Scope Z_scope.

(** ** Fatal exits *)

Inductive error : Type :=
| log_error (fmt : string)      (* log_error(fmt, ...): the format string names the failure *)
| log_cmd_error (fmt : string)  (* log_cmd_error(fmt, ...) *)
| log_abort                     (* log_abort() *)
| log_assert_failed             (* log_assert(cond) with cond false *)
| out_of_range                  (* std::map::at / dict::at on a missing key *)
| undefined_behaviour.          (* null dereference, atoi(NULL), division by zero *)

Inductive result (A : Type) : Type :=
| Ok (a : A)
| Fail (e : error).
Arguments Ok {A} a.
Arguments Fail {A} e.

#[global] Instance result_ret : MRet result := fun _ a => Ok a.
#[global] Instance result_bind : MBind result := fun _ _ f r =>
  match r with
  | Ok a => f a
  | Fail e => Fail e
  end.

Definition is_Ok {A} (r : result A) : bool :=
  match r with Ok _ => true | Fail _ => false end.

(** [log_assert(c)] *)
Definition log_assert (c : bool) : result unit :=
  if c then Ok tt else Fail log_assert_failed.

(** Left-to-right iteration of a fallible loop body over a container. *)
Fixpoint foldM {A S : Type} (f : A → S → result S) (l : list A) (s : S) : result S :=
  match l with
  | [] => Ok s
  | x :: l' => s' ← f x s; foldM f l' s'
  end.

(** ** RTLIL, the target representation *)

Module RTLIL.

(** [RTLIL::State] *)
Inductive State : Type := S0 | S1 | Sx | Sz | Sa | Sm.

#[global] Instance State_eq_dec : EqDecision State.
Proof. solve_decision. Defined.

(** The enumerator values of [RTLIL::State], the order of constants. *)
Definition State_val (s : State) : Z :=
  match s with S0 => 0 | S1 => 1 | Sx => 2 | Sz => 3 | Sa => 4 | Sm => 5 end.

(** [RTLIL::IdString]: either the name of an object of the source design
    or a private name made by the macro [NEW_ID] from the counter
    [autoidx]. *)
Inductive IdString : Type :=
| IdStr (s : string)
| NewId (idx : Z).

#[global] Instance IdString_eq_dec : EqDecision IdString.
Proof. solve_decision. Defined.

(** [RTLIL::escape_id]: a public name gets a leading backslash unless it
    already starts with a backslash or a dollar sign. *)
Definition escape_id (s : string) : string :=
  match s with
  | String c _ =>
      if bool_decide (c = "\"%char) || bool_decide (c = "$"%char)
      then s else String "\"%char s
  | EmptyString => s
  end.

(** [RTLIL::Const], a vector of states, least significant bit first. *)
Definition Const : Type := list State.

Fixpoint Const_bits (val : Z) (width : nat) : Const :=
  match width with
  | O => []
  | S w => (if Z.odd val then S1 else S0) :: Const_bits (Z.div2 val) w
  end.

(** [Const(int val, int width = 32)] *)
Definition Const_int (val : Z) (width : Z) : Const := Const_bits val (Z.to_nat width).

(** [Const(bool)] as used for polarity parameters *)
Definition Const_bool (b : bool) : Const := Const_int (if b then 1 else 0) 32.

(** [Const::as_bool]: some bit is 1. *)
Definition as_bool (c : Const) : bool := existsb (λ s, bool_decide (s = S1)) c.

(** [RTLIL::SigBit]: a bit of a wire, or a constant (wire == nullptr). *)
Inductive SigBit : Type :=
| Bit (wire : IdString) (offset : Z)
| Cst (data : State).

#[global] Instance SigBit_eq_dec : EqDecision SigBit.
Proof. solve_decision. Defined.

(** [RTLIL::SigSpec], least significant bit first. *)
Definition SigSpec : Type := list SigBit.

Definition GetSize (sig : SigSpec) : Z := Z.of_nat (length sig).

Record Wire : Type := mkWire {
  wire_name : IdString;
  wire_width : Z;
  wire_attributes : list (string * Const)
}.

Record Cell : Type := mkCell {
  cell_name : IdString;
  cell_type : string;
  parameters : list (string * Const);
  cell_connections : list (string * SigSpec)
}.

Record Memory : Type := mkMemory {
  memory_name : IdString;
  memory_width : Z;
  memory_size : Z
}.

(** [RTLIL::Module] under construction.  The dictionaries of wires and
    cells are kept in insertion order; [autoidx] is the kernel's global
    counter behind [NEW_ID], threaded with the module being built. *)
Record Module : Type := mkModule {
  name : IdString;
  wires_ : list Wire;
  cells_ : list Cell;
  connections_ : list (SigSpec * SigSpec);
  memories : list (IdString * Memory);
  autoidx : Z
}.

Definition new_Module (nm : IdString) (idx : Z) : Module :=
  mkModule nm [] [] [] [] idx.

(** [cell->getPort(name)], [dict::at]: throws when the port is absent. *)
Definition getPort (c : Cell) (port : string) : result SigSpec :=
  match list_find (λ p, p.1 = port) (cell_connections c) with
  | Some (_, (_, sig)) => Ok sig
  | None => Fail out_of_range
  end.

Definition getParam (c : Cell) (param : string) : result Const :=
  match list_find (λ p, p.1 = param) (parameters c) with
  | Some (_, (_, v)) => Ok v
  | None => Fail out_of_range
  end.

(** The conversion [SigBit(const SigSpec&)] asserts a width of one. *)
Definition as_bit (sig : SigSpec) : result SigBit :=
  match sig with
  | [b] => Ok b
  | _ => Fail log_assert_failed
  end.

(** The bits of a whole wire, the conversion of a wire to a [SigSpec]. *)
Definition wire_bits (w : IdString) (width : Z) : SigSpec :=
  map (λ i, Bit w (Z.of_nat i)) (seq 0 (Z.to_nat width)).

(** *** The kernel's module builder

    Modelled from the spec: the builder methods of [RTLIL::Module]
    ([kernel/rtlil.cc]) are not part of this file of the repository;
    each is rendered by the cell or wire it is documented to add, as the
    design document's data model describes cells (a type, named port
    connections and typed parameters). *)

(** [NEW_ID]: a fresh private name; the counter advances. *)
Definition NEW_ID (m : Module) : IdString * Module :=
  (NewId (autoidx m),
   mkModule (name m) (wires_ m) (cells_ m) (connections_ m) (memories m) (autoidx m + 1)).

Definition add_wire_obj (w : Wire) (m : Module) : Module :=
  mkModule (name m) (wires_ m ++ [w]) (cells_ m) (connections_ m) (memories m) (autoidx m).

Definition add_cell_obj (c : Cell) (m : Module) : Module :=
  mkModule (name m) (wires_ m) (cells_ m ++ [c]) (connections_ m) (memories m) (autoidx m).

(** [module->addWire(name, width)] *)
Definition addWire (nm : IdString) (width : Z) (m : Module) : Wire * Module :=
  let w := mkWire nm width [] in (w, add_wire_obj w m).

(** [module->connect(lhs, rhs)] *)
Definition connect (lhs rhs : SigSpec) (m : Module) : Module :=
  mkModule (name m) (wires_ m) (cells_ m) (connections_ m ++ [(lhs, rhs)]) (memories m) (autoidx m).

(** [module->remove(cell)] *)
Definition remove (c : Cell) (m : Module) : Module :=
  mkModule (name m) (wires_ m)
    (filter (λ c', cell_name c' ≠ cell_name c) (cells_ m))
    (connections_ m) (memories m) (autoidx m).

(** [Wire *w = module->addWire(name, width); w->attributes[key] = v;]:
    the wire enters the module carrying the attribute. *)
Definition addWire_with (nm : IdString) (width : Z) (attrs : list (string * Const))
    (m : Module) : Wire * Module :=
  let w := mkWire nm width attrs in (w, add_wire_obj w m).

Definition addCell (nm : IdString) (ty : string)
    (params : list (string * Const)) (conns : list (string * SigSpec)) (m : Module)
    : Cell * Module :=
  let c := mkCell nm ty params conns in (c, add_cell_obj c m).

(** Fine-grain gates. *)
Definition addAndGate nm (a b y : SigSpec) := addCell nm "$_AND_" [] [("\A", a); ("\B", b); ("\Y", y)].
Definition addOrGate nm (a b y : SigSpec) := addCell nm "$_OR_" [] [("\A", a); ("\B", b); ("\Y", y)].
Definition addXorGate nm (a b y : SigSpec) := addCell nm "$_XOR_" [] [("\A", a); ("\B", b); ("\Y", y)].
Definition addXnorGate nm (a b y : SigSpec) := addCell nm "$_XNOR_" [] [("\A", a); ("\B", b); ("\Y", y)].
Definition addNotGate nm (a y : SigSpec) := addCell nm "$_NOT_" [] [("\A", a); ("\Y", y)].
Definition addBufGate nm (a y : SigSpec) := addCell nm "$_BUF_" [] [("\A", a); ("\Y", y)].
Definition addMuxGate nm (a b s y : SigSpec) :=
  addCell nm "$_MUX_" [] [("\A", a); ("\B", b); ("\S", s); ("\Y", y)].
(** [addDffGate(name, clk, d, q, clk_polarity = true)] *)
Definition addDffGate nm (clk d q : SigSpec) :=
  addCell nm "$_DFF_P_" [] [("\C", clk); ("\D", d); ("\Q", q)].
(** [addAdffGate(name, clk, arst, d, q, arst_value, clk_polarity = true,
    arst_polarity = true)] *)
Definition addAdffGate nm (clk arst d q : SigSpec) (arst_value : bool) :=
  addCell nm (if arst_value then "$_DFF_PP1_" else "$_DFF_PP0_") []
    [("\C", clk); ("\R", arst); ("\D", d); ("\Q", q)].
(** [addDffsrGate(name, clk, set, clr, d, q)], all polarities positive *)
Definition addDffsrGate nm (clk set clr d q : SigSpec) :=
  addCell nm "$_DFFSR_PPP_" [] [("\C", clk); ("\S", set); ("\R", clr); ("\D", d); ("\Q", q)].

(** Coarse-grain cells. *)
Definition binary_params (is_signed : bool) (a b y : SigSpec) : list (string * Const) :=
  [("\A_SIGNED", Const_bool is_signed); ("\B_SIGNED", Const_bool is_signed);
   ("\A_WIDTH", Const_int (GetSize a) 32); ("\B_WIDTH", Const_int (GetSize b) 32);
   ("\Y_WIDTH", Const_int (GetSize y) 32)].
Definition unary_params (is_signed : bool) (a y : SigSpec) : list (string * Const) :=
  [("\A_SIGNED", Const_bool is_signed);
   ("\A_WIDTH", Const_int (GetSize a) 32); ("\Y_WIDTH", Const_int (GetSize y) 32)].

Definition addAnd nm (a b y : SigSpec) :=
  addCell nm "$and" (binary_params false a b y) [("\A", a); ("\B", b); ("\Y", y)].
Definition addOr nm (a b y : SigSpec) :=
  addCell nm "$or" (binary_params false a b y) [("\A", a); ("\B", b); ("\Y", y)].
Definition addXor nm (a b y : SigSpec) :=
  addCell nm "$xor" (binary_params false a b y) [("\A", a); ("\B", b); ("\Y", y)].
Definition addXnor nm (a b y : SigSpec) :=
  addCell nm "$xnor" (binary_params false a b y) [("\A", a); ("\B", b); ("\Y", y)].
Definition addAdd nm (a b y : SigSpec) :=
  addCell nm "$add" (binary_params false a b y) [("\A", a); ("\B", b); ("\Y", y)].
Definition addNot nm (a y : SigSpec) :=
  addCell nm "$not" (unary_params false a y) [("\A", a); ("\Y", y)].
Definition addMux nm (a b s y : SigSpec) :=
  addCell nm "$mux" [("\WIDTH", Const_int (GetSize a) 32)]
    [("\A", a); ("\B", b); ("\S", s); ("\Y", y)].
(** [addDff(name, clk, d, q, clk_polarity = true)] *)
Definition addDff nm (clk d q : SigSpec) (clk_polarity : bool) :=
  addCell nm "$dff"
    [("\CLK_POLARITY", Const_bool clk_polarity); ("\WIDTH", Const_int (GetSize q) 32)]
    [("\CLK", clk); ("\D", d); ("\Q", q)].
(** [addAdff(name, clk, arst, d, q, arst_value)] *)
Definition addAdff nm (clk arst d q : SigSpec) (arst_value : Const) :=
  addCell nm "$adff"
    [("\CLK_POLARITY", Const_bool true); ("\ARST_POLARITY", Const_bool true);
     ("\ARST_VALUE", arst_value); ("\WIDTH", Const_int (GetSize q) 32)]
    [("\CLK", clk); ("\ARST", arst); ("\D", d); ("\Q", q)].
(** [addDffsr(name, clk, set, clr, d, q)] *)
Definition addDffsr nm (clk set clr d q : SigSpec) :=
  addCell nm "$dffsr"
    [("\CLK_POLARITY", Const_bool true); ("\SET_POLARITY", Const_bool true);
     ("\CLR_POLARITY", Const_bool true); ("\WIDTH", Const_int (GetSize q) 32)]
    [("\CLK", clk); ("\SET", set); ("\CLR", clr); ("\D", d); ("\Q", q)].
Definition addDlatch nm (en d q : SigSpec) :=
  addCell nm "$dlatch"
    [("\EN_POLARITY", Const_bool true); ("\WIDTH", Const_int (GetSize q) 32)]
    [("\EN", en); ("\D", d); ("\Q", q)].
Definition addDlatchsr nm (en set clr d q : SigSpec) :=
  addCell nm "$dlatchsr"
    [("\EN_POLARITY", Const_bool true); ("\SET_POLARITY", Const_bool true);
     ("\CLR_POLARITY", Const_bool true); ("\WIDTH", Const_int (GetSize q) 32)]
    [("\EN", en); ("\SET", set); ("\CLR", clr); ("\D", d); ("\Q", q)].

(** Constraint cells. *)
Definition addAssert nm (a en : SigSpec) := addCell nm "$assert" [] [("\A", a); ("\EN", en)].
Definition addAssume nm (a en : SigSpec) := addCell nm "$assume" [] [("\A", a); ("\EN", en)].
Definition addCover nm (a en : SigSpec) := addCell nm "$cover" [] [("\A", a); ("\EN", en)].

(** [module->And(name, a, b)]: a fresh result wire, then the cell. *)
Definition And (nm : IdString) (a b : SigSpec) (m : Module) : SigSpec * Module :=
  let '(yid, m) := NEW_ID m in
  let '(y, m) := addWire yid (Z.max (GetSize a) (GetSize b)) m in
  let sig_y := wire_bits (wire_name y) (wire_width y) in
  let '(_, m) := addAnd nm a b sig_y m in
  (sig_y, m).

(** [module->Mux(name, a, b, s)] *)
Definition Mux (nm : IdString) (a b s : SigSpec) (m : Module) : SigSpec * Module :=
  let '(yid, m) := NEW_ID m in
  let '(y, m) := addWire yid (GetSize a) m in
  let sig_y := wire_bits (wire_name y) (wire_width y) in
  let '(_, m) := addMux nm a b s sig_y m in
  (sig_y, m).

End RTLIL.

(** ** The Verific data base, as the importer reads it *)

Module Verific.

(** The primitive and operator kinds ([Instance::Type()]) that the file
    names; any other kind of the data base is [PRIM_OTHER]. *)
Inductive prim_type : Type :=
| PRIM_AND | PRIM_NAND | PRIM_OR | PRIM_NOR | PRIM_XOR | PRIM_XNOR | PRIM_BUF
| PRIM_INV | PRIM_MUX | PRIM_TRI | PRIM_FADD | PRIM_DFFRS | PRIM_DLATCHRS
| OPER_ADDER | OPER_MULTIPLIER | OPER_DIVIDER | OPER_MODULO | OPER_REMAINDER
| OPER_SHIFT_LEFT | OPER_ENABLED_DECODER | OPER_DECODER | OPER_SHIFT_RIGHT
| OPER_REDUCE_AND | OPER_REDUCE_OR | OPER_REDUCE_XOR | OPER_REDUCE_XNOR
| OPER_LESSTHAN | OPER_WIDE_AND | OPER_WIDE_OR | OPER_WIDE_XOR | OPER_WIDE_XNOR
| OPER_WIDE_BUF | OPER_WIDE_INV | OPER_MINUS | OPER_UMINUS | OPER_EQUAL
| OPER_NEQUAL | OPER_WIDE_MUX | OPER_WIDE_TRI | OPER_WIDE_DFFRS | PRIM_PWR
| PRIM_GND | PRIM_X | PRIM_Z | PRIM_HDL_ASSERTION | OPER_READ_PORT
| OPER_WRITE_PORT | OPER_CLOCKED_WRITE_PORT | PRIM_SVA_IMMEDIATE_ASSERT
| PRIM_SVA_ASSERT | PRIM_SVA_COVER | PRIM_SVA_ASSUME | PRIM_SVA_EXPECT
| PRIM_SVA_POSEDGE | PRIM_SVA_NOT | PRIM_SVA_FIRST_MATCH | PRIM_SVA_ENDED
| PRIM_SVA_MATCHED | PRIM_SVA_CONSECUTIVE_REPEAT | PRIM_SVA_NON_CONSECUTIVE_REPEAT
| PRIM_SVA_GOTO_REPEAT | PRIM_SVA_MATCH_ITEM_TRIGGER | PRIM_SVA_AND | PRIM_SVA_OR
| PRIM_SVA_SEQ_AND | PRIM_SVA_SEQ_OR | PRIM_SVA_EVENT_OR
| PRIM_SVA_OVERLAPPED_IMPLICATION | PRIM_SVA_NON_OVERLAPPED_IMPLICATION
| PRIM_SVA_OVERLAPPED_FOLLOWED_BY | PRIM_SVA_NON_OVERLAPPED_FOLLOWED_BY
| PRIM_SVA_INTERSECT | PRIM_SVA_THROUGHOUT | PRIM_SVA_WITHIN | PRIM_SVA_AT
| PRIM_SVA_DISABLE_IFF | PRIM_SVA_SAMPLED | PRIM_SVA_ROSE | PRIM_SVA_FELL
| PRIM_SVA_STABLE | PRIM_SVA_PAST | PRIM_SVA_MATCH_ITEM_ASSIGN
| PRIM_SVA_SEQ_CONCAT | PRIM_SVA_IF | PRIM_SVA_RESTRICT | PRIM_SVA_TRIGGERED
| PRIM_SVA_STRONG | PRIM_SVA_WEAK | PRIM_SVA_NEXTTIME | PRIM_SVA_S_NEXTTIME
| PRIM_SVA_ALWAYS | PRIM_SVA_S_ALWAYS | PRIM_SVA_S_EVENTUALLY | PRIM_SVA_EVENTUALLY
| PRIM_SVA_UNTIL | PRIM_SVA_S_UNTIL | PRIM_SVA_UNTIL_WITH | PRIM_SVA_S_UNTIL_WITH
| PRIM_SVA_IMPLIES | PRIM_SVA_IFF | PRIM_SVA_ACCEPT_ON | PRIM_SVA_REJECT_ON
| PRIM_SVA_SYNC_ACCEPT_ON | PRIM_SVA_SYNC_REJECT_ON | PRIM_SVA_GLOBAL_CLOCKING_DEF
| PRIM_SVA_GLOBAL_CLOCKING_REF | PRIM_SVA_IMMEDIATE_ASSUME
| PRIM_SVA_IMMEDIATE_COVER | OPER_SVA_SAMPLED | OPER_SVA_STABLE | OPER_PSLPREV
| OPER_PSLNEXTFUNC | PRIM_PSL_ASSERT | PRIM_PSL_ASSUME | PRIM_PSL_ASSUME_GUARANTEE
| PRIM_PSL_RESTRICT | PRIM_PSL_RESTRICT_GUARANTEE | PRIM_PSL_COVER | PRIM_ENDPOINT
| PRIM_ROSE | PRIM_FELL | PRIM_AT | PRIM_ATSTRONG | PRIM_ABORT | PRIM_PSL_NOT
| PRIM_PSL_AND | PRIM_PSL_OR | PRIM_IMPL | PRIM_EQUIV | PRIM_PSL_X
| PRIM_PSL_XSTRONG | PRIM_PSL_G | PRIM_PSL_F | PRIM_PSL_U | PRIM_PSL_W | PRIM_NEXT
| PRIM_NEXTSTRONG | PRIM_ALWAYS | PRIM_NEVER | PRIM_EVENTUALLY | PRIM_UNTIL
| PRIM_UNTIL_ | PRIM_UNTILSTRONG | PRIM_UNTILSTRONG_ | PRIM_BEFORE | PRIM_BEFORE_
| PRIM_BEFORESTRONG | PRIM_BEFORESTRONG_ | PRIM_NEXT_A | PRIM_NEXT_ASTRONG
| PRIM_NEXT_E | PRIM_NEXT_ESTRONG | PRIM_NEXT_EVENT | PRIM_NEXT_EVENTSTRONG
| PRIM_NEXT_EVENT_A | PRIM_NEXT_EVENT_ASTRONG | PRIM_NEXT_EVENT_E
| PRIM_NEXT_EVENT_ESTRONG | PRIM_SEQ_IMPL | PRIM_OSUFFIX_IMPL | PRIM_SUFFIX_IMPL
| PRIM_OSUFFIX_IMPLSTRONG | PRIM_SUFFIX_IMPLSTRONG | PRIM_WITHIN | PRIM_WITHIN_
| PRIM_WITHINSTRONG | PRIM_WITHINSTRONG_ | PRIM_WHILENOT | PRIM_WHILENOT_
| PRIM_WHILENOTSTRONG | PRIM_WHILENOTSTRONG_ | PRIM_CONCAT | PRIM_FUSION
| PRIM_SEQ_AND_LEN | PRIM_SEQ_AND | PRIM_SEQ_OR | PRIM_CONS_REP | PRIM_NONCONS_REP
| PRIM_GOTO_REP
| PRIM_OTHER (code : positive).

(** The pool [verific_sva_prims], filled by the importer's constructor
    from its table [sva_prims]; [verific_sva_prims t] is
    [verific_sva_prims.count(t)]. *)
Definition verific_sva_prims (t : prim_type) : bool :=
  match t with
  | PRIM_SVA_IMMEDIATE_ASSERT | PRIM_SVA_ASSERT | PRIM_SVA_COVER | PRIM_SVA_ASSUME
  | PRIM_SVA_EXPECT | PRIM_SVA_POSEDGE | PRIM_SVA_NOT | PRIM_SVA_FIRST_MATCH
  | PRIM_SVA_ENDED | PRIM_SVA_MATCHED | PRIM_SVA_CONSECUTIVE_REPEAT
  | PRIM_SVA_NON_CONSECUTIVE_REPEAT | PRIM_SVA_GOTO_REPEAT
  | PRIM_SVA_MATCH_ITEM_TRIGGER | PRIM_SVA_AND | PRIM_SVA_OR | PRIM_SVA_SEQ_AND
  | PRIM_SVA_SEQ_OR | PRIM_SVA_EVENT_OR | PRIM_SVA_OVERLAPPED_IMPLICATION
  | PRIM_SVA_NON_OVERLAPPED_IMPLICATION | PRIM_SVA_OVERLAPPED_FOLLOWED_BY
  | PRIM_SVA_NON_OVERLAPPED_FOLLOWED_BY | PRIM_SVA_INTERSECT | PRIM_SVA_THROUGHOUT
  | PRIM_SVA_WITHIN | PRIM_SVA_AT | PRIM_SVA_DISABLE_IFF | PRIM_SVA_SAMPLED
  | PRIM_SVA_ROSE | PRIM_SVA_FELL | PRIM_SVA_STABLE | PRIM_SVA_PAST
  | PRIM_SVA_MATCH_ITEM_ASSIGN | PRIM_SVA_SEQ_CONCAT | PRIM_SVA_IF
  | PRIM_SVA_RESTRICT | PRIM_SVA_TRIGGERED | PRIM_SVA_STRONG | PRIM_SVA_WEAK
  | PRIM_SVA_NEXTTIME | PRIM_SVA_S_NEXTTIME | PRIM_SVA_ALWAYS | PRIM_SVA_S_ALWAYS
  | PRIM_SVA_S_EVENTUALLY | PRIM_SVA_EVENTUALLY | PRIM_SVA_UNTIL | PRIM_SVA_S_UNTIL
  | PRIM_SVA_UNTIL_WITH | PRIM_SVA_S_UNTIL_WITH | PRIM_SVA_IMPLIES | PRIM_SVA_IFF
  | PRIM_SVA_ACCEPT_ON | PRIM_SVA_REJECT_ON | PRIM_SVA_SYNC_ACCEPT_ON
  | PRIM_SVA_SYNC_REJECT_ON | PRIM_SVA_GLOBAL_CLOCKING_DEF
  | PRIM_SVA_GLOBAL_CLOCKING_REF | PRIM_SVA_IMMEDIATE_ASSUME
  | PRIM_SVA_IMMEDIATE_COVER | OPER_SVA_SAMPLED | OPER_SVA_STABLE => true
  | _ => false
  end.

(** The pool [verific_psl_prims], from the table [psl_prims]. *)
Definition verific_psl_prims (t : prim_type) : bool :=
  match t with
  | OPER_PSLPREV | OPER_PSLNEXTFUNC | PRIM_PSL_ASSERT | PRIM_PSL_ASSUME
  | PRIM_PSL_ASSUME_GUARANTEE | PRIM_PSL_RESTRICT | PRIM_PSL_RESTRICT_GUARANTEE
  | PRIM_PSL_COVER | PRIM_ENDPOINT | PRIM_ROSE | PRIM_FELL | PRIM_AT
  | PRIM_ATSTRONG | PRIM_ABORT | PRIM_PSL_NOT | PRIM_PSL_AND | PRIM_PSL_OR
  | PRIM_IMPL | PRIM_EQUIV | PRIM_PSL_X | PRIM_PSL_XSTRONG | PRIM_PSL_G
  | PRIM_PSL_F | PRIM_PSL_U | PRIM_PSL_W | PRIM_NEXT | PRIM_NEXTSTRONG
  | PRIM_ALWAYS | PRIM_NEVER | PRIM_EVENTUALLY | PRIM_UNTIL | PRIM_UNTIL_
  | PRIM_UNTILSTRONG | PRIM_UNTILSTRONG_ | PRIM_BEFORE | PRIM_BEFORE_
  | PRIM_BEFORESTRONG | PRIM_BEFORESTRONG_ | PRIM_NEXT_A | PRIM_NEXT_ASTRONG
  | PRIM_NEXT_E | PRIM_NEXT_ESTRONG | PRIM_NEXT_EVENT | PRIM_NEXT_EVENTSTRONG
  | PRIM_NEXT_EVENT_A | PRIM_NEXT_EVENT_ASTRONG | PRIM_NEXT_EVENT_E
  | PRIM_NEXT_EVENT_ESTRONG | PRIM_SEQ_IMPL | PRIM_OSUFFIX_IMPL | PRIM_SUFFIX_IMPL
  | PRIM_OSUFFIX_IMPLSTRONG | PRIM_SUFFIX_IMPLSTRONG | PRIM_WITHIN | PRIM_WITHIN_
  | PRIM_WITHINSTRONG | PRIM_WITHINSTRONG_ | PRIM_WHILENOT | PRIM_WHILENOT_
  | PRIM_WHILENOTSTRONG | PRIM_WHILENOTSTRONG_ | PRIM_CONCAT | PRIM_FUSION
  | PRIM_SEQ_AND_LEN | PRIM_SEQ_AND | PRIM_SEQ_OR | PRIM_CONS_REP
  | PRIM_NONCONS_REP | PRIM_GOTO_REP => true
  | _ => false
  end.

(** A net and the instance that drives it.  The data base is read from
    an assertion or a register back towards its inputs, so a net records
    its driver and an instance the nets on its input pins; the net on an
    output pin is recorded without its driver.  [net_id] is the identity
    of the object (the pointer), [net_Owner] that of the netlist the net
    lives in. *)
Inductive Net : Type := mkNet {
  net_id : N;
  net_Name : string;
  net_Owner : N;
  IsMultipleDriven : bool;
  IsGnd : bool;
  IsPwr : bool;
  Driver : option Instance
}
with Instance : Type := mkInstance {
  Type_ : prim_type;
  inst_Name : string;
  View_Owner_Name : string;            (* inst->View()->Owner()->Name() *)
  IsUserDeclared : bool;
  atts : list (string * string);       (* the attributes read by GetAttValue *)
  InputSize : Z;
  Input2Size : Z;
  OutputSize : Z;
  GetInput : option Net;
  GetInput1 : option Net;
  GetInput2 : option Net;
  GetInputBit0 : option Net;           (* GetInputBit(0) *)
  GetControl : option Net;
  GetClock : option Net;
  GetSet : option Net;
  GetReset : option Net;
  GetCin : option Net;
  GetOutput : option Net;
  GetCout : option Net
}.

(** [inst->GetAttValue(key)]: the value, or a null pointer. *)
Definition GetAttValue (inst : Instance) (key : string) : option string :=
  match list_find (λ p, p.1 = key) (atts inst) with
  | Some (_, (_, v)) => Some v
  | None => None
  end.

(** [net->IsExternalTo(netlist)]: the net lives in another netlist. *)
Definition IsExternalTo (net : Net) (netlist : N) : bool :=
  negb (N.eqb (net_Owner net) netlist).

(** Equality of two net pointers, either of which may be null. *)
Definition same_net (a b : option Net) : bool :=
  match a, b with
  | None, None => true
  | Some x, Some y => N.eqb (net_id x) (net_id y)
  | _, _ => false
  end.

(** A net with no driver and no special role. *)
Definition plain_net (id : N) (nm : string) (owner : N) : Net :=
  mkNet id nm owner false false false None.

(** A net driven by the single instance [drv]. *)
Definition driven_net (id : N) (nm : string) (owner : N) (drv : Instance) : Net :=
  mkNet id nm owner false false false (Some drv).

(** An instance of kind [t] with no pin connected. *)
Definition bare_instance (t : prim_type) (nm : string) : Instance :=
  mkInstance t nm "" false [] 0 0 0 None None None None None None None None None None None.

(** The usual shapes: one input, two inputs. *)
Definition unary_instance (t : prim_type) (nm : string) (a : Net) : Instance :=
  mkInstance t nm "" false [] 1 0 1 (Some a) None None (Some a) None None None None None None None.

Definition binary_instance (t : prim_type) (nm : string)
    (att : list (string * string)) (a b : Net) : Instance :=
  mkInstance t nm "" false att 2 1 1 None (Some a) (Some b) None None None None None None None None.

End Verific.

Import RTLIL Verific.

(** ** The importer: nets and primitive instances *)

(** [struct VerificImporter]: the module under construction, the netlist
    being imported (its identity), the map from nets to signal bits and the
    configuration flags. *)
Record VerificImporter : Type := mkImporter {
  module : Module;
  netlist : N;
  net_map : gmap N SigBit;
  mode_gates : bool;
  mode_keep : bool;
  mode_nosva : bool;
  mode_nosvapp : bool;
  mode_names : bool;
  verbose : bool
}.

Definition set_module (imp : VerificImporter) (m : Module) : VerificImporter :=
  mkImporter m (netlist imp) (net_map imp) (mode_gates imp) (mode_keep imp)
    (mode_nosva imp) (mode_nosvapp imp) (mode_names imp) (verbose imp).

(** [net_map_at]: a net of another netlist is a fatal error; a net that was
    never mapped makes [std::map::at] throw. *)
Definition net_map_at (imp : VerificImporter) (net : option Net) : result SigBit :=
  match net with
  | None => Fail undefined_behaviour
  | Some n =>
      if IsExternalTo n (netlist imp)
      then Fail (log_error "Found external reference to '%s.%s' in netlist '%s', please use -flatten or -extnets.")
      else match net_map imp !! net_id n with
           | Some b => Ok b
           | None => Fail out_of_range
           end
  end.

(** [net->IsGnd()] on a pointer that may be null *)
Definition net_IsGnd (net : option Net) : result bool :=
  match net with
  | Some n => Ok (IsGnd n)
  | None => Fail undefined_behaviour
  end.

(** [module->addWire(NEW_ID)] and [module->addWire(NEW_ID, width)], read as
    a signal. *)
Definition new_wire (width : Z) (m : Module) : SigSpec * Module :=
  let '(id, m) := NEW_ID m in
  let '(w, m) := addWire id width m in
  (wire_bits (wire_name w) (wire_width w), m).

(** [pin ? net_map_at(pin) : module->addWire(NEW_ID)] *)
Definition output_or_wire (imp : VerificImporter) (pin : option Net) (m : Module)
    : result (SigSpec * Module) :=
  match pin with
  | Some n => b ← net_map_at imp (Some n); Ok ([b], m)
  | None => Ok (new_wire 1 m)
  end.

(** [import_netlist_instance_gates]: the gate-level lowering of a
    primitive.  The arguments of a builder call are evaluated from left to
    right; both [IsGnd] tests of a flip-flop are evaluated on every path of
    its chain of conditions and are read first. *)
Definition import_netlist_instance_gates (imp : VerificImporter) (inst : Instance)
    (inst_name : IdString) : result (bool * VerificImporter) :=
  let at_ := net_map_at imp in
  let m := module imp in
  match Type_ inst with
  | PRIM_AND =>
      a ← at_ (GetInput1 inst); b ← at_ (GetInput2 inst); y ← at_ (GetOutput inst);
      Ok (true, set_module imp (addAndGate inst_name [a] [b] [y] m).2)
  | PRIM_NAND =>
      let '(tmp, m) := new_wire 1 m in
      let '(id, m) := NEW_ID m in
      a ← at_ (GetInput1 inst); b ← at_ (GetInput2 inst);
      let m := (addAndGate id [a] [b] tmp m).2 in
      y ← at_ (GetOutput inst);
      Ok (true, set_module imp (addNotGate inst_name tmp [y] m).2)
  | PRIM_OR =>
      a ← at_ (GetInput1 inst); b ← at_ (GetInput2 inst); y ← at_ (GetOutput inst);
      Ok (true, set_module imp (addOrGate inst_name [a] [b] [y] m).2)
  | PRIM_NOR =>
      let '(tmp, m) := new_wire 1 m in
      let '(id, m) := NEW_ID m in
      a ← at_ (GetInput1 inst); b ← at_ (GetInput2 inst);
      let m := (addOrGate id [a] [b] tmp m).2 in
      y ← at_ (GetOutput inst);
      Ok (true, set_module imp (addNotGate inst_name tmp [y] m).2)
  | PRIM_XOR =>
      a ← at_ (GetInput1 inst); b ← at_ (GetInput2 inst); y ← at_ (GetOutput inst);
      Ok (true, set_module imp (addXorGate inst_name [a] [b] [y] m).2)
  | PRIM_XNOR =>
      a ← at_ (GetInput1 inst); b ← at_ (GetInput2 inst); y ← at_ (GetOutput inst);
      Ok (true, set_module imp (addXnorGate inst_name [a] [b] [y] m).2)
  | PRIM_BUF =>
      a ← at_ (GetInput inst); y ← at_ (GetOutput inst);
      Ok (true, set_module imp (addBufGate inst_name [a] [y] m).2)
  | PRIM_INV =>
      a ← at_ (GetInput inst); y ← at_ (GetOutput inst);
      Ok (true, set_module imp (addNotGate inst_name [a] [y] m).2)
  | PRIM_MUX =>
      a ← at_ (GetInput1 inst); b ← at_ (GetInput2 inst);
      s ← at_ (GetControl inst); y ← at_ (GetOutput inst);
      Ok (true, set_module imp (addMuxGate inst_name [a] [b] [s] [y] m).2)
  | PRIM_TRI =>
      b ← at_ (GetInput inst); s ← at_ (GetControl inst); y ← at_ (GetOutput inst);
      Ok (true, set_module imp (addMuxGate inst_name [Cst Sz] [b] [s] [y] m).2)
  | PRIM_FADD =>
      a ← at_ (GetInput1 inst); b ← at_ (GetInput2 inst); c ← at_ (GetCin inst);
      '(x, m) ← output_or_wire imp (GetCout inst) m;
      '(y, m) ← output_or_wire imp (GetOutput inst) m;
      let '(tmp1, m) := new_wire 1 m in
      let '(tmp2, m) := new_wire 1 m in
      let '(tmp3, m) := new_wire 1 m in
      let '(id, m) := NEW_ID m in
      let m := (addXorGate id [a] [b] tmp1 m).2 in
      let m := (addXorGate inst_name tmp1 [c] y m).2 in
      let '(id, m) := NEW_ID m in
      let m := (addAndGate id tmp1 [c] tmp2 m).2 in
      let '(id, m) := NEW_ID m in
      let m := (addAndGate id [a] [b] tmp3 m).2 in
      let '(id, m) := NEW_ID m in
      Ok (true, set_module imp (addOrGate id tmp2 tmp3 x m).2)
  | PRIM_DFFRS =>
      set_gnd ← net_IsGnd (GetSet inst);
      reset_gnd ← net_IsGnd (GetReset inst);
      if set_gnd && reset_gnd then
        clk ← at_ (GetClock inst); d ← at_ (GetInput inst); q ← at_ (GetOutput inst);
        Ok (true, set_module imp (addDffGate inst_name [clk] [d] [q] m).2)
      else if set_gnd then
        clk ← at_ (GetClock inst); arst ← at_ (GetReset inst);
        d ← at_ (GetInput inst); q ← at_ (GetOutput inst);
        Ok (true, set_module imp (addAdffGate inst_name [clk] [arst] [d] [q] false m).2)
      else if reset_gnd then
        clk ← at_ (GetClock inst); arst ← at_ (GetSet inst);
        d ← at_ (GetInput inst); q ← at_ (GetOutput inst);
        Ok (true, set_module imp (addAdffGate inst_name [clk] [arst] [d] [q] true m).2)
      else
        clk ← at_ (GetClock inst); set ← at_ (GetSet inst); clr ← at_ (GetReset inst);
        d ← at_ (GetInput inst); q ← at_ (GetOutput inst);
        Ok (true, set_module imp (addDffsrGate inst_name [clk] [set] [clr] [d] [q] m).2)
  | _ => Ok (false, imp)
  end.

Section Cells.

(** The word-level operators of [import_netlist_instance_cells] (the
    branches on [OPER_ADDER] to [OPER_WIDE_DFFRS], which follow the
    primitives) are kept abstract: whatever they do, they are reached only
    when no primitive branch has returned. *)
Variable import_operator_cells :
  VerificImporter → Instance → IdString → result (bool * VerificImporter).

(** [import_netlist_instance_cells]: the cell-level lowering. *)
Definition import_netlist_instance_cells (imp : VerificImporter) (inst : Instance)
    (inst_name : IdString) : result (bool * VerificImporter) :=
  let at_ := net_map_at imp in
  let m := module imp in
  match Type_ inst with
  | PRIM_AND =>
      a ← at_ (GetInput1 inst); b ← at_ (GetInput2 inst); y ← at_ (GetOutput inst);
      Ok (true, set_module imp (addAnd inst_name [a] [b] [y] m).2)
  | PRIM_NAND =>
      let '(tmp, m) := new_wire 1 m in
      let '(id, m) := NEW_ID m in
      a ← at_ (GetInput1 inst); b ← at_ (GetInput2 inst);
      let m := (addAnd id [a] [b] tmp m).2 in
      y ← at_ (GetOutput inst);
      Ok (true, set_module imp (addNot inst_name tmp [y] m).2)
  | PRIM_OR =>
      a ← at_ (GetInput1 inst); b ← at_ (GetInput2 inst); y ← at_ (GetOutput inst);
      Ok (true, set_module imp (addOr inst_name [a] [b] [y] m).2)
  | PRIM_NOR =>
      let '(tmp, m) := new_wire 1 m in
      let '(id, m) := NEW_ID m in
      a ← at_ (GetInput1 inst); b ← at_ (GetInput2 inst);
      let m := (addOr id [a] [b] tmp m).2 in
      y ← at_ (GetOutput inst);
      Ok (true, set_module imp (addNot inst_name tmp [y] m).2)
  | PRIM_XOR =>
      a ← at_ (GetInput1 inst); b ← at_ (GetInput2 inst); y ← at_ (GetOutput inst);
      Ok (true, set_module imp (addXor inst_name [a] [b] [y] m).2)
  | PRIM_XNOR =>
      a ← at_ (GetInput1 inst); b ← at_ (GetInput2 inst); y ← at_ (GetOutput inst);
      Ok (true, set_module imp (addXnor inst_name [a] [b] [y] m).2)
  | PRIM_INV =>
      a ← at_ (GetInput inst); y ← at_ (GetOutput inst);
      Ok (true, set_module imp (addNot inst_name [a] [y] m).2)
  | PRIM_MUX =>
      a ← at_ (GetInput1 inst); b ← at_ (GetInput2 inst);
      s ← at_ (GetControl inst); y ← at_ (GetOutput inst);
      Ok (true, set_module imp (addMux inst_name [a] [b] [s] [y] m).2)
  | PRIM_TRI =>
      b ← at_ (GetInput inst); s ← at_ (GetControl inst); y ← at_ (GetOutput inst);
      Ok (true, set_module imp (addMux inst_name [Cst Sz] [b] [s] [y] m).2)
  | PRIM_FADD =>
      let '(a_plus_b, m) := new_wire 2 m in
      '(y, m) ← output_or_wire imp (GetOutput inst) m;
      y ← match GetCout inst with
          | Some n => c ← at_ (Some n); Ok (y ++ [c])
          | None => Ok y
          end;
      let '(id, m) := NEW_ID m in
      a ← at_ (GetInput1 inst); b ← at_ (GetInput2 inst);
      let m := (addAdd id [a] [b] a_plus_b m).2 in
      c ← at_ (GetCin inst);
      Ok (true, set_module imp (addAdd inst_name a_plus_b [c] y m).2)
  | PRIM_DFFRS =>
      set_gnd ← net_IsGnd (GetSet inst);
      reset_gnd ← net_IsGnd (GetReset inst);
      if set_gnd && reset_gnd then
        clk ← at_ (GetClock inst); d ← at_ (GetInput inst); q ← at_ (GetOutput inst);
        Ok (true, set_module imp (addDff inst_name [clk] [d] [q] true m).2)
      else if set_gnd then
        clk ← at_ (GetClock inst); arst ← at_ (GetReset inst);
        d ← at_ (GetInput inst); q ← at_ (GetOutput inst);
        Ok (true, set_module imp (addAdff inst_name [clk] [arst] [d] [q] [S0] m).2)
      else if reset_gnd then
        clk ← at_ (GetClock inst); arst ← at_ (GetSet inst);
        d ← at_ (GetInput inst); q ← at_ (GetOutput inst);
        Ok (true, set_module imp (addAdff inst_name [clk] [arst] [d] [q] [S1] m).2)
      else
        clk ← at_ (GetClock inst); set ← at_ (GetSet inst); clr ← at_ (GetReset inst);
        d ← at_ (GetInput inst); q ← at_ (GetOutput inst);
        Ok (true, set_module imp (addDffsr inst_name [clk] [set] [clr] [d] [q] m).2)
  | PRIM_DLATCHRS =>
      set_gnd ← net_IsGnd (GetSet inst);
      reset_gnd ← (if set_gnd then net_IsGnd (GetReset inst) else Ok false);
      if set_gnd && reset_gnd then
        en ← at_ (GetControl inst); d ← at_ (GetInput inst); q ← at_ (GetOutput inst);
        Ok (true, set_module imp (addDlatch inst_name [en] [d] [q] m).2)
      else
        en ← at_ (GetControl inst); set ← at_ (GetSet inst); clr ← at_ (GetReset inst);
        d ← at_ (GetInput inst); q ← at_ (GetOutput inst);
        Ok (true, set_module imp (addDlatchsr inst_name [en] [set] [clr] [d] [q] m).2)
  | _ => import_operator_cells imp inst inst_name
  end.

End Cells.

(** ** The clock-edge resolver *)

(** [verific_follow_inv]: the input of the inverter that alone drives [w]. *)
Definition verific_follow_inv (w : option Net) : option Net :=
  match w with
  | None => None
  | Some n =>
      if IsMultipleDriven n then None else
      match Driver n with
      | None => None
      | Some i => match Type_ i with PRIM_INV => GetInput i | _ => None end
      end
  end.

(** [verific_follow_pslprev]: the input of the one-bit [prev()] operator
    that alone drives [w]. *)
Definition verific_follow_pslprev (w : option Net) : option Net :=
  match w with
  | None => None
  | Some n =>
      if IsMultipleDriven n then None else
      match Driver n with
      | None => None
      | Some i =>
          match Type_ i with
          | OPER_PSLPREV => if bool_decide (InputSize i = 1) then GetInputBit0 i else None
          | _ => None
          end
      end
  end.

Definition verific_follow_inv_pslprev (w : option Net) : option Net :=
  verific_follow_pslprev (verific_follow_inv w).

(** [struct VerificClockEdge] after its constructor has returned.  The
    constructor has paths that assign no member; the object then holds
    indeterminate values in [clock_net] and [posedge]. *)
Inductive VerificClockEdge : Type :=
| ClockEdge (clock_net : option Net) (clock_sig : SigBit) (posedge : bool)
| ClockEdge_unassigned.

(** The constructor [VerificClockEdge::VerificClockEdge(importer, inst)]. *)
Definition VerificClockEdge_new (imp : VerificImporter) (inst : option Instance)
    : result VerificClockEdge :=
  match inst with
  | None => Fail log_assert_failed
  | Some inst =>
      match Type_ inst with
      | PRIM_SVA_POSEDGE =>
          match GetInput inst with
          | None => Fail undefined_behaviour
          | Some net =>
              let driver := Driver net in
              let '(clock_net, posedge) :=
                if negb (IsMultipleDriven net)
                   && match driver with
                      | Some d => match Type_ d with PRIM_INV => true | _ => false end
                      | None => false
                      end
                then (driver ≫= GetInput, false)
                else (Some net, true) in
              clock_sig ← net_map_at imp clock_net;
              Ok (ClockEdge clock_net clock_sig posedge)
          end
      | PRIM_AND =>
          let w1 := GetInput1 inst in
          let w2 := GetInput2 inst in
          let clock_net := verific_follow_inv_pslprev w1 in
          if same_net clock_net w2 then
            clock_sig ← net_map_at imp clock_net; Ok (ClockEdge clock_net clock_sig true)
          else
          let clock_net := verific_follow_inv_pslprev w2 in
          if same_net clock_net w1 then
            clock_sig ← net_map_at imp clock_net; Ok (ClockEdge clock_net clock_sig true)
          else
          let clock_net := verific_follow_pslprev w1 in
          if same_net clock_net (verific_follow_inv w2) then
            clock_sig ← net_map_at imp clock_net; Ok (ClockEdge clock_net clock_sig false)
          else
          let clock_net := verific_follow_pslprev w2 in
          if same_net clock_net (verific_follow_inv w1) then
            clock_sig ← net_map_at imp clock_net; Ok (ClockEdge clock_net clock_sig false)
          else Fail log_abort
      | _ => Ok ClockEdge_unassigned
      end
  end.

(** ** The C library's [atoi] *)

Definition is_space (c : ascii) : bool :=
  let n := nat_of_ascii c in (Nat.eqb n 32 || (Nat.leb 9 n && Nat.leb n 13))%bool.

Definition digit_of (c : ascii) : option Z :=
  let n := nat_of_ascii c in
  if (Nat.leb 48 n && Nat.leb n 57)%bool then Some (Z.of_nat (n - 48)) else None.

Fixpoint skip_space (s : string) : string :=
  match s with
  | String c s' => if is_space c then skip_space s' else s
  | EmptyString => s
  end.

Fixpoint atoi_digits (s : string) (acc : Z) : Z :=
  match s with
  | String c s' =>
      match digit_of c with
      | Some d => atoi_digits s' (10 * acc + d)
      | None => acc
      end
  | EmptyString => acc
  end.

(** The range of [int] *)
Definition INT_MIN : Z := - 2 ^ 31.
Definition INT_MAX : Z := 2 ^ 31 - 1.

(** The value [atoi] returns is an [int]: by the C standard the behaviour
    is undefined when the number read cannot be represented. *)
Definition as_int (v : Z) : result Z :=
  if bool_decide (INT_MIN ≤ v ≤ INT_MAX) then Ok v else Fail undefined_behaviour.

(** [atoi(p)]: white space, an optional sign, decimal digits; a null
    pointer is undefined behaviour, and so is a number out of the range of
    [int]. *)
Definition atoi (p : option string) : result Z :=
  match p with
  | None => Fail undefined_behaviour
  | Some s =>
      match skip_space s with
      | String "-" s' => as_int (- atoi_digits s' 0)
      | String "+" s' => as_int (atoi_digits s' 0)
      | s' => as_int (atoi_digits s' 0)
      end
  end.

(** ** The SVA sequence compiler ([struct VerificSvaImporter]) *)

(** [struct sequence_t], with its default member initialisers *)
Record sequence_t : Type := mk_sequence_t {
  seq_length : Z;
  sig_a : SigBit;
  sig_en : SigBit
}.

Definition sequence_t_default : sequence_t := mk_sequence_t 0 (Cst S1) (Cst S1).

Record VerificSvaImporter : Type := mkSvaImporter {
  importer : VerificImporter;
  root : Instance;
  clock : SigBit;
  clock_posedge : bool;
  disable_iff : SigBit;
  mode_assert : bool;
  mode_assume : bool;
  mode_cover : bool
}.

(** A worker as [import_sva_assert] and its siblings set it up. *)
Definition new_VerificSvaImporter (imp : VerificImporter) (inst : Instance)
    (is_assert is_assume is_cover : bool) : VerificSvaImporter :=
  mkSvaImporter imp inst (Cst Sx) false (Cst S0) is_assert is_assume is_cover.

(** The compiler's state: the sequence under construction and the module
    ([module] aliases [importer->module]). *)
Definition sva_state : Type := sequence_t * Module.

(** [n] iterations of a fallible loop body *)
Fixpoint repeatM {S : Type} (n : nat) (f : S → result S) (s : S) : result S :=
  match n with
  | O => Ok s
  | Datatypes.S n' => s' ← f s; repeatM n' f s'
  end.

Section SvaImporter.

Variable worker : VerificSvaImporter.

(** [net_to_ast_driver]: the SVA or PSL operator that alone drives [n],
    except [$past]. *)
Definition net_to_ast_driver (n : option Net) : option Instance :=
  match n with
  | None => None
  | Some n =>
      if IsMultipleDriven n then None else
      match Driver n with
      | None => None
      | Some inst =>
          if negb (verific_sva_prims (Type_ inst)) && negb (verific_psl_prims (Type_ inst))
          then None
          else match Type_ inst with
               | PRIM_SVA_PAST => None
               | _ => Some inst
               end
      end
  end.

Definition get_ast_input (inst : Instance) := net_to_ast_driver (GetInput inst).
Definition get_ast_input1 (inst : Instance) := net_to_ast_driver (GetInput1 inst).
Definition get_ast_input2 (inst : Instance) := net_to_ast_driver (GetInput2 inst).
Definition get_ast_control (inst : Instance) := net_to_ast_driver (GetControl inst).

(** [sequence_cond] *)
Definition sequence_cond (cond : SigBit) (st : sva_state) : result sva_state :=
  let '(seq, m) := st in
  let '(id, m) := NEW_ID m in
  let '(y, m) := And id [sig_a seq] [cond] m in
  a ← as_bit y;
  Ok (mk_sequence_t (seq_length seq) a (sig_en seq), m).

(** [seq.sig_en = module->And(NEW_ID, seq.sig_en, seq.sig_a)], the step
    the implication operators take after their antecedent *)
Definition enable_on_match (st : sva_state) : result sva_state :=
  let '(seq, m) := st in
  let '(id, m) := NEW_ID m in
  let '(y, m) := And id [sig_en seq] [sig_a seq] m in
  en ← as_bit y;
  Ok (mk_sequence_t (seq_length seq) (sig_a seq) en, m).

(** [sequence_ff]: one delay-element step *)
Definition sequence_ff (st : sva_state) : result sva_state :=
  let '(seq, m) := st in
  '(en, m) ← (if bool_decide (disable_iff worker ≠ Cst S0)
              then let '(id, m) := NEW_ID m in
                   let '(y, m) := Mux id [sig_en seq] [Cst S0] [disable_iff worker] m in
                   en ← as_bit y; Ok (en, m)
              else Ok (sig_en seq, m));
  let '(id, m) := NEW_ID m in
  let '(sig_a_q, m) := addWire_with id 1 [("\init", Const_int 0 1)] m in
  let '(id, m) := NEW_ID m in
  let '(sig_en_q, m) := addWire_with id 1 [("\init", Const_int 0 1)] m in
  let '(id, m) := NEW_ID m in
  let '(_, m) := addDff id [clock worker] [sig_a seq]
                   (wire_bits (wire_name sig_a_q) (wire_width sig_a_q))
                   (clock_posedge worker) m in
  let '(id, m) := NEW_ID m in
  let '(_, m) := addDff id [clock worker] [en]
                   (wire_bits (wire_name sig_en_q) (wire_width sig_en_q))
                   (clock_posedge worker) m in
  a_q ← as_bit (wire_bits (wire_name sig_a_q) (wire_width sig_a_q));
  en_q ← as_bit (wire_bits (wire_name sig_en_q) (wire_width sig_en_q));
  Ok (mk_sequence_t (seq_length seq + 1) a_q en_q, m).

(** A recursive call [parse_sequence(seq, net)] on a pin; a null pin
    ends in [net_map_at] dereferencing it. *)
Definition on_pin (rec : Net → sva_state → result sva_state) (pin : option Net)
    (st : sva_state) : result sva_state :=
  match pin with
  | Some n => rec n st
  | None => Fail undefined_behaviour
  end.

(** The part of [parse_sequence] that follows the test [inst == nullptr]:
    the cases on the kind of the driving operator.  [rec] stands for the
    recursive calls. *)
Definition parse_sequence_inst (rec : Net → sva_state → result sva_state)
    (inst : Instance) (st : sva_state) : result sva_state :=
  match Type_ inst with
  | PRIM_SVA_OVERLAPPED_IMPLICATION =>
      st ← on_pin rec (GetInput1 inst) st;
      st ← enable_on_match st;
      on_pin rec (GetInput2 inst) st
  | PRIM_SVA_NON_OVERLAPPED_IMPLICATION =>
      st ← on_pin rec (GetInput1 inst) st;
      st ← enable_on_match st;
      st ← sequence_ff st;
      on_pin rec (GetInput2 inst) st
  | PRIM_SVA_SEQ_CONCAT =>
      sva_low ← atoi (GetAttValue inst "sva:low");
      sva_high ← atoi (GetAttValue inst "sva:low");
      if bool_decide (sva_low ≠ sva_high) then
        Fail (log_error "Ranges on SVA sequence concatenation operator are not supported at the moment.")
      else
        st ← on_pin rec (GetInput1 inst) st;
        st ← repeatM (Z.to_nat sva_low) sequence_ff st;
        on_pin rec (GetInput2 inst) st
  | PRIM_SVA_CONSECUTIVE_REPEAT =>
      sva_low ← atoi (GetAttValue inst "sva:low");
      sva_high ← atoi (GetAttValue inst "sva:low");
      if bool_decide (sva_low ≠ sva_high) then
        Fail (log_error "Ranges on SVA consecutive repeat operator are not supported at the moment.")
      else
        st ← on_pin rec (GetInput inst) st;
        repeatM (Z.to_nat (sva_low - 1))
          (λ st, st ← sequence_ff st; on_pin rec (GetInput inst) st) st
  | PRIM_ALWAYS =>
      on_pin rec (GetInput inst) st
  | PRIM_IMPL =>
      st ← on_pin rec (GetInput1 inst) st;
      st ← enable_on_match st;
      on_pin rec (GetInput2 inst) st
  | PRIM_SUFFIX_IMPL =>
      st ← on_pin rec (GetInput1 inst) st;
      st ← enable_on_match st;
      st ← sequence_ff st;
      on_pin rec (GetInput2 inst) st
  | _ =>
      if negb (mode_keep (importer worker))
      then Fail (log_error "Unsupported Verific SVA primitive %s of type %s.")
      else Ok st
  end.

(** [parse_sequence].  The instance is the one [net_to_ast_driver]
    returns, read off the net's [Driver] so that the recursion is
    structural in the net (see [parse_sequence_unfold]). *)
Fixpoint parse_sequence (n : Net) (st : sva_state) {struct n} : result sva_state :=
  match net_to_ast_driver (Some n), Driver n with
  | Some _, Some inst => parse_sequence_inst parse_sequence inst st
  | _, _ => cond ← net_map_at (importer worker) (Some n); sequence_cond cond st
  end.

End SvaImporter.

Section SvaRun.

(** [module->uniquify(name)] of the kernel: a name not yet used in the
    module, [name] itself when it is free. *)
Variable uniquify : Module → IdString → IdString.

(** The first half of [VerificSvaImporter::run]: the clock event and the
    disable condition.  Returns the worker with [clock], [clock_posedge]
    and [disable_iff] set, and the net of the sequence to compile. *)
Definition run_clocking (worker : VerificSvaImporter)
    : result (VerificSvaImporter * option Net) :=
  let imp := importer worker in
  match get_ast_input (root worker) with
  | None => Fail log_assert_failed
  | Some at_node =>
      let is_sva_at := match Type_ at_node with PRIM_SVA_AT => true | _ => false end in
      let is_at := match Type_ at_node with PRIM_AT => true | _ => false end in
      _ ← log_assert (is_sva_at || is_at);
      clock_node ← (if is_sva_at then Ok (get_ast_input1 at_node)
                    else match GetInput2 at_node with
                         | Some n => Ok (Driver n)
                         | None => Fail undefined_behaviour
                         end);
      clock_edge ← VerificClockEdge_new imp clock_node;
      match clock_edge with
      | ClockEdge_unassigned => Fail undefined_behaviour
      | ClockEdge _ clock_sig posedge =>
          let sequence_net := if is_sva_at then GetInput2 at_node else GetInput1 at_node in
          '(dis, sequence_net) ←
            match net_to_ast_driver sequence_net with
            | Some node =>
                match Type_ node with
                | PRIM_SVA_DISABLE_IFF =>
                    d ← net_map_at imp (GetInput1 node); Ok (d, GetInput2 node)
                | PRIM_ABORT =>
                    d ← net_map_at imp (GetInput2 node); Ok (d, GetInput1 node)
                | _ => Ok (disable_iff worker, sequence_net)
                end
            | None => Ok (disable_iff worker, sequence_net)
            end;
          Ok (mkSvaImporter imp (root worker) clock_sig posedge dis
                (mode_assert worker) (mode_assume worker) (mode_cover worker),
              sequence_net)
      end
  end.

(** The constraint cell emitted at the end of [run]. *)
Definition emit_constraint (worker : VerificSvaImporter) (st : sva_state) : Module :=
  let '(seq, m) := st in
  let rt := root worker in
  let '(nm, m) :=
    if mode_names (importer worker) || IsUserDeclared rt
    then (IdStr (escape_id (inst_Name rt)), m)
    else NEW_ID m in
  let root_name := uniquify m nm in
  let m := if mode_assert worker then (addAssert root_name [sig_a seq] [sig_en seq] m).2 else m in
  let m := if mode_assume worker then (addAssume root_name [sig_a seq] [sig_en seq] m).2 else m in
  let m := if mode_cover worker then (addCover root_name [sig_a seq] [sig_en seq] m).2 else m in
  m.

(** The second half of [run]: the sequence is compiled from the default
    [sequence_t], one more delay step is taken, the cell is emitted. *)
Definition run_sequence (worker : VerificSvaImporter) (sequence_net : option Net)
    : result Module :=
  st ← on_pin (parse_sequence worker) sequence_net
         (sequence_t_default, module (importer worker));
  st ← sequence_ff worker st;
  Ok (emit_constraint worker st).

(** [VerificSvaImporter::run]; the result is the module, which the
    caller's importer shares. *)
Definition run (worker : VerificSvaImporter) : result Module :=
  '(worker, sequence_net) ← run_clocking worker;
  run_sequence worker sequence_net.

Definition import_sva_assert (imp : VerificImporter) (inst : Instance) : result Module :=
  run (new_VerificSvaImporter imp inst true false false).
Definition import_sva_assume (imp : VerificImporter) (inst : Instance) : result Module :=
  run (new_VerificSvaImporter imp inst false true false).
Definition import_sva_cover (imp : VerificImporter) (inst : Instance) : result Module :=
  run (new_VerificSvaImporter imp inst false false true).

End SvaRun.

(** ** Importing a netlist: the target module and the work-list *)

(** A netlist of the data base, as far as the head of [import_netlist]
    reads it.  [Owner_Name] is [nl->Owner()->Name()], the name of the cell
    the netlist belongs to. *)
Record Netlist : Type := mkNetlist {
  Owner_Name : string;
  IsOperator : bool;
  IsBlackBox : bool
}.

(** [RTLIL::Design]: the dictionary [modules_], in insertion order.  The
    key of an entry is the name the module had when it was added. *)
Definition Design : Type := list (IdString * Module).

(** [design->has(name)] *)
Definition Design_has (design : Design) (nm : IdString) : bool :=
  bool_decide (nm ∈ design.*1).

(** [design->add(module)], which asserts that the name is free *)
Definition Design_add (design : Design) (m : Module) : result Design :=
  _ ← log_assert (negb (Design_has design (name m)));
  Ok (design ++ [(name m, m)]).

(** The module behind a name is populated in place after it was added. *)
Definition Design_store (design : Design) (nm : IdString) (m : Module) : Design :=
  map (λ e, if decide (e.1 = nm) then (nm, m) else e) design.

(** The name [import_netlist] gives to the module of a netlist *)
Definition module_name (nl : Netlist) : string :=
  if IsOperator nl then "$verific$" +:+ Owner_Name nl else escape_id (Owner_Name nl).

(** [*set.begin()] of a [std::set] of pointers: the least element *)
Definition set_begin (s : gset N) : option N :=
  match elements s with
  | [] => None
  | x :: l => Some (foldr N.min x l)
  end.

(** The state of the work-list loop of [VerificPass::execute] *)
Record import_state : Type := mkImportState {
  design : Design;
  nl_todo : gset N;
  nl_done : gset N
}.

Section ImportNetlist.

(** The data base: the netlist behind a pointer. *)
Variable netlist_at : N → Netlist.

(** The body of [import_netlist] after the module has been created and
    added to the design (ports, nets, instances, properties).  It
    populates the module and names the netlists of the hierarchical
    instances, which the code inserts into [nl_todo]; it may end in any
    fatal error.  It has no access to the design. *)
Variable import_body : VerificImporter → N → result (Module * list N).

(** A fresh [VerificImporter importer(mode_gates, ...)] for each netlist *)
Variable new_importer : VerificImporter.

(** [importer.import_netlist(design, nl, nl_todo)] *)
Definition import_netlist (imp : VerificImporter) (design : Design) (nl : N)
    (nl_todo : gset N) : result (Design * gset N) :=
  let mod_name := IdStr (module_name (netlist_at nl)) in
  let imp := mkImporter (module imp) nl (net_map imp) (mode_gates imp) (mode_keep imp)
               (mode_nosva imp) (mode_nosvapp imp) (mode_names imp) (verbose imp) in
  if Design_has design mod_name then
    if negb (IsOperator (netlist_at nl))
    then Fail (log_cmd_error "Re-definition of module `%s'.")
    else Ok (design, nl_todo)
  else
    let m := new_Module mod_name (autoidx (module imp)) in
    design ← Design_add design m;
    '(m, views) ← import_body (set_module imp m) nl;
    Ok (Design_store design mod_name m, nl_todo ∪ list_to_set views).

(** One iteration of [while (!nl_todo.empty())]: [None] when the loop
    exits.  The first component tells for which netlist, if any, the
    iteration called [import_netlist]. *)
Definition import_step (st : import_state) : option (option N * result import_state) :=
  match set_begin (nl_todo st) with
  | None => None
  | Some nl =>
      if bool_decide (nl ∉ nl_done st) then
        Some (Some nl,
              '(d, todo) ← import_netlist new_importer (design st) nl (nl_todo st);
              Ok (mkImportState d (todo ∖ {[nl]}) (nl_done st ∪ {[nl]})))
      else
        Some (None, Ok (mkImportState (design st) (nl_todo st ∖ {[nl]}) (nl_done st ∪ {[nl]})))
  end.

(** The loop, for at most [fuel] iterations: the netlists handed to
    [import_netlist], in order, and where the loop stands ([Fail] once an
    import has aborted the run). *)
Fixpoint import_loop (fuel : nat) (st : import_state) : list N * result import_state :=
  match fuel with
  | O => ([], Ok st)
  | S fuel' =>
      match import_step st with
      | None => ([], Ok st)
      | Some (called, Fail e) => (option_list called, Fail e)
      | Some (called, Ok st') =>
          let '(calls, r) := import_loop fuel' st' in
          (option_list called ++ calls, r)
      end
  end.

End ImportNetlist.

(** ** Memories

    A net flagged as the backing store of a RAM becomes an RTLIL memory
    when the nets of the netlist are imported; its read and write ports are
    instances and are imported with the other instances. *)

(** A RAM net: its name, [net->Size()] (the number of bits of the whole
    store) and the instances its port references lead to
    ([FOREACH_PORTREF_OF_NET], [pr->GetInst()]). *)
Record RamNet : Type := mkRamNet {
  ram_Name : string;
  ram_Size : Z;
  ram_portrefs : list Instance
}.

(** [module->count_id(name)]: wires, memories and cells share one name
    space. *)
Definition count_id (m : Module) (nm : IdString) : Z :=
  Z.of_nat (length (filter (λ w, wire_name w = nm) (wires_ m))
            + length (filter (λ e, e.1 = nm) (memories m))
            + length (filter (λ c, cell_name c = nm) (cells_ m))).

(** [module->memories.at(name)] *)
Definition memories_at (m : Module) (nm : IdString) : result Memory :=
  match list_find (λ e, e.1 = nm) (memories m) with
  | Some (_, (_, mem)) => Ok mem
  | None => Fail out_of_range
  end.

Definition add_memory (mem : Memory) (m : Module) : Module :=
  mkModule (name m) (wires_ m) (cells_ m) (connections_ m)
    (memories m ++ [(memory_name mem, mem)]) (autoidx m).

(** The body of the loop over the port references of a RAM net: the word
    width shrinks to the width of each port. *)
Definition ram_port_step (inst : Instance) (bits_in_word : Z) : result Z :=
  match Type_ inst with
  | OPER_READ_PORT => Ok (Z.min bits_in_word (OutputSize inst))
  | OPER_WRITE_PORT | OPER_CLOCKED_WRITE_PORT => Ok (Z.min bits_in_word (Input2Size inst))
  | _ => Fail (log_error "Verific RamNet %s is connected to unsupported instance type %s (%s).")
  end.

(** The RAM case of the loop over the nets in [import_netlist], for a net
    without initial contents ([GetWideInitialValue()] is null; the
    initialisation cells that follow otherwise do not touch the width).
    [number_of_bits / bits_in_word] is C++ integer division. *)
Definition import_ram_net (net : RamNet) (m : Module) : result Module :=
  let memory_name := IdStr (escape_id (ram_Name net)) in
  _ ← log_assert (bool_decide (count_id m memory_name = 0));
  let number_of_bits := ram_Size net in
  bits_in_word ← foldM ram_port_step (ram_portrefs net) number_of_bits;
  if bool_decide (bits_in_word = 0) then Fail undefined_behaviour
  else Ok (add_memory (mkMemory memory_name bits_in_word (number_of_bits ÷ bits_in_word)) m).


Section MemoryPorts.

(** The construction of the [$memrd] and [$memwr] cells, which follows the
    width check, is kept abstract, and so is the treatment of the
    instances that are not memory ports. *)
Variable build_memrd : VerificImporter → Instance → IdString → Memory → result Module.
Variable build_memwr : VerificImporter → Instance → IdString → Memory → result Module.
Variable import_other_instance : VerificImporter → Instance → IdString → result Module.




End MemoryPorts.




(** ** The external-net resolver ([struct VerificExtNets])

    The resolver changes the data base, so the objects are named here by
    their identities and the data base is a record of the relations the
    code reads and writes. *)

Module ExtNets.

Inductive direction : Type := DIR_IN | DIR_OUT | DIR_INOUT.

(** The hierarchy: for a net its netlist, for a netlist the instances that
    reference (instantiate) it and the instances it contains, for an
    instance the netlist that contains it, its view and the nets on its
    ports.  A port is named by its name in its netlist.  [next_net] is the
    identity the next [new Net] gets. *)
Record Db : Type := mkDb {
  net_Owner : N → N;
  net_Name : N → string;
  net_ports : N → list string;
  GetReferences : N → list N;
  nl_instances : N → list N;
  nl_ports : N → list (string * direction);
  inst_Owner : N → N;
  inst_View : N → N;
  inst_portrefs : N → list (string * N);
  next_net : N
}.

(** [nl->NumOfRefs()] *)
Definition NumOfRefs (db : Db) (nl : N) : Z := Z.of_nat (length (GetReferences db nl)).

(** [net->IsExternalTo(nl)] *)
Definition IsExternalTo (db : Db) (net nl : N) : bool := negb (N.eqb (net_Owner db net) nl).

(** The worker: the counter behind the port names and the map from a net
    to the same net one level up in the hierarchy. *)
Record VerificExtNets : Type := mkExtNets {
  portname_cnt : Z;
  net_level_up : gmap N N
}.

Definition state : Type := Db * VerificExtNets.

(** [nl->Add(new_port); net->Connect(new_port)] *)
Definition add_port (nl net : N) (nm : string) (db : Db) : Db :=
  mkDb (net_Owner db) (net_Name db)
    (<[net := net_ports db net ++ [nm]]> (net_ports db))
    (GetReferences db) (nl_instances db)
    (<[nl := nl_ports db nl ++ [(nm, DIR_OUT)]]> (nl_ports db))
    (inst_Owner db) (inst_View db) (inst_portrefs db) (next_net db).

(** [new_net = new Net(name); up_nl->Add(new_net)] *)
Definition add_net (up_nl : N) (nm : string) (db : Db) : N * Db :=
  let new_net := next_net db in
  (new_net,
   mkDb (<[new_net := up_nl]> (net_Owner db)) (<[new_net := nm]> (net_Name db))
     (net_ports db) (GetReferences db) (nl_instances db) (nl_ports db)
     (inst_Owner db) (inst_View db) (inst_portrefs db) (new_net + 1)%N).

(** [inst->Connect(port, net)] *)
Definition Connect (inst : N) (port : string) (net : N) (db : Db) : Db :=
  mkDb (net_Owner db) (net_Name db) (net_ports db) (GetReferences db)
    (nl_instances db) (nl_ports db) (inst_Owner db) (inst_View db)
    (<[inst := inst_portrefs db inst ++ [(port, net)]]> (inst_portrefs db)) (next_net db).

(** [inst->Disconnect(port)] *)
Definition Disconnect (inst : N) (port : string) (db : Db) : Db :=
  mkDb (net_Owner db) (net_Name db) (net_ports db) (GetReferences db)
    (nl_instances db) (nl_ports db) (inst_Owner db) (inst_View db)
    (<[inst := filter (λ pr, pr.1 ≠ port) (inst_portrefs db inst)]> (inst_portrefs db))
    (next_net db).

(** [get_net_level_up] *)
Definition get_net_level_up (net : N) (st : state) : N * state :=
  let '(db, w) := st in
  match net_level_up w !! net with
  | Some up => (up, st)
  | None =>
      let nl := net_Owner db net in
      if bool_decide (NumOfRefs db nl ≠ 1) then (net, st)
      else
        let up_inst := List.last (GetReferences db nl) 0%N in
        let up_nl := inst_Owner db up_inst in
        let nm := "___extnets_" +:+ pretty (portname_cnt w) in
        let db := add_port nl net nm db in
        let '(new_net, db) := add_net up_nl nm db in
        let db := Connect up_inst nm new_net db in
        (new_net, (db, mkExtNets (portname_cnt w + 1) (<[net := new_net]> (net_level_up w))))
  end.

(** The loop [while (net->IsExternalTo(nl))] of [run], for at most [fuel]
    iterations; [None] when they do not suffice. *)
Fixpoint resolve (fuel : nat) (nl net : N) (st : state) : option (N * state) :=
  if negb (IsExternalTo st.1 net nl) then Some (net, st)
  else match fuel with
       | O => None
       | S fuel' =>
           let '(newnet, st') := get_net_level_up net st in
           if bool_decide (newnet = net) then Some (net, st')
           else resolve fuel' nl newnet st'
       end.

(** The body of the loop over the port references of the instances of
    [nl]: an external net is resolved and the reference is queued for
    reconnection. *)
Definition fix_portref (fuel : nat) (nl inst : N) (pr : string * N)
    (acc : state * list (N * string * N)) : option (state * list (N * string * N)) :=
  let '(st, todo_connect) := acc in
  let '(port, net) := pr in
  if negb (IsExternalTo st.1 net nl) then Some acc
  else '(net, st) ← resolve fuel nl net st;
       Some (st, todo_connect ++ [(inst, port, net)]).

(** [get<0>(it)->Disconnect(get<1>(it)); get<0>(it)->Connect(get<1>(it), get<2>(it))] *)
Definition reconnect (it : N * string * N) (db : Db) : Db :=
  let '(inst, port, net) := it in
  Connect inst port net (Disconnect inst port db).

Fixpoint foldO {A S : Type} (f : A → S → option S) (l : list A) (s : S) : option S :=
  match l with
  | [] => Some s
  | x :: l' => s' ← f x s; foldO f l' s'
  end.

(** [run(nl)] without its recursive descent: the references of the
    instances of [nl] are fixed, then reconnected.  The references of an
    instance are those it has when its turn comes: what
    [get_net_level_up] connects to an instance meanwhile is a new net of
    the netlist that owns the instance, which the loop would pass over. *)
Definition run_level (fuel : nat) (nl : N) (st : state) : option state :=
  let insts := nl_instances st.1 nl in
  '(st, todo_connect) ←
    foldO (λ inst acc, foldO (fix_portref fuel nl inst) (inst_portrefs acc.1.1 inst) acc)
      insts (st, []);
  Some (foldl (λ db it, reconnect it db) st.1 todo_connect, st.2).

(** [run(nl)]: first the views of the instances, then the netlist itself.
    [depth] bounds the recursion over the hierarchy. *)
Fixpoint run (depth fuel : nat) (nl : N) (st : state) : option state :=
  match depth with
  | O => None
  | S depth' =>
      st ← foldO (λ inst st, run depth' fuel (inst_View st.1 inst) st) (nl_instances st.1 nl) st;
      run_level fuel nl st
  end.

(** The netlist one level up from [nl], when exactly one instance
    references [nl]. *)
Definition level_up (db : Db) (nl : N) : option N :=
  match GetReferences db nl with
  | [up_inst] => Some (inst_Owner db up_inst)
  | _ => None
  end.

(** [nl] has a unique instantiation path of [d] levels up to [top]: going
    up [d] times, each netlist on the way being referenced exactly once,
    arrives at [top], and not before. *)
Fixpoint unique_path (db : Db) (d : nat) (nl top : N) : Prop :=
  match d with
  | O => nl = top
  | S d' => nl ≠ top ∧ ∃ up, level_up db nl = Some up ∧ unique_path db d' up top
  end.

(** What the worker's map records, in a data base it has worked on: a net
    it maps lies in a netlist referenced exactly once and is mapped to a
    net of the netlist one level up; all nets involved exist. *)
Definition consistent (st : state) : Prop :=
  ∀ net up, net_level_up st.2 !! net = Some up →
    (net < next_net st.1)%N ∧ (up < next_net st.1)%N
    ∧ level_up st.1 (net_Owner st.1 net) = Some (net_Owner st.1 up).

(** The hierarchy is well formed: an instance of a netlist is owned by
    it. *)
Definition instances_owned (db : Db) : Prop :=
  ∀ nl inst, inst ∈ nl_instances db nl → inst_Owner db inst = nl.

(** The nets on the ports of the instances exist. *)
Definition nets_exist (db : Db) : Prop :=
  ∀ inst port net, (port, net) ∈ inst_portrefs db inst → (net < next_net db)%N.

(** The hierarchy has a root above [nl]: going up from [nl], a netlist
    that is not referenced exactly once is reached within [d] levels. *)
Fixpoint rooted (db : Db) (d : nat) (nl : N) : Prop :=
  NumOfRefs db nl ≠ 1
  ∨ match d with
    | O => False
    | S d' => ∃ up, level_up db nl = Some up ∧ rooted db d' up
    end.

(** The hierarchy has no cycle: [rank] goes down from a netlist to the
    views of its instances. *)
Definition ranked (db : Db) (rank : N → nat) : Prop :=
  ∀ nl inst, inst ∈ nl_instances db nl → (rank (inst_View db inst) < rank nl)%nat.

(** The two data bases have the same hierarchy. *)
Definition same_hierarchy (db db' : Db) : Prop :=
  GetReferences db' = GetReferences db ∧ nl_instances db' = nl_instances db
  ∧ inst_Owner db' = inst_Owner db ∧ inst_View db' = inst_View db.

(** What the resolver does to a data base on its way from [st] to [st'],
    while it reconnects at most the instances of the netlists in [T]: the
    hierarchy stays; nets are only added; a net that exists keeps its
    netlist; a net of a netlist that is not referenced exactly once keeps
    its ports; and an instance of a netlist outside [T] keeps its port
    references and only gains references to nets of its own netlist. *)
Definition grown (T : N → Prop) (st st' : state) : Prop :=
  same_hierarchy st.1 st'.1
  ∧ (next_net st.1 ≤ next_net st'.1)%N
  ∧ (∀ n, (n < next_net st.1)%N → net_Owner st'.1 n = net_Owner st.1 n)
  ∧ (∀ n, (n < next_net st.1)%N → NumOfRefs st.1 (net_Owner st.1 n) ≠ 1 →
       net_ports st'.1 n = net_ports st.1 n)
  ∧ (∀ inst, ¬ T (inst_Owner st.1 inst) →
       ∃ extras, inst_portrefs st'.1 inst = inst_portrefs st.1 inst ++ extras
                 ∧ Forall (λ pr, net_Owner st'.1 pr.2 = inst_Owner st.1 inst) extras).

(** The port references of the instances [insts] to nets that are
    external to [nl], in the order in which [run] visits them *)
Definition external_refs (db : Db) (nl : N) (insts : list N) : list (N * (string * N)) :=
  flat_map (λ inst, (λ pr, (inst, pr))
                      <$> filter (λ pr, IsExternalTo db pr.2 nl = true) (inst_portrefs db inst))
    insts.

(** The net [t] is what the loop of [run] can arrive at from the net [n]
    of [db0], in the state [st]: a net that is not external to [nl], or one
    whose netlist is not referenced exactly once; the former if the netlist
    of [n] has a unique instantiation path up to [nl], and [n] itself if
    its netlist is not referenced exactly once. *)
Definition resolved (db0 : Db) (nl n t : N) (st : state) : Prop :=
  (t < next_net st.1)%N
  ∧ (IsExternalTo st.1 t nl = false ∨ NumOfRefs st.1 (net_Owner st.1 t) ≠ 1)
  ∧ (∀ k, unique_path db0 k (net_Owner db0 n) nl → IsExternalTo st.1 t nl = false)
  ∧ (NumOfRefs db0 (net_Owner db0 n) ≠ 1 → t = n).

(** The netlists [run] works on when it is called on [nl] and may go [k]
    levels down: [nl] itself and the netlists it works on when it is called
    on the views of the instances of [nl]. *)
Fixpoint below (db : Db) (k : nat) (nl x : N) : Prop :=
  x = nl
  ∨ match k with
    | O => False
    | S k' => ∃ inst, inst ∈ nl_instances db nl ∧ below db k' (inst_View db inst) x
    end.

(** No reference of an instance of [nl] is left that the resolver could
    move: every net on a port of an instance of [nl] is a net of [nl], or a
    net of a netlist that is not referenced exactly once. *)
Definition settled (db : Db) (nl : N) : Prop :=
  ∀ inst port net, inst ∈ nl_instances db nl → (port, net) ∈ inst_portrefs db inst →
    IsExternalTo db net nl = false ∨ NumOfRefs db (net_Owner db net) ≠ 1.

(** What the loops of [run] over the port references keep, [st0] being
    the state they start from and [refs] the external references visited so
    far: the data base has only grown, no instance is reconnected yet, and
    [todo_connect] holds one entry for each external reference visited, in
    order, with the instance and the port of the reference and a net the
    loop can arrive at from the net of the reference. *)
Definition fixing (st0 : state) (nl : N) (refs : list (N * (string * N)))
    (acc : state * list (N * string * N)) : Prop :=
  consistent acc.1 ∧ nets_exist acc.1.1 ∧ grown (λ _, False) st0 acc.1
  ∧ Forall2 (λ it ref, it.1 = (ref.1, ref.2.1) ∧ resolved st0.1 nl ref.2.2 it.2 acc.1)
      acc.2 refs.

End ExtNets.

(** ** The sequence preprocessor ([struct VerificSvaPP]) *)

Module SvaPP.

(** The part of the data base the preprocessor's rewrite rule reads and
    writes: the kind of an instance, the nets on its input pins, the
    driver of a net. *)
Record Graph : Type := mkGraph {
  inst_Type : N → prim_type;
  inst_Input : N → option N;
  inst_Input1 : N → option N;
  inst_Input2 : N → option N;
  net_Driver : N → option N;
  net_IsMultipleDriven : N → bool;
  next_obj : N
}.

(** [importer->module], before the worker's own member of that name *)
Definition importer_module (imp : VerificImporter) : Module := module imp.

Record VerificSvaPP : Type := mkSvaPP {
  importer : VerificImporter;
  module : option Module;
  netlist : option N;
  root : N;
  mode_assert : bool;
  mode_assume : bool;
  mode_cover : bool
}.

Definition net_to_ast_driver (g : Graph) (n : option N) : option N :=
  n ← n;
  if net_IsMultipleDriven g n then None else
  inst ← net_Driver g n;
  if negb (verific_sva_prims (inst_Type g inst)) && negb (verific_psl_prims (inst_Type g inst))
  then None
  else match inst_Type g inst with
       | PRIM_SVA_PAST => None
       | _ => Some inst
       end.

Definition get_ast_input (g : Graph) (inst : N) := net_to_ast_driver g (inst_Input g inst).
Definition get_ast_input1 (g : Graph) (inst : N) := net_to_ast_driver g (inst_Input1 g inst).
Definition get_ast_input2 (g : Graph) (inst : N) := net_to_ast_driver g (inst_Input2 g inst).

(** [inst->Disconnect(inst->View()->GetInput()); inst->Connect(..., new_net)] *)
Definition reconnect_Input (inst new_net : N) (g : Graph) : Graph :=
  mkGraph (inst_Type g) (<[inst := Some new_net]> (inst_Input g)) (inst_Input1 g)
    (inst_Input2 g) (net_Driver g) (net_IsMultipleDriven g) (next_obj g).

Definition reconnect_Input2 (inst new_net : N) (g : Graph) : Graph :=
  mkGraph (inst_Type g) (inst_Input g) (inst_Input1 g)
    (<[inst := Some new_net]> (inst_Input2 g)) (net_Driver g) (net_IsMultipleDriven g)
    (next_obj g).

(** [netlist->SvaBinary(type, in1, in2, linefile)]: a new instance of the
    given kind on the two nets, and the new net it drives. *)
Definition SvaBinary (t : prim_type) (in1 in2 : option N) (g : Graph) : N * Graph :=
  let inst := next_obj g in
  let out := (next_obj g + 1)%N in
  (out,
   mkGraph (<[inst := t]> (inst_Type g)) (inst_Input g)
     (<[inst := in1]> (inst_Input1 g)) (<[inst := in2]> (inst_Input2 g))
     (<[out := Some inst]> (net_Driver g)) (net_IsMultipleDriven g) (next_obj g + 2)%N).

(** [impl_to_seq], the one rewrite rule; [depth] bounds the recursion. *)
Fixpoint impl_to_seq (depth : nat) (w : VerificSvaPP) (inst : option N) (g : Graph)
    : option (option N * Graph) :=
  match depth with
  | O => None
  | S depth' =>
      match inst with
      | None => Some (None, g)
      | Some inst =>
          match inst_Type g inst with
          | PRIM_SVA_ASSERT | PRIM_SVA_COVER | PRIM_SVA_ASSUME =>
              '(new_net, g) ← impl_to_seq depth' w (get_ast_input g inst) g;
              match new_net with
              | Some n => Some (None, reconnect_Input inst n g)
              | None => Some (None, g)
              end
          | PRIM_SVA_AT =>
              '(new_net, g) ← impl_to_seq depth' w (get_ast_input2 g inst) g;
              match new_net with
              | Some n => Some (None, reconnect_Input2 inst n g)
              | None => Some (None, g)
              end
          | PRIM_SVA_NON_OVERLAPPED_IMPLICATION =>
              if mode_cover w then
                '(new_in1, g) ← impl_to_seq depth' w (get_ast_input1 g inst) g;
                '(new_in2, g) ← impl_to_seq depth' w (get_ast_input2 g inst) g;
                let new_in1 := match new_in1 with Some n => Some n | None => inst_Input1 g inst end in
                let new_in2 := match new_in2 with Some n => Some n | None => inst_Input2 g inst end in
                let '(out, g) := SvaBinary PRIM_SVA_SEQ_CONCAT new_in1 new_in2 g in
                Some (Some out, g)
              else Some (None, g)
          | _ => Some (None, g)
          end
      end
  end.

(** [VerificSvaPP::run]: the two members are set; the call of
    [impl_to_seq(root)] is commented out in the source.  [owner] is
    [root->Owner()]. *)
Definition run (owner : N) (w : VerificSvaPP) (g : Graph) : VerificSvaPP * Graph :=
  (mkSvaPP (importer w) (Some (importer_module (importer w))) (Some owner) (root w)
     (mode_assert w) (mode_assume w) (mode_cover w),
   g).

(** [svapp_assert], [svapp_assume], [svapp_cover]: a worker is set up and
    run, then dropped; what remains is the data base. *)
Definition svapp_assert (owner : N) (imp : VerificImporter) (inst : N) (g : Graph) : Graph :=
  (run owner (mkSvaPP imp None None inst true false false) g).2.

Definition svapp_assume (owner : N) (imp : VerificImporter) (inst : N) (g : Graph) : Graph :=
  (run owner (mkSvaPP imp None None inst false true false) g).2.

Definition svapp_cover (owner : N) (imp : VerificImporter) (inst : N) (g : Graph) : Graph :=
  (run owner (mkSvaPP imp None None inst false false true) g).2.

End SvaPP.

(** ** The register coalescer ([merge_past_ffs])

    [merge_past_ffs_clock] uses three services of the kernel that are not
    part of this file of the repository: the order of signal bits, the
    normal form of a signal ([sort_and_unify], [chunks]) and [SigMap]. *)

(** Modelled from the spec: the order of [RTLIL::IdString] (that of the
    indices in the kernel's table of names, which is missing here) is
    rendered by a strict total order: names of the design in
    lexicographic order, then private names by their number. *)
Definition IdString_compare (a b : IdString) : comparison :=
  match a, b with
  | IdStr s, IdStr t => String_as_OT.compare s t
  | IdStr _, NewId _ => Lt
  | NewId _, IdStr _ => Gt
  | NewId i, NewId j => Z.compare i j
  end.

(** Modelled from the spec: [SigBit::operator<] of the kernel, missing
    here: constants (no wire) come first, ordered by value; bits of wires
    are ordered by the name of the wire, then by offset. *)
Definition SigBit_compare (a b : SigBit) : comparison :=
  match a, b with
  | Cst x, Cst y => Z.compare (State_val x) (State_val y)
  | Cst _, Bit _ _ => Lt
  | Bit _ _, Cst _ => Gt
  | Bit w i, Bit v j =>
      match IdString_compare w v with
      | Eq => Z.compare i j
      | c => c
      end
  end.

(** [a < b] on signal bits *)
Definition SigBit_lt (a b : SigBit) : Prop := SigBit_compare a b = Lt.

(** Insertion into a [std::set] of signal bits, kept as its sorted
    sequence *)
Fixpoint sigbit_set_insert (b : SigBit) (s : list SigBit) : list SigBit :=
  match s with
  | [] => [b]
  | x :: s' =>
      match SigBit_compare b x with
      | Lt => b :: s
      | Eq => s
      | Gt => x :: sigbit_set_insert b s'
      end
  end.

(** Modelled from the spec: [SigSpec::sort_and_unify] of the kernel,
    missing here: the bits in ascending order, each once. *)
Definition sort_and_unify (sig : SigSpec) : SigSpec := foldr sigbit_set_insert [] sig.

(** [RTLIL::SigChunk]: a slice of a wire, or a vector of constants. *)
Inductive SigChunk : Type :=
| Chunk_wire (wire : IdString) (offset width : Z)
| Chunk_const (data : list State).

Definition chunk_of_bit (b : SigBit) : SigChunk :=
  match b with
  | Bit w o => Chunk_wire w o 1
  | Cst s => Chunk_const [s]
  end.

(** The chunk [last] grown by the bit [b], when [b] continues it: a
    constant continues constants, a bit of a wire continues a slice of the
    same wire that ends just below it. *)
Definition chunk_extend (last : SigChunk) (b : SigBit) : option SigChunk :=
  match last, b with
  | Chunk_const data, Cst s => Some (Chunk_const (data ++ [s]))
  | Chunk_wire w o n, Bit v i =>
      if bool_decide (w = v) && bool_decide (o + n = i) then Some (Chunk_wire w o (n + 1))
      else None
  | _, _ => None
  end.

Fixpoint pack_from (last : SigChunk) (bits : list SigBit) : list SigChunk :=
  match bits with
  | [] => [last]
  | b :: bits' =>
      match chunk_extend last b with
      | Some last' => pack_from last' bits'
      | None => last :: pack_from (chunk_of_bit b) bits'
      end
  end.

(** Modelled from the spec: [SigSpec::chunks] of the kernel, missing here:
    the bits from first to last, each joined to the chunk before it when it
    continues that chunk. *)
Definition chunks (sig : SigSpec) : list SigChunk :=
  match sig with
  | [] => []
  | b :: bits => pack_from (chunk_of_bit b) bits
  end.

Definition chunk_width (c : SigChunk) : Z :=
  match c with
  | Chunk_wire _ _ n => n
  | Chunk_const data => Z.of_nat (length data)
  end.

(** [SigSpec sig = chunk] *)
Definition chunk_bits (c : SigChunk) : SigSpec :=
  match c with
  | Chunk_wire w o n => map (λ i, Bit w (o + Z.of_nat i)) (seq 0 (Z.to_nat n))
  | Chunk_const data => map Cst data
  end.

(** The chunks the coalescer acts on: slices of a wire of more than one
    bit ([chunk.wire != nullptr] and [GetSize(sig_d) != 1]). *)
Definition mergeable (c : SigChunk) : bool :=
  match c with
  | Chunk_wire _ _ width => negb (bool_decide (width = 1))
  | Chunk_const _ => false
  end.

(** No two of the bits are consecutive bits of one wire. *)
Definition no_neighbours (bits : list SigBit) : Prop :=
  ∀ w o, Bit w o ∈ bits → Bit w (o + 1) ∉ bits.

(** Modelled from the spec: [SigMap] of the kernel, missing here, as the
    function that sends a bit to the representative of its class;
    [SigMap_add from to] joins the two classes under the representative of
    [to], or under the constant one when one representative is a
    constant. *)
Definition SigMap : Type := SigBit → SigBit.

Definition SigMap_empty : SigMap := λ b, b.

Definition is_wire (b : SigBit) : bool :=
  match b with Bit _ _ => true | Cst _ => false end.

Definition SigMap_add (from to : SigBit) (sigmap : SigMap) : SigMap :=
  let bf := sigmap from in
  let bt := sigmap to in
  if is_wire bf || is_wire bt then
    let rep := if is_wire bf then bt else bf in
    λ b, if bool_decide (sigmap b = bf) || bool_decide (sigmap b = bt) then rep else sigmap b
  else sigmap.

(** A [pool] of cells is kept as the sequence in which it is traversed;
    a cell is the object of its name. *)
Definition pool_erase (c : Cell) (p : list Cell) : list Cell :=
  filter (λ c', cell_name c' ≠ cell_name c) p.

(** [SigBit bit = sigmap(cell->getPort("\\D"))] *)
Definition ff_D (sigmap : SigMap) (cell : Cell) : result SigBit :=
  d ← getPort cell "\D"; as_bit (map sigmap d).

(** [SigBit old_q = old_ff->getPort("\\Q")] *)
Definition ff_Q (cell : Cell) : result SigBit :=
  q ← getPort cell "\Q"; as_bit q.

(** The state of [merge_past_ffs_clock] inside its loop *)
Record merge_state : Type := mkMergeState {
  ms_sigmap : SigMap;
  ms_module : Module;
  ms_candidates : list Cell;
  keep_running : bool
}.

(** The first loop of an iteration: [dbits_db], as the sequence of the
    candidates with their input bits. *)
Fixpoint collect_dbits (sigmap : SigMap) (candidates : list Cell)
    : result (list (SigBit * Cell)) :=
  match candidates with
  | [] => Ok []
  | cell :: rest =>
      bit ← ff_D sigmap cell;
      db ← collect_dbits sigmap rest;
      Ok ((bit, cell) :: db)
  end.

(** [dbits_db[bit]] *)
Definition dbits_db_at (dbits_db : list (SigBit * Cell)) (bit : SigBit) : list Cell :=
  (filter (λ e, e.1 = bit) dbits_db).*2.

(** The body of the innermost loop: one old register is replaced. *)
Definition replace_old_ff (new_q : SigBit) (old_ff : Cell) (st : merge_state)
    : result merge_state :=
  old_q ← ff_Q old_ff;
  Ok (mkMergeState
        (SigMap_add old_q new_q (ms_sigmap st))
        (remove old_ff (connect [old_q] [new_q] (ms_module st)))
        (pool_erase old_ff (ms_candidates st))
        true).

(** The body of the loop over the chunks of [dbits]. *)
Definition merge_chunk (clock : SigBit) (clock_pol : bool) (dbits_db : list (SigBit * Cell))
    (chunk : SigChunk) (st : merge_state) : result merge_state :=
  match chunk with
  | Chunk_const _ => Ok st
  | Chunk_wire _ _ width =>
      if bool_decide (width = 1) then Ok st
      else
        let sig_d := chunk_bits chunk in
        let '(sig_q, m) := new_wire (GetSize sig_d) (ms_module st) in
        let '(id, m) := NEW_ID m in
        let '(new_ff, m) := addDff id [clock] sig_d sig_q clock_pol m in
        foldM (λ '(d_i, q_i) st, foldM (replace_old_ff q_i) (dbits_db_at dbits_db d_i) st)
          (zip sig_d sig_q)
          (mkMergeState (ms_sigmap st) m (ms_candidates st) (keep_running st))
  end.

(** One iteration of [while (keep_running)]. *)
Definition merge_pass (clock : SigBit) (clock_pol : bool) (st : merge_state)
    : result merge_state :=
  dbits_db ← collect_dbits (ms_sigmap st) (ms_candidates st);
  let dbits := sort_and_unify dbits_db.*1 in
  foldM (merge_chunk clock clock_pol dbits_db) (chunks dbits)
    (mkMergeState (ms_sigmap st) (ms_module st) (ms_candidates st) false).

(** The loop, for at most [fuel] iterations; [None] when they do not
    suffice. *)
Fixpoint merge_loop (fuel : nat) (clock : SigBit) (clock_pol : bool) (st : merge_state)
    : option (result merge_state) :=
  match fuel with
  | O => None
  | S fuel' =>
      match merge_pass clock clock_pol st with
      | Fail e => Some (Fail e)
      | Ok st' => if keep_running st' then merge_loop fuel' clock clock_pol st'
                  else Some (Ok st')
      end
  end.

(** [merge_past_ffs_clock(candidates, clock, clock_pol)]: the module and
    the candidates it leaves.  Each iteration but the last erases a
    candidate, so one iteration more than there are candidates suffices
    (see [merge_past_ffs_clock_terminates]). *)
Definition merge_past_ffs_clock (candidates : list Cell) (clock : SigBit) (clock_pol : bool)
    (m : Module) : option (result (Module * list Cell)) :=
  r ← merge_loop (S (length candidates)) clock clock_pol
        (mkMergeState SigMap_empty m candidates true);
  Some (st ← r; Ok (ms_module st, ms_candidates st)).

(** [database[make_pair(clock, clock_pol)].insert(cell)] *)
Fixpoint database_insert (key : SigBit * bool) (cell : Cell)
    (database : list (SigBit * bool * list Cell)) : list (SigBit * bool * list Cell) :=
  match database with
  | [] => [(key, [cell])]
  | (k, cells) :: rest =>
      if bool_decide (k = key) then (k, cells ++ [cell]) :: rest
      else (k, cells) :: database_insert key cell rest
  end.

(** [make_pair(clock, int(clock_pol))] of a register *)
Definition ff_clock (cell : Cell) : result (SigBit * bool) :=
  clk ← getPort cell "\CLK"; clock ← as_bit clk;
  pol ← getParam cell "\CLK_POLARITY";
  Ok (clock, as_bool pol).

(** [merge_past_ffs(candidates)]: the candidates are grouped by clock and
    polarity and each group is merged on a copy of its pool. *)
Definition merge_past_ffs (candidates : list Cell) (m : Module) : option (result Module) :=
  let database :=
    foldM (λ cell database,
             key ← ff_clock cell;
             Ok (database_insert key cell database))
          candidates [] in
  match database with
  | Fail e => Some (Fail e)
  | Ok database =>
      foldl (λ acc group,
               r ← acc;
               match r with
               | Fail e => Some (Fail e)
               | Ok m =>
                   r' ← merge_past_ffs_clock group.2 group.1.1 group.1.2 m;
                   Some (r'' ← r'; Ok r''.1)
               end)
            (Some (Ok m)) database
  end.

(** The least width a chunk has *)
Definition chunk_ok (c : SigChunk) : Prop :=
  match c with
  | Chunk_wire _ _ n => 1 ≤ n
  | Chunk_const _ => True
  end.

(** The chunk under construction ends with the bit just read. *)
Definition ends_at (c : SigChunk) (w : IdString) (i : Z) : Prop :=
  ∃ o n, c = Chunk_wire w o n ∧ o + n - 1 = i ∧ 1 ≤ n.

(** The cells of [l] but those named in [names] *)
Definition without (names : list IdString) (l : list Cell) : list Cell :=
  filter (λ c, cell_name c ∉ names) l.

(** The old registers one chunk stands for: none unless the coalescer
    acts on the chunk, else those fed by a bit of the chunk, bit by bit. *)
Definition chunk_work (dbits_db : list (SigBit * Cell)) (chunk : SigChunk) : list Cell :=
  if mergeable chunk then flat_map (dbits_db_at dbits_db) (chunk_bits chunk) else [].

(** The old registers one iteration replaces *)
Definition pass_work (dbits_db : list (SigBit * Cell)) : list Cell :=
  flat_map (chunk_work dbits_db) (chunks (sort_and_unify dbits_db.*1)).

(** The register [merge_chunk] adds for a chunk, in a module whose counter
    of fresh names stands at [idx]:
    [module->addDff(NEW_ID, clock, sig_d, sig_q, clock_pol)], with [sig_q]
    the bits of the wire [module->addWire(NEW_ID, GetSize(sig_d))]. *)
Definition merged_ff (clock : SigBit) (clock_pol : bool) (chunk : SigChunk) (idx : Z) : Cell :=
  let sig_d := chunk_bits chunk in
  let sig_q := wire_bits (NewId idx) (GetSize sig_d) in
  mkCell (NewId (idx + 1)) "$dff"
    [("\CLK_POLARITY", Const_bool clock_pol); ("\WIDTH", Const_int (GetSize sig_q) 32)]
    [("\CLK", [clock]); ("\D", sig_d); ("\Q", sig_q)].

(** ** Register classes (vocabulary of the design document)

    The design document speaks of a plain edge-triggered register, of an
    asynchronous-reset-only or set-only register, and of a register with
    both set and reset.  [classify_register] reads the class off an RTLIL
    cell: off its type for the fine-grain gates, off its type and reset
    value for the coarse-grain cells. *)

Inductive register_class : Type :=
| plain_register
| reset_only_register
| set_only_register
| set_reset_register.

Definition classify_register (c : Cell) : option register_class :=
  let ty := cell_type c in
  if bool_decide (ty = "$_DFF_P_") || bool_decide (ty = "$dff") then Some plain_register
  else if bool_decide (ty = "$_DFF_PP0_") then Some reset_only_register
  else if bool_decide (ty = "$_DFF_PP1_") then Some set_only_register
  else if bool_decide (ty = "$adff") then
    match getParam c "\ARST_VALUE" with
    | Ok v => Some (if as_bool v then set_only_register else reset_only_register)
    | Fail _ => None
    end
  else if bool_decide (ty = "$_DFFSR_PPP_") || bool_decide (ty = "$dffsr")
  then Some set_reset_register
  else None.

(** The class the document assigns to a flip-flop primitive, from whether
    its set and its reset input are the constant zero. *)
Definition dffrs_class (set_is_zero reset_is_zero : bool) : register_class :=
  match set_is_zero, reset_is_zero with
  | true, true => plain_register
  | true, false => reset_only_register
  | false, true => set_only_register
  | false, false => set_reset_register
  end.

(** The signals on the pins of a register of a class, in the order clock,
    asynchronous inputs, data, output. *)
Definition register_pins (cl : register_class) (clk set reset d q : SigBit) : list SigSpec :=
  match cl with
  | plain_register => [[clk]; [d]; [q]]
  | reset_only_register => [[clk]; [reset]; [d]; [q]]
  | set_only_register => [[clk]; [set]; [d]; [q]]
  | set_reset_register => [[clk]; [set]; [reset]; [d]; [q]]
  end.

(** ** Delay elements (vocabulary of the design document) *)

(** A one-bit register clocked at [clk] with polarity [pol], from [d] to
    [q] *)
Definition delay_register (nm : IdString) (clk : SigBit) (pol : bool) (d q : SigBit) : Cell :=
  mkCell nm "$dff" [("\CLK_POLARITY", Const_bool pol); ("\WIDTH", Const_int 1 32)]
    [("\CLK", [clk]); ("\D", [d]); ("\Q", [q])].

(** A one-bit wire initialised to false *)
Definition false_wire (nm : IdString) : Wire := mkWire nm 1 [("\init", [S0])].

(** The multiplexer that yields [en] unless [dis] holds, and false then *)
Definition disable_gate (nm : IdString) (en dis y : SigBit) : Cell :=
  mkCell nm "$mux" [("\WIDTH", Const_int 1 32)]
    [("\A", [en]); ("\B", [Cst S0]); ("\S", [dis]); ("\Y", [y])].

(** One delay-element step from [st] to [st']: the module gains one
    register pair clocked at the worker's clock and polarity, that is two
    wires initialised to false and two registers, the first fed by the
    active signal and the second by the enabled signal, and the sequence
    continues from the two wires, one step longer.  Under a disable
    condition the enabled signal first passes the gate that forces it to
    false; that gate and its output wire are all the module gains
    besides. *)
Definition delay_step (worker : VerificSvaImporter) (st st' : sva_state) : Prop :=
  ∃ (ws : list Wire) (cs : list Cell) (a_q en_q id_a id_en : IdString) (en_d : SigBit),
    wires_ st'.2 = wires_ st.2 ++ ws ++ [false_wire a_q; false_wire en_q]
    ∧ cells_ st'.2
      = cells_ st.2 ++ cs
        ++ [delay_register id_a (clock worker) (clock_posedge worker) (sig_a st.1) (Bit a_q 0);
            delay_register id_en (clock worker) (clock_posedge worker) en_d (Bit en_q 0)]
    ∧ st'.1 = mk_sequence_t (seq_length st.1 + 1) (Bit a_q 0) (Bit en_q 0)
    ∧ (disable_iff worker = Cst S0 → ws = [] ∧ cs = [] ∧ en_d = sig_en st.1)
    ∧ (disable_iff worker ≠ Cst S0 →
       ∃ y id_y : IdString,
         ws = [mkWire y 1 []]
         ∧ cs = [disable_gate id_y (sig_en st.1) (disable_iff worker) (Bit y 0)]
         ∧ en_d = Bit y 0).

(** The number of [$dff] cells of a module *)
Definition dff_count (m : Module) : Z :=
  Z.of_nat (length (filter (λ c, cell_type c = "$dff") (cells_ m))).

(** A net is fed through an inverter when an inverter is its only driver. *)
Definition inverter_driven (n : Net) : bool :=
  negb (IsMultipleDriven n)
  && match Driver n with
     | Some d => match Type_ d with PRIM_INV => true | _ => false end
     | None => false
     end.

(** ** The command [verific -import] ([VerificPass::execute])

    The words of the command line are [args]; [args[0]] is the name of the
    command and [args[1]] the mode, so the options start at index 2. *)

Module VerificPass.

(** The local variables of the branch [-import] that the options set *)
Record options : Type := mkOptions {
  mode_all : bool;
  mode_gates : bool;
  mode_keep : bool;
  mode_nosva : bool;
  mode_nosvapp : bool;
  mode_names : bool;
  verbose : bool;
  flatten : bool;
  extnets : bool;
  dumpfile : string
}.

(** Their initial values *)
Definition no_options : options :=
  mkOptions false false false false false false false false false "".

(** The loop [for (argidx++; argidx < GetSize(args); argidx++)] over the
    options, on the words from [argidx] on; it returns the index at which
    it stops.  [-d] takes the word that follows it, when there is one. *)
Fixpoint parse_options (rest : list string) (argidx : Z) (o : options) : Z * options :=
  match rest with
  | [] => (argidx, o)
  | arg :: rest' =>
      if bool_decide (arg = "-all") then
        parse_options rest' (argidx + 1)
          (mkOptions true (mode_gates o) (mode_keep o) (mode_nosva o) (mode_nosvapp o)
             (mode_names o) (verbose o) (flatten o) (extnets o) (dumpfile o))
      else if bool_decide (arg = "-gates") then
        parse_options rest' (argidx + 1)
          (mkOptions (mode_all o) true (mode_keep o) (mode_nosva o) (mode_nosvapp o)
             (mode_names o) (verbose o) (flatten o) (extnets o) (dumpfile o))
      else if bool_decide (arg = "-flatten") then
        parse_options rest' (argidx + 1)
          (mkOptions (mode_all o) (mode_gates o) (mode_keep o) (mode_nosva o) (mode_nosvapp o)
             (mode_names o) (verbose o) true (extnets o) (dumpfile o))
      else if bool_decide (arg = "-extnets") then
        parse_options rest' (argidx + 1)
          (mkOptions (mode_all o) (mode_gates o) (mode_keep o) (mode_nosva o) (mode_nosvapp o)
             (mode_names o) (verbose o) (flatten o) true (dumpfile o))
      else if bool_decide (arg = "-k") then
        parse_options rest' (argidx + 1)
          (mkOptions (mode_all o) (mode_gates o) true (mode_nosva o) (mode_nosvapp o)
             (mode_names o) (verbose o) (flatten o) (extnets o) (dumpfile o))
      else if bool_decide (arg = "-nosva") then
        parse_options rest' (argidx + 1)
          (mkOptions (mode_all o) (mode_gates o) (mode_keep o) true (mode_nosvapp o)
             (mode_names o) (verbose o) (flatten o) (extnets o) (dumpfile o))
      else if bool_decide (arg = "-nosvapp") then
        parse_options rest' (argidx + 1)
          (mkOptions (mode_all o) (mode_gates o) (mode_keep o) true true
             (mode_names o) (verbose o) (flatten o) (extnets o) (dumpfile o))
      else if bool_decide (arg = "-n") then
        parse_options rest' (argidx + 1)
          (mkOptions (mode_all o) (mode_gates o) (mode_keep o) (mode_nosva o) (mode_nosvapp o)
             true (verbose o) (flatten o) (extnets o) (dumpfile o))
      else if bool_decide (arg = "-v") then
        parse_options rest' (argidx + 1)
          (mkOptions (mode_all o) (mode_gates o) (mode_keep o) (mode_nosva o) (mode_nosvapp o)
             (mode_names o) true (flatten o) (extnets o) (dumpfile o))
      else if bool_decide (arg = "-d") then
        match rest' with
        | file :: rest'' =>
            parse_options rest'' (argidx + 2)
              (mkOptions (mode_all o) (mode_gates o) (mode_keep o) (mode_nosva o)
                 (mode_nosvapp o) (mode_names o) (verbose o) (flatten o) (extnets o) file)
        | [] => (argidx, o)
        end
      else (argidx, o)
  end.

(** [args[argidx].substr(0, 1) == "-"] *)
Definition is_option_like (arg : string) : bool :=
  match arg with
  | String c _ => bool_decide (c = "-"%char)
  | EmptyString => false
  end.

(** [if (argidx > GetSize(args) && args[argidx].substr(0, 1) == "-")
    cmd_error(args, argidx, "unknown option")]; reading [args[argidx]]
    beyond the vector is undefined. *)
Definition check_unknown_option (args : list string) (argidx : Z) : result unit :=
  if bool_decide (Z.of_nat (length args) < argidx) then
    match args !! Z.to_nat argidx with
    | Some arg =>
        if is_option_like arg then Fail (log_cmd_error "unknown option") else Ok tt
    | None => Fail undefined_behaviour
    end
  else Ok tt.

(** The options of [verific -import ...] and the index of the first top
    module *)
Definition import_options (args : list string) : result (Z * options) :=
  let '(argidx, o) := parse_options (drop 2 args) 2 no_options in
  _ ← check_unknown_option args argidx;
  Ok (argidx, o).

(** The words that set a flag *)
Definition flag_words : list string :=
  ["-all"; "-gates"; "-flatten"; "-extnets"; "-k"; "-nosva"; "-nosvapp"; "-n"; "-v"].

(** A sequence of options: flags, and [-d] each time with the word that
    follows it *)
Fixpoint option_words (l : list string) : bool :=
  match l with
  | [] => true
  | arg :: rest =>
      if bool_decide (arg ∈ flag_words) then option_words rest
      else if bool_decide (arg = "-d") then
        match rest with
        | _ :: rest' => option_words rest'
        | [] => false
        end
      else false
  end.

(** No option is ahead: the words are at their end, or the next word is
    no flag and is [-d] only as the last word. *)
Definition no_option_ahead (rest : list string) : Prop :=
  match rest with
  | [] => True
  | arg :: rest' => (arg ∉ flag_words) ∧ (arg = "-d" → rest' = [])
  end.

Section Tops.

(** The services of Verific behind the choice of the netlists to import:
    [ElaborateAll] of the two languages, the cells of the work library
    with the first netlist of each, [veri_file::GetModule] as a test, and
    [Elaborate] of either language, which yields the netlist that
    [Netlist::PresentDesign()] then returns, or fails. *)
Variable veri_ElaborateAll vhdl_ElaborateAll : bool.
Variable lib_cells : list (string * N).
Variable veri_GetModule : string → bool.
Variable veri_Elaborate vhdl_Elaborate : string → option N.

(** [*iter_name != '$'] *)
Definition not_internal (nm : string) : bool :=
  match nm with
  | String c _ => negb (bool_decide (c = "$"%char))
  | EmptyString => true
  end.

(** [lib->GetCell(name)] *)
Definition GetCell (nm : string) : option N :=
  match list_find (λ e, e.1 = nm) lib_cells with
  | Some (_, (_, nl)) => Some nl
  | None => None
  end.

(** The netlists [nl_todo] starts from, given the options and the words
    [tops] that follow them *)
Definition select_netlists (o : options) (tops : list string) : result (gset N) :=
  if mode_all o then
    if negb veri_ElaborateAll
    then Fail (log_cmd_error "Elaboration of Verilog modules failed.")
    else if negb vhdl_ElaborateAll
    then Fail (log_cmd_error "Elaboration of VHDL modules failed.")
    else
      match tops with
      | [] => Ok (list_to_set (filter (λ e, not_internal e.1 = true) lib_cells).*2)
      | _ =>
          foldM (λ top nl_todo,
                   match GetCell top with
                   | None => Fail (log_cmd_error "Module not found: %s")
                   | Some nl => Ok (nl_todo ∪ {[nl]})
                   end) tops ∅
      end
  else
    match tops with
    | [] => Fail (log_cmd_error "No top module specified.")
    | _ =>
        foldM (λ top nl_todo,
                 match (if veri_GetModule top then veri_Elaborate top
                        else vhdl_Elaborate top) with
                 | None => Fail (log_cmd_error "Elaboration of top module `%s' failed.")
                 | Some nl => Ok (nl_todo ∪ {[nl]})
                 end) tops ∅
    end.

(** From the command line to the work-list *)
Definition import_command (args : list string) : result (options * gset N) :=
  '(argidx, o) ← import_options args;
  nl_todo ← select_netlists o (drop (Z.to_nat argidx) args);
  Ok (o, nl_todo).

End Tops.

End VerificPass.

(** ** Messages of Verific ([msg_func]) *)

(** [msg_type_t]; [VERIFIC_OTHER] stands for any value the function does
    not name. *)
Inductive msg_type_t : Type :=
| VERIFIC_NONE | VERIFIC_ERROR | VERIFIC_WARNING | VERIFIC_IGNORE | VERIFIC_INFO
| VERIFIC_COMMENT | VERIFIC_PROGRAM_ERROR | VERIFIC_OTHER.

(** A message as the call-back receives it: its kind, its identifier, the
    location [linefile] (file name and line number, or null) and the text
    [vstringf(msg, args)]. *)
Record verific_message : Type := mkMessage {
  msg_type : msg_type_t;
  message_id : string;
  linefile : option (string * Z);
  msg_text : string
}.

(** The log and the global [verific_error_msg].  A line of the log is
    flagged when it went through [log_warning_noprefix]. *)
Record log_state : Type := mkLogState {
  log_lines : list (bool * string);
  verific_error_msg : string
}.

Definition msg_type_name (t : msg_type_t) : string :=
  match t with
  | VERIFIC_NONE => "NONE"
  | VERIFIC_ERROR => "ERROR"
  | VERIFIC_WARNING => "WARNING"
  | VERIFIC_IGNORE => "IGNORE"
  | VERIFIC_INFO => "INFO"
  | VERIFIC_COMMENT => "COMMENT"
  | VERIFIC_PROGRAM_ERROR => "PROGRAM_ERROR"
  | VERIFIC_OTHER => "UNKNOWN"
  end.

(** The local [message] of [msg_func]: the location, if any, and the text *)
Definition message_of (msg : verific_message) : string :=
  match linefile msg with
  | Some (file, line) => file +:+ ":" +:+ pretty line +:+ ": "
  | None => ""
  end +:+ msg_text msg.

(** [msg_type == VERIFIC_ERROR || msg_type == VERIFIC_PROGRAM_ERROR] *)
Definition is_error_message (msg : verific_message) : bool :=
  match msg_type msg with
  | VERIFIC_ERROR | VERIFIC_PROGRAM_ERROR => true
  | _ => false
  end.

Definition newline : string := String (ascii_of_nat 10) EmptyString.

(** [msg_func] *)
Definition msg_func (msg : verific_message) (st : log_state) : log_state :=
  let message_prefix :=
    "VERIFIC-" +:+ msg_type_name (msg_type msg) +:+ " [" +:+ message_id msg +:+ "] " in
  let message := message_of msg in
  let as_warning :=
    match msg_type msg with
    | VERIFIC_ERROR | VERIFIC_WARNING | VERIFIC_PROGRAM_ERROR => true
    | _ => false
    end in
  mkLogState
    (log_lines st ++ [(as_warning, message_prefix +:+ message +:+ newline)])
    (if bool_decide (verific_error_msg st = "") && is_error_message msg
     then message else verific_error_msg st).

(** The label [check_error] at the end of [execute] *)
Definition check_error (st : log_state) : result unit :=
  if negb (bool_decide (verific_error_msg st = ""))
  then Fail (log_error "%s") else Ok tt.

(** ** The initial contents of a memory

    The part of the RAM case of [import_netlist] that follows the
    computation of the word width: the text [net->GetWideInitialValue()],
    a Verilog based literal, becomes one [$meminit] cell for each word
    that has a defined bit.  A C string is modelled by the characters
    before its terminating zero. *)

(** Modelled from the spec: [RTLIL::Const::Const(std::string)] of the
    kernel, missing here: eight bits for each character, the last
    character first, each character from its least significant bit. *)
Fixpoint Const_string (s : string) : Const :=
  match s with
  | EmptyString => []
  | String c s' => Const_string s' ++ Const_bits (Z.of_nat (nat_of_ascii c)) 8
  end.

(** [IdString::str()]; a private name reads [$auto$...$idx], of which the
    model keeps the number. *)
Definition IdString_str (id : IdString) : string :=
  match id with
  | IdStr s => s
  | NewId idx => "$auto$" +:+ pretty idx
  end.

(** The first loop over the text: the pointer advances to the first
    apostrophe, or to the end. *)
Fixpoint skip_to_quote (p : string) : string :=
  match p with
  | String c p' => if bool_decide (c = "'"%char) then p else skip_to_quote p'
  | EmptyString => p
  end.

(** The head of the literal is skipped: the size, the apostrophe and the
    base, which must be [b]. *)
Definition init_digits (ascii_initdata : string) : result string :=
  let p := skip_to_quote ascii_initdata in
  let p := match p with
           | String c p' => if bool_decide (c = "'"%char) then p' else p
           | EmptyString => p
           end in
  match p with
  | String c p' => _ ← log_assert (bool_decide (c = "b"%char)); Ok p'
  | EmptyString => Ok p
  end.

(** The loop [for (bit_idx = width-1; bit_idx >= 0; bit_idx--)] with
    [bits] iterations to go, so that [bit_idx] is [bits - 1]: the digits of
    a word are read from its most significant bit down; the loop ends early
    at the end of the text; a character other than [0] and [1] leaves its
    bit as it is. *)
Fixpoint read_word (bits : nat) (p : string) (initval : Const) (initval_valid : bool)
    : Const * bool * string :=
  match bits with
  | O => (initval, initval_valid, p)
  | S bit_idx =>
      match p with
      | EmptyString => (initval, initval_valid, p)
      | String c p' =>
          if bool_decide (c = "0"%char) || bool_decide (c = "1"%char) then
            read_word bit_idx p'
              (<[bit_idx := if bool_decide (c = "0"%char) then S0 else S1]> initval) true
          else read_word bit_idx p' initval initval_valid
      end
  end.

(** [SigSpec(int val)], a constant of 32 bits, and [SigSpec(Const)] *)
Definition SigSpec_int (val : Z) : SigSpec := map Cst (Const_int val 32).
Definition SigSpec_const (c : Const) : SigSpec := map Cst c.

(** The [$meminit] cell of one word: [id] is the name [NEW_ID] gave and
    [priority] the value of [autoidx-1] after that. *)
Definition meminit_cell (id : IdString) (memory : Memory) (addr : Z) (initval : Const)
    (priority : Z) : Cell :=
  mkCell id "$meminit"
    [("\WORDS", Const_int 1 32);
     ("\MEMID", Const_string (IdString_str (memory_name memory)));
     ("\ABITS", Const_int 32 32);
     ("\WIDTH", Const_int (memory_width memory) 32);
     ("\PRIORITY", Const_int priority 32)]
    [("\ADDR", SigSpec_int addr); ("\DATA", SigSpec_const initval)].

(** The address of the word [word_idx]: the words are numbered upwards
    when the range of the memory ascends ([LeftRangeBound() <
    RightRangeBound()]), downwards otherwise. *)
Definition word_addr (memory : Memory) (ascending : bool) (word_idx : Z) : Z :=
  if ascending then word_idx else memory_size memory - word_idx - 1.

(** The loop over the words, with [words] iterations to go *)
Fixpoint init_words (words : nat) (word_idx : Z) (memory : Memory) (ascending : bool)
    (p : string) (m : Module) : Module :=
  match words with
  | O => m
  | S words' =>
      let '(initval, initval_valid, p) :=
        read_word (Z.to_nat (memory_width memory)) p
          (replicate (Z.to_nat (memory_width memory)) Sx) false in
      let m :=
        if initval_valid then
          let '(id, m) := NEW_ID m in
          add_cell_obj
            (meminit_cell id memory (word_addr memory ascending word_idx) initval
               (autoidx m - 1))
            m
        else m in
      init_words words' (word_idx + 1) memory ascending p m
  end.

(** [if (ascii_initdata) { ... }] *)
Definition import_ram_init (memory : Memory) (ascii_initdata : option string)
    (ascending : bool) (m : Module) : result Module :=
  match ascii_initdata with
  | None => Ok m
  | Some text =>
      p ← init_digits text;
      Ok (init_words (Z.to_nat (memory_size memory)) 0 memory ascending p m)
  end.

(** The text of a word, most significant bit first, and its value *)
Definition digit_char (b : bool) : ascii := if b then "1"%char else "0"%char.
Definition digit_state (b : bool) : State := if b then S1 else S0.

Fixpoint digits_string (l : list bool) : string :=
  match l with
  | [] => EmptyString
  | b :: l' => String (digit_char b) (digits_string l')
  end.

(** The character [c] occurs in [s]. *)
Fixpoint mentions (c : ascii) (s : string) : bool :=
  match s with
  | EmptyString => false
  | String c' s' => bool_decide (c' = c) || mentions c s'
  end.

(** A state that a digit of the text defines *)
Definition defined_bit (s : State) : Prop := s = S0 ∨ s = S1.

(** ** The pins of an operator

    [operatorInput], [operatorInput1], [operatorInput2] and
    [operatorOutput] read a bus of pins of an instance from its highest
    index down to 0.  The bus is given by its pins in the order of their
    indices: [pins !! i] is [inst->GetInputBit(i)] (or [GetInput1Bit(i)],
    ...), a null pointer being [None], and its length is [InputSize()]
    (...). *)

(** [pin ? net_map_at(pin) : State::Sz] *)
Definition operator_bit (imp : VerificImporter) (pin : option Net) : result SigBit :=
  match pin with
  | Some n => net_map_at imp (Some n)
  | None => Ok (Cst Sz)
  end.

(** [operatorInput], and likewise [operatorInput1] and [operatorInput2];
    [sig.append] adds a bit at the most significant end. *)
Definition operatorInput (imp : VerificImporter) (pins : list (option Net)) : result SigSpec :=
  foldM (λ pin sig, b ← operator_bit imp pin; Ok (sig ++ [b])) (reverse pins) [].

(** [dummy_wire->width++]: the wire is an object of the module, so the
    module sees the new width. *)
Definition set_wire_width (nm : IdString) (width : Z) (m : Module) : Module :=
  mkModule (name m)
    (map (λ w, if bool_decide (wire_name w = nm)
               then mkWire (wire_name w) width (wire_attributes w) else w) (wires_ m))
    (cells_ m) (connections_ m) (memories m) (autoidx m).

(** The state of the loop of [operatorOutput]: the signal so far, the
    local [dummy_wire] (its name and its width now, or null) and the
    module. *)
Definition output_state : Type := SigSpec * option (IdString * Z) * Module.

(** The body of the loop of [operatorOutput] *)
Definition operatorOutput_step (imp : VerificImporter) (pin : option Net) (st : output_state)
    : result output_state :=
  let '(sig, dummy_wire, m) := st in
  match pin with
  | Some n => b ← net_map_at imp (Some n); Ok (sig ++ [b], None, m)
  | None =>
      let '(id, width, m) :=
        match dummy_wire with
        | None =>
            let '(id, m) := NEW_ID m in
            let '(w, m) := addWire id 1 m in
            (wire_name w, wire_width w, m)
        | Some (id, width) => (id, width + 1, set_wire_width id (width + 1) m)
        end in
      Ok (sig ++ [Bit id (width - 1)], Some (id, width), m)
  end.

(** [operatorOutput]: the signal and the module, which may have gained
    dummy wires. *)
Definition operatorOutput (imp : VerificImporter) (pins : list (option Net))
    : result (SigSpec * Module) :=
  '(sig, _, m) ← foldM (operatorOutput_step imp) (reverse pins) ([], None, module imp);
  Ok (sig, m).

(** The number of maximal runs of unconnected pins in a bus, read in the
    given order *)
Definition dummy_runs (pins : list (option Net)) : nat :=
  (foldl (λ '(n, in_run) pin,
            match pin with
            | None => (if in_run : bool then n else S n, true)
            | Some _ => (n, false)
            end) (O, false) pins).1.

(** The number of unconnected pins *)
Definition unconnected (pins : list (option Net)) : nat :=
  length (filter (λ pin, pin = None) pins).

(** The names [NEW_ID] is still to give are not in use: a private name
    among the wires of the module has a number below the counter. *)
Definition fresh_wire_names (m : Module) : Prop :=
  ∀ w k, w ∈ wires_ m → wire_name w = NewId k → k < autoidx m.

(** The bits of a list of wires *)
Definition total_width (ws : list Wire) : Z := foldr (λ w s, wire_width w + s) 0 ws.

(** What holds in the loop of [operatorOutput] after the pins [done], for
    an importer [imp] as it is on entry: the signal has a bit for each pin;
    the module has gained one wire for each run of unconnected pins, under
    fresh names, as wide together as there are unconnected pins, and
    nothing else; the local [dummy_wire] is the last of these wires while a
    run lasts; a connected pin gave the bit of its net, an unconnected pin
    a bit of a gained wire, and no two unconnected pins the same bit. *)
Definition output_inv (imp : VerificImporter) (done : list (option Net)) (st : output_state)
    : Prop :=
  let '(sig, dummy_wire, m) := st in
  let m0 := module imp in
  length sig = length done
  ∧ cells_ m = cells_ m0 ∧ connections_ m = connections_ m0 ∧ memories m = memories m0
  ∧ autoidx m0 ≤ autoidx m
  ∧ ∃ news : list Wire,
      wires_ m = wires_ m0 ++ news
      ∧ length news = dummy_runs done
      ∧ (∀ w, w ∈ news →
           ∃ k, wire_name w = NewId k ∧ autoidx m0 ≤ k < autoidx m
                ∧ wire_attributes w = [] ∧ 1 ≤ wire_width w)
      ∧ NoDup (wire_name <$> news)
      ∧ total_width news = Z.of_nat (unconnected done)
      ∧ match dummy_wire with
        | Some (id, width) =>
            (∃ news', news = news' ++ [mkWire id width []]) ∧ last done = Some None
        | None => last done ≠ Some None
        end
      ∧ (∀ i n, done !! i = Some (Some n) →
           ∃ b, net_map_at imp (Some n) = Ok b ∧ sig !! i = Some b)
      ∧ (∀ i, done !! i = Some None →
           ∃ w off, sig !! i = Some (Bit (wire_name w) off) ∧ w ∈ news
                    ∧ 0 ≤ off < wire_width w)
      ∧ (∀ i j, i ≠ j → done !! i = Some None → done !! j = Some None →
           sig !! i ≠ sig !! j).

(** ** What the lowering of a primitive adds to the module *)

(** The cell types of the fine-grain gates and of the coarse-grain cells
    that the two lowerings of a primitive use *)
Definition fine_grain_types : list string :=
  ["$_AND_"; "$_OR_"; "$_XOR_"; "$_XNOR_"; "$_NOT_"; "$_BUF_"; "$_MUX_"; "$_DFF_P_";
   "$_DFF_PP0_"; "$_DFF_PP1_"; "$_DFFSR_PPP_"].

Definition coarse_grain_types : list string :=
  ["$and"; "$or"; "$xor"; "$xnor"; "$not"; "$mux"; "$add"; "$dff"; "$adff"; "$dffsr";
   "$dlatch"; "$dlatchsr"].

(** The kinds that [import_netlist_instance_gates] has a branch for, and
    the primitives that [import_netlist_instance_cells] has a branch for *)
Definition is_gate_primitive (t : prim_type) : bool :=
  match t with
  | PRIM_AND | PRIM_NAND | PRIM_OR | PRIM_NOR | PRIM_XOR | PRIM_XNOR | PRIM_BUF | PRIM_INV
  | PRIM_MUX | PRIM_TRI | PRIM_FADD | PRIM_DFFRS => true
  | _ => false
  end.

Definition is_cell_primitive (t : prim_type) : bool :=
  match t with
  | PRIM_AND | PRIM_NAND | PRIM_OR | PRIM_NOR | PRIM_XOR | PRIM_XNOR | PRIM_INV
  | PRIM_MUX | PRIM_TRI | PRIM_FADD | PRIM_DFFRS | PRIM_DLATCHRS => true
  | _ => false
  end.

(** A private name made while the module went from [m] to [m'] *)
Definition made_between (m m' : Module) (id : IdString) : Prop :=
  ∃ k, id = NewId k ∧ autoidx m ≤ k < autoidx m'.

(** From [m] to [m'] the module has gained wires under private names and
    cells of the given types, of which exactly one is placed under the
    name [inst_name] and the others under private names; nothing else has
    changed. *)
Definition lowered (types : list string) (inst_name : IdString) (m m' : Module) : Prop :=
  name m' = name m ∧ connections_ m' = connections_ m ∧ memories m' = memories m
  ∧ autoidx m ≤ autoidx m'
  ∧ (∃ ws, wires_ m' = wires_ m ++ ws
           ∧ Forall (λ w, made_between m m' (wire_name w)) ws)
  ∧ ∃ pre c post,
      cells_ m' = cells_ m ++ pre ++ c :: post
      ∧ cell_name c = inst_name
      ∧ Forall (λ c, made_between m m' (cell_name c)) (pre ++ post)
      ∧ Forall (λ c, bool_decide (cell_type c ∈ types) = true) (pre ++ c :: post).

(** The bit [q] is a bit of the output of a register the coalescer has
    made since the counter of private names stood at [from]: the register
    of some chunk ([merged_ff]) is a cell of the module, the wire made with
    it is a wire of the module, and [q] is a bit of that wire, which is the
    output of the register. *)
Definition new_register_bit (clock : SigBit) (clock_pol : bool) (from : Z) (m' : Module)
    (q : SigBit) : Prop :=
  ∃ chunk idx i,
    from ≤ idx ∧ 0 ≤ i < GetSize (chunk_bits chunk)
    ∧ q = Bit (NewId idx) i
    ∧ mkWire (NewId idx) (GetSize (chunk_bits chunk)) [] ∈ wires_ m'
    ∧ merged_ff clock clock_pol chunk idx ∈ cells_ m'
    ∧ getPort (merged_ff clock clock_pol chunk idx) "\Q"
      = Ok (wire_bits (NewId idx) (GetSize (chunk_bits chunk))).

(** ** The groups of the register coalescer *)

(** The register [cell] is clocked by [key], a clock bit and a polarity. *)
Definition has_clock (key : SigBit * bool) (cell : Cell) : bool :=
  match ff_clock cell with
  | Ok k => bool_decide (k = key)
  | Fail _ => false
  end.

(** The first loop of [merge_past_ffs]: the dictionary [database] *)
Definition clock_database (candidates : list Cell)
    : result (list (SigBit * bool * list Cell)) :=
  foldM (λ cell database, key ← ff_clock cell; Ok (database_insert key cell database))
    candidates [].

(** ** What the sequence compiler adds to the module *)

(** The height of the data base above a net, along drivers and the input
    pins that [parse_sequence] follows: a measure for its recursion. *)
Fixpoint net_height (n : Net) : nat :=
  match Driver n with
  | Some inst => S (inst_height inst)
  | None => O
  end
with inst_height (inst : Instance) : nat :=
  let pin_height (pin : option Net) : nat :=
    match pin with Some n => net_height n | None => O end in
  Nat.max (pin_height (GetInput inst))
    (Nat.max (pin_height (GetInput1 inst)) (pin_height (GetInput2 inst))).

(** The cell types the sequence compiler builds with *)
Definition sequence_cell_types : list string := ["$and"; "$mux"; "$dff"].

(** From [st] to [st'] the compiler has only added wires and cells; the
    cells are AND gates, multiplexers and registers, and there are two
    registers for each step by which the sequence has grown. *)
Definition compiled_from (st st' : sva_state) : Prop :=
  name st'.2 = name st.2 ∧ connections_ st'.2 = connections_ st.2
  ∧ memories st'.2 = memories st.2
  ∧ autoidx st.2 ≤ autoidx st'.2
  ∧ seq_length st.1 ≤ seq_length st'.1
  ∧ (∃ ws, wires_ st'.2 = wires_ st.2 ++ ws)
  ∧ ∃ cs, cells_ st'.2 = cells_ st.2 ++ cs
          ∧ Forall (λ c, cell_type c ∈ sequence_cell_types) cs
          ∧ Z.of_nat (length (filter (λ c, cell_type c = "$dff") cs))
            = 2 * (seq_length st'.1 - seq_length st.1).

(** ** The map from a net to the net one level up *)

(** A net that is not brought up because its netlist is not referenced
    exactly once: the map has no entry for it, and its netlist and the
    references of the netlists are those of [st0], whose nets all exist
    in [st]. *)
Definition stays_down (net : N) (st0 st : ExtNets.state) : Prop :=
  ExtNets.net_level_up st.2 !! net = None
  ∧ ExtNets.net_Owner st.1 net = ExtNets.net_Owner st0.1 net
  ∧ ExtNets.GetReferences st.1 = ExtNets.GetReferences st0.1
  ∧ (ExtNets.next_net st0.1 ≤ ExtNets.next_net st.1)%N.

(** ** The ports, the nets and the buses of a netlist

    The loops of [import_netlist] that come before the instances: one wire
    for each port and for each port bus, one for each net that has none
    yet, one for each bus of nets with a net that has none yet, and the
    entry of [net_map] for each net. *)

(** What [import_attributes] reads of an object of the data base: its
    source location ([Linefile()], as file name and line number) and its
    attributes, in the order of [FOREACH_ATTRIBUTE]. *)
Record DesignObj : Type := mkObj {
  Linefile : option (string * Z);
  obj_atts : list (string * string)
}.

(** [obj->GetAttValue(key)] *)
Definition obj_GetAttValue (obj : DesignObj) (key : string) : option string :=
  match list_find (λ p, p.1 = key) (obj_atts obj) with
  | Some (_, (_, v)) => Some v
  | None => None
  end.

(** [attributes[key] = v] on a dictionary: the value of a key that is
    present is replaced, a new key is added. *)
Definition attr_set (key : string) (v : Const) (attributes : list (string * Const))
    : list (string * Const) :=
  if bool_decide (key ∈ attributes.*1)
  then map (λ kv, if bool_decide (kv.1 = key) then (key, v) else kv) attributes
  else attributes ++ [(key, v)].

(** [attributes.at(key)], [attributes.count(key)] *)
Definition attr_get (key : string) (attributes : list (string * Const)) : option Const :=
  match list_find (λ kv, kv.1 = key) attributes with
  | Some (_, (_, v)) => Some v
  | None => None
  end.

(** [import_attributes]: the source location goes to [\src], then every
    attribute is stored under its escaped key, its value as a string. *)
Definition import_attributes (attributes : list (string * Const)) (obj : DesignObj)
    : list (string * Const) :=
  let attributes :=
    match Linefile obj with
    | Some (file, line) =>
        attr_set "\src" (Const_string (file +:+ ":" +:+ pretty line)) attributes
    | None => attributes
    end in
  foldl (λ attributes att, attr_set (escape_id att.1) (Const_string att.2) attributes)
    attributes (obj_atts obj).

(** A port of the netlist.  [port_Bus] tells whether [port->Bus()] is
    set, [port_IndexOf] is [nl->IndexOf(port)]. *)
Record Port : Type := mkPort {
  port_Name : string;
  port_obj : DesignObj;
  port_Bus : bool;
  port_GetDir : ExtNets.direction;
  port_GetNet : option Net;
  port_IndexOf : Z
}.

Record PortBus : Type := mkPortBus {
  portbus_Name : string;
  portbus_obj : DesignObj;
  portbus_Size : Z;
  portbus_LeftIndex : Z;
  portbus_RightIndex : Z;
  portbus_IsUp : bool;
  portbus_GetDir : ExtNets.direction;
  portbus_ElementAtIndex : Z → option Port
}.

Record NetBus : Type := mkNetBus {
  netbus_Name : string;
  netbus_obj : DesignObj;
  netbus_Size : Z;
  netbus_LeftIndex : Z;
  netbus_RightIndex : Z;
  netbus_IsUp : bool;
  netbus_IsUserDeclared : bool;
  netbus_ElementAtIndex : Z → option Net
}.

(** A net as the loop over the nets reads it: the RAM it stands for when
    [net->IsRamNet()] (whose name is the name of the net), the text of
    [GetWideInitialValue()], whether the range of its type ascends
    ([GetOrigTypeRange()->LeftRangeBound() < ...->RightRangeBound()]), the
    character of [GetInitialValue()] (zero when there is none), whether
    [net->Bus()] is set. *)
Record NetlistNet : Type := mkNetlistNet {
  nn_net : Net;
  nn_obj : DesignObj;
  nn_IsRamNet : option RamNet;
  nn_GetWideInitialValue : option string;
  nn_ascending : bool;
  nn_GetInitialValue : ascii;
  nn_Bus : bool;
  nn_IsUserDeclared : bool
}.

(** The members of [RTLIL::Wire] that these loops set and the record
    [Wire] above does not have, kept by the name of the wire. *)
Record WirePorts : Type := mkWirePorts {
  port_id : Z;
  port_input : bool;
  port_output : bool;
  start_offset : Z
}.

(** The state of the loops: the importer with its module and [net_map],
    the port members of the wires, and the locals [init_nets],
    [anyconst_nets] and [anyseq_nets], keyed by the identity of the net. *)
Record netlist_state : Type := mkNetlistState {
  ns_imp : VerificImporter;
  ns_wire_ports : list (IdString * WirePorts);
  init_nets : gmap N (Net * ascii);
  anyconst_nets : gmap N Net;
  anyseq_nets : gmap N Net
}.

Definition with_imp (st : netlist_state) (imp : VerificImporter) : netlist_state :=
  mkNetlistState imp (ns_wire_ports st) (init_nets st) (anyconst_nets st) (anyseq_nets st).

Definition with_wire_ports (st : netlist_state) (nm : IdString) (p : WirePorts)
    : netlist_state :=
  mkNetlistState (ns_imp st) (ns_wire_ports st ++ [(nm, p)]) (init_nets st)
    (anyconst_nets st) (anyseq_nets st).

(** [net_map[net] = bit] *)
Definition set_net_map (imp : VerificImporter) (net : Net) (bit : SigBit) : VerificImporter :=
  mkImporter (module imp) (netlist imp) (<[net_id net := bit]> (net_map imp))
    (mode_gates imp) (mode_keep imp) (mode_nosva imp) (mode_nosvapp imp)
    (mode_names imp) (verbose imp).

Definition dir_is_input (d : ExtNets.direction) : bool :=
  match d with ExtNets.DIR_INOUT | ExtNets.DIR_IN => true | ExtNets.DIR_OUT => false end.

Definition dir_is_output (d : ExtNets.direction) : bool :=
  match d with ExtNets.DIR_INOUT | ExtNets.DIR_OUT => true | ExtNets.DIR_IN => false end.

(** The three cases for the net of a port or of an element of a port bus:
    a net without an entry in [net_map] gets the bit of the port; a net
    with an entry is driven by an input port, and drives any other. *)
Definition connect_port_bit (port_input : bool) (net : Net) (bit : SigBit)
    (imp : VerificImporter) : result VerificImporter :=
  match net_map imp !! net_id net with
  | None => Ok (set_net_map imp net bit)
  | Some _ =>
      b ← net_map_at imp (Some net);
      Ok (set_module imp
            (if port_input then connect [b] [bit] (module imp)
             else connect [bit] [b] (module imp)))
  end.

(** The body of [FOREACH_PORT_OF_NETLIST] *)
Definition import_port (port : Port) (st : netlist_state) : result netlist_state :=
  if port_Bus port then Ok st else
  let imp := ns_imp st in
  let '(wire, m) :=
    addWire_with (IdStr (escape_id (port_Name port))) 1
      (import_attributes [] (port_obj port)) (module imp) in
  let input := dir_is_input (port_GetDir port) in
  let output := dir_is_output (port_GetDir port) in
  let st := with_wire_ports st (wire_name wire)
              (mkWirePorts (port_IndexOf port + 1) input output 0) in
  let imp := set_module imp m in
  match port_GetNet port with
  | Some net =>
      imp ← connect_port_bit input net (Bit (wire_name wire) 0) imp;
      Ok (with_imp st imp)
  | None => Ok (with_imp st imp)
  end.

(** The loop over the indices of a bus,
    [for (int i = first;; i += step) { body; if (i == last) break; }],
    for at most [fuel] iterations; [None] when they do not suffice.  An
    increment that leaves the range of [int] is undefined behaviour. *)
Fixpoint bus_walk {St : Type} (fuel : nat) (i last step : Z)
    (body : Z → St → result St) (s : St) : option (result St) :=
  match fuel with
  | O => None
  | Datatypes.S fuel' =>
      match body i s with
      | Fail e => Some (Fail e)
      | Ok s' =>
          if bool_decide (i = last) then Some (Ok s')
          else if bool_decide (INT_MIN ≤ i + step ≤ INT_MAX)
               then bus_walk fuel' (i + step) last step body s'
               else Some (Fail undefined_behaviour)
      end
  end.

(** What follows a loop that may not end *)
Definition and_then {A B : Type} (x : option (result A)) (k : A → option (result B))
    : option (result B) :=
  match x with
  | None => None
  | Some (Fail e) => Some (Fail e)
  | Some (Ok a) => k a
  end.

(** The step of the loops: up from the left index of a bus that counts
    up, down otherwise. *)
Definition bus_step (is_up : bool) : Z := if is_up then 1 else -1.

(** The body of the loop over the indices of a port bus *)
Definition import_portbus_bit (portbus : PortBus) (wire : Wire) (offset : Z) (input : bool)
    (i : Z) (imp : VerificImporter) : result VerificImporter :=
  match portbus_ElementAtIndex portbus i with
  | Some element =>
      match port_GetNet element with
      | Some net => connect_port_bit input net (Bit (wire_name wire) (i - offset)) imp
      | None => Ok imp
      end
  | None => Ok imp
  end.

(** The body of [FOREACH_PORTBUS_OF_NETLIST] *)
Definition import_portbus (fuel : nat) (portbus : PortBus) (st : netlist_state)
    : option (result netlist_state) :=
  let imp := ns_imp st in
  let '(wire, m) :=
    addWire_with (IdStr (escape_id (portbus_Name portbus))) (portbus_Size portbus)
      (import_attributes [] (portbus_obj portbus)) (module imp) in
  let offset := Z.min (portbus_LeftIndex portbus) (portbus_RightIndex portbus) in
  let input := dir_is_input (portbus_GetDir portbus) in
  let output := dir_is_output (portbus_GetDir portbus) in
  let st := with_wire_ports st (wire_name wire) (mkWirePorts 0 input output offset) in
  and_then
    (bus_walk fuel (portbus_LeftIndex portbus) (portbus_RightIndex portbus)
       (bus_step (portbus_IsUp portbus))
       (import_portbus_bit portbus wire offset input) (set_module imp m))
    (λ imp, Some (Ok (with_imp st imp))).

(** The indices between [left] and [right], from [left] on: what the
    loop over a bus visits when the bus counts the way its bounds say. *)
Definition bus_indices (left right : Z) : list Z :=
  map (λ k, if bool_decide (left ≤ right) then left + Z.of_nat k else left - Z.of_nat k)
    (seq 0 (S (Z.to_nat (Z.abs (right - left))))).

(** The bus counts up exactly when its left index is not above its right
    index; both are values of [int]. *)
Definition bus_consistent (left right : Z) (is_up : bool) : Prop :=
  INT_MIN ≤ left ≤ INT_MAX ∧ INT_MIN ≤ right ≤ INT_MAX
  ∧ (left < right → is_up = true) ∧ (right < left → is_up = false).

(** What the loop over a port bus keeps, [done] being the indices it has
    visited and [imp0] the importer it started from: the wires stay; the
    entries of [net_map] stay; the net of every element visited has an
    entry; an entry that is new maps the net of an element visited to the
    bit of the wire at the index of the element; each connection that is
    new joins the bit of the wire at the index of an element visited with
    the signal [net_map] holds for the net of that element, on the side the
    direction of the bus tells; and every element visited whose net had an
    entry from the start has such a connection. *)
Definition portbus_inv (portbus : PortBus) (wire : IdString) (offset : Z) (input : bool)
    (imp0 : VerificImporter) (done : list Z) (imp : VerificImporter) : Prop :=
  wires_ (module imp) = wires_ (module imp0)
  ∧ (∀ k b, net_map imp0 !! k = Some b → net_map imp !! k = Some b)
  ∧ (∀ i e n, i ∈ done → portbus_ElementAtIndex portbus i = Some e →
       port_GetNet e = Some n → is_Some (net_map imp !! net_id n))
  ∧ (∀ k b, net_map imp !! k = Some b →
       net_map imp0 !! k = Some b
       ∨ ∃ j e n, j ∈ done ∧ portbus_ElementAtIndex portbus j = Some e
                  ∧ port_GetNet e = Some n ∧ net_id n = k ∧ b = Bit wire (j - offset))
  ∧ ∃ cs, connections_ (module imp) = connections_ (module imp0) ++ cs
          ∧ Forall (λ c, ∃ j e n b, j ∈ done
                           ∧ portbus_ElementAtIndex portbus j = Some e
                           ∧ port_GetNet e = Some n
                           ∧ net_map imp !! net_id n = Some b
                           ∧ c = if input then ([b], [Bit wire (j - offset)])
                                 else ([Bit wire (j - offset)], [b])) cs
          ∧ ∀ j e n b, j ∈ done → portbus_ElementAtIndex portbus j = Some e →
              port_GetNet e = Some n → net_map imp0 !! net_id n = Some b →
              (if input then ([b], [Bit wire (j - offset)])
               else ([Bit wire (j - offset)], [b])) ∈ cs.

(** [initval.bits.at(bitidx) = s]: [std::vector::at] throws outside the
    vector. *)
Definition Const_set (bitidx : Z) (s : State) (c : Const) : result Const :=
  if bool_decide (0 ≤ bitidx < Z.of_nat (length c))
  then Ok (<[Z.to_nat bitidx := s]> c)
  else Fail out_of_range.

(** [wire->attributes[key] = v] for the wire of the module called [nm]
    (the names of the wires of a module are distinct) *)
Definition set_wire_attribute (nm : IdString) (key : string) (v : Const) (m : Module)
    : Module :=
  mkModule (name m)
    (map (λ w, if bool_decide (wire_name w = nm)
               then mkWire (wire_name w) (wire_width w) (attr_set key v (wire_attributes w))
               else w) (wires_ m))
    (cells_ m) (connections_ m) (memories m) (autoidx m).

Section NetlistNets.

(** [module->uniquify(name)], [module->Anyconst(name, width)] and
    [module->Anyseq(name, width)] of the kernel *)
Variable uniquify : Module → IdString → IdString.
Variable Anyconst Anyseq : IdString → Z → Module → SigSpec * Module.

(** [module->uniquify(mode_names || obj->IsUserDeclared() ?
    RTLIL::escape_id(obj->Name()) : NEW_ID)] *)
Definition new_wire_name (imp : VerificImporter) (user_declared : bool) (nm : string)
    (m : Module) : IdString * Module :=
  let '(id, m) :=
    if mode_names imp || user_declared then (IdStr (escape_id nm), m) else NEW_ID m in
  (uniquify m id, m).

(** The body of [FOREACH_NET_OF_NETLIST] *)
Definition import_net (n : NetlistNet) (st : netlist_state) : result netlist_state :=
  let imp := ns_imp st in
  let net := nn_net n in
  match nn_IsRamNet n with
  | Some ram =>
      m ← import_ram_net ram (module imp);
      memory ← memories_at m (IdStr (escape_id (ram_Name ram)));
      m ← import_ram_init memory (nn_GetWideInitialValue n) (nn_ascending n) m;
      Ok (with_imp st (set_module imp m))
  | None =>
      let init :=
        if bool_decide (nn_GetInitialValue n ≠ Ascii.zero)
        then <[net_id net := (net, nn_GetInitialValue n)]> (init_nets st)
        else init_nets st in
      let rand_const_attr := obj_GetAttValue (nn_obj n) " rand_const" in
      let rand_attr := obj_GetAttValue (nn_obj n) " rand" in
      let '(anyconst, anyseq) :=
        if bool_decide (rand_const_attr = Some "1")
        then (<[net_id net := net]> (anyconst_nets st), anyseq_nets st)
        else if bool_decide (rand_attr = Some "1")
        then (anyconst_nets st, <[net_id net := net]> (anyseq_nets st))
        else (anyconst_nets st, anyseq_nets st) in
      match net_map imp !! net_id net with
      | Some _ => Ok (mkNetlistState imp (ns_wire_ports st) init anyconst anyseq)
      | None =>
          if nn_Bus n then Ok (mkNetlistState imp (ns_wire_ports st) init anyconst anyseq)
          else
            let '(wire_name, m) :=
              new_wire_name imp (nn_IsUserDeclared n) (net_Name net) (module imp) in
            let '(wire, m) :=
              addWire_with wire_name 1 (import_attributes [] (nn_obj n)) m in
            Ok (mkNetlistState
                  (set_net_map (set_module imp m) net (Bit (RTLIL.wire_name wire) 0))
                  (ns_wire_ports st) init anyconst anyseq)
      end
  end.

(** The first loop over a bus of nets: is there an element without an
    entry in [net_map]?  A missing element counts as one: [net_map.count]
    of the null pointer is 0, as no null pointer is ever entered. *)
Definition found_new_net_step (netbus : NetBus) (imp : VerificImporter) (i : Z)
    (found_new_net : bool) : result bool :=
  match netbus_ElementAtIndex netbus i with
  | Some net =>
      Ok (if bool_decide (net_map imp !! net_id net = None) then true else found_new_net)
  | None => Ok true
  end.

(** The state of the second loop: the importer, [init_nets], [initval]
    and [initval_valid] *)
Definition netbus_state : Type := VerificImporter * gmap N (Net * ascii) * Const * bool.

(** The body of the second loop *)
Definition import_netbus_bit (netbus : NetBus) (wire : Wire) (offset : Z) (i : Z)
    (s : netbus_state) : result netbus_state :=
  let '(imp, init, initval, initval_valid) := s in
  match netbus_ElementAtIndex netbus i with
  | None => Ok s
  | Some net =>
      let bitidx := i - offset in
      let bit := Bit (wire_name wire) bitidx in
      '(init, initval, initval_valid) ←
        match init !! net_id net with
        | Some (_, c) =>
            initval ← (if bool_decide (c = "0"%char)
                       then Const_set bitidx S0 initval else Ok initval);
            initval ← (if bool_decide (c = "1"%char)
                       then Const_set bitidx S1 initval else Ok initval);
            Ok (delete (net_id net) init, initval, true)
        | None => Ok (init, initval, initval_valid)
        end;
      match net_map imp !! net_id net with
      | None => Ok (set_net_map imp net bit, init, initval, initval_valid)
      | Some _ =>
          b ← net_map_at imp (Some net);
          Ok (set_module imp (connect [bit] [b] (module imp)), init, initval, initval_valid)
      end
  end.

(** The state of the third loop: [anyconst_sig], [anyseq_sig] and the two
    pools *)
Definition rand_state : Type := SigSpec * SigSpec * gmap N Net * gmap N Net.

(** One of the two tests of the third loop on an element of the bus *)
Definition take_rand_net (imp : VerificImporter) (net : Net) (sig : SigSpec)
    (pool : gmap N Net) : result (SigSpec * gmap N Net) :=
  match pool !! net_id net with
  | Some _ => b ← net_map_at imp (Some net); Ok (sig ++ [b], delete (net_id net) pool)
  | None => Ok (sig, pool)
  end.

(** The body of the third loop *)
Definition netbus_rand_step (netbus : NetBus) (imp : VerificImporter) (i : Z)
    (s : rand_state) : result rand_state :=
  let '(anyconst_sig, anyseq_sig, anyconst, anyseq) := s in
  match netbus_ElementAtIndex netbus i with
  | None => Ok s
  | Some net =>
      '(anyconst_sig, anyconst) ← take_rand_net imp net anyconst_sig anyconst;
      '(anyseq_sig, anyseq) ← take_rand_net imp net anyseq_sig anyseq;
      Ok (anyconst_sig, anyseq_sig, anyconst, anyseq)
  end.

(** [if (GetSize(sig)) module->connect(sig, module->Anyconst(NEW_ID,
    GetSize(sig)))], and the same with [Anyseq] *)
Definition connect_rand (make : IdString → Z → Module → SigSpec * Module) (sig : SigSpec)
    (m : Module) : Module :=
  if bool_decide (GetSize sig ≠ 0) then
    let '(id, m) := NEW_ID m in
    let '(y, m) := make id (GetSize sig) m in
    connect sig y m
  else m.

(** The wire of a bus with a new net, and the second loop *)
Definition import_netbus_wire (fuel : nat) (netbus : NetBus) (st : netlist_state)
    : option (result netlist_state) :=
  let imp := ns_imp st in
  let '(wire_name, m) :=
    new_wire_name imp (netbus_IsUserDeclared netbus) (netbus_Name netbus) (module imp) in
  let '(wire, m) :=
    addWire_with wire_name (netbus_Size netbus)
      (import_attributes [] (netbus_obj netbus)) m in
  let offset := Z.min (netbus_LeftIndex netbus) (netbus_RightIndex netbus) in
  let initval := replicate (Z.to_nat (wire_width wire)) Sx in
  and_then
    (bus_walk fuel (netbus_LeftIndex netbus) (netbus_RightIndex netbus)
       (bus_step (netbus_IsUp netbus)) (import_netbus_bit netbus wire offset)
       (set_module imp m, init_nets st, initval, false))
    (λ '(imp, init, initval, initval_valid),
       let imp :=
         if initval_valid
         then set_module imp
                (set_wire_attribute (RTLIL.wire_name wire) "\init" initval (module imp))
         else imp in
       Some (Ok (mkNetlistState imp
                   (ns_wire_ports st
                    ++ [(RTLIL.wire_name wire, mkWirePorts 0 false false offset)])
                   init (anyconst_nets st) (anyseq_nets st)))).

(** The third loop and what follows it *)
Definition import_netbus_rand (fuel : nat) (netbus : NetBus) (st : netlist_state)
    : option (result netlist_state) :=
  and_then
    (bus_walk fuel (netbus_RightIndex netbus) (netbus_LeftIndex netbus)
       (bus_step (negb (netbus_IsUp netbus))) (netbus_rand_step netbus (ns_imp st))
       ([], [], anyconst_nets st, anyseq_nets st))
    (λ '(anyconst_sig, anyseq_sig, anyconst, anyseq),
       let m := connect_rand Anyconst anyconst_sig (module (ns_imp st)) in
       let m := connect_rand Anyseq anyseq_sig m in
       Some (Ok (mkNetlistState (set_module (ns_imp st) m) (ns_wire_ports st)
                   (init_nets st) anyconst anyseq))).

(** The body of [FOREACH_NETBUS_OF_NETLIST] *)
Definition import_netbus (fuel : nat) (netbus : NetBus) (st : netlist_state)
    : option (result netlist_state) :=
  and_then
    (bus_walk fuel (netbus_LeftIndex netbus) (netbus_RightIndex netbus)
       (bus_step (netbus_IsUp netbus)) (found_new_net_step netbus (ns_imp st)) false)
    (λ found_new_net,
       and_then
         (if found_new_net then import_netbus_wire fuel netbus st else Some (Ok st))
         (import_netbus_rand fuel netbus)).

(** The two loops in a row: the nets, then the buses of nets *)
Fixpoint import_netbuses (fuel : nat) (netbuses : list NetBus) (st : netlist_state)
    : option (result netlist_state) :=
  match netbuses with
  | [] => Some (Ok st)
  | netbus :: netbuses' =>
      and_then (import_netbus fuel netbus st) (import_netbuses fuel netbuses')
  end.

Definition import_nets (fuel : nat) (nets : list NetlistNet) (netbuses : list NetBus)
    (st : netlist_state) : option (result netlist_state) :=
  and_then (Some (foldM import_net nets st)) (import_netbuses fuel netbuses).

End NetlistNets.

(** The test of the first loop over a bus of nets on the index [i] *)
Definition needs_wire (netbus : NetBus) (imp : VerificImporter) (i : Z) : bool :=
  match netbus_ElementAtIndex netbus i with
  | Some net => bool_decide (net_map imp !! net_id net = None)
  | None => true
  end.

(** What the second loop over a bus of nets keeps of [net_map], [done]
    being the indices it has visited and [imp0] the importer it started
    from: the wires stay; the entries stay; every element visited has an
    entry; an entry that is new maps an element visited to the bit of the
    wire at the index of the element. *)
Definition netbus_inv (netbus : NetBus) (wire : IdString) (offset : Z)
    (imp0 : VerificImporter) (done : list Z) (s : netbus_state) : Prop :=
  wires_ (module s.1.1.1) = wires_ (module imp0)
  ∧ net_map imp0 ⊆ net_map s.1.1.1
  ∧ (∀ i n, i ∈ done → netbus_ElementAtIndex netbus i = Some n →
       is_Some (net_map s.1.1.1 !! net_id n))
  ∧ (∀ k b, net_map s.1.1.1 !! k = Some b →
       net_map imp0 !! k = Some b
       ∨ ∃ j n, j ∈ done ∧ netbus_ElementAtIndex netbus j = Some n
                ∧ net_id n = k ∧ b = Bit wire (j - offset)).

(** The state the initial value of the net at the index [i] of a bus
    stands for: [0] and [1] are read, any other character, a net without
    an initial value and an index without a net leave the bit undefined. *)
Definition init_state (netbus : NetBus) (init : gmap N (Net * ascii)) (i : Z) : State :=
  match netbus_ElementAtIndex netbus i with
  | Some net =>
      match init !! net_id net with
      | Some (_, c) =>
          if bool_decide (c = "0"%char) then S0
          else if bool_decide (c = "1"%char) then S1 else Sx
      | None => Sx
      end
  | None => Sx
  end.

(** Has the net at the index [i] of the bus an initial value? *)
Definition has_init (netbus : NetBus) (init : gmap N (Net * ascii)) (i : Z) : bool :=
  match netbus_ElementAtIndex netbus i with
  | Some net => bool_decide (is_Some (init !! net_id net))
  | None => false
  end.

(** The initial value of a bus of [size] bits that starts at [offset],
    bit by bit *)
Definition bus_initval (netbus : NetBus) (init : gmap N (Net * ascii)) (offset : Z)
    (size : nat) : Const :=
  map (λ k, init_state netbus init (offset + Z.of_nat k)) (seq 0 size).

(** What the second loop over a bus of nets keeps of the initial values,
    [done] being the indices it has visited, [init0] the initial values
    it started from and [size] the width of the wire: the nets visited
    have left [init_nets] and the others are as they were; the bit of
    every index visited is set as [init_state] tells and the other bits
    are undefined; and [initval_valid] is set exactly when a net visited
    had an initial value. *)
Definition netbus_init_inv (netbus : NetBus) (offset : Z) (size : nat)
    (init0 : gmap N (Net * ascii)) (done : list Z) (s : netbus_state) : Prop :=
  length s.1.2 = size
  ∧ (∀ j n, j ∈ done → netbus_ElementAtIndex netbus j = Some n →
       s.1.1.2 !! net_id n = None)
  ∧ (∀ k, (∀ j n, j ∈ done → netbus_ElementAtIndex netbus j = Some n → net_id n ≠ k) →
       s.1.1.2 !! k = init0 !! k)
  ∧ (∀ j, j ∈ done → s.1.2 !! Z.to_nat (j - offset) = Some (init_state netbus init0 j))
  ∧ (∀ p, (p < size)%nat → (∀ j, j ∈ done → Z.to_nat (j - offset) ≠ p) →
       s.1.2 !! p = Some Sx)
  ∧ s.2 = existsb (has_init netbus init0) done.

(** ** The connections of the cell of an instance

    The loop over the port references of an instance that is imported as
    a cell of its own gathers, for each port of the cell, the vector of
    the bits connected to it. *)

(** A port reference: its port, the bus of the port ([GetPort()->Bus()],
    or null), the index of the port in that bus
    ([Bus()->IndexOf(GetPort())]) and its net. *)
Record PortRef : Type := mkPortRef {
  pr_GetPort : Port;
  pr_Bus : option PortBus;
  pr_IndexOf : Z;
  pr_GetNet : option Net
}.

(** [port_name_id] and [port_offset] of a port reference *)
Definition port_key (pr : PortRef) : string :=
  escape_id (match pr_Bus pr with
             | Some bus => portbus_Name bus
             | None => port_Name (pr_GetPort pr)
             end).

Definition port_offset (pr : PortRef) : Z :=
  match pr_Bus pr with
  | Some bus => pr_IndexOf pr - Z.min (portbus_LeftIndex bus) (portbus_RightIndex bus)
  | None => 0
  end.

(** The state of the loop: [cell_port_conns], keyed by the escaped name of
    the port, and the module *)
Definition conns_state : Type := gmap string (list SigBit) * Module.

(** The body of [FOREACH_PORTREF_OF_INST]: the vector of the port (a new
    empty one for a port not seen yet) is extended by the bits of a new
    wire when it is too short, then the bit of the net is stored.  A
    negative index into the vector is undefined behaviour. *)
Definition port_conn_step (imp : VerificImporter) (pr : PortRef) (s : conns_state)
    : result conns_state :=
  let '(cell_port_conns, m) := s in
  let sigvec := default [] (cell_port_conns !! port_key pr) in
  let '(sigvec, m) :=
    if bool_decide (GetSize sigvec ≤ port_offset pr) then
      let '(id, m) := NEW_ID m in
      let '(zwires, m) := addWire id (port_offset pr + 1 - GetSize sigvec) m in
      (sigvec ++ wire_bits (wire_name zwires) (wire_width zwires), m)
    else (sigvec, m) in
  b ← net_map_at imp (pr_GetNet pr);
  if bool_decide (port_offset pr < 0) then Fail undefined_behaviour
  else Ok (<[port_key pr := <[Z.to_nat (port_offset pr) := b]> sigvec]> cell_port_conns, m).

Definition cell_port_conns (imp : VerificImporter) (prs : list PortRef) (m : Module)
    : result conns_state :=
  foldM (port_conn_step imp) prs (∅, m).

(** The port references among [done] that store into the position [o] of
    the vector of the port [key] *)
Definition writers (done : list PortRef) (key : string) (o : nat) : list PortRef :=
  filter (λ pr, port_key pr = key ∧ Z.to_nat (port_offset pr) = o) done.

(** What the loop keeps, [done] being the port references it has visited
    and [m] the module it started from: the module has only gained wires
    under private names, at most one for each reference; a port has a
    vector exactly when a reference names it; the vector reaches just
    beyond the greatest offset of the references to its port; and each of
    its bits is the bit of the net of the last reference that stored into
    its position, or a bit of a new wire where none did. *)
Definition conns_inv (imp : VerificImporter) (m : Module) (done : list PortRef)
    (s : conns_state) : Prop :=
  name s.2 = name m ∧ cells_ s.2 = cells_ m ∧ connections_ s.2 = connections_ m
  ∧ memories s.2 = memories m ∧ autoidx m ≤ autoidx s.2
  ∧ (∃ ws, wires_ s.2 = wires_ m ++ ws ∧ (length ws ≤ length done)%nat
           ∧ Forall (λ w, made_between m s.2 (wire_name w)) ws)
  ∧ (∀ key, s.1 !! key = None ↔ ∀ pr, pr ∈ done → port_key pr ≠ key)
  ∧ ∀ key vec, s.1 !! key = Some vec →
      (∀ pr, pr ∈ done → port_key pr = key → 0 ≤ port_offset pr < GetSize vec)
      ∧ (∃ pr, pr ∈ done ∧ port_key pr = key ∧ GetSize vec = port_offset pr + 1)
      ∧ ∀ o b, vec !! o = Some b →
          match last (writers done key o) with
          | Some pr => net_map_at imp (pr_GetNet pr) = Ok b
          | None => ∃ id off, b = Bit id off ∧ made_between m s.2 id
          end.

(** The wire of a port that is not in a bus, and the port members of
    that wire *)
Definition port_wire (port : Port) : Wire :=
  mkWire (IdStr (escape_id (port_Name port))) 1 (import_attributes [] (port_obj port)).

Definition port_members (port : Port) : IdString * WirePorts :=
  (IdStr (escape_id (port_Name port)),
   mkWirePorts (port_IndexOf port + 1) (dir_is_input (port_GetDir port))
     (dir_is_output (port_GetDir port)) 0).

(** The ports among [ports] that are not in a bus *)
Definition plain_ports (ports : list Port) : list Port :=
  filter (λ port, port_Bus port = false) ports.

(** The connection of the wire of [port] with the signal [b]:
    [module->connect(b, wire)] for an input port,
    [module->connect(wire, b)] for any other *)
Definition port_connection (port : Port) (b : SigBit) : SigSpec * SigSpec :=
  if dir_is_input (port_GetDir port)
  then ([b], [Bit (wire_name (port_wire port)) 0])
  else ([Bit (wire_name (port_wire port)) 0], [b]).

(** What the loop over the ports keeps, [done] being the ports it has
    visited and [st0] the state it started from: a wire and its port
    members for each port that is not in a bus, in the order of the ports;
    the entries of [net_map] stay; the net of each such port has an entry;
    an entry that is new maps the net of such a port to the bit of its
    wire; a connection that is new joins the wire of such a port with the
    signal [net_map] holds for the net of the port, on the side its
    direction tells; and every such port whose net had an entry from the
    start has that connection. *)
Definition ports_inv (st0 : netlist_state) (done : list Port) (st : netlist_state) : Prop :=
  wires_ (module (ns_imp st))
  = wires_ (module (ns_imp st0)) ++ map port_wire (plain_ports done)
  ∧ ns_wire_ports st = ns_wire_ports st0 ++ map port_members (plain_ports done)
  ∧ net_map (ns_imp st0) ⊆ net_map (ns_imp st)
  ∧ (∀ port n, port ∈ plain_ports done → port_GetNet port = Some n →
       is_Some (net_map (ns_imp st) !! net_id n))
  ∧ (∀ k b, net_map (ns_imp st) !! k = Some b →
       net_map (ns_imp st0) !! k = Some b
       ∨ ∃ port n, port ∈ plain_ports done ∧ port_GetNet port = Some n ∧ net_id n = k
                   ∧ b = Bit (wire_name (port_wire port)) 0)
  ∧ ∃ cs, connections_ (module (ns_imp st)) = connections_ (module (ns_imp st0)) ++ cs
          ∧ Forall (λ c, ∃ port n b, port ∈ plain_ports done
                           ∧ port_GetNet port = Some n
                           ∧ net_map (ns_imp st) !! net_id n = Some b
                           ∧ c = port_connection port b) cs
          ∧ ∀ port n b, port ∈ plain_ports done → port_GetNet port = Some n →
              net_map (ns_imp st0) !! net_id n = Some b → port_connection port b ∈ cs.

(** ** The initial values that are left when the buses are done *)

(** The wire a bit points to: the wire of the module under its name *)
Definition wire_named (m : Module) (nm : IdString) : option Wire :=
  match list_find (λ w, wire_name w = nm) (wires_ m) with
  | Some (_, w) => Some w
  | None => None
  end.

(** The state a character of an initial value stands for, if any *)
Definition init_char_state (c : ascii) : option State :=
  if bool_decide (c = "0"%char) then Some S0
  else if bool_decide (c = "1"%char) then Some S1 else None.

(** The body of [for (auto it : init_nets)]: the initial value of the
    wire of the net, as it is or empty, is filled up with undefined bits to
    the width of the wire, the bit of the net is set when the character is
    [0] or [1], and the value becomes the attribute [\init] of the wire.
    A bit that is a constant fails the assertion. *)
Definition import_init_net (it : Net * ascii) (imp : VerificImporter)
    : result VerificImporter :=
  let '(net, c) := it in
  bit ← net_map_at imp (Some net);
  match bit with
  | Cst _ => Fail log_assert_failed
  | Bit nm offset =>
      match wire_named (module imp) nm with
      | None => Fail undefined_behaviour
      | Some wire =>
          let initval := default [] (attr_get "\init" (wire_attributes wire)) in
          let initval :=
            initval ++ replicate (Z.to_nat (wire_width wire) - length initval) Sx in
          initval ← (if bool_decide (c = "0"%char)
                     then Const_set offset S0 initval else Ok initval);
          initval ← (if bool_decide (c = "1"%char)
                     then Const_set offset S1 initval else Ok initval);
          Ok (set_module imp (set_wire_attribute nm "\init" initval (module imp)))
      end
  end.

(** The bit [offset] of the initial value of the wire [nm] is [s]. *)
Definition init_bit (m : Module) (nm : IdString) (offset : Z) (s : State) : Prop :=
  ∃ wire initval,
    wire_named m nm = Some wire
    ∧ attr_get "\init" (wire_attributes wire) = Some initval
    ∧ wire_width wire ≤ Z.of_nat (length initval)
    ∧ 0 ≤ offset ∧ initval !! Z.to_nat offset = Some s.

(** ** The word-level operators

    The branches of [import_netlist_instance_cells] that follow the
    primitives.  Arguments of a call are taken from left to right; a run
    that ends well does not depend on their order, as only
    [operatorOutput] changes the module. *)

(** Modelled from the spec: the builder methods of [RTLIL::Module] for the
    cells with two inputs and with one input, of which [addAnd], [addAdd]
    and [addNot] above are instances; [is_signed] is their last argument. *)
Definition addBinary (ty : string) (nm : IdString) (a b y : SigSpec) (is_signed : bool) :=
  addCell nm ty (binary_params is_signed a b y) [("\A", a); ("\B", b); ("\Y", y)].

Definition addUnary (ty : string) (nm : IdString) (a y : SigSpec) (is_signed : bool) :=
  addCell nm ty (unary_params is_signed a y) [("\A", a); ("\Y", y)].

(** [SigSpec::is_fully_const] and [SigSpec::as_bool] *)
Definition sig_is_fully_const (sig : SigSpec) : bool :=
  forallb (λ b, match b with Cst _ => true | Bit _ _ => false end) sig.

Definition sig_as_bool (sig : SigSpec) : bool :=
  existsb (λ b, match b with Cst S1 => true | _ => false end) sig.

(** What [operatorInport] finds under a port name in the view of the
    instance: a port bus, with the nets of the instance on its elements in
    the order of their positions ([inst->GetNet(portbus->ElementAtIndex(i))],
    [i] below [Size()]); a port with its net; or nothing. *)
Inductive Inport : Type :=
| InportBus (nets : list (option Net))
| InportPort (net : option Net)
| InportMissing.

(** The bit of an element of the bus: the constants for ground and power,
    high impedance where there is no net *)
Definition inport_bit (imp : VerificImporter) (net : option Net) : result SigBit :=
  match net with
  | Some n =>
      if IsGnd n then Ok (Cst S0)
      else if IsPwr n then Ok (Cst S1)
      else net_map_at imp (Some n)
  | None => Ok (Cst Sz)
  end.

(** [operatorInport] *)
Definition operatorInport (imp : VerificImporter) (p : Inport) : result SigSpec :=
  match p with
  | InportBus nets => foldM (λ net sig, b ← inport_bit imp net; Ok (sig ++ [b])) nets []
  | InportPort net => b ← net_map_at imp net; Ok [b]
  | InportMissing => Fail log_assert_failed
  end.

(** The pins of an operator by their indices ([InputBits !! i] is
    [inst->GetInputBit(i)], and so on), whether its view is signed, and
    what its view has under the port names [set] and [reset]. *)
Record OperatorPins : Type := mkOperatorPins {
  IsSigned : bool;
  InputBits : list (option Net);
  Input1Bits : list (option Net);
  Input2Bits : list (option Net);
  OutputBits : list (option Net);
  set_inport : Inport;
  reset_inport : Inport
}.

(** [net->IsPwr()] on a pointer that may be null *)
Definition net_IsPwr (net : option Net) : result bool :=
  match net with
  | Some n => Ok (IsPwr n)
  | None => Fail undefined_behaviour
  end.

(** The vector of the decoders: one bit, then a zero for each further
    output ([for (unsigned i = 1; i < inst->OutputSize(); i++)]) *)
Definition decoder_vec (first : SigBit) (output_size : Z) : SigSpec :=
  first :: replicate (Z.to_nat (output_size - 1)) (Cst S0).

(** The branches from [OPER_ADDER] to [OPER_WIDE_DFFRS]; the last line is
    [return false]. *)
Definition import_operator_cells (pins : OperatorPins) (imp : VerificImporter)
    (inst : Instance) (inst_name : IdString) : result (bool * VerificImporter) :=
  let at_ := net_map_at imp in
  let IN := operatorInput imp (InputBits pins) in
  let IN1 := operatorInput imp (Input1Bits pins) in
  let IN2 := operatorInput imp (Input2Bits pins) in
  let OUT := operatorOutput imp (OutputBits pins) in
  let SIGNED := IsSigned pins in
  let binary (ty : string) (is_signed : bool) : result (bool * VerificImporter) :=
    a ← IN1; b ← IN2; '(y, m) ← OUT;
    Ok (true, set_module imp (addBinary ty inst_name a b y is_signed m).2) in
  let unary (ty : string) : result (bool * VerificImporter) :=
    a ← IN; '(y, m) ← OUT;
    Ok (true, set_module imp (addUnary ty inst_name a y SIGNED m).2) in
  let reduce (ty : string) : result (bool * VerificImporter) :=
    a ← IN; y ← at_ (GetOutput inst);
    Ok (true, set_module imp (addUnary ty inst_name a [y] SIGNED (module imp)).2) in
  let compare (ty : string) : result (bool * VerificImporter) :=
    a ← IN1; b ← IN2; y ← at_ (GetOutput inst);
    Ok (true, set_module imp (addBinary ty inst_name a b [y] SIGNED (module imp)).2) in
  let decoder (first : SigBit) : result (bool * VerificImporter) :=
    let vec := decoder_vec first (OutputSize inst) in
    b ← IN; '(y, m) ← OUT;
    Ok (true, set_module imp (addBinary "$shl" inst_name vec b y false m).2) in
  match Type_ inst with
  | OPER_ADDER =>
      '(out, m) ← OUT;
      out ← match GetCout inst with
            | Some n => c ← at_ (Some n); Ok (out ++ [c])
            | None => Ok out
            end;
      cin_gnd ← net_IsGnd (GetCin inst);
      if (cin_gnd : bool) then
        a ← IN1; b ← IN2;
        Ok (true, set_module imp (addBinary "$add" inst_name a b out SIGNED m).2)
      else
        let '(tmp, m) := new_wire (GetSize out) m in
        let '(id, m) := NEW_ID m in
        a ← IN1; b ← IN2;
        let m := (addBinary "$add" id a b tmp SIGNED m).2 in
        c ← at_ (GetCin inst);
        Ok (true, set_module imp (addBinary "$add" inst_name tmp [c] out false m).2)
  | OPER_MULTIPLIER => binary "$mul" SIGNED
  | OPER_DIVIDER => binary "$div" SIGNED
  | OPER_MODULO => binary "$mod" SIGNED
  | OPER_REMAINDER => binary "$mod" SIGNED
  | OPER_SHIFT_LEFT => binary "$shl" false
  | OPER_ENABLED_DECODER => first ← at_ (GetControl inst); decoder first
  | OPER_DECODER => decoder (Cst S1)
  | OPER_SHIFT_RIGHT =>
      cin_gnd ← net_IsGnd (GetCin inst);
      if (cin_gnd : bool) then binary "$shr" false
      else if same_net (GetCin inst) (default None (Input1Bits pins !! 0%nat))
      then binary "$sshr" true
      else Fail (log_error "Can't import Verific OPER_SHIFT_RIGHT instance %s: carry_in is neither 0 nor msb of left input")
  | OPER_REDUCE_AND => reduce "$reduce_and"
  | OPER_REDUCE_OR => reduce "$reduce_or"
  | OPER_REDUCE_XOR => reduce "$reduce_xor"
  | OPER_REDUCE_XNOR => reduce "$reduce_xnor"
  | OPER_LESSTHAN =>
      cin_gnd ← net_IsGnd (GetCin inst);
      if (cin_gnd : bool) then compare "$lt"
      else
        cin_pwr ← net_IsPwr (GetCin inst);
        if (cin_pwr : bool) then compare "$le"
        else Fail (log_error "Can't import Verific OPER_LESSTHAN instance %s: carry_in is neither 0 nor 1")
  | OPER_WIDE_AND => binary "$and" SIGNED
  | OPER_WIDE_OR => binary "$or" SIGNED
  | OPER_WIDE_XOR => binary "$xor" SIGNED
  | OPER_WIDE_XNOR => binary "$xnor" SIGNED
  | OPER_WIDE_BUF => unary "$pos"
  | OPER_WIDE_INV => unary "$not"
  | OPER_MINUS => binary "$sub" SIGNED
  | OPER_UMINUS => unary "$neg"
  | OPER_EQUAL => compare "$eq"
  | OPER_NEQUAL => compare "$ne"
  | OPER_WIDE_MUX =>
      a ← IN1; b ← IN2; s ← at_ (GetControl inst); '(y, m) ← OUT;
      Ok (true, set_module imp (addMux inst_name a b [s] y m).2)
  | OPER_WIDE_TRI =>
      b ← IN; s ← at_ (GetControl inst); '(y, m) ← OUT;
      Ok (true, set_module imp
                  (addMux inst_name (replicate (Z.to_nat (OutputSize inst)) (Cst Sz))
                     b [s] y m).2)
  | OPER_WIDE_DFFRS =>
      sig_set ← operatorInport imp (set_inport pins);
      sig_reset ← operatorInport imp (reset_inport pins);
      if sig_is_fully_const sig_set && negb (sig_as_bool sig_set)
         && sig_is_fully_const sig_reset && negb (sig_as_bool sig_reset)
      then
        clk ← at_ (GetClock inst); d ← IN; '(q, m) ← OUT;
        Ok (true, set_module imp (addDff inst_name [clk] d q true m).2)
      else
        clk ← at_ (GetClock inst); d ← IN; '(q, m) ← OUT;
        Ok (true, set_module imp (addDffsr inst_name [clk] sig_set sig_reset d q m).2)
  | _ => Ok (false, imp)
  end.

(** The cell types of the word-level operators *)
Definition operator_types : list string :=
  ["$add"; "$mul"; "$div"; "$mod"; "$shl"; "$shr"; "$sshr"; "$reduce_and"; "$reduce_or";
   "$reduce_xor"; "$reduce_xnor"; "$lt"; "$le"; "$and"; "$or"; "$xor"; "$xnor"; "$pos";
   "$not"; "$sub"; "$neg"; "$eq"; "$ne"; "$mux"; "$dff"; "$dffsr"].

(** The kinds that [import_operator_cells] has a branch for *)
Definition is_operator_cell (t : prim_type) : bool :=
  match t with
  | OPER_ADDER | OPER_MULTIPLIER | OPER_DIVIDER | OPER_MODULO | OPER_REMAINDER
  | OPER_SHIFT_LEFT | OPER_ENABLED_DECODER | OPER_DECODER | OPER_SHIFT_RIGHT
  | OPER_REDUCE_AND | OPER_REDUCE_OR | OPER_REDUCE_XOR | OPER_REDUCE_XNOR
  | OPER_LESSTHAN | OPER_WIDE_AND | OPER_WIDE_OR | OPER_WIDE_XOR | OPER_WIDE_XNOR
  | OPER_WIDE_BUF | OPER_WIDE_INV | OPER_MINUS | OPER_UMINUS | OPER_EQUAL
  | OPER_NEQUAL | OPER_WIDE_MUX | OPER_WIDE_TRI | OPER_WIDE_DFFRS => true
  | _ => false
  end.

(** From [m] to [m'] the module has gained wires under private names and
    nothing else. *)
Definition only_wires_added (m m' : Module) : Prop :=
  name m' = name m ∧ cells_ m' = cells_ m ∧ connections_ m' = connections_ m
  ∧ memories m' = memories m ∧ autoidx m ≤ autoidx m'
  ∧ ∃ ws, wires_ m' = wires_ m ++ ws
          ∧ Forall (λ w, made_between m m' (wire_name w)) ws.

(** The cells a branch for an operator of kind [t] has added from [m] to
    [m']: one cell, under the name of the instance; or, for an adder, two
    [$add] cells, the first under a private name and the second under the
    name of the instance. *)
Definition cells_of_operator (t : prim_type) (inst_name : IdString) (m m' : Module) : Prop :=
  ∃ c, cell_name c = inst_name
       ∧ (cells_ m' = cells_ m ++ [c]
          ∨ t = OPER_ADDER
            ∧ ∃ c0, cells_ m' = cells_ m ++ [c0; c]
                    ∧ made_between m m' (cell_name c0)
                    ∧ cell_type c0 = "$add" ∧ cell_type c = "$add").

(** ** The registers of [$past] and [prev()]

    The two blocks of the loop over the instances that make the registers
    of the past-value operators and enter them into [past_ffs], the
    candidates of the register coalescer. *)

(** [clock_edge.clock_sig] and [clock_edge.posedge]; they are
    indeterminate when the constructor has assigned no member. *)
Definition clock_edge_members (e : VerificClockEdge) : result (SigBit * bool) :=
  match e with
  | ClockEdge _ clock_sig posedge => Ok (clock_sig, posedge)
  | ClockEdge_unassigned => Fail undefined_behaviour
  end.

Section PastRegisters.

(** [net->IsConstant()], and the pins of an instance by their indices *)
Variable IsConstant : Net → bool.
Variable pins_of : Instance → OperatorPins.

(** The loop [for (int i = 0; i < int(inst->InputSize()); i++)] of the
    block for [OPER_PSLPREV], with [n] bits to go from the index [i] *)
Fixpoint pslprev_bits (imp : VerificImporter) (pins : OperatorPins) (n : nat) (i : nat)
    (sig_d sig_q : SigSpec) : result (SigSpec * SigSpec) :=
  match n with
  | O => Ok (sig_d, sig_q)
  | S n' =>
      d ← net_map_at imp (default None (InputBits pins !! i));
      q ← net_map_at imp (default None (OutputBits pins !! i));
      pslprev_bits imp pins n' (S i) (sig_d ++ [d]) (sig_q ++ [q])
  end.

(** The blocks [if (inst->Type() == PRIM_SVA_PAST && !mode_nosva)] and
    [if (inst->Type() == OPER_PSLPREV && !mode_nosva)]: the module and
    [past_ffs] after them. *)
Definition past_step (inst : Instance) (s : VerificImporter * list Cell)
    : result (VerificImporter * list Cell) :=
  let '(imp, past_ffs) := s in
  if mode_nosva imp then Ok s else
  match Type_ inst with
  | PRIM_SVA_PAST =>
      driver ← match GetInput2 inst with
               | Some n => Ok (Driver n)
               | None => Fail undefined_behaviour
               end;
      clock_edge ← VerificClockEdge_new imp driver;
      sig_d ← net_map_at imp (GetInput1 inst);
      sig_q ← net_map_at imp (GetOutput inst);
      '(clock_sig, posedge) ← clock_edge_members clock_edge;
      let '(id, m) := NEW_ID (module imp) in
      let '(ff, m) := addDff id [clock_sig] [sig_d] [sig_q] posedge m in
      Ok (set_module imp m, past_ffs ++ [ff])
  | OPER_PSLPREV =>
      match GetClock inst with
      | None => Fail undefined_behaviour
      | Some clock =>
          if IsConstant clock then Ok s
          else
            clock_edge ← VerificClockEdge_new imp (Driver clock);
            '(sig_d, sig_q) ←
              pslprev_bits imp (pins_of inst) (Z.to_nat (InputSize inst)) 0 [] [];
            '(clock_sig, posedge) ← clock_edge_members clock_edge;
            let '(id, m) := NEW_ID (module imp) in
            let '(ff, m) := addDff id [clock_sig] sig_d sig_q posedge m in
            Ok (set_module imp m,
                if bool_decide (InputSize inst = 1) then past_ffs ++ [ff] else past_ffs)
      end
  | _ => Ok s
  end.

End PastRegisters.

(** A register the coalescer can take: a [$dff] cell of one bit whose
    clock, input and output can be read. *)
Definition past_candidate (c : Cell) : Prop :=
  cell_type c = "$dff"
  ∧ (∃ d, getPort c "\D" = Ok [d])
  ∧ (∃ q, ff_Q c = Ok q)
  ∧ (∃ clock pol, ff_clock c = Ok (clock, pol))
  ∧ getParam c "\WIDTH" = Ok (Const_int 1 32).

(** What the loop over the instances keeps of [past_ffs]: its registers
    are cells of the module with distinct private names below the counter,
    and the coalescer can take each. *)
Definition past_inv (s : VerificImporter * list Cell) : Prop :=
  NoDup (cell_name <$> s.2)
  ∧ Forall (λ c, c ∈ cells_ (module s.1)
                 ∧ (∃ k, cell_name c = NewId k ∧ k < autoidx (module s.1))
                 ∧ past_candidate c) s.2.

(** ** The cells of the memory ports

    What follows the width check in the cases [OPER_READ_PORT] and
    [OPER_WRITE_PORT], [OPER_CLOCKED_WRITE_PORT] of the loop over the
    instances.  A parameter or a port that is assigned twice holds the
    second value in the place of the first. *)

Section MemoryCells.

Variable pins_of : Instance → OperatorPins.



End MemoryCells.
(** ** Sample data

    A netlist (number 1) with a few nets, each mapped to bit 0 of a wire of
    its own, used to run the definitions on concrete inputs. *)

Module Sample.

Definition net (id : N) (nm : string) : Net := plain_net id nm 1.

Definition gnd_net (id : N) (nm : string) : Net := mkNet id nm 1 false true false None.

Definition clk := net 1 "clk".
Definition gnd := gnd_net 2 "gnd".
Definition rst := net 3 "rst".
Definition d := net 4 "d".
Definition q := net 5 "q".
Definition sig := net 6 "sig".
Definition sig2 := net 7 "sig2".
Definition nclk_id : N := 8.

Definition wire_of (n : Net) : SigBit := Bit (IdStr (escape_id (net_Name n))) 0.

Definition nets : list Net := [clk; gnd; rst; d; q; sig; sig2].

Definition imp : VerificImporter :=
  mkImporter (new_Module (IdStr "\top") 1) 1
    (list_to_map (map (λ n, (net_id n, wire_of n)) nets))
    false false false false false false.

(** A flip-flop primitive with its set input tied to zero. *)
Definition dffrs : Instance :=
  mkInstance PRIM_DFFRS "ff" "" true [] 1 0 1
    (Some d) None None None None (Some clk) (Some gnd) (Some rst) None (Some q) None.

(** [posedge clk], and [posedge] of an inverted clock. *)
Definition posedge_clk : Instance := unary_instance PRIM_SVA_POSEDGE "ev" clk.

Definition not_clk : Net :=
  driven_net nclk_id "nclk" 1 (unary_instance PRIM_INV "inv" clk).

Definition posedge_not_clk : Instance := unary_instance PRIM_SVA_POSEDGE "ev" not_clk.

(** A RAM of 32 bits with a read port of width 8 and a write port of
    width 4. *)
Definition ram_net_ref : Net := net 20 "mem".

Definition read_port : Instance :=
  mkInstance OPER_READ_PORT "rd" "" false [] 3 0 8
    (Some ram_net_ref) None None None None None None None None None None.

Definition write_port : Instance :=
  mkInstance OPER_WRITE_PORT "wr" "" false [] 3 4 0
    None None None None None None None None None (Some ram_net_ref) None.

Definition ram : RamNet := mkRamNet "mem" 32 [read_port; write_port].






(** A worker clocked on the rising edge of [clk], no disable condition,
    asserting. *)
Definition worker : VerificSvaImporter :=
  mkSvaImporter imp (bare_instance PRIM_SVA_ASSERT "a1") (wire_of clk) true (Cst S0)
    true false false.

Definition start : sva_state := (sequence_t_default, module imp).

(** [sig |=> sig2] *)
Definition impl_net : Net :=
  driven_net 9 "impl" 1
    (binary_instance PRIM_SVA_NON_OVERLAPPED_IMPLICATION "impl" [] sig sig2).

(** [sig ##2 sig2] *)
Definition concat2_net : Net :=
  driven_net 10 "cat" 1
    (binary_instance PRIM_SVA_SEQ_CONCAT "cat" [("sva:low", "2"); ("sva:high", "2")] sig sig2).

(** [sig ##[1:3] sig2], a delay range *)
Definition concat_range_net : Net :=
  driven_net 11 "cat" 1
    (binary_instance PRIM_SVA_SEQ_CONCAT "cat" [("sva:low", "1"); ("sva:high", "3")] sig sig2).

(** [sig [*2:4]], a repetition range *)
Definition repeat_range_net : Net :=
  driven_net 12 "rep" 1
    (mkInstance PRIM_SVA_CONSECUTIVE_REPEAT "rep" "" false
       [("sva:low", "2"); ("sva:high", "4")] 1 0 1
       (Some sig) None None None None None None None None None None).

(** [uniquify] on names that are free *)
Definition uniquify (_ : Module) (nm : IdString) : IdString := nm.

(** A data base of two netlists: the design [top] (number 1), which
    instantiates the operator [add_8] (number 2) twice. *)
Definition netlist_at (nl : N) : Netlist :=
  if N.eqb nl 1 then mkNetlist "top" false false else mkNetlist "add_8" true false.

Definition import_body (imp : VerificImporter) (nl : N) : result (RTLIL.Module * list N) :=
  Ok (module imp, if N.eqb nl 1 then [2; 2]%N else []).

Definition import_start : import_state := mkImportState [] {[1%N]} ∅.

(** A design that already holds modules of the two names. *)
Definition full_design : Design :=
  [(IdStr "\top", new_Module (IdStr "\top") 1);
   (IdStr "$verific$add_8", new_Module (IdStr "$verific$add_8") 1)].

(** A hierarchy for the external-net resolver: the netlist [top] (1)
    holds the instance 10 of [mid] (2) and the instances 12 and 13 of
    [twice] (4); [mid] holds the instance 11 of [leaf] (3).  Net 100 lives
    in [leaf], net 101 in [twice]; instance 14 of [top] refers to both. *)
Definition ext_db : ExtNets.Db :=
  ExtNets.mkDb
    (λ n, if N.eqb n 100 then 3 else if N.eqb n 101 then 4 else 1)%N
    (λ _, "n")
    (λ _, [])
    (λ nl, if N.eqb nl 2 then [10] else if N.eqb nl 3 then [11]
           else if N.eqb nl 4 then [12; 13] else [])%N
    (λ nl, if N.eqb nl 1 then [10; 12; 13; 14] else if N.eqb nl 2 then [11] else [])%N
    (λ _, [])
    (λ i, if N.eqb i 11 then 2 else 1)%N
    (λ i, if N.eqb i 10 then 2 else if N.eqb i 11 then 3 else 4)%N
    (λ i, if N.eqb i 14 then [("a", 100); ("b", 101)] else [])%N
    200%N.

Definition ext_start : ExtNets.state := (ext_db, ExtNets.mkExtNets 0 ∅).

(** The same hierarchy with the instance 14 of [top] as the one instance
    of a cell of its own (5), and the rank of each netlist in it. *)
Definition run_db : ExtNets.Db :=
  ExtNets.mkDb
    (λ n, if N.eqb n 100 then 3 else if N.eqb n 101 then 4 else 1)%N
    (λ _, "n")
    (λ _, [])
    (λ nl, if N.eqb nl 2 then [10] else if N.eqb nl 3 then [11]
           else if N.eqb nl 4 then [12; 13] else if N.eqb nl 5 then [14] else [])%N
    (λ nl, if N.eqb nl 1 then [10; 12; 13; 14] else if N.eqb nl 2 then [11] else [])%N
    (λ _, [])
    (λ i, if N.eqb i 11 then 2 else 1)%N
    (λ i, if N.eqb i 10 then 2 else if N.eqb i 11 then 3
          else if N.eqb i 14 then 5 else 4)%N
    (λ i, if N.eqb i 14 then [("a", 100); ("b", 101)] else [])%N
    200%N.

Definition run_start : ExtNets.state := (run_db, ExtNets.mkExtNets 0 ∅).

Definition run_rank (nl : N) : nat :=
  if N.eqb nl 1 then 3%nat else if N.eqb nl 2 then 2%nat else 1%nat.

(** A cover property for the preprocessor: the cover statement (instance
    1) reads net 50, which a non-overlapped implication (instance 2)
    drives from the nets 51 and 52. *)
Definition pp_graph : SvaPP.Graph :=
  SvaPP.mkGraph
    (λ i, if N.eqb i 1 then PRIM_SVA_COVER else PRIM_SVA_NON_OVERLAPPED_IMPLICATION)
    (λ i, if N.eqb i 1 then Some 50%N else None)
    (λ i, if N.eqb i 2 then Some 51%N else None)
    (λ i, if N.eqb i 2 then Some 52%N else None)
    (λ n, if N.eqb n 50 then Some 2%N else None)
    (λ _, false)
    60%N.

Definition pp_cover : SvaPP.VerificSvaPP := SvaPP.mkSvaPP imp None None 1 false false true.

(** Past-value registers at the rising edge of [clk]: two that delay the
    same bit, and two that delay the two bits of a bus. *)
Definition past_ff (idx : Z) (d q : SigBit) : Cell :=
  (addDff (NewId idx) [wire_of clk] [d] [q] true (new_Module (IdStr "\top") 1)).1.

Definition same_input_ffs : list Cell :=
  [past_ff 1 (wire_of sig) (Bit (NewId 11) 0); past_ff 2 (wire_of sig) (Bit (NewId 12) 0)].

Definition adjacent_ffs : list Cell :=
  [past_ff 1 (Bit (IdStr "\bus") 0) (Bit (NewId 11) 0);
   past_ff 2 (Bit (IdStr "\bus") 1) (Bit (NewId 12) 0)].

Definition past_module (ffs : list Cell) : Module :=
  mkModule (IdStr "\top") [] ffs [] [] 20.

(** A memory of two words of four bits. *)
Definition small_memory : Memory := mkMemory (IdStr "\mem") 4 2.

(** An input port bus [data[2:0]]: bit 2 on the net [d], which has a wire
    already, bit 1 on a net of its own, bit 0 without a net. *)
Definition no_obj : DesignObj := mkObj None [].

Definition bus_net : Net := net 30 "data[1]".

Definition data_bus : PortBus :=
  mkPortBus "data" no_obj 3 2 0 false ExtNets.DIR_IN
    (λ i, if bool_decide (i = 2)
          then Some (mkPort "data[2]" no_obj true ExtNets.DIR_IN (Some d) 0)
          else if bool_decide (i = 1)
          then Some (mkPort "data[1]" no_obj true ExtNets.DIR_IN (Some bus_net) 1)
          else if bool_decide (i = 0)
          then Some (mkPort "data[0]" no_obj true ExtNets.DIR_IN None 2)
          else None).

Definition netlist_start : netlist_state := mkNetlistState imp [] ∅ ∅ ∅.

(** Buses of nets: [bus[0:1]] with a net of its own at 0 and the net [q],
    which has a wire, at 1; [pair[0:1]] on the nets [d] and [q]; and
    [gap[0:1]] with the net [d] at 0 and no net at 1. *)
Definition bus_net0 : Net := net 31 "bus[0]".

Definition two_nets (a b : option Net) (i : Z) : option Net :=
  if bool_decide (i = 0) then a else if bool_decide (i = 1) then b else None.

Definition new_bus : NetBus :=
  mkNetBus "bus" no_obj 2 0 1 true true (two_nets (Some bus_net0) (Some q)).

Definition mapped_bus : NetBus :=
  mkNetBus "pair" no_obj 2 0 1 true true (two_nets (Some d) (Some q)).

Definition gap_bus : NetBus :=
  mkNetBus "gap" no_obj 2 0 1 true true (two_nets (Some d) None).

(** The nets of a netlist: the net of [bus[0]] and a net [tmp] that is in
    no bus. *)
Definition tmp_net : NetlistNet :=
  mkNetlistNet (net 32 "tmp") no_obj None None false Ascii.zero false true.

Definition bus_member : NetlistNet :=
  mkNetlistNet bus_net0 no_obj None None false "1"%char true true.

(** The state in which the net of [bus[0]] has the initial value 1 *)
Definition init_start : netlist_state :=
  mkNetlistState imp [] {[31%N := (bus_net0, "1"%char)]} ∅ ∅.

(** The port references of an instance: its port [a] on the net [d], and
    the bits 2 and 0 of its port bus [data] on the nets [q] and [clk]. *)
Definition port_refs : list PortRef :=
  [mkPortRef (mkPort "a" no_obj false ExtNets.DIR_IN None 0) None 0 (Some d);
   mkPortRef (mkPort "data[2]" no_obj true ExtNets.DIR_IN None 0) (Some data_bus) 2 (Some q);
   mkPortRef (mkPort "data[0]" no_obj true ExtNets.DIR_IN None 2) (Some data_bus) 0 (Some clk)].

(** The ports of a netlist: the input [a] on the net [d], which has a
    wire, the output [y] on a net of its own, and a port of a bus. *)
Definition netlist_ports : list Port :=
  [mkPort "a" no_obj false ExtNets.DIR_IN (Some d) 0;
   mkPort "y" no_obj false ExtNets.DIR_OUT (Some (net 33 "y")) 1;
   mkPort "data[2]" no_obj true ExtNets.DIR_IN (Some q) 2].

(** An importer whose module has the wire [w] of two bits, the net [w1]
    standing for its bit 1 *)
Definition w1_net : Net := net 34 "w1".

Definition init_imp : VerificImporter :=
  mkImporter (add_wire_obj (mkWire (IdStr "\w") 2 []) (new_Module (IdStr "\top") 1)) 1
    {[34%N := Bit (IdStr "\w") 1]} false false false false false false.

(** An adder of one bit with a carry input, on the nets [d], [q] and
    [rst]; its output bus has [sig] at 0 and nothing at 1. *)
Definition adder : Instance :=
  mkInstance OPER_ADDER "add" "" true [] 0 1 2
    None None None None None None None None (Some rst) None None.

Definition adder_pins : OperatorPins :=
  mkOperatorPins false [] [Some d] [Some q] [Some sig; None] InportMissing InportMissing.

(** [$past(sig)] at [posedge clk], with its output on the net [q] *)
Definition past_inst : Instance :=
  mkInstance PRIM_SVA_PAST "past" "" false [] 0 0 0
    None (Some sig) (Some (driven_net 40 "ev" 1 posedge_clk)) None None None None None None
    (Some q) None.




(** No net of the samples is marked as random, so that [Anyconst] and
    [Anyseq] are not called. *)
Definition no_rand (_ : IdString) (_ : Z) (m : Module) : SigSpec * Module := ([], m).

(** No word-level operator is involved in the samples. *)
Definition no_operator (imp : VerificImporter) (_ : Instance) (_ : IdString)
    : result (bool * VerificImporter) := Ok (false, imp).

End Sample.

(** * Properties *)

(** ** Flip-flops with set and reset *)

Lemma bind_Ok {A B} (r : result A) (f : A → result B) (a : A) :
  r = Ok a → r ≫= f = f a.
Proof. intros ->. reflexivity. Qed.

(** C7. A clocked flip-flop primitive whose pins are all mapped is lowered
    to exactly one register cell, in the gate-level and in the cell-level
    mode alike: a plain register when set and reset are both the constant
    zero, a reset-only (set-only) register when only set (only reset) is
    the constant zero, a register with set and reset otherwise. *)
Theorem dffrs_lowering
    (ops : VerificImporter → Instance → IdString → result (bool * VerificImporter))
    (imp : VerificImporter) (inst : Instance) (inst_name : IdString)
    (clk set reset d q : Net) (cb sb rb db qb : SigBit) (gates : bool) :
  Type_ inst = PRIM_DFFRS →
  GetClock inst = Some clk → GetSet inst = Some set → GetReset inst = Some reset →
  GetInput inst = Some d → GetOutput inst = Some q →
  net_map_at imp (Some clk) = Ok cb → net_map_at imp (Some set) = Ok sb →
  net_map_at imp (Some reset) = Ok rb → net_map_at imp (Some d) = Ok db →
  net_map_at imp (Some q) = Ok qb →
  ∃ c : Cell,
    (if gates then import_netlist_instance_gates imp inst inst_name
     else import_netlist_instance_cells ops imp inst inst_name)
      = Ok (true, set_module imp (add_cell_obj c (module imp)))
    ∧ cell_name c = inst_name
    ∧ classify_register c = Some (dffrs_class (IsGnd set) (IsGnd reset))
    ∧ (cell_connections c).*2
      = register_pins (dffrs_class (IsGnd set) (IsGnd reset)) cb sb rb db qb.
Proof.
  intros Hty Hclk Hset Hreset Hd Hq Mclk Mset Mreset Md Mq.
  unfold import_netlist_instance_gates, import_netlist_instance_cells.
  rewrite Hty, Hclk, Hset, Hreset, Hd, Hq. cbn [net_IsGnd mbind result_bind].
  rewrite Mclk, Mset, Mreset, Md, Mq.
  destruct gates, (IsGnd set), (IsGnd reset); cbn;
    eexists; (split; [reflexivity | split; [reflexivity | split; reflexivity]]).
Qed.

Lemma dffrs_lowering_witness :
  ∃ c : Cell,
    import_netlist_instance_cells Sample.no_operator Sample.imp Sample.dffrs (IdStr "\ff")
      = Ok (true, set_module Sample.imp (add_cell_obj c (module Sample.imp)))
    ∧ cell_name c = IdStr "\ff"
    ∧ classify_register c = Some reset_only_register
    ∧ (cell_connections c).*2
      = [[Sample.wire_of Sample.clk]; [Sample.wire_of Sample.rst];
         [Sample.wire_of Sample.d]; [Sample.wire_of Sample.q]].
Proof.
  apply (dffrs_lowering Sample.no_operator Sample.imp Sample.dffrs (IdStr "\ff")
           Sample.clk Sample.gnd Sample.rst Sample.d Sample.q
           (Sample.wire_of Sample.clk) (Sample.wire_of Sample.gnd)
           (Sample.wire_of Sample.rst) (Sample.wire_of Sample.d)
           (Sample.wire_of Sample.q) false); reflexivity.
Defined.

(** ** The clock-edge resolver *)

(** C5. For an edge-operator node whose input is the signal [S] itself the
    resolver returns the clock [S] with positive polarity; when the input
    of the node has an inverter as its only driver and [S] is the input of
    that inverter, it returns the clock [S] with negative polarity. *)
Theorem clock_edge_polarity (imp : VerificImporter) (inst : Instance) (S : Net) (sig : SigBit) :
  Type_ inst = PRIM_SVA_POSEDGE →
  net_map_at imp (Some S) = Ok sig →
  (GetInput inst = Some S → inverter_driven S = false →
     VerificClockEdge_new imp (Some inst) = Ok (ClockEdge (Some S) sig true))
  ∧ (∀ w inv, GetInput inst = Some w → IsMultipleDriven w = false →
       Driver w = Some inv → Type_ inv = PRIM_INV → GetInput inv = Some S →
       VerificClockEdge_new imp (Some inst) = Ok (ClockEdge (Some S) sig false)).
Proof.
  intros Hty Hmap. split.
  - intros Hin Hdirect. unfold VerificClockEdge_new. rewrite Hty, Hin.
    unfold inverter_driven in Hdirect. rewrite Hdirect. cbn -[net_map_at]. rewrite Hmap. reflexivity.
  - intros w inv Hin Hsingle Hdrv Hinv HS. unfold VerificClockEdge_new.
    rewrite Hty, Hin, Hsingle, Hdrv, Hinv. cbn -[net_map_at]. rewrite HS, Hmap. reflexivity.
Qed.

(** C6 (the code departs from the claim). A node that is neither an
    edge-operator node nor a conjunction matches neither idiom, yet the
    constructor reaches its end and returns normally, no member assigned:
    [log_abort] is only reached from inside the branch for conjunctions. *)
Theorem clock_edge_falls_through (imp : VerificImporter) (a b : Net) :
  VerificClockEdge_new imp (Some (binary_instance PRIM_OR "or1" [] a b))
  = Ok ClockEdge_unassigned.
Proof. reflexivity. Qed.

Lemma clock_edge_polarity_witness :
  VerificClockEdge_new Sample.imp (Some Sample.posedge_clk)
    = Ok (ClockEdge (Some Sample.clk) (Sample.wire_of Sample.clk) true)
  ∧ VerificClockEdge_new Sample.imp (Some Sample.posedge_not_clk)
    = Ok (ClockEdge (Some Sample.clk) (Sample.wire_of Sample.clk) false).
Proof.
  split.
  - apply (clock_edge_polarity Sample.imp Sample.posedge_clk Sample.clk
             (Sample.wire_of Sample.clk)); reflexivity.
  - apply (proj2 (clock_edge_polarity Sample.imp Sample.posedge_not_clk Sample.clk
             (Sample.wire_of Sample.clk) eq_refl eq_refl)
             Sample.not_clk (unary_instance PRIM_INV "inv" Sample.clk)); reflexivity.
Defined.

(** ** The sequence compiler *)

Lemma net_to_ast_driver_Driver (n : Net) (inst : Instance) :
  net_to_ast_driver (Some n) = Some inst → Driver n = Some inst.
Proof.
  unfold net_to_ast_driver. destruct (IsMultipleDriven n); [discriminate|].
  destruct (Driver n) as [i|]; [|discriminate].
  destruct (negb _ && negb _); [discriminate|].
  destruct (Type_ i); congruence.
Qed.

(** [parse_sequence] as the source has it: the test on [net_to_ast_driver],
    then the cases on the operator. *)
Lemma parse_sequence_unfold (worker : VerificSvaImporter) (n : Net) (st : sva_state) :
  parse_sequence worker n st
  = match net_to_ast_driver (Some n) with
    | None => cond ← net_map_at (importer worker) (Some n); sequence_cond cond st
    | Some inst => parse_sequence_inst worker (parse_sequence worker) inst st
    end.
Proof.
  destruct n as [id nm own multi g p drv]; cbn [parse_sequence].
  destruct (net_to_ast_driver _) as [inst|] eqn:E; [|reflexivity].
  apply net_to_ast_driver_Driver in E. cbn [Driver] in *. rewrite E. reflexivity.
Qed.

(** A delay step always succeeds and is one delay-element step. *)
Lemma sequence_ff_step (worker : VerificSvaImporter) (st : sva_state) :
  ∃ st', sequence_ff worker st = Ok st' ∧ delay_step worker st st'.
Proof.
  destruct st as [seq m]. unfold sequence_ff.
  destruct (decide (disable_iff worker = Cst S0)) as [Hd|Hd].
  - rewrite bool_decide_eq_false_2 by (intros H; exact (H Hd)).
    cbn. eexists. split; [reflexivity|].
    exists [], [], (NewId (autoidx m)), (NewId (autoidx m + 1)),
      (NewId (autoidx m + 1 + 1)), (NewId (autoidx m + 1 + 1 + 1)), (sig_en seq).
    cbn. rewrite <- ?app_assoc. repeat split; try reflexivity; try done.
  - rewrite bool_decide_eq_true_2 by exact Hd.
    cbn. eexists. split; [reflexivity|].
    exists [mkWire (NewId (autoidx m + 1)) 1 []],
      [disable_gate (NewId (autoidx m)) (sig_en seq) (disable_iff worker)
         (Bit (NewId (autoidx m + 1)) 0)],
      (NewId (autoidx m + 1 + 1)), (NewId (autoidx m + 1 + 1 + 1)),
      (NewId (autoidx m + 1 + 1 + 1 + 1)), (NewId (autoidx m + 1 + 1 + 1 + 1 + 1)),
      (Bit (NewId (autoidx m + 1)) 0).
    cbn. rewrite <- ?app_assoc. repeat split; try reflexivity; try done.
    intros _. eexists _, _. repeat split; reflexivity.
Qed.

Lemma dff_count_app (m : Module) (cs : list Cell) (m' : Module) :
  cells_ m' = cells_ m ++ cs →
  dff_count m' = dff_count m + Z.of_nat (length (filter (λ c, cell_type c = "$dff") cs)).
Proof.
  intros E. unfold dff_count. rewrite E, list.filter_app, length_app. lia.
Qed.

Lemma delay_step_counts (worker : VerificSvaImporter) (st st' : sva_state) :
  delay_step worker st st' →
  seq_length st'.1 = seq_length st.1 + 1 ∧ dff_count st'.2 = dff_count st.2 + 2.
Proof.
  intros (ws & cs & a_q & en_q & id_a & id_en & en_d & Hw & Hc & Hs & Hoff & Hon).
  split; [rewrite Hs; reflexivity|].
  rewrite (dff_count_app _ _ _ Hc).
  destruct (decide (disable_iff worker = Cst S0)) as [Hd|Hd].
  - destruct (Hoff Hd) as (_ & -> & _). reflexivity.
  - destruct (Hon Hd) as (y & id_y & _ & -> & _). reflexivity.
Qed.

(** [k] delay steps in a row succeed; they make the sequence [k] steps
    longer and add [k] register pairs. *)
Lemma repeat_sequence_ff (worker : VerificSvaImporter) (k : nat) (st : sva_state) :
  ∃ st', repeatM k (sequence_ff worker) st = Ok st'
    ∧ seq_length st'.1 = seq_length st.1 + Z.of_nat k
    ∧ dff_count st'.2 = dff_count st.2 + 2 * Z.of_nat k.
Proof.
  revert st. induction k as [|k IH]; intros st.
  - exists st. cbn. split; [reflexivity|]. lia.
  - destruct (sequence_ff_step worker st) as (st1 & E1 & D1).
    destruct (delay_step_counts _ _ _ D1) as [L1 C1].
    destruct (IH st1) as (st' & E & L & C).
    exists st'. cbn [repeatM]. rewrite E1. cbn. split; [exact E|]. lia.
Qed.

(** The cell that ends [run]: its operands are the active and the enabled
    signal of the state it is emitted from. *)
Lemma emit_constraint_cells (uniquify : Module → IdString → IdString)
    (worker : VerificSvaImporter) (st : sva_state) :
  ∃ root_name : IdString,
    cells_ (emit_constraint uniquify worker st)
    = cells_ st.2
      ++ (if mode_assert worker then [(addAssert root_name [sig_a st.1] [sig_en st.1] st.2).1] else [])
      ++ (if mode_assume worker then [(addAssume root_name [sig_a st.1] [sig_en st.1] st.2).1] else [])
      ++ (if mode_cover worker then [(addCover root_name [sig_a st.1] [sig_en st.1] st.2).1] else []).
Proof.
  destruct st as [seq m]. unfold emit_constraint.
  destruct (mode_names (importer worker) || IsUserDeclared (root worker));
    eexists; destruct (mode_assert worker), (mode_assume worker), (mode_cover worker);
    cbn; rewrite <- ?app_assoc, ?app_nil_r; reflexivity.
Qed.

Lemma as_int_range (v N : Z) : as_int v = Ok N → INT_MIN ≤ N ≤ INT_MAX.
Proof.
  unfold as_int. destruct (decide (INT_MIN ≤ v ≤ INT_MAX)) as [H|H].
  - rewrite bool_decide_eq_true_2 by exact H. intros [= <-]. exact H.
  - rewrite bool_decide_eq_false_2 by exact H. discriminate.
Qed.

(** What [atoi] returns is an [int]. *)
Lemma atoi_range (p : option string) (N : Z) : atoi p = Ok N → INT_MIN ≤ N ≤ INT_MAX.
Proof.
  unfold atoi. destruct p as [s|]; [|discriminate].
  destruct (skip_space s) as [|c s']; [apply as_int_range|].
  destruct c as [[] [] [] [] [] [] [] []]; apply as_int_range.
Qed.

(** C2. A delay-element step is one clocked register pair for the active
    and the enabled signal, both initialised to false.  Compiling a
    non-overlapped implication takes exactly one such step between the
    antecedent and the consequent; compiling a concatenation whose delay
    attribute reads [N], a value of an [int] and so at most [INT_MAX],
    takes exactly [N] such steps between its operands (none when [N] is
    negative); and once the sequence is compiled, [run] takes exactly one
    more step, whatever the sequence, and emits the constraint cell on the
    signals that step yields. *)
Theorem sequence_delay_steps (uniquify : Module → IdString → IdString)
    (worker : VerificSvaImporter) :
  (∀ st, ∃ st', sequence_ff worker st = Ok st' ∧ delay_step worker st st')
  ∧ (∀ n inst st,
       net_to_ast_driver (Some n) = Some inst →
       Type_ inst = PRIM_SVA_NON_OVERLAPPED_IMPLICATION →
       parse_sequence worker n st
       = (st1 ← on_pin (parse_sequence worker) (GetInput1 inst) st;
          st2 ← enable_on_match st1;
          st3 ← sequence_ff worker st2;
          on_pin (parse_sequence worker) (GetInput2 inst) st3))
  ∧ (∀ n inst N st,
       net_to_ast_driver (Some n) = Some inst →
       Type_ inst = PRIM_SVA_SEQ_CONCAT →
       atoi (GetAttValue inst "sva:low") = Ok N →
       INT_MIN ≤ N ≤ INT_MAX
       ∧ parse_sequence worker n st
         = (st1 ← on_pin (parse_sequence worker) (GetInput1 inst) st;
            st2 ← repeatM (Z.to_nat N) (sequence_ff worker) st1;
            on_pin (parse_sequence worker) (GetInput2 inst) st2)
       ∧ ∀ st1, ∃ st2,
           repeatM (Z.to_nat N) (sequence_ff worker) st1 = Ok st2
           ∧ seq_length st2.1 = seq_length st1.1 + Z.max 0 N
           ∧ dff_count st2.2 = dff_count st1.2 + 2 * Z.max 0 N)
  ∧ (∀ sequence_net st1,
       on_pin (parse_sequence worker) sequence_net
         (sequence_t_default, module (importer worker)) = Ok st1 →
       ∃ st2 root_name,
         sequence_ff worker st1 = Ok st2 ∧ delay_step worker st1 st2
         ∧ run_sequence uniquify worker sequence_net = Ok (emit_constraint uniquify worker st2)
         ∧ cells_ (emit_constraint uniquify worker st2)
           = cells_ st2.2
             ++ (if mode_assert worker
                 then [(addAssert root_name [sig_a st2.1] [sig_en st2.1] st2.2).1] else [])
             ++ (if mode_assume worker
                 then [(addAssume root_name [sig_a st2.1] [sig_en st2.1] st2.2).1] else [])
             ++ (if mode_cover worker
                 then [(addCover root_name [sig_a st2.1] [sig_en st2.1] st2.2).1] else [])).
Proof.
  split; [apply sequence_ff_step|]. split; [|split].
  - intros n inst st Hdrv Hty.
    rewrite parse_sequence_unfold, Hdrv. unfold parse_sequence_inst. rewrite Hty. reflexivity.
  - intros n inst N st Hdrv Hty Hlow. split; [exact (atoi_range _ _ Hlow)|]. split.
    + rewrite parse_sequence_unfold, Hdrv. unfold parse_sequence_inst. rewrite Hty, Hlow.
      cbn [mbind result_bind]. rewrite bool_decide_eq_false_2 by (intros H; exact (H eq_refl)).
      reflexivity.
    + intros st1. destruct (repeat_sequence_ff worker (Z.to_nat N) st1) as (st2 & E & L & C).
      exists st2. split; [exact E|]. rewrite ZifyInst.of_nat_to_nat_eq in L, C.
      split; assumption.
  - intros sequence_net st1 Hseq.
    destruct (sequence_ff_step worker st1) as (st2 & E & D).
    destruct (emit_constraint_cells uniquify worker st2) as (root_name & Hcells).
    exists st2, root_name. split; [exact E|]. split; [exact D|]. split; [|exact Hcells].
    unfold run_sequence. rewrite Hseq. cbn [mbind result_bind]. rewrite E. reflexivity.
Qed.

Lemma sequence_delay_steps_witness :
  parse_sequence Sample.worker Sample.impl_net Sample.start
  = (st1 ← parse_sequence Sample.worker Sample.sig Sample.start;
     st2 ← enable_on_match st1;
     st3 ← sequence_ff Sample.worker st2;
     parse_sequence Sample.worker Sample.sig2 st3)
  ∧ (∀ st1, ∃ st2,
       repeatM 2 (sequence_ff Sample.worker) st1 = Ok st2
       ∧ seq_length st2.1 = seq_length st1.1 + 2
       ∧ dff_count st2.2 = dff_count st1.2 + 2 * 2)
  ∧ ∃ st1 st2,
      parse_sequence Sample.worker Sample.impl_net Sample.start = Ok st1
      ∧ delay_step Sample.worker st1 st2
      ∧ run_sequence Sample.uniquify Sample.worker (Some Sample.impl_net)
        = Ok (emit_constraint Sample.uniquify Sample.worker st2).
Proof.
  pose proof (sequence_delay_steps Sample.uniquify Sample.worker) as (_ & Himpl & Hcat & Hrun).
  split; [|split].
  - apply (Himpl Sample.impl_net
             (binary_instance PRIM_SVA_NON_OVERLAPPED_IMPLICATION "impl" [] Sample.sig Sample.sig2));
      reflexivity.
  - apply (Hcat Sample.concat2_net
             (binary_instance PRIM_SVA_SEQ_CONCAT "cat" [("sva:low", "2"); ("sva:high", "2")]
                Sample.sig Sample.sig2) 2 Sample.start); reflexivity.
  - destruct (parse_sequence Sample.worker Sample.impl_net Sample.start) as [st1|] eqn:E;
      [|vm_compute in E; discriminate].
    destruct (Hrun (Some Sample.impl_net) st1 E) as (st2 & nm & _ & D & R & _).
    exists st1, st2. split; [reflexivity|]. split; [exact D | exact R].
Defined.

(** C3 (the code departs from the claim). A concatenation with the delay
    range [1:3] and a repetition with the count range [2:4] are compiled
    without any error, as the fixed delay 1 and the fixed count 2: the
    upper bound is read from the attribute of the lower bound, so the test
    for a range compares the lower bound with itself. *)
Theorem range_is_compiled_as_lower_bound :
  (∃ st, parse_sequence Sample.worker Sample.concat_range_net Sample.start = Ok st
         ∧ seq_length st.1 = 1)
  ∧ (∃ st, parse_sequence Sample.worker Sample.repeat_range_net Sample.start = Ok st
           ∧ seq_length st.1 = 1).
Proof.
  split; eexists; (split; [vm_compute; reflexivity | reflexivity]).
Qed.

(** ** One module for each netlist *)

Section ImportOnce.

Variable netlist_at : N → Netlist.
Variable import_body : VerificImporter → N → result (Module * list N).
Variable new_importer : VerificImporter.

Lemma Design_store_keys (design : Design) (nm : IdString) (m : Module) :
  ((Design_store design nm m).*1) = (design.*1).
Proof.
  unfold Design_store. induction design as [|[k v] d IH]; [reflexivity|].
  cbn. rewrite IH. destruct (decide (k = nm)) as [->|]; reflexivity.
Qed.

(** A successful import leaves the names of the design as they are or
    adds one name, which was free. *)
Lemma import_netlist_names imp design nl todo design' todo' :
  import_netlist netlist_at import_body imp design nl todo = Ok (design', todo') →
  (design'.*1) = (design.*1)
  ∨ ((IdStr (module_name (netlist_at nl)) ∉ (design.*1))
     ∧ (design'.*1) = (design.*1) ++ [IdStr (module_name (netlist_at nl))]).
Proof.
  unfold import_netlist, Design_has.
  destruct (decide (IdStr (module_name (netlist_at nl)) ∈ (design.*1))) as [Hin|Hin].
  - rewrite bool_decide_eq_true_2 by exact Hin.
    destruct (negb _); [discriminate|]. intros [= <- <-]. left. reflexivity.
  - rewrite bool_decide_eq_false_2 by exact Hin.
    unfold Design_add, Design_has. cbn [name new_Module].
    rewrite bool_decide_eq_false_2 by exact Hin. cbn.
    destruct (import_body _ nl) as [[m views]|e]; [|discriminate]. cbn.
    intros [= <- <-]. right. split; [exact Hin|].
    rewrite Design_store_keys, fmap_app. reflexivity.
Qed.

Lemma import_netlist_NoDup imp design nl todo design' todo' :
  import_netlist netlist_at import_body imp design nl todo = Ok (design', todo') →
  NoDup (design.*1) → NoDup (design'.*1) ∧ (length design' ≤ length design + 1)%nat.
Proof.
  intros H Hnd. apply import_netlist_names in H as [E|[Hfree E]].
  - rewrite E. split; [exact Hnd|]. rewrite <- (length_fmap fst design'), E, length_fmap. lia.
  - rewrite E. split.
    + apply list.NoDup_app. split; [exact Hnd|]. split; [|apply NoDup_singleton].
      intros x Hx Hx'. apply list_elem_of_singleton in Hx'. subst x. exact (Hfree Hx).
    + rewrite <- (length_fmap fst design'), E, length_app, length_fmap. cbn. lia.
Qed.

Lemma set_begin_elem (s : gset N) (x : N) : set_begin s = Some x → x ∈ s.
Proof.
  unfold set_begin. destruct (elements s) as [|y l] eqn:E; [discriminate|].
  intros [= <-]. apply elem_of_elements. rewrite E.
  clear E. revert y. induction l as [|z l IH]; intros y; cbn.
  - apply list_elem_of_here.
  - destruct (N.min_spec z (foldr N.min y l)) as [[_ ->]|[_ ->]].
    + apply list_elem_of_further, list_elem_of_here.
    + specialize (IH y). apply elem_of_cons in IH as [->|IH].
      * apply list_elem_of_here.
      * do 2 apply list_elem_of_further. exact IH.
Qed.

(** Along the loop, [import_netlist] is called on netlists that are not
    done, each at most once; the design keeps one module for each name and
    grows by at most one module for each call. *)
Lemma import_loop_once (fuel : nat) (st : import_state) :
  NoDup ((design st).*1) →
  let '(calls, r) := import_loop netlist_at import_body new_importer fuel st in
  NoDup calls
  ∧ (∀ nl, nl ∈ calls → nl ∉ nl_done st)
  ∧ ∀ st', r = Ok st' →
      NoDup ((design st').*1) ∧ (length (design st') ≤ length (design st) + length calls)%nat.
Proof.
  revert st. induction fuel as [|fuel IH]; intros st Hnd; cbn [import_loop].
  { split; [constructor|]. split; [intros nl H; inversion H|].
    intros st' [= <-]. split; [exact Hnd|]. cbn. lia. }
  unfold import_step. destruct (set_begin (nl_todo st)) as [nl|] eqn:Hb.
  2:{ split; [constructor|]. split; [intros nl H; inversion H|].
      intros st' [= <-]. split; [exact Hnd|]. cbn. lia. }
  destruct (decide (nl ∉ nl_done st)) as [Hnew|Hold].
  - rewrite bool_decide_eq_true_2 by exact Hnew.
    destruct (import_netlist _ _ _ _ _ _) as [[d todo]|e] eqn:Himp; cbn.
    2:{ split; [apply NoDup_singleton|]. split; [|intros st' H; discriminate].
        intros x Hx. apply list_elem_of_singleton in Hx. subst. exact Hnew. }
    destruct (import_netlist_NoDup _ _ _ _ _ _ Himp Hnd) as [Hnd' Hlen].
    specialize (IH (mkImportState d (todo ∖ {[nl]}) (nl_done st ∪ {[nl]})) Hnd').
    destruct (import_loop _ _ _ fuel _) as [calls r]. cbn in IH.
    destruct IH as (Hcalls & Hdone & Hres).
    split; [|split].
    + cbn. constructor; [|exact Hcalls]. intros Hin. apply (Hdone nl Hin).
      apply elem_of_union_r, elem_of_singleton. reflexivity.
    + intros x Hx. cbn in Hx. apply elem_of_cons in Hx as [->|Hx]; [exact Hnew|].
      intros Hd. apply (Hdone x Hx), elem_of_union_l, Hd.
    + intros st' ->. destruct (Hres st' eq_refl) as [H1 H2]. split; [exact H1|].
      cbn. lia.
  - rewrite bool_decide_eq_false_2 by exact Hold. cbn.
    specialize (IH (mkImportState (design st) (nl_todo st ∖ {[nl]}) (nl_done st ∪ {[nl]})) Hnd).
    destruct (import_loop _ _ _ fuel _) as [calls r]. cbn in IH.
    destruct IH as (Hcalls & Hdone & Hres).
    split; [exact Hcalls|]. split; [|exact Hres].
    intros x Hx Hd. apply (Hdone x Hx), elem_of_union_l, Hd.
Qed.

End ImportOnce.

(** C1. When a module of the target name already exists in the design,
    the import of a netlist that is not an operator ends in the fatal
    re-definition error, and the import of an operator netlist returns at
    once, design and work-list untouched.  Hence along the work-list loop,
    started from a design with one module for each name,
    [import_netlist] is called at most once for each netlist and never for
    one that is done, the design never holds two modules of one name, and
    it grows by at most one module for each call. *)
Theorem one_module_per_netlist
    (netlist_at : N → Netlist)
    (import_body : VerificImporter → N → result (Module * list N))
    (new_importer : VerificImporter) :
  (∀ imp design nl todo,
     Design_has design (IdStr (module_name (netlist_at nl))) = true →
     import_netlist netlist_at import_body imp design nl todo
     = if IsOperator (netlist_at nl) then Ok (design, todo)
       else Fail (log_cmd_error "Re-definition of module `%s'."))
  ∧ (∀ fuel st calls r,
       NoDup ((design st).*1) →
       import_loop netlist_at import_body new_importer fuel st = (calls, r) →
       NoDup calls
       ∧ (∀ nl, nl ∈ calls → nl ∉ nl_done st)
       ∧ ∀ st', r = Ok st' →
           NoDup ((design st').*1)
           ∧ (length (design st') ≤ length (design st) + length calls)%nat).
Proof.
  split.
  - intros imp design nl todo Hhas. unfold import_netlist. rewrite Hhas.
    destruct (IsOperator (netlist_at nl)); reflexivity.
  - intros fuel st calls r Hnd Hloop.
    pose proof (import_loop_once netlist_at import_body new_importer fuel st Hnd) as H.
    rewrite Hloop in H. exact H.
Qed.

Lemma one_module_per_netlist_witness :
  import_netlist Sample.netlist_at Sample.import_body Sample.imp Sample.full_design 1 ∅
    = Fail (log_cmd_error "Re-definition of module `%s'.")
  ∧ import_netlist Sample.netlist_at Sample.import_body Sample.imp Sample.full_design 2 ∅
    = Ok (Sample.full_design, ∅)
  ∧ NoDup (import_loop Sample.netlist_at Sample.import_body Sample.imp 5 Sample.import_start).1.
Proof.
  pose proof (one_module_per_netlist Sample.netlist_at Sample.import_body Sample.imp)
    as [Hhas Hloop].
  split; [|split].
  - apply (Hhas Sample.imp Sample.full_design 1%N ∅). reflexivity.
  - apply (Hhas Sample.imp Sample.full_design 2%N ∅). reflexivity.
  - destruct (import_loop _ _ _ 5 Sample.import_start) as [calls r] eqn:E.
    apply (Hloop 5%nat Sample.import_start calls r); [apply NoDup_nil_2 | exact E].
Defined.

(** ** Memories *)









Lemma elem_of_flat_map {A B} (f : A → list B) (l : list A) (y : B) :
  y ∈ flat_map f l ↔ ∃ x, x ∈ l ∧ y ∈ f x.
Proof. setoid_rewrite list_elem_of_In. apply in_flat_map. Qed.

(** ** The external-net resolver *)

Section ExtNetsFacts.

Import ExtNets.

Lemma level_up_refs (db : Db) (nl up : N) :
  level_up db nl = Some up → NumOfRefs db nl = 1.
Proof.
  unfold level_up, NumOfRefs. destruct (GetReferences db nl) as [|i [|j l]]; try discriminate.
  reflexivity.
Qed.

(** A netlist that is its own parent has no path to any other netlist. *)
Lemma unique_path_loop (db : Db) (d : nat) (nl top : N) :
  level_up db nl = Some nl → unique_path db d nl top → nl = top.
Proof.
  intros Hself. induction d as [|d IH]; cbn; [tauto|].
  intros (_ & up & Hup & Hpath). rewrite Hself in Hup. injection Hup as <-. exact (IH Hpath).
Qed.

(** What [get_net_level_up] leaves as it was: the hierarchy, the owners
    of the nets that exist; and what it keeps: the consistency of the
    worker's map. *)
Lemma get_net_level_up_frame (net : N) (st : state) :
  consistent st → (net < next_net st.1)%N →
  let '(up, st') := get_net_level_up net st in
  consistent st'
  ∧ (up < next_net st'.1)%N
  ∧ (next_net st.1 ≤ next_net st'.1)%N
  ∧ (∀ nl, level_up st'.1 nl = level_up st.1 nl)
  ∧ (∀ n, (n < next_net st.1)%N → net_Owner st'.1 n = net_Owner st.1 n)
  ∧ (NumOfRefs st.1 (net_Owner st.1 net) ≠ 1 ∧ up = net
     ∨ level_up st.1 (net_Owner st.1 net) = Some (net_Owner st'.1 up)).
Proof.
  destruct st as [db w]. intros Hcons Hnet. unfold get_net_level_up.
  destruct (net_level_up w !! net) as [up|] eqn:Hcache.
  - destruct (Hcons net up Hcache) as (_ & Hup & Hlevel).
    split; [exact Hcons|]. split; [exact Hup|]. split; [reflexivity|].
    split; [reflexivity|]. split; [reflexivity|]. right. exact Hlevel.
  - destruct (decide (NumOfRefs db (net_Owner db net) ≠ 1)) as [Hn|Hn].
    + rewrite bool_decide_eq_true_2 by exact Hn.
      split; [exact Hcons|]. split; [exact Hnet|]. split; [reflexivity|].
      split; [reflexivity|]. split; [reflexivity|]. left. split; [exact Hn | reflexivity].
    + rewrite bool_decide_eq_false_2 by exact Hn. cbn in *.
      assert (∀ n, (n < next_net db)%N →
                <[next_net db := inst_Owner db (List.last (GetReferences db (net_Owner db net)) 0%N)]>
                  (net_Owner db) n = net_Owner db n) as Hown.
      { intros n Hn'. apply fn_lookup_insert_ne. lia. }
      assert (level_up db (net_Owner db net)
              = Some (inst_Owner db (List.last (GetReferences db (net_Owner db net)) 0%N)))
        as Hlevel.
      { unfold level_up, NumOfRefs in *.
        destruct (GetReferences db (net_Owner db net)) as [|i [|j l]]; cbn in *;
          try reflexivity; exfalso; apply Hn; lia. }
      split; [|split; [lia|split; [lia|split; [reflexivity|split; [exact Hown|]]]]].
      * intros n u Hnu. cbn in *. apply lookup_insert_Some in Hnu as [[<- <-]|[Hne Hnu]].
        -- split; [lia|]. split; [lia|]. rewrite (Hown net Hnet), fn_lookup_insert.
           exact Hlevel.
        -- destruct (Hcons n u Hnu) as (Hn1 & Hu1 & Hl). cbn in *.
           split; [lia|]. split; [lia|]. rewrite (Hown n Hn1), (Hown u Hu1). exact Hl.
      * right. rewrite fn_lookup_insert. exact Hlevel.
Qed.

Lemma unique_path_ext (db db' : Db) (d : nat) (nl top : N) :
  (∀ x, level_up db' x = level_up db x) → unique_path db d nl top → unique_path db' d nl top.
Proof.
  intros Hsame. revert nl. induction d as [|d IH]; intros nl; cbn; [tauto|].
  intros (Hne & up & Hup & Hpath). split; [exact Hne|]. exists up.
  rewrite Hsame. split; [exact Hup | exact (IH up Hpath)].
Qed.

(** A net of a netlist that is not referenced exactly once is returned as
    it is, the data base and the worker untouched. *)
Lemma resolve_not_unique (fuel : nat) (nl net : N) (st : state) :
  consistent st →
  NumOfRefs st.1 (net_Owner st.1 net) ≠ 1 →
  IsExternalTo st.1 net nl = true →
  resolve (S fuel) nl net st = Some (net, st).
Proof.
  destruct st as [db w]. cbn [fst]. intros Hcons Hrefs Hext.
  cbn [resolve fst]. rewrite Hext. cbn [negb]. unfold get_net_level_up.
  destruct (net_level_up w !! net) as [up|] eqn:Hcache.
  - destruct (Hcons net up Hcache) as (_ & _ & Hlevel). cbn in Hlevel.
    apply level_up_refs in Hlevel. contradiction.
  - rewrite bool_decide_eq_true_2 by exact Hrefs.
    rewrite bool_decide_eq_true_2 by reflexivity. reflexivity.
Qed.

(** Along a unique instantiation path of [d] levels the loop ends within
    [d] iterations, on a net of the netlist at the top of the path. *)
Lemma resolve_unique_path (d : nat) :
  ∀ (fuel : nat) (nl net : N) (st : state),
    consistent st → (net < next_net st.1)%N →
    unique_path st.1 d (net_Owner st.1 net) nl →
    (d ≤ fuel)%nat →
    ∃ net' st', resolve fuel nl net st = Some (net', st')
                ∧ IsExternalTo st'.1 net' nl = false.
Proof.
  induction d as [|d IH]; intros fuel nl net st Hcons Hnet Hpath Hfuel.
  - cbn in Hpath. exists net, st.
    assert (IsExternalTo st.1 net nl = false) as Hint.
    { unfold IsExternalTo. rewrite Hpath, N.eqb_refl. reflexivity. }
    split; [|exact Hint]. destruct fuel; cbn [resolve]; rewrite Hint; reflexivity.
  - destruct Hpath as (Hne & up & Hup & Hpath).
    destruct fuel as [|fuel]; [lia|].
    assert (IsExternalTo st.1 net nl = true) as Hext.
    { unfold IsExternalTo. apply negb_true_iff, N.eqb_neq. exact Hne. }
    cbn [resolve]. rewrite Hext. cbn [negb].
    pose proof (get_net_level_up_frame net st Hcons Hnet) as Hframe.
    destruct (get_net_level_up net st) as [newnet st'].
    destruct Hframe as (Hcons' & Hnew & Hnext & Hlevel & Hown & Hstep).
    destruct Hstep as [[Hrefs _]|Hstep].
    + exfalso. apply Hrefs. exact (level_up_refs _ _ _ Hup).
    + rewrite Hup in Hstep. injection Hstep as Hstep.
      destruct (decide (newnet = net)) as [->|Hdiff].
      * exfalso. rewrite (Hown net Hnet) in Hstep. subst up.
        apply Hne. apply (unique_path_loop st.1 (S d)); [exact Hup|].
        cbn. split; [exact Hne|]. exists (net_Owner st.1 net). split; [exact Hup|exact Hpath].
      * rewrite bool_decide_eq_false_2 by exact Hdiff.
        apply IH; [exact Hcons' | exact Hnew | | lia].
        rewrite <- Hstep. apply (unique_path_ext st.1); [exact Hlevel | exact Hpath].
Qed.

(** Reconnecting a port reference to a net leaves the reference on that
    net and adds no net and no port. *)
Lemma reconnect_same (inst : N) (port : string) (net nl : N) (db : Db) :
  let db' := reconnect (inst, port, net) db in
  (port, net) ∈ inst_portrefs db' inst
  ∧ IsExternalTo db' net nl = IsExternalTo db net nl
  ∧ next_net db' = next_net db
  ∧ nl_ports db' = nl_ports db.
Proof.
  cbn. rewrite fn_lookup_insert. split; [|repeat split].
  apply elem_of_app. right. apply list_elem_of_singleton. reflexivity.
Qed.

End ExtNetsFacts.

Section ExtNetsRun.

Import ExtNets.

Lemma level_up_none (db : Db) (nl : N) : NumOfRefs db nl ≠ 1 ↔ level_up db nl = None.
Proof.
  unfold NumOfRefs, level_up. destruct (GetReferences db nl) as [|i [|j l]]; cbn [length].
  - split; [reflexivity | lia].
  - split; [intros H; exfalso; apply H; reflexivity | discriminate].
  - split; [reflexivity | lia].
Qed.

Lemma same_hierarchy_level_up (db db' : Db) :
  same_hierarchy db db' →
  (∀ nl, level_up db' nl = level_up db nl) ∧ (∀ nl, NumOfRefs db' nl = NumOfRefs db nl).
Proof.
  intros (Hr & _ & Ho & _). unfold level_up, NumOfRefs. rewrite Hr, Ho. split; reflexivity.
Qed.

Lemma same_hierarchy_refl (db : Db) : same_hierarchy db db.
Proof. repeat split. Qed.

Lemma same_hierarchy_trans (db1 db2 db3 : Db) :
  same_hierarchy db1 db2 → same_hierarchy db2 db3 → same_hierarchy db1 db3.
Proof.
  intros (H1 & H2 & H3 & H4) (K1 & K2 & K3 & K4).
  repeat split; congruence.
Qed.

Lemma rooted_ext (db db' : Db) (d : nat) :
  same_hierarchy db db' → ∀ x, rooted db d x → rooted db' d x.
Proof.
  intros [Hl Hn]%same_hierarchy_level_up.
  induction d as [|d IH]; intros x; cbn [rooted]; rewrite Hn; intros [H|H];
    [left; exact H | contradiction | left; exact H | right].
  destruct H as (up & Hup & Hr). exists up. rewrite Hl.
  split; [exact Hup | exact (IH up Hr)].
Qed.

Lemma unique_path_same (db db' : Db) (d : nat) (nl top : N) :
  same_hierarchy db db' → unique_path db d nl top → unique_path db' d nl top.
Proof. intros [Hl _]%same_hierarchy_level_up. exact (unique_path_ext db db' d nl top Hl). Qed.

Lemma instances_owned_same (db db' : Db) :
  same_hierarchy db db' → instances_owned db → instances_owned db'.
Proof. intros (_ & Hi & Ho & _) H nl inst. rewrite Hi, Ho. apply H. Qed.

Lemma ranked_same (db db' : Db) (rank : N → nat) :
  same_hierarchy db db' → ranked db rank → ranked db' rank.
Proof. intros (_ & Hi & _ & Hv) H nl inst. rewrite Hi, Hv. apply H. Qed.

(** A netlist that is its own parent has no root above it. *)
Lemma rooted_no_loop (db : Db) (d : nat) (x : N) :
  level_up db x = Some x → ¬ rooted db d x.
Proof.
  intros Hself. induction d as [|d IH]; cbn [rooted]; intros [H|H].
  - exact (H (level_up_refs _ _ _ Hself)).
  - exact H.
  - exact (H (level_up_refs _ _ _ Hself)).
  - destruct H as (up & Hup & Hr). rewrite Hself in Hup. injection Hup as <-. exact (IH Hr).
Qed.

(** A unique instantiation path is no longer than the way to the root. *)
Lemma unique_path_depth (db : Db) (top : N) (k : nat) :
  ∀ d x, unique_path db k x top → rooted db d x → (k ≤ d)%nat.
Proof.
  induction k as [|k IH]; intros d x; cbn [unique_path]; [lia|].
  intros (_ & up & Hup & Hpath) Hr. destruct d as [|d]; cbn [rooted] in Hr.
  - destruct Hr as [H|[]]. exfalso. exact (H (level_up_refs _ _ _ Hup)).
  - destruct Hr as [H|(up' & Hup' & Hr)]; [exfalso; exact (H (level_up_refs _ _ _ Hup))|].
    rewrite Hup in Hup'. injection Hup' as <-. specialize (IH d up Hpath Hr). lia.
Qed.

Lemma grown_refl (T : N → Prop) (st : state) : grown T st st.
Proof.
  split; [apply same_hierarchy_refl|]. split; [lia|]. split; [reflexivity|].
  split; [reflexivity|]. intros inst _. exists []. rewrite app_nil_r.
  split; [reflexivity | constructor].
Qed.

Lemma grown_weaken (T T' : N → Prop) (st st' : state) :
  (∀ x, T x → T' x) → grown T st st' → grown T' st st'.
Proof.
  intros HT (Hh & Hn & Ho & Hp & Hr). repeat (split; [assumption|]).
  intros inst HnT. apply Hr. intros H. exact (HnT (HT _ H)).
Qed.

Lemma grown_trans (T : N → Prop) (st1 st2 st3 : state) :
  nets_exist st2.1 → grown T st1 st2 → grown T st2 st3 → grown T st1 st3.
Proof.
  intros Hex (Hh & Hn & Ho & Hp & Hr) (Hh' & Hn' & Ho' & Hp' & Hr').
  pose proof (same_hierarchy_level_up _ _ Hh) as [_ Hrefs].
  split; [exact (same_hierarchy_trans _ _ _ Hh Hh')|]. split; [lia|].
  split; [intros n Hlt; rewrite Ho' by lia; apply Ho; exact Hlt|].
  split.
  - intros n Hlt Hnum. rewrite Hp'; [apply Hp; assumption | lia|].
    rewrite Hrefs, Ho by exact Hlt. exact Hnum.
  - intros inst HnT. destruct (Hr inst HnT) as (ex1 & E1 & F1).
    destruct Hh as (_ & _ & Hown & _).
    destruct (Hr' inst) as (ex2 & E2 & F2); [rewrite Hown; exact HnT|].
    exists (ex1 ++ ex2). split; [rewrite E2, E1, app_assoc; reflexivity|].
    apply Forall_app. split; [|rewrite Hown in F2; exact F2].
    apply list.Forall_forall. intros [p n] Hin.
    rewrite list.Forall_forall in F1. specialize (F1 _ Hin). cbn [snd] in *.
    rewrite Ho'; [exact F1|]. apply (Hex inst p). rewrite E1. apply elem_of_app. right.
    exact Hin.
Qed.

(** What [resolved] says of a net stays true while the data base grows. *)
Lemma resolved_grown (T : N → Prop) (db0 : Db) (nl n t : N) (st st' : state) :
  grown T st st' → resolved db0 nl n t st → resolved db0 nl n t st'.
Proof.
  intros (Hh & Hn & Ho & _) (Hlt & Hend & Hpath & Hsame).
  pose proof (same_hierarchy_level_up _ _ Hh) as [_ Hrefs].
  assert (IsExternalTo st'.1 t nl = IsExternalTo st.1 t nl) as Hext
    by (unfold IsExternalTo; rewrite Ho by exact Hlt; reflexivity).
  split; [lia|]. split; [|split; [|exact Hsame]].
  - rewrite Hext, Hrefs, Ho by exact Hlt. exact Hend.
  - intros k Hk. rewrite Hext. exact (Hpath k Hk).
Qed.

(** One call of [get_net_level_up] *)
Lemma get_net_level_up_grown (T : N → Prop) (net : N) (st : state) :
  consistent st → nets_exist st.1 → (net < next_net st.1)%N →
  let '(up, st') := get_net_level_up net st in
  consistent st' ∧ nets_exist st'.1 ∧ grown T st st'
  ∧ (up < next_net st'.1)%N
  ∧ (NumOfRefs st.1 (net_Owner st.1 net) ≠ 1 ∧ up = net ∧ st' = st
     ∨ level_up st.1 (net_Owner st.1 net) = Some (net_Owner st'.1 up)).
Proof.
  intros Hcons Hex Hnet.
  pose proof (get_net_level_up_frame net st Hcons Hnet) as Hframe.
  destruct st as [db w]. unfold get_net_level_up in *.
  destruct (net_level_up w !! net) as [up|] eqn:Hcache.
  - destruct Hframe as (Hc & Hup & _ & _ & _ & Hstep).
    split; [exact Hc|]. split; [exact Hex|]. split; [apply grown_refl|].
    split; [exact Hup|]. right. destruct Hstep as [[Hn _]|H]; [|exact H].
    destruct (Hcons net up Hcache) as (_ & _ & Hl). exfalso.
    exact (Hn (level_up_refs _ _ _ Hl)).
  - destruct (decide (NumOfRefs db (net_Owner db net) ≠ 1)) as [Hn|Hn].
    + rewrite bool_decide_eq_true_2 in * by exact Hn.
      split; [exact Hcons|]. split; [exact Hex|]. split; [apply grown_refl|].
      split; [exact Hnet|]. left. repeat split. exact Hn.
    + rewrite bool_decide_eq_false_2 in * by exact Hn. cbn [fst snd] in *.
      destruct Hframe as (Hc & Hup & _ & _ & _ & Hstep).
      split; [exact Hc|]. split; [|split; [|split; [exact Hup|]]].
      * intros inst p n. cbn. intros Hin.
        destruct (decide (inst = List.last (GetReferences db (net_Owner db net)) 0%N))
          as [->|Hne].
        -- rewrite fn_lookup_insert in Hin. apply elem_of_app in Hin as [Hin|Hin].
           ++ specialize (Hex _ _ _ Hin). cbn in Hex. lia.
           ++ apply list_elem_of_singleton in Hin. injection Hin as _ ->. lia.
        -- rewrite fn_lookup_insert_ne in Hin by congruence.
           specialize (Hex _ _ _ Hin). cbn in Hex. lia.
      * split; [repeat split|]. cbn. split; [lia|]. split; [|split].
        -- intros n Hlt. apply fn_lookup_insert_ne. lia.
        -- intros n Hlt Hnum. apply fn_lookup_insert_ne. intros <-. contradiction.
        -- intros inst _.
           destruct (decide (inst = List.last (GetReferences db (net_Owner db net)) 0%N))
             as [->|Hne].
           ++ eexists. rewrite fn_lookup_insert. split; [reflexivity|].
              constructor; [|constructor]. cbn. apply fn_lookup_insert.
           ++ exists []. rewrite fn_lookup_insert_ne by congruence. rewrite app_nil_r.
              split; [reflexivity | constructor].
      * destruct Hstep as [[Hn' _]|H]; [contradiction | right; exact H].
Qed.

(** The loop of [run] on one net: it ends when the hierarchy has a root
    within reach of the fuel. *)
Lemma resolve_grown (T : N → Prop) (nl : N) (d : nat) :
  ∀ (fuel : nat) (net : N) (st : state),
    consistent st → nets_exist st.1 → (net < next_net st.1)%N →
    rooted st.1 d (net_Owner st.1 net) → (d < fuel)%nat →
    ∃ t st', resolve fuel nl net st = Some (t, st')
             ∧ consistent st' ∧ nets_exist st'.1 ∧ grown T st st'
             ∧ (t < next_net st'.1)%N
             ∧ (IsExternalTo st'.1 t nl = false ∨ NumOfRefs st'.1 (net_Owner st'.1 t) ≠ 1).
Proof.
  induction d as [|d IH]; intros fuel net st Hcons Hex Hnet Hroot Hfuel;
    (destruct fuel as [|fuel]; [lia|]); cbn [resolve];
    (destruct (IsExternalTo st.1 net nl) eqn:Hext; cbn [negb];
     [|exists net, st; split; [reflexivity|]; split; [exact Hcons|]; split; [exact Hex|];
       split; [apply grown_refl|]; split; [exact Hnet|]; left; exact Hext]);
    pose proof (get_net_level_up_grown T net st Hcons Hex Hnet) as Hstep;
    destruct (get_net_level_up net st) as [newnet st1];
    destruct Hstep as (Hcons1 & Hex1 & Hg1 & Hnew & Hstep);
    pose proof Hg1 as (Hh1 & _ & Ho1 & _);
    pose proof (same_hierarchy_level_up _ _ Hh1) as [Hl1 Hr1].
  - cbn [rooted] in Hroot. destruct Hroot as [Hroot|[]].
    destruct Hstep as [(_ & -> & ->)|Hup];
      [|exfalso; exact (Hroot (level_up_refs _ _ _ Hup))].
    rewrite bool_decide_eq_true_2 by reflexivity.
    exists net, st. split; [reflexivity|]. split; [exact Hcons|]. split; [exact Hex|].
    split; [apply grown_refl|]. split; [exact Hnet|]. right. exact Hroot.
  - destruct Hstep as [(Hn & -> & ->)|Hup].
    { rewrite bool_decide_eq_true_2 by reflexivity.
      exists net, st. split; [reflexivity|]. split; [exact Hcons|]. split; [exact Hex|].
      split; [apply grown_refl|]. split; [exact Hnet|]. right. exact Hn. }
    destruct (decide (newnet = net)) as [->|Hdiff].
    { exfalso. rewrite Ho1 in Hup by exact Hnet.
      exact (rooted_no_loop _ _ _ Hup Hroot). }
    rewrite bool_decide_eq_false_2 by exact Hdiff.
    cbn [rooted] in Hroot. destruct Hroot as [Hroot|(up & Hup' & Hroot)];
      [exfalso; exact (Hroot (level_up_refs _ _ _ Hup))|].
    rewrite Hup in Hup'. injection Hup' as <-.
    destruct (IH fuel newnet st1 Hcons1 Hex1 Hnew (rooted_ext _ _ _ Hh1 _ Hroot) ltac:(lia))
      as (t & st' & Hres & Hcons' & Hex' & Hg' & Ht & Hend).
    exists t, st'. split; [exact Hres|]. split; [exact Hcons'|]. split; [exact Hex'|].
    split; [exact (grown_trans T _ _ _ Hex1 Hg1 Hg')|]. split; [exact Ht | exact Hend].
Qed.

(** The same, with what is known of the net the loop started from *)
Lemma resolve_resolved (T : N → Prop) (nl : N) (d fuel : nat) (net : N) (st : state) :
  consistent st → nets_exist st.1 → (net < next_net st.1)%N →
  rooted st.1 d (net_Owner st.1 net) → (d < fuel)%nat →
  IsExternalTo st.1 net nl = true →
  ∃ t st', resolve fuel nl net st = Some (t, st')
           ∧ consistent st' ∧ nets_exist st'.1 ∧ grown T st st'
           ∧ resolved st.1 nl net t st'.
Proof.
  intros Hcons Hex Hnet Hroot Hfuel Hext.
  destruct (resolve_grown T nl d fuel net st Hcons Hex Hnet Hroot Hfuel)
    as (t & st' & Hres & Hcons' & Hex' & Hg & Ht & Hend).
  exists t, st'. split; [exact Hres|]. split; [exact Hcons'|]. split; [exact Hex'|].
  split; [exact Hg|]. split; [exact Ht|]. split; [exact Hend|]. split.
  - intros k Hpath.
    destruct (resolve_unique_path k fuel nl net st Hcons Hnet Hpath)
      as (t' & st2 & Hres' & Hlocal).
    { pose proof (unique_path_depth _ _ _ _ _ Hpath Hroot). lia. }
    rewrite Hres in Hres'. injection Hres' as <- <-. exact Hlocal.
  - intros Hn. destruct fuel as [|fuel]; [lia|].
    rewrite (resolve_not_unique fuel nl net st Hcons Hn Hext) in Hres.
    injection Hres as <- _. reflexivity.
Qed.

Lemma foldO_invariant {A St : Type} (f : A → St → option St) (I : list A → St → Prop)
    (l : list A) :
  (∀ done x rest s, l = done ++ x :: rest → I done s →
     ∃ s', f x s = Some s' ∧ I (done ++ [x]) s') →
  ∀ s, I [] s → ∃ s', foldO f l s = Some s' ∧ I l s'.
Proof.
  intros Hstep.
  assert (∀ rest done s, l = done ++ rest → I done s →
            ∃ s', foldO f rest s = Some s' ∧ I l s') as Hgen.
  { induction rest as [|x rest IH]; intros done s Hl HI; cbn [foldO].
    - exists s. split; [reflexivity|]. rewrite Hl, app_nil_r. exact HI.
    - destruct (Hstep done x rest s Hl HI) as (s1 & Hx & HI1). rewrite Hx. cbn.
      apply (IH (done ++ [x])); [rewrite <- app_assoc; exact Hl | exact HI1]. }
  intros s. apply (Hgen l []). reflexivity.
Qed.

Lemma filter_agree {A : Type} (P Q : A → Prop) `{∀ x, Decision (P x)} `{∀ x, Decision (Q x)}
    (l : list A) :
  (∀ x, x ∈ l → (P x ↔ Q x)) → filter P l = filter Q l.
Proof.
  induction l as [|x l IH]; intros Hagree; [reflexivity|].
  rewrite !filter_cons.
  rewrite IH by (intros y Hy; apply Hagree; apply elem_of_cons; right; exact Hy).
  pose proof (Hagree x ltac:(apply elem_of_cons; left; reflexivity)) as Hx.
  destruct (decide (P x)), (decide (Q x)); tauto.
Qed.

Lemma filter_none {A : Type} (P : A → Prop) `{∀ x, Decision (P x)} (l : list A) :
  (∀ x, x ∈ l → ¬ P x) → filter P l = [].
Proof.
  induction l as [|x l IH]; intros Hno; [reflexivity|].
  rewrite filter_cons.
  rewrite IH by (intros y Hy; apply Hno; apply elem_of_cons; right; exact Hy).
  destruct (decide (P x)) as [HP|]; [|reflexivity].
  exfalso. exact (Hno x ltac:(apply elem_of_cons; left; reflexivity) HP).
Qed.

Lemma NoDup_fst_inj {A B : Type} (l : list (A * B)) (x : A) (y1 y2 : B) :
  NoDup l.*1 → (x, y1) ∈ l → (x, y2) ∈ l → y1 = y2.
Proof.
  induction l as [|[a b] l IH]; intros Hnd H1 H2; [inversion H1|].
  cbn in Hnd. apply NoDup_cons in Hnd as [Hnot Hnd].
  assert (∀ y, (a, y) ∈ l → False) as Habs.
  { intros y Hy. apply Hnot. apply list_elem_of_fmap. exists (a, y). split; [reflexivity|exact Hy]. }
  apply elem_of_cons in H1 as [E1|H1]; apply elem_of_cons in H2 as [E2|H2].
  - congruence.
  - injection E1 as -> ->. exfalso. exact (Habs _ H2).
  - injection E2 as -> ->. exfalso. exact (Habs _ H1).
  - exact (IH Hnd H1 H2).
Qed.

Section FixPhase.

Variables (nl : N) (fuel d : nat) (st0 : state).
Hypothesis Hown : instances_owned st0.1.
Hypothesis Hroot : ∀ x, rooted st0.1 d x.
Hypothesis Hfuel : (d < fuel)%nat.
Hypothesis Hex0 : nets_exist st0.1.

(** The body of the loop over the port references of one instance *)
Lemma fix_portref_step (inst : N) (sta : state) (refs : list (N * (string * N)))
    (done rest : list (string * N)) (pr : string * N)
    (acc : state * list (N * string * N)) :
  inst ∈ nl_instances st0.1 nl →
  nets_exist sta.1 → grown (λ _, False) st0 sta →
  inst_portrefs sta.1 inst = done ++ pr :: rest →
  grown (λ _, False) sta acc.1
  ∧ fixing st0 nl
      (refs ++ ((λ pr, (inst, pr))
                  <$> filter (λ pr, IsExternalTo sta.1 pr.2 nl = true) done)) acc →
  ∃ acc', fix_portref fuel nl inst pr acc = Some acc'
          ∧ grown (λ _, False) sta acc'.1
          ∧ fixing st0 nl
              (refs ++ ((λ pr, (inst, pr))
                          <$> filter (λ pr, IsExternalTo sta.1 pr.2 nl = true) (done ++ [pr])))
              acc'.
Proof.
  intros Hinst Hexa Hga Hprs (Hg1 & Hcons1 & Hex1 & Hg01 & Htodo).
  destruct acc as [st1 todo]. destruct pr as [p n]. cbn [fst snd] in *.
  assert ((p, n) ∈ inst_portrefs sta.1 inst) as Hin
    by (rewrite Hprs; apply elem_of_app; right; apply list_elem_of_here).
  pose proof (Hexa _ _ _ Hin) as Hna.
  pose proof Hg1 as (_ & Hn1 & Ho1 & _).
  assert (IsExternalTo st1.1 n nl = IsExternalTo sta.1 n nl) as Hext1
    by (unfold IsExternalTo; rewrite Ho1 by exact Hna; reflexivity).
  unfold fix_portref. rewrite Hext1, filter_app, filter_cons, filter_nil. cbn [snd].
  destruct (IsExternalTo sta.1 n nl) eqn:Hext; cbn [negb].
  2:{ exists (st1, todo). split; [reflexivity|]. split; [exact Hg1|].
      rewrite decide_False by discriminate. rewrite app_nil_r.
      split; [exact Hcons1|]. split; [exact Hex1|]. split; [exact Hg01 | exact Htodo]. }
  rewrite decide_True by reflexivity.
  (* an external reference is one the instance had from the start *)
  pose proof Hga as (Hha & Hna0 & Hoa & _ & Hra).
  destruct (Hra inst ltac:(tauto)) as (extras & Eprs & Hextras).
  assert ((p, n) ∈ inst_portrefs st0.1 inst) as Hin0.
  { rewrite Eprs in Hin. apply elem_of_app in Hin as [Hin|Hin]; [exact Hin|].
    rewrite list.Forall_forall in Hextras. specialize (Hextras _ Hin). cbn [snd] in Hextras.
    rewrite (Hown _ _ Hinst) in Hextras. unfold IsExternalTo in Hext.
    rewrite Hextras, N.eqb_refl in Hext. discriminate Hext. }
  pose proof (Hex0 _ _ _ Hin0) as Hn0.
  pose proof Hg01 as (Hh01 & _ & Ho01 & _).
  pose proof (same_hierarchy_level_up _ _ Hh01) as [_ Hr01].
  destruct (resolve_resolved (λ _, False) nl d fuel n st1 Hcons1 Hex1 ltac:(lia)
              (rooted_ext _ _ _ Hh01 _ (Hroot _)) Hfuel)
    as (t & st2 & Hres & Hcons2 & Hex2 & Hg12 & Ht & Hend & Hpath & Hsame).
  { exact Hext1. }
  rewrite Hres. cbn. exists (st2, todo ++ [(inst, p, t)]). split; [reflexivity|].
  cbn [fst snd].
  split; [exact (grown_trans _ _ _ _ Hex1 Hg1 Hg12)|].
  split; [exact Hcons2|]. split; [exact Hex2|].
  split; [exact (grown_trans _ _ _ _ Hex1 Hg01 Hg12)|].
  rewrite fmap_app, app_assoc. apply Forall2_app.
  - eapply Forall2_impl; [exact Htodo|]. intros it ref [Hkey Hres0].
    split; [exact Hkey | exact (resolved_grown _ _ _ _ _ _ _ Hg12 Hres0)].
  - constructor; [|constructor]. cbn [fst snd]. split; [reflexivity|].
    split; [exact Ht|]. split; [exact Hend|]. split.
    + intros k Hk. apply (Hpath k). rewrite Ho01 by exact Hn0.
      exact (unique_path_same _ _ _ _ _ Hh01 Hk).
    + intros Hnum. apply Hsame. rewrite Hr01, Ho01 by exact Hn0. exact Hnum.
Qed.

(** The loop over the port references of one instance *)
Lemma fix_instance_step (inst : N) (done : list N) (acc : state * list (N * string * N)) :
  inst ∈ nl_instances st0.1 nl →
  fixing st0 nl (external_refs st0.1 nl done) acc →
  ∃ acc', foldO (fix_portref fuel nl inst) (inst_portrefs acc.1.1 inst) acc = Some acc'
          ∧ fixing st0 nl (external_refs st0.1 nl (done ++ [inst])) acc'.
Proof.
  intros Hinst Hfix. pose proof Hfix as (Hconsa & Hexa & Hga & _).
  destruct (foldO_invariant (fix_portref fuel nl inst)
              (λ done_prs acc',
                 grown (λ _, False) acc.1 acc'.1
                 ∧ fixing st0 nl
                     (external_refs st0.1 nl done
                      ++ ((λ pr, (inst, pr))
                            <$> filter (λ pr, IsExternalTo acc.1.1 pr.2 nl = true) done_prs))
                     acc')
              (inst_portrefs acc.1.1 inst)) with (s := acc) as (acc' & Hrun & Hg & Hfix').
  - intros done_prs pr rest s Hl HI.
    exact (fix_portref_step inst acc.1 _ done_prs rest pr s Hinst Hexa Hga Hl HI).
  - split; [apply grown_refl|]. cbn. rewrite app_nil_r. exact Hfix.
  - exists acc'. split; [exact Hrun|].
    pose proof Hga as (_ & _ & Hoa & _ & Hra).
    destruct (Hra inst ltac:(tauto)) as (extras & Eprs & Hextras).
    unfold external_refs. rewrite flat_map_app. cbn [flat_map]. rewrite app_nil_r.
    fold (external_refs st0.1 nl done).
    replace (filter (λ pr, IsExternalTo st0.1 pr.2 nl = true) (inst_portrefs st0.1 inst))
      with (filter (λ pr, IsExternalTo acc.1.1 pr.2 nl = true) (inst_portrefs acc.1.1 inst));
      [exact Hfix'|].
    rewrite Eprs, filter_app.
    rewrite (filter_none _ extras), app_nil_r.
    + apply filter_agree. intros [p n] Hin. cbn [snd]. unfold IsExternalTo.
      rewrite Hoa by exact (Hex0 _ _ _ Hin). reflexivity.
    + intros [p n] Hin. rewrite list.Forall_forall in Hextras. specialize (Hextras _ Hin).
      cbn [snd] in *. unfold IsExternalTo. rewrite Hextras, (Hown _ _ Hinst), N.eqb_refl.
      discriminate.
Qed.

(** The two loops over the instances and their port references *)
Lemma fix_loop (cons0 : consistent st0) :
  ∃ acc, foldO (λ inst acc, foldO (fix_portref fuel nl inst) (inst_portrefs acc.1.1 inst) acc)
           (nl_instances st0.1 nl) (st0, []) = Some acc
         ∧ fixing st0 nl (external_refs st0.1 nl (nl_instances st0.1 nl)) acc.
Proof.
  apply (foldO_invariant _ (λ done acc, fixing st0 nl (external_refs st0.1 nl done) acc)).
  - intros done inst rest acc Hl Hfix. apply fix_instance_step; [|exact Hfix].
    rewrite Hl. apply elem_of_app. right. apply list_elem_of_here.
  - split; [exact cons0|]. split; [exact Hex0|]. split; [apply grown_refl | constructor].
Qed.

End FixPhase.

(** Reconnecting a port leaves everything but the port references of the
    instance. *)
Lemma reconnect_portrefs_same (inst : N) (port : string) (net : N) (db : Db) :
  inst_portrefs (reconnect (inst, port, net) db) inst
  = filter (λ pr, pr.1 ≠ port) (inst_portrefs db inst) ++ [(port, net)].
Proof. cbn. rewrite !fn_lookup_insert. reflexivity. Qed.

Lemma reconnect_portrefs_other (inst : N) (port : string) (net : N) (db : Db) (j : N) :
  j ≠ inst → inst_portrefs (reconnect (inst, port, net) db) j = inst_portrefs db j.
Proof. intros Hne. cbn. rewrite !fn_lookup_insert_ne by congruence. reflexivity. Qed.

Lemma reconnect_all_frame (todo : list (N * string * N)) :
  ∀ db, let db' := foldl (λ db it, reconnect it db) db todo in
    net_Owner db' = net_Owner db ∧ net_ports db' = net_ports db
    ∧ nl_ports db' = nl_ports db ∧ next_net db' = next_net db
    ∧ same_hierarchy db db'.
Proof.
  induction todo as [|[[i p] t] todo IH]; intros db; cbn [foldl].
  - repeat split.
  - destruct (IH (reconnect (i, p, t) db)) as (H1 & H2 & H3 & H4 & H5 & H6 & H7 & H8).
    cbn zeta. unfold same_hierarchy. rewrite H1, H2, H3, H4, H5, H6, H7, H8. repeat split.
Qed.

(** A port reference of the end is one that was queued, or one that was
    there and whose port was never queued. *)
Lemma reconnect_all_inv (todo : list (N * string * N)) :
  ∀ db i p t, (p, t) ∈ inst_portrefs (foldl (λ db it, reconnect it db) db todo) i →
    (i, p, t) ∈ todo ∨ ((p, t) ∈ inst_portrefs db i ∧ ∀ t', (i, p, t') ∉ todo).
Proof.
  induction todo as [|[[i0 p0] t0] todo IH]; intros db i p t; cbn [foldl].
  - intros H. right. split; [exact H|]. intros t' Hin. inversion Hin.
  - intros H. destruct (IH _ _ _ _ H) as [Hin|[Hin Hno]].
    + left. apply elem_of_cons. right. exact Hin.
    + destruct (decide (i = i0)) as [->|Hne].
      * rewrite reconnect_portrefs_same in Hin. apply elem_of_app in Hin as [Hin|Hin].
        -- apply list_elem_of_filter in Hin as [Hp Hin]. cbn [fst] in Hp. right.
           split; [exact Hin|]. intros t' Hin'. apply elem_of_cons in Hin' as [E|Hin'].
           ++ congruence.
           ++ exact (Hno t' Hin').
        -- apply list_elem_of_singleton in Hin. injection Hin as -> ->. left.
           apply list_elem_of_here.
      * rewrite reconnect_portrefs_other in Hin by exact Hne. right.
        split; [exact Hin|]. intros t' Hin'. apply elem_of_cons in Hin' as [E|Hin'].
        -- congruence.
        -- exact (Hno t' Hin').
Qed.

(** A port reference whose port is never queued stays. *)
Lemma reconnect_all_keeps (todo : list (N * string * N)) :
  ∀ db i p t, (p, t) ∈ inst_portrefs db i → (∀ t', (i, p, t') ∉ todo) →
    (p, t) ∈ inst_portrefs (foldl (λ db it, reconnect it db) db todo) i.
Proof.
  induction todo as [|[[i0 p0] t0] todo IH]; intros db i p t Hin Hno; cbn [foldl];
    [exact Hin|].
  apply IH.
  - destruct (decide (i = i0)) as [->|Hne].
    + rewrite reconnect_portrefs_same. apply elem_of_app. left.
      apply list_elem_of_filter. split; [|exact Hin]. cbn [fst]. intros ->.
      exact (Hno t0 ltac:(apply list_elem_of_here)).
    + rewrite reconnect_portrefs_other by exact Hne. exact Hin.
  - intros t' Hin'. apply (Hno t'). apply elem_of_cons. right. exact Hin'.
Qed.

(** The port references of an instance that is not queued are as they
    were. *)
Lemma reconnect_all_other (todo : list (N * string * N)) :
  ∀ db i, (∀ p t, (i, p, t) ∉ todo) →
    inst_portrefs (foldl (λ db it, reconnect it db) db todo) i = inst_portrefs db i.
Proof.
  induction todo as [|[[i0 p0] t0] todo IH]; intros db i Hno; cbn [foldl]; [reflexivity|].
  rewrite IH by (intros p t Hin; apply (Hno p t); apply elem_of_cons; right; exact Hin).
  apply reconnect_portrefs_other. intros ->. exact (Hno p0 t0 ltac:(apply list_elem_of_here)).
Qed.

(** A port queued once is connected to the net queued with it. *)
Lemma reconnect_all_connects (todo : list (N * string * N)) :
  ∀ db i p t, (i, p, t) ∈ todo → (∀ t', (i, p, t') ∈ todo → t' = t) →
    (p, t) ∈ inst_portrefs (foldl (λ db it, reconnect it db) db todo) i.
Proof.
  induction todo as [|[[i0 p0] t0] todo IH]; intros db i p t Hin Huniq; [inversion Hin|].
  cbn [foldl]. destruct (decide ((i, p, t) ∈ todo)) as [Hlater|Hnot].
  - apply IH; [exact Hlater|]. intros t' Hin'. apply Huniq. apply elem_of_cons. right.
    exact Hin'.
  - apply elem_of_cons in Hin as [E|Hin]; [|contradiction]. injection E as <- <- <-.
    apply reconnect_all_keeps.
    + rewrite reconnect_portrefs_same. apply elem_of_app. right. apply list_elem_of_here.
    + intros t' Hin'. apply Hnot.
      rewrite (Huniq t' ltac:(apply elem_of_cons; right; exact Hin')) in Hin'. exact Hin'.
Qed.

(** The keys of the external references are distinct when the instances
    are, and the ports of the references of each instance. *)
Lemma external_refs_keys (db : Db) (nl : N) (insts : list N) :
  NoDup insts →
  (∀ i, i ∈ insts →
     NoDup (filter (λ pr, IsExternalTo db pr.2 nl = true) (inst_portrefs db i)).*1) →
  NoDup ((λ ref, (ref.1, ref.2.1)) <$> external_refs db nl insts).
Proof.
  induction insts as [|i insts IH]; intros Hnd Hports; [constructor|].
  apply NoDup_cons in Hnd as [Hi Hnd]. unfold external_refs. cbn [flat_map].
  fold (external_refs db nl insts). rewrite fmap_app. apply NoDup_app. split; [|split].
  - rewrite <- list_fmap_compose.
    specialize (Hports i ltac:(apply list_elem_of_here)).
    revert Hports. generalize (filter (λ pr, IsExternalTo db pr.2 nl = true) (inst_portrefs db i)).
    intros l Hl. induction l as [|[p n] l IHl]; [constructor|].
    cbn in *. apply NoDup_cons in Hl as [Hp Hl]. apply NoDup_cons. split; [|exact (IHl Hl)].
    intros Hin. apply Hp. apply list_elem_of_fmap in Hin as ([p' n'] & E & Hin).
    cbn in E. injection E as ->. apply list_elem_of_fmap. exists (p', n').
    split; [reflexivity | exact Hin].
  - intros key Hin1 Hin2.
    apply list_elem_of_fmap in Hin1 as (ref1 & -> & Hin1).
    apply list_elem_of_fmap in Hin1 as (pr & -> & _). cbn [fst snd] in Hin2.
    apply list_elem_of_fmap in Hin2 as (ref2 & E & Hin2).
    unfold external_refs in Hin2. apply elem_of_flat_map in Hin2 as (j & Hj & Hin2).
    apply list_elem_of_fmap in Hin2 as (pr2 & -> & _). cbn [fst snd] in E.
    injection E as -> _. exact (Hi Hj).
  - apply IH; [exact Hnd|]. intros j Hj. apply Hports. apply elem_of_cons. right. exact Hj.
Qed.

(** The instances of the external references are among those given. *)
Lemma external_refs_inst (db : Db) (nl : N) (insts : list N) (ref : N * (string * N)) :
  ref ∈ external_refs db nl insts →
  ref.1 ∈ insts ∧ ref.2 ∈ inst_portrefs db ref.1 ∧ IsExternalTo db ref.2.2 nl = true.
Proof.
  unfold external_refs. intros Hin. apply elem_of_flat_map in Hin as (i & Hi & Hin).
  apply list_elem_of_fmap in Hin as (pr & -> & Hin).
  apply list_elem_of_filter in Hin as [Hext Hin]. cbn [fst snd]. repeat split; assumption.
Qed.

Lemma external_refs_elem (db : Db) (nl : N) (insts : list N) (i : N) (pr : string * N) :
  i ∈ insts → pr ∈ inst_portrefs db i → IsExternalTo db pr.2 nl = true →
  (i, pr) ∈ external_refs db nl insts.
Proof.
  intros Hi Hpr Hext. unfold external_refs. apply elem_of_flat_map. exists i.
  split; [exact Hi|]. apply list_elem_of_fmap. exists pr. split; [reflexivity|].
  apply list_elem_of_filter. split; assumption.
Qed.

(** [run] on one level of the hierarchy *)
Lemma run_level_spec (nl : N) (fuel d : nat) (st0 : state) :
  consistent st0 → nets_exist st0.1 → instances_owned st0.1 →
  (∀ x, rooted st0.1 d x) → (d < fuel)%nat →
  ∃ st', run_level fuel nl st0 = Some st'
    ∧ consistent st' ∧ nets_exist st'.1 ∧ grown (λ x, x = nl) st0 st'
    ∧ (∀ i p t, i ∈ nl_instances st0.1 nl → (p, t) ∈ inst_portrefs st'.1 i →
         IsExternalTo st'.1 t nl = false ∨ NumOfRefs st'.1 (net_Owner st'.1 t) ≠ 1)
    ∧ (NoDup (nl_instances st0.1 nl) →
       (∀ i, i ∈ nl_instances st0.1 nl →
          NoDup (filter (λ pr, IsExternalTo st0.1 pr.2 nl = true) (inst_portrefs st0.1 i)).*1) →
       ∀ i p n, i ∈ nl_instances st0.1 nl → (p, n) ∈ inst_portrefs st0.1 i →
         IsExternalTo st0.1 n nl = true →
         ∃ t, (p, t) ∈ inst_portrefs st'.1 i ∧ resolved st0.1 nl n t st').
Proof.
  intros Hcons0 Hex0 Hown Hroot Hfuel.
  destruct (fix_loop nl fuel d st0 Hown Hroot Hfuel Hex0 Hcons0)
    as ([st1 todo] & Hloop & Hcons1 & Hex1 & Hg1 & Htodo).
  cbn [fst snd] in *. unfold run_level. rewrite Hloop. cbn.
  set (db' := foldl (λ db it, reconnect it db) st1.1 todo).
  destruct (reconnect_all_frame todo st1.1) as (Ho' & Hp' & _ & Hn' & Hh'). fold db' in Ho', Hp', Hn', Hh'.
  pose proof Hg1 as (Hh1 & Hn1 & Ho1 & Hp1 & Hr1).
  pose proof (same_hierarchy_level_up _ _ Hh1) as [Hl1 Hrefs1].
  pose proof (same_hierarchy_level_up _ _ Hh') as [Hl' Hrefs'].
  (* what the queue holds *)
  assert (Hq : ∀ i p t, (i, p, t) ∈ todo →
            ∃ n, (i, (p, n)) ∈ external_refs st0.1 nl (nl_instances st0.1 nl)
                 ∧ resolved st0.1 nl n t st1).
  { intros i p t Hin. apply list_elem_of_lookup in Hin as [k Hk].
    destruct (Forall2_lookup_l _ _ _ _ _ Htodo Hk) as ([i' [p' n]] & Hk' & Hkey & Hres).
    cbn [fst snd] in *. injection Hkey as <- <-. exists n.
    split; [exact (list_elem_of_lookup_2 _ _ _ Hk') | exact Hres]. }
  assert (Hcover : ∀ i p n, (i, (p, n)) ∈ external_refs st0.1 nl (nl_instances st0.1 nl) →
            ∃ t, (i, p, t) ∈ todo ∧ resolved st0.1 nl n t st1).
  { intros i p n Hin. apply list_elem_of_lookup in Hin as [k Hk].
    destruct (Forall2_lookup_r _ _ _ _ _ Htodo Hk) as ([[i' p'] t] & Hk' & Hkey & Hres).
    cbn [fst snd] in *. injection Hkey as -> ->. exists t.
    split; [exact (list_elem_of_lookup_2 _ _ _ Hk') | exact Hres]. }
  assert (Hres' : ∀ n t, resolved st0.1 nl n t st1 → resolved st0.1 nl n t (db', st1.2)).
  { intros n t (Ht & Hend & Hpath & Hsame). unfold resolved, IsExternalTo in *. cbn [fst].
    rewrite Hn', Ho', Hrefs'. repeat split; assumption. }
  exists (db', st1.2). split; [reflexivity|]. split; [|split; [|split; [|split]]].
  - intros n up Hup. destruct (Hcons1 n up Hup) as (H1 & H2 & H3). cbn [fst snd].
    rewrite Hn', Ho', Hl'. repeat split; assumption.
  - intros i p t Hin. cbn [fst] in *. rewrite Hn'.
    apply reconnect_all_inv in Hin as [Hin|[Hin _]].
    + destruct (Hq i p t Hin) as (n & _ & Ht & _). exact Ht.
    + exact (Hex1 _ _ _ Hin).
  - unfold grown. cbn [fst]. split; [exact (same_hierarchy_trans _ _ _ Hh1 Hh')|].
    split; [rewrite Hn'; exact Hn1|]. split; [rewrite Ho'; exact Ho1|].
    split; [rewrite Hp'; exact Hp1|].
    intros i Hi. destruct (Hr1 i ltac:(tauto)) as (extras & E & Hextras).
    exists extras. rewrite Ho'. split; [|exact Hextras]. rewrite <- E.
    apply reconnect_all_other. intros p t Hin.
    destruct (Hq i p t Hin) as (n & Href & _).
    apply external_refs_inst in Href as [Href _]. cbn [fst] in Href.
    exact (Hi (Hown _ _ Href)).
  - intros i p t Hi Hin. cbn [fst] in *.
    apply reconnect_all_inv in Hin as [Hin|[Hin Hno]].
    + destruct (Hq i p t Hin) as (n & _ & Hres). apply Hres' in Hres.
      destruct Hres as (_ & Hend & _). exact Hend.
    + left. destruct (Hr1 i ltac:(tauto)) as (extras & E & Hextras).
      unfold IsExternalTo. rewrite Ho'. rewrite E in Hin.
      apply elem_of_app in Hin as [Hin|Hin].
      * destruct (IsExternalTo st0.1 t nl) eqn:Hext.
        -- exfalso. destruct (Hcover i p t (external_refs_elem _ _ _ i (p, t) Hi Hin Hext))
             as (t' & Hin' & _). exact (Hno t' Hin').
        -- unfold IsExternalTo in Hext. rewrite Ho1 by exact (Hex0 _ _ _ Hin). exact Hext.
      * rewrite list.Forall_forall in Hextras. specialize (Hextras _ Hin). cbn [snd] in Hextras.
        rewrite Hextras, (Hown _ _ Hi), N.eqb_refl. reflexivity.
  - intros Hnd Hports i p n Hi Hin Hext.
    destruct (Hcover i p n (external_refs_elem _ _ _ i (p, n) Hi Hin Hext))
      as (t & Hint & Hres).
    exists t. split; [|exact (Hres' _ _ Hres)]. cbn [fst].
    apply reconnect_all_connects; [exact Hint|]. intros t' Hint'.
    pose proof (external_refs_keys st0.1 nl _ Hnd Hports) as Hkeys.
    assert ((λ it : N * string * N, it.1) <$> todo
            = (λ ref : N * (string * N), (ref.1, ref.2.1))
                <$> external_refs st0.1 nl (nl_instances st0.1 nl)) as Hsame.
    { clear - Htodo. induction Htodo as [|it ref todo refs [Hkey _] _ IH]; [reflexivity|].
      cbn. rewrite Hkey, IH. reflexivity. }
    rewrite <- Hsame in Hkeys.
    exact (NoDup_fst_inj todo (i, p) t' t Hkeys Hint' Hint).
Qed.

Lemma below_same (db db' : Db) (k : nat) :
  same_hierarchy db db' → ∀ nl x, below db k nl x → below db' k nl x.
Proof.
  intros (_ & Hi & _ & Hv). induction k as [|k IH]; intros nl x; cbn [below];
    (intros [H|H]; [left; exact H | right]); [exact H|].
  destruct H as (inst & Hinst & Hb). exists inst. rewrite Hi, Hv.
  split; [exact Hinst | exact (IH _ _ Hb)].
Qed.

(** A netlist whose instances are not reconnected stays settled. *)
Lemma settled_grown (T : N → Prop) (x : N) (st st' : state) :
  nets_exist st.1 → instances_owned st.1 → ¬ T x → grown T st st' →
  settled st.1 x → settled st'.1 x.
Proof.
  intros Hex Hown HT (Hh & _ & Ho & _ & Hr) Hset inst port net Hinst Hin.
  pose proof (same_hierarchy_level_up _ _ Hh) as [_ Hrefs].
  destruct Hh as (_ & Hi & _). rewrite Hi in Hinst.
  destruct (Hr inst) as (extras & E & Hextras); [rewrite (Hown _ _ Hinst); exact HT|].
  rewrite E in Hin. apply elem_of_app in Hin as [Hin|Hin].
  - unfold IsExternalTo. rewrite Hrefs, Ho by exact (Hex _ _ _ Hin).
    exact (Hset inst port net Hinst Hin).
  - left. rewrite list.Forall_forall in Hextras. specialize (Hextras _ Hin). cbn [snd] in Hextras.
    unfold IsExternalTo. rewrite Hextras, (Hown _ _ Hinst), N.eqb_refl. reflexivity.
Qed.

(** [run]: the views of the instances first, then the netlist itself *)
Lemma run_spec (rank : N → nat) (fuel d : nat) :
  (d < fuel)%nat →
  ∀ (depth : nat) (nl : N) (st : state),
    consistent st → nets_exist st.1 → instances_owned st.1 → ranked st.1 rank →
    (∀ x, rooted st.1 d x) → (rank nl < depth)%nat →
    ∃ st', run depth fuel nl st = Some st'
      ∧ consistent st' ∧ nets_exist st'.1
      ∧ grown (λ x, (rank x ≤ rank nl)%nat) st st'
      ∧ (∀ x, settled st.1 x → settled st'.1 x)
      ∧ (∀ k x, depth = S k → below st.1 k nl x → settled st'.1 x)
      ∧ (NoDup (nl_instances st.1 nl) →
         (∀ i, i ∈ nl_instances st.1 nl → NoDup (inst_portrefs st.1 i).*1) →
         ∀ i p n, i ∈ nl_instances st.1 nl → (p, n) ∈ inst_portrefs st.1 i →
           IsExternalTo st.1 n nl = true →
           ∃ t, (p, t) ∈ inst_portrefs st'.1 i ∧ resolved st.1 nl n t st').
Proof.
  intros Hfuel. induction depth as [|depth IH];
    intros nl st Hcons Hex Hown Hrank Hroot Hdepth; [lia|].
  cbn [run].
  destruct (foldO_invariant
              (λ inst st, run depth fuel (inst_View st.1 inst) st)
              (λ done s, consistent s ∧ nets_exist s.1
                         ∧ grown (λ x, (rank x < rank nl)%nat) st s
                         ∧ (∀ x, settled st.1 x → settled s.1 x)
                         ∧ (∀ k x inst, depth = S k → inst ∈ done →
                              below st.1 k (inst_View st.1 inst) x → settled s.1 x))
              (nl_instances st.1 nl)) with (s := st)
    as (st0 & Hkids & Hcons0 & Hex0 & Hg0 & Hkeep0 & Hbelow0).
  { intros done inst rest s Hl (Hcs & Hexs & Hgs & Hkeeps & Hbelows).
    pose proof Hgs as (Hhs & _).
    assert (inst ∈ nl_instances st.1 nl) as Hinst
      by (rewrite Hl; apply elem_of_app; right; apply list_elem_of_here).
    assert (inst_View s.1 inst = inst_View st.1 inst) as Hview
      by (destruct Hhs as (_ & _ & _ & ->); reflexivity).
    assert (rank (inst_View s.1 inst) < rank nl)%nat as Hlow
      by (rewrite Hview; exact (Hrank _ _ Hinst)).
    destruct (IH (inst_View s.1 inst) s Hcs Hexs (instances_owned_same _ _ Hhs Hown)
                (ranked_same _ _ _ Hhs Hrank) (λ x, rooted_ext _ _ _ Hhs _ (Hroot x))
                ltac:(lia))
      as (s' & Hrun & Hcs' & Hexs' & Hgs' & Hkeep' & Hbelow' & _).
    exists s'. split; [exact Hrun|]. split; [exact Hcs'|]. split; [exact Hexs'|].
    split; [|split].
    - apply (grown_trans _ _ _ _ Hexs Hgs).
      apply (grown_weaken (λ x, (rank x ≤ rank (inst_View s.1 inst))%nat)); [|exact Hgs'].
      intros x Hx. lia.
    - intros x Hx. exact (Hkeep' x (Hkeeps x Hx)).
    - intros k x inst0 Hk Hin0 Hb. apply elem_of_app in Hin0 as [Hin0|Hin0].
      + exact (Hkeep' x (Hbelows k x inst0 Hk Hin0 Hb)).
      + apply list_elem_of_singleton in Hin0 as ->. apply (Hbelow' k x Hk).
        rewrite Hview. exact (below_same _ _ _ Hhs _ _ Hb). }
  { split; [exact Hcons|]. split; [exact Hex|]. split; [apply grown_refl|].
    split; [tauto|]. intros k x inst _ Hin. inversion Hin. }
  rewrite Hkids. cbn.
  pose proof Hg0 as (Hh0 & Hn0 & Ho0 & _ & Hr0).
  pose proof (same_hierarchy_level_up _ _ Hh0) as [_ Hrefs0].
  pose proof (instances_owned_same _ _ Hh0 Hown) as Hown0.
  assert (nl_instances st0.1 nl = nl_instances st.1 nl) as Hinsts
    by (destruct Hh0 as (_ & -> & _); reflexivity).
  destruct (run_level_spec nl fuel d st0 Hcons0 Hex0 Hown0
              (λ x, rooted_ext _ _ _ Hh0 _ (Hroot x)) Hfuel)
    as (st' & Hrun & Hcons' & Hex' & Hg' & HG & HP).
  rewrite Hinsts in HP.
  assert (settled st'.1 nl) as Hnl.
  { intros i p t Hi Hin. apply (HG i p t); [|exact Hin].
    destruct Hg' as ((_ & Hi' & _) & _). rewrite Hi' in Hi. exact Hi. }
  assert (Hlast : ∀ x, settled st0.1 x → settled st'.1 x).
  { intros x Hx. destruct (decide (x = nl)) as [->|Hne]; [exact Hnl|].
    exact (settled_grown (λ x, x = nl) x st0 st' Hex0 Hown0 Hne Hg' Hx). }
  exists st'. split; [exact Hrun|]. split; [exact Hcons'|]. split; [exact Hex'|].
  split; [|split; [|split]].
  { apply (grown_trans _ st st0 st' Hex0).
    - apply (grown_weaken (λ x, (rank x < rank nl)%nat)); [intros x Hx; lia | exact Hg0].
    - apply (grown_weaken (λ x, x = nl)); [intros x ->; lia | exact Hg']. }
  { intros x Hx. exact (Hlast x (Hkeep0 x Hx)). }
  { intros k x [= <-]. destruct depth as [|k]; cbn [below]; (intros [->|Hb]; [exact Hnl|]);
      [contradiction|].
    destruct Hb as (inst & Hinst & Hb). exact (Hlast x (Hbelow0 k x inst eq_refl Hinst Hb)). }
  intros Hnd Hports i p n Hi Hin Hext.
  assert (Hmine : ∃ extras, inst_portrefs st0.1 i = inst_portrefs st.1 i ++ extras
            ∧ Forall (λ pr, net_Owner st0.1 pr.2 = nl) extras).
  { destruct (Hr0 i) as (extras & E & Hextras); [rewrite (Hown _ _ Hi); lia|].
    exists extras. rewrite (Hown _ _ Hi) in Hextras. split; assumption. }
  destruct (HP Hnd) with (i := i) (p := p) (n := n) as (t & Hint & Ht & Hend & Hpath & Hsame).
  - intros j Hj.
    destruct (Hr0 j) as (extras & E & Hextras); [rewrite (Hown _ _ Hj); lia|].
    rewrite (Hown _ _ Hj) in Hextras. rewrite E, filter_app.
    rewrite (filter_none _ extras), app_nil_r.
    + apply (sublist_NoDup _ _ (Hports j Hj)). apply fmap_sublist, sublist_filter.
    + intros [q m] Hqm. rewrite list.Forall_forall in Hextras. specialize (Hextras _ Hqm).
      cbn [snd] in *. unfold IsExternalTo. rewrite Hextras, N.eqb_refl. discriminate.
  - exact Hi.
  - destruct Hmine as (extras & E & _). rewrite E. apply elem_of_app. left. exact Hin.
  - unfold IsExternalTo in *. rewrite Ho0 by exact (Hex _ _ _ Hin). exact Hext.
  - exists t. split; [exact Hint|]. split; [exact Ht|]. split; [exact Hend|]. split.
    + intros k Hk. apply (Hpath k). rewrite Ho0 by exact (Hex _ _ _ Hin).
      exact (unique_path_same _ _ _ _ _ Hh0 Hk).
    + intros Hnum. apply Hsame. rewrite Hrefs0, Ho0 by exact (Hex _ _ _ Hin). exact Hnum.
Qed.

End ExtNetsRun.

(** C9. The resolver, run on a netlist of a hierarchy without cycles whose
    root is within reach, ends.  Afterwards, in the netlist and in every
    netlist below it that the run descends to, every net on a port of an
    instance is a net of the netlist of the instance, or a net of a netlist
    that is not referenced exactly once (in particular one instantiated
    more than once).  A reference, in the netlist the run is called on, to
    a net of the latter kind is left as it was: it is still there and still
    external, the net has kept its ports and its netlist, and no net a
    level up is recorded for it.  A reference to a net whose netlist has a
    unique instantiation path up to the netlist has been moved to a net of
    the netlist, and no instance of the netlist refers to the external net
    any more; the loop that climbs from such a net ends within as many
    iterations as the path has levels. *)
Theorem external_net_resolution (rank : N → nat) (levels fuel d : nat)
    (st : ExtNets.state) (nl : N) :
  ExtNets.consistent st → ExtNets.nets_exist st.1 →
  ExtNets.instances_owned st.1 → ExtNets.ranked st.1 rank →
  (∀ x, ExtNets.rooted st.1 d x) → (d < fuel)%nat → (rank nl ≤ levels)%nat →
  ∃ st', ExtNets.run (S levels) fuel nl st = Some st'
    ∧ (∀ x inst port net, ExtNets.below st.1 levels nl x →
         inst ∈ ExtNets.nl_instances st.1 x →
         (port, net) ∈ ExtNets.inst_portrefs st'.1 inst →
         ExtNets.IsExternalTo st'.1 net x = false
         ∨ ExtNets.NumOfRefs st'.1 (ExtNets.net_Owner st'.1 net) ≠ 1)
    ∧ (NoDup (ExtNets.nl_instances st.1 nl) →
       (∀ inst, inst ∈ ExtNets.nl_instances st.1 nl →
          NoDup (ExtNets.inst_portrefs st.1 inst).*1) →
       ∀ inst port net,
         inst ∈ ExtNets.nl_instances st.1 nl →
         (port, net) ∈ ExtNets.inst_portrefs st.1 inst →
         ExtNets.IsExternalTo st.1 net nl = true →
         (ExtNets.NumOfRefs st.1 (ExtNets.net_Owner st.1 net) ≠ 1 →
          (port, net) ∈ ExtNets.inst_portrefs st'.1 inst
          ∧ ExtNets.IsExternalTo st'.1 net nl = true
          ∧ ExtNets.net_ports st'.1 net = ExtNets.net_ports st.1 net
          ∧ ExtNets.net_Owner st'.1 net = ExtNets.net_Owner st.1 net
          ∧ ExtNets.net_level_up st'.2 !! net = None)
         ∧ (∀ k, ExtNets.unique_path st.1 k (ExtNets.net_Owner st.1 net) nl →
              (∃ net', (port, net') ∈ ExtNets.inst_portrefs st'.1 inst
                       ∧ ExtNets.IsExternalTo st'.1 net' nl = false)
              ∧ (∀ inst' port', inst' ∈ ExtNets.nl_instances st.1 nl →
                   (port', net) ∉ ExtNets.inst_portrefs st'.1 inst')
              ∧ ∀ fuel', (k ≤ fuel')%nat →
                  ∃ net' st1, ExtNets.resolve fuel' nl net st = Some (net', st1)
                              ∧ ExtNets.IsExternalTo st1.1 net' nl = false)).
Proof.
  intros Hcons Hex Hown Hrank Hroot Hfuel Hdepth.
  destruct (run_spec rank fuel d Hfuel (S levels) nl st Hcons Hex Hown Hrank Hroot
              ltac:(lia))
    as (st' & Hrun & Hcons' & Hex' & Hg & _ & Hbelow & HP).
  pose proof Hg as (Hh & _ & Ho & Hp & _).
  pose proof (same_hierarchy_level_up _ _ Hh) as [Hl Hrefs].
  assert (Hinsts : ∀ x, ExtNets.nl_instances st'.1 x = ExtNets.nl_instances st.1 x)
    by (destruct Hh as (_ & -> & _); reflexivity).
  exists st'. split; [exact Hrun|]. split.
  { intros x inst port net Hx Hinst. apply (Hbelow levels x eq_refl Hx inst port net).
    rewrite Hinsts. exact Hinst. }
  intros Hnd Hports inst port net Hinst Hin Hext.
  pose proof (Hex _ _ _ Hin) as Hnet.
  assert (ExtNets.IsExternalTo st'.1 net nl = true) as Hext'
    by (unfold ExtNets.IsExternalTo in *; rewrite Ho by exact Hnet; exact Hext).
  destruct (HP Hnd Hports inst port net Hinst Hin Hext) as (t & Hint & _ & _ & Hpath & Hsame).
  split.
  - intros Hnum. rewrite (Hsame Hnum) in Hint.
    split; [exact Hint|]. split; [exact Hext'|]. split; [exact (Hp net Hnet Hnum)|].
    split; [exact (Ho net Hnet)|].
    destruct (ExtNets.net_level_up st'.2 !! net) as [up|] eqn:Hup; [|reflexivity].
    exfalso. destruct (Hcons' net up Hup) as (_ & _ & Hlevel).
    rewrite Hl, Ho in Hlevel by exact Hnet. exact (Hnum (level_up_refs _ _ _ Hlevel)).
  - intros k Hk. split; [|split].
    + exists t. split; [exact Hint | exact (Hpath k Hk)].
    + intros inst' port' Hinst' Hin'.
      assert (inst' ∈ ExtNets.nl_instances st'.1 nl) as Hinst''
        by (rewrite Hinsts; exact Hinst').
      destruct (Hbelow levels nl eq_refl ltac:(destruct levels; left; reflexivity)
                  inst' port' net Hinst'' Hin') as [Hlocal|Hnum]; [congruence|].
      rewrite Hrefs, Ho in Hnum by exact Hnet.
      destruct k as [|k]; cbn in Hk.
      * unfold ExtNets.IsExternalTo in Hext. rewrite Hk, N.eqb_refl in Hext. discriminate.
      * destruct Hk as (_ & up & Hup & _). exact (Hnum (level_up_refs _ _ _ Hup)).
    + intros fuel' Hfuel'. exact (resolve_unique_path k fuel' nl net st Hcons Hnet Hk Hfuel').
Qed.

Lemma external_net_resolution_witness :
  ∃ st', ExtNets.run 4 3 1 Sample.run_start = Some st'
    ∧ (∀ port net, (port, net) ∈ ExtNets.inst_portrefs st'.1 11 →
         ExtNets.IsExternalTo st'.1 net 2 = false
         ∨ ExtNets.NumOfRefs st'.1 (ExtNets.net_Owner st'.1 net) ≠ 1)
    ∧ (("b", 101%N) ∈ ExtNets.inst_portrefs st'.1 14
       ∧ ExtNets.IsExternalTo st'.1 101 1 = true
       ∧ ExtNets.net_ports st'.1 101 = [])
    ∧ (∃ net', ("a", net') ∈ ExtNets.inst_portrefs st'.1 14
               ∧ ExtNets.IsExternalTo st'.1 net' 1 = false)
    ∧ (∀ inst' port', inst' ∈ [10; 12; 13; 14]%N →
         (port', 100%N) ∉ ExtNets.inst_portrefs st'.1 inst').
Proof.
  assert (ExtNets.consistent Sample.run_start) as Hcons.
  { intros n u H. cbn in H. rewrite lookup_empty in H. discriminate H. }
  assert (ExtNets.nets_exist Sample.run_start.1) as Hex.
  { intros inst port net. cbn. destruct (inst =? 14)%N; intros H;
      repeat (apply elem_of_cons in H as [H|H]; [injection H as _ ->; lia|]); inversion H. }
  assert (ExtNets.instances_owned Sample.run_start.1) as Hown.
  { intros x inst. cbn. destruct (N.eqb_spec x 1) as [->|_];
      [|destruct (N.eqb_spec x 2) as [->|_]]; intros H;
      repeat (apply elem_of_cons in H as [->|H]; [reflexivity|]); inversion H. }
  assert (ExtNets.ranked Sample.run_start.1 Sample.run_rank) as Hrank.
  { intros x inst. cbn. unfold Sample.run_rank. destruct (N.eqb_spec x 1) as [->|_];
      [|destruct (N.eqb_spec x 2) as [->|_]]; intros H;
      repeat (apply elem_of_cons in H as [->|H]; [cbn; lia|]); inversion H. }
  assert (∀ x, ExtNets.rooted Sample.run_start.1 2 x) as Hroot.
  { intros x. cbn [ExtNets.rooted]. unfold ExtNets.NumOfRefs, ExtNets.level_up. cbn.
    destruct (N.eqb_spec x 2) as [->|_].
    { right. exists 1%N. split; [reflexivity|]. left. cbn. lia. }
    destruct (N.eqb_spec x 3) as [->|_].
    { right. exists 2%N. split; [reflexivity|]. right. exists 1%N.
      split; [reflexivity|]. left. cbn. lia. }
    destruct (N.eqb_spec x 4) as [->|_]; [left; cbn; lia|].
    destruct (N.eqb_spec x 5) as [->|_]; [|left; cbn; lia].
    right. exists 1%N. split; [reflexivity|]. left. cbn. lia. }
  destruct (external_net_resolution Sample.run_rank 3 3 2 Sample.run_start 1
              Hcons Hex Hown Hrank Hroot ltac:(lia) ltac:(cbn; lia))
    as (st' & Hrun & Hbelow & Hrefs).
  exists st'. split; [exact Hrun|]. split.
  { intros port net. apply (Hbelow 2%N 11%N port net).
    - right. exists 10%N. split; [|left; reflexivity].
      cbn. apply list_elem_of_here.
    - cbn. apply list_elem_of_here. }
  assert (NoDup (ExtNets.nl_instances Sample.run_start.1 1)) as Hnd.
  { cbn. repeat (apply NoDup_cons; split;
      [intros H; repeat (apply elem_of_cons in H as [H|H]; [discriminate H|]); inversion H|]).
    constructor. }
  assert (∀ inst, inst ∈ ExtNets.nl_instances Sample.run_start.1 1 →
            NoDup (ExtNets.inst_portrefs Sample.run_start.1 inst).*1) as Hports.
  { intros inst _. cbn. destruct (inst =? 14)%N; [|constructor]. cbn.
    repeat (apply NoDup_cons; split;
      [intros H; repeat (apply elem_of_cons in H as [H|H]; [discriminate H|]); inversion H|]).
    constructor. }
  assert (14%N ∈ ExtNets.nl_instances Sample.run_start.1 1) as H14
    by (cbn; repeat first [apply list_elem_of_here | apply list_elem_of_further]).
  destruct (Hrefs Hnd Hports 14%N "b" 101%N H14
              ltac:(cbn; apply list_elem_of_further, list_elem_of_here) eq_refl)
    as [Htwice _].
  destruct (Hrefs Hnd Hports 14%N "a" 100%N H14
              ltac:(cbn; apply list_elem_of_here) eq_refl)
    as [_ Hleaf].
  split; [|split].
  - destruct (Htwice ltac:(intros H; vm_compute in H; discriminate H)) as (H1 & H2 & H3 & _).
    repeat split; assumption.
  - apply (Hleaf 2%nat). cbn. split; [discriminate|]. exists 2%N. split; [reflexivity|].
    split; [discriminate|]. exists 1%N. split; reflexivity.
  - apply (Hleaf 2%nat). cbn. split; [discriminate|]. exists 2%N. split; [reflexivity|].
    split; [discriminate|]. exists 1%N. split; reflexivity.
Defined.

(** ** The sequence preprocessor *)

(** C10. The preprocessing pass leaves the data base as it finds it, for
    an assertion, an assumption and a cover property alike: [run] sets two
    members of its worker and returns, its rewrite rule is not called. *)
Theorem sequence_preprocessing_is_identity
    (owner : N) (imp : VerificImporter) (inst : N) (g : SvaPP.Graph) :
  SvaPP.svapp_assert owner imp inst g = g
  ∧ SvaPP.svapp_assume owner imp inst g = g
  ∧ SvaPP.svapp_cover owner imp inst g = g
  ∧ ∀ w : SvaPP.VerificSvaPP, (SvaPP.run owner w g).2 = g.
Proof. repeat split. Qed.

(** The rule itself is not idle: called on the cover property of the
    sample it would build a concatenation (instance 60, driving net 61) and
    move the input of the cover statement from net 50 to it, where the
    pass as it stands leaves the input on net 50. *)
Example impl_to_seq_would_rewrite :
  (∃ g', SvaPP.impl_to_seq 3 Sample.pp_cover (Some 1%N) Sample.pp_graph = Some (None, g')
         ∧ SvaPP.inst_Input g' 1 = Some 61%N
         ∧ SvaPP.inst_Type g' 60 = PRIM_SVA_SEQ_CONCAT
         ∧ SvaPP.inst_Input1 g' 60 = Some 51%N
         ∧ SvaPP.inst_Input2 g' 60 = Some 52%N)
  ∧ SvaPP.inst_Input (SvaPP.svapp_cover 1 Sample.imp 1 Sample.pp_graph) 1 = Some 50%N.
Proof.
  split; [|reflexivity]. eexists. split; [reflexivity|]. repeat split.
Qed.

(** ** The register coalescer *)

(** *** The order of signal bits *)

Lemma Z_cmp_lt (i j : Z) : (i ?= j) = Lt → i < j.
Proof. exact (proj1 (Z.compare_lt_iff i j)). Qed.

Lemma Z_lt_cmp (i j : Z) : i < j → (i ?= j) = Lt.
Proof. exact (proj2 (Z.compare_lt_iff i j)). Qed.

Lemma Z_cmp_gt (i j : Z) : (i ?= j) = Gt → j < i.
Proof. exact (proj1 (Z.compare_gt_iff i j)). Qed.

Lemma String_compare_refl (s : string) : String_as_OT.compare s s = Eq.
Proof.
  destruct (String_as_OT.compare_spec s s) as [_|H|H]; [reflexivity| |];
    exfalso; exact (StrictOrder_Irreflexive s H).
Qed.

Lemma String_compare_Gt (s t : string) :
  String_as_OT.compare s t = Gt → String_as_OT.compare t s = Lt.
Proof.
  intros H. destruct (String_as_OT.compare_spec s t) as [_|_|Hts]; try discriminate.
  exact Hts.
Qed.

Lemma IdString_compare_refl (a : IdString) : IdString_compare a a = Eq.
Proof. destruct a; cbn [IdString_compare]; [apply String_compare_refl | apply Z.compare_refl]. Qed.

Lemma IdString_compare_Eq (a b : IdString) : IdString_compare a b = Eq → a = b.
Proof.
  destruct a as [s|i], b as [t|j]; cbn [SigBit_compare IdString_compare]; try discriminate.
  - intros H. destruct (String_as_OT.compare_spec s t) as [->| |]; try discriminate. reflexivity.
  - intros H. apply Z.compare_eq in H. congruence.
Qed.

Lemma IdString_compare_Gt (a b : IdString) :
  IdString_compare a b = Gt → IdString_compare b a = Lt.
Proof.
  destruct a as [s|i], b as [t|j]; cbn [SigBit_compare IdString_compare]; try discriminate; try reflexivity.
  - apply String_compare_Gt.
  - intros H%Z_cmp_gt. apply Z_lt_cmp. exact H.
Qed.

Lemma IdString_compare_trans (a b c : IdString) :
  IdString_compare a b = Lt → IdString_compare b c = Lt → IdString_compare a c = Lt.
Proof.
  destruct a as [s|i], b as [t|j], c as [u|k]; cbn [SigBit_compare IdString_compare]; try discriminate; try reflexivity.
  - intros H1 H2. exact (StrictOrder_Transitive s t u H1 H2).
  - intros H1%Z_cmp_lt H2%Z_cmp_lt. apply Z_lt_cmp. lia.
Qed.

Lemma SigBit_compare_refl (a : SigBit) : SigBit_compare a a = Eq.
Proof.
  destruct a as [w i|s]; cbn [SigBit_compare]; [|apply Z.compare_refl].
  rewrite IdString_compare_refl. apply Z.compare_refl.
Qed.

Lemma SigBit_compare_Eq (a b : SigBit) : SigBit_compare a b = Eq → a = b.
Proof.
  destruct a as [w i|s], b as [v j|t]; cbn [SigBit_compare IdString_compare]; try discriminate.
  - destruct (IdString_compare w v) eqn:E; try discriminate.
    intros H. apply IdString_compare_Eq in E. apply Z.compare_eq in H. congruence.
  - intros H. apply Z.compare_eq in H. destruct s, t; cbn in H; congruence.
Qed.

Lemma SigBit_compare_Gt (a b : SigBit) : SigBit_compare a b = Gt → SigBit_lt b a.
Proof.
  unfold SigBit_lt. destruct a as [w i|s], b as [v j|t]; cbn [SigBit_compare IdString_compare]; try discriminate; try reflexivity.
  - destruct (IdString_compare w v) eqn:E; try discriminate.
    + apply IdString_compare_Eq in E. subst v. rewrite IdString_compare_refl.
      intros H%Z_cmp_gt. apply Z_lt_cmp. exact H.
    + intros _. rewrite (IdString_compare_Gt _ _ E). reflexivity.
  - intros H%Z_cmp_gt. apply Z_lt_cmp. exact H.
Qed.

#[local] Instance SigBit_lt_irreflexive : Irreflexive SigBit_lt.
Proof. intros a H. unfold SigBit_lt in H. rewrite SigBit_compare_refl in H. discriminate. Qed.

#[local] Instance SigBit_lt_transitive : Transitive SigBit_lt.
Proof.
  unfold SigBit_lt. intros [w i|s] [v j|t] [u k|r]; cbn [SigBit_compare IdString_compare]; try discriminate; try reflexivity.
  - destruct (IdString_compare w v) eqn:E1; try discriminate;
      destruct (IdString_compare v u) eqn:E2; try discriminate.
    + apply IdString_compare_Eq in E1, E2. subst. rewrite IdString_compare_refl.
      intros H1%Z_cmp_lt H2%Z_cmp_lt. apply Z_lt_cmp. lia.
    + apply IdString_compare_Eq in E1. subst. rewrite E2. reflexivity.
    + apply IdString_compare_Eq in E2. subst. rewrite E1. reflexivity.
    + rewrite (IdString_compare_trans _ _ _ E1 E2). reflexivity.
  - intros H1%Z_cmp_lt H2%Z_cmp_lt. apply Z_lt_cmp. lia.
Qed.

(** A bit of a wire and the next bit of the same wire are neighbours in
    the order: no bit lies between them. *)
Lemma SigBit_lt_next (w : IdString) (o : Z) : SigBit_lt (Bit w o) (Bit w (o + 1)).
Proof. unfold SigBit_lt. cbn [SigBit_compare]. rewrite IdString_compare_refl. apply Z_lt_cmp. lia. Qed.

Lemma SigBit_lt_between (w : IdString) (o : Z) (z : SigBit) :
  SigBit_lt (Bit w o) z → SigBit_lt z (Bit w (o + 1)) → False.
Proof.
  unfold SigBit_lt. destruct z as [v i|s]; cbn [SigBit_compare]; [|discriminate].
  destruct (IdString_compare w v) eqn:E1; try discriminate.
  - apply IdString_compare_Eq in E1. subst v. rewrite IdString_compare_refl.
    intros H1%Z_cmp_lt H2%Z_cmp_lt. lia.
  - intros _. destruct (IdString_compare v w) eqn:E2; try discriminate.
    + apply IdString_compare_Eq in E2. subst v. rewrite IdString_compare_refl in E1.
      discriminate.
    + pose proof (IdString_compare_trans _ _ _ E1 E2) as H.
      rewrite IdString_compare_refl in H. discriminate.
Qed.

(** *** [sort_and_unify] *)

Lemma elem_of_sigbit_set_insert (b x : SigBit) (s : list SigBit) :
  x ∈ sigbit_set_insert b s ↔ x = b ∨ x ∈ s.
Proof.
  induction s as [|y s IH]; cbn [sigbit_set_insert].
  - rewrite list_elem_of_singleton, elem_of_nil. tauto.
  - destruct (SigBit_compare b y) eqn:E.
    + apply SigBit_compare_Eq in E. subst y. rewrite elem_of_cons. tauto.
    + rewrite elem_of_cons. tauto.
    + rewrite !elem_of_cons, IH. tauto.
Qed.

Lemma sigbit_set_insert_sorted (b : SigBit) (s : list SigBit) :
  StronglySorted SigBit_lt s → StronglySorted SigBit_lt (sigbit_set_insert b s).
Proof.
  induction 1 as [|y s Hs IH Hy]; cbn [sigbit_set_insert].
  - repeat constructor.
  - destruct (SigBit_compare b y) eqn:E.
    + constructor; assumption.
    + constructor; [constructor; assumption|].
      constructor; [exact E|].
      eapply Forall_impl; [exact Hy|]. intros z Hz. exact (transitivity (R:=SigBit_lt) E Hz).
    + constructor; [exact IH|].
      apply Forall_forall. intros z Hz. apply elem_of_sigbit_set_insert in Hz as [->|Hz].
      * exact (SigBit_compare_Gt _ _ E).
      * rewrite Forall_forall in Hy. exact (Hy z Hz).
Qed.

Lemma sort_and_unify_sorted (sig : SigSpec) : StronglySorted SigBit_lt (sort_and_unify sig).
Proof.
  induction sig as [|b sig IH]; cbn; [constructor|]. apply sigbit_set_insert_sorted, IH.
Qed.

Lemma elem_of_sort_and_unify (sig : SigSpec) (x : SigBit) : x ∈ sort_and_unify sig ↔ x ∈ sig.
Proof.
  induction sig as [|b sig IH]; cbn; [reflexivity|].
  rewrite elem_of_sigbit_set_insert, elem_of_cons, IH. reflexivity.
Qed.

(** In a sorted sequence a bit of a wire is followed at once by the next
    bit of the wire, when both occur. *)
Lemma sorted_next_bit (l : list SigBit) (w : IdString) (o : Z) :
  StronglySorted SigBit_lt l → Bit w o ∈ l → Bit w (o + 1) ∈ l →
  ∃ l1 l2, l = l1 ++ Bit w o :: Bit w (o + 1) :: l2.
Proof.
  intros Hs Hx Hy. apply list_elem_of_split in Hx as (l1 & l2 & ->).
  apply StronglySorted_app in Hs as (Hcross & _ & Hs2).
  apply StronglySorted_cons in Hs2 as [Hx2 Hs2].
  apply elem_of_app in Hy as [Hy|Hy].
  - exfalso. pose proof (Hcross _ _ Hy (list_elem_of_here _ _)) as Hlt.
    exact (irreflexivity SigBit_lt _ (transitivity Hlt (SigBit_lt_next w o))).
  - apply elem_of_cons in Hy as [Hy|Hy].
    + exfalso. injection Hy as Hy. lia.
    + exists l1. destruct l2 as [|z l2]; [inversion Hy|].
      apply elem_of_cons in Hy as [<-|Hy]; [exists l2; reflexivity|].
      exfalso. apply Forall_cons_1 in Hx2 as [Hxz _].
      apply StronglySorted_cons in Hs2 as [Hz _]. rewrite Forall_forall in Hz.
      exact (SigBit_lt_between w o z Hxz (Hz _ Hy)).
Qed.

(** *** [chunks] *)

Lemma elem_of_chunk_bits (w v : IdString) (o n j : Z) :
  Bit v j ∈ chunk_bits (Chunk_wire w o n) ↔ v = w ∧ o ≤ j < o + n.
Proof.
  cbn [chunk_bits]. rewrite list_elem_of_fmap. split.
  - intros (i & [= -> ->] & Hi). apply elem_of_seq in Hi. split; [reflexivity|]. lia.
  - intros (-> & Hj). exists (Z.to_nat (j - o)). split; [f_equal; lia|].
    apply elem_of_seq. lia.
Qed.

Lemma chunk_of_bit_ok (b : SigBit) : chunk_ok (chunk_of_bit b).
Proof. destruct b; cbn; [lia | exact I]. Qed.

Lemma chunk_extend_ok (last last' : SigChunk) (b : SigBit) :
  chunk_ok last → chunk_extend last b = Some last' → chunk_ok last'.
Proof.
  destruct last as [w o n|data], b as [v i|s]; cbn; try discriminate.
  - destruct (bool_decide (w = v) && bool_decide (o + n = i)); [|discriminate].
    intros Hn [= <-]. cbn. lia.
  - intros _ [= <-]. exact I.
Qed.

Lemma chunk_extend_wire (last : SigChunk) (w : IdString) (i : Z) :
  chunk_ok last →
  ∃ last', ends_at last' w i
    ∧ (chunk_extend last (Bit w i) = Some last'
       ∨ chunk_extend last (Bit w i) = None ∧ last' = chunk_of_bit (Bit w i)).
Proof.
  intros Hok. destruct last as [v o n|data]; cbn in *.
  - destruct (decide (v = w)) as [->|Hne]; [destruct (decide (o + n = i)) as [<-|Hne]|].
    + exists (Chunk_wire w o (n + 1)). split; [exists o, (n + 1); split; [reflexivity|lia]|].
      left. rewrite !bool_decide_eq_true_2 by reflexivity. reflexivity.
    + exists (Chunk_wire w i 1). split; [exists i, 1; split; [reflexivity|lia]|].
      right. rewrite (bool_decide_eq_false_2 (o + n = i)) by exact Hne.
      rewrite andb_false_r. split; reflexivity.
    + exists (Chunk_wire w i 1). split; [exists i, 1; split; [reflexivity|lia]|].
      right. rewrite (bool_decide_eq_false_2 (v = w)) by exact Hne. split; reflexivity.
  - exists (Chunk_wire w i 1). split; [exists i, 1; split; [reflexivity|lia]|].
    right. split; reflexivity.
Qed.

(** Reading on, the chunks made so far stay and the chunk under
    construction ends with the last bit read. *)
Lemma pack_from_reach (l1 : list SigBit) (w : IdString) (i : Z) (rest : list SigBit) :
  ∀ last, chunk_ok last →
    ∃ pre last', pack_from last (l1 ++ Bit w i :: rest) = pre ++ pack_from last' rest
                 ∧ ends_at last' w i.
Proof.
  induction l1 as [|b l1 IH]; intros last Hok; cbn [app pack_from].
  - destruct (chunk_extend_wire last w i Hok) as (last' & Hend & [E|[E ->]]); rewrite E.
    + exists [], last'. split; [reflexivity | exact Hend].
    + exists [last], (chunk_of_bit (Bit w i)). split; [reflexivity | exact Hend].
  - destruct (chunk_extend last b) as [last''|] eqn:E.
    + apply (IH last''). exact (chunk_extend_ok _ _ _ Hok E).
    + destruct (IH (chunk_of_bit b) (chunk_of_bit_ok b)) as (pre & last' & Hp & Hend).
      exists (last :: pre), last'. rewrite Hp. split; [reflexivity | exact Hend].
Qed.

Lemma chunks_reach (l1 : list SigBit) (w : IdString) (i : Z) (rest : list SigBit) :
  ∃ pre last', chunks (l1 ++ Bit w i :: rest) = pre ++ pack_from last' rest
               ∧ ends_at last' w i.
Proof.
  destruct l1 as [|b l1]; cbn [app chunks].
  - exists [], (chunk_of_bit (Bit w i)). split; [reflexivity|].
    exists i, 1. split; [reflexivity|lia].
  - apply pack_from_reach, chunk_of_bit_ok.
Qed.

(** The chunk under construction is the first to be completed, and it
    only grows. *)
Lemma pack_from_head (bits : list SigBit) (w : IdString) (o : Z) :
  ∀ n, ∃ n' rest, pack_from (Chunk_wire w o n) bits = Chunk_wire w o n' :: rest ∧ n ≤ n'.
Proof.
  induction bits as [|b bits IH]; intros n; cbn [pack_from].
  - exists n, []. split; [reflexivity|lia].
  - destruct (chunk_extend (Chunk_wire w o n) b) as [last'|] eqn:E.
    + destruct b as [v i|s]; cbn in E; [|discriminate].
      destruct (bool_decide (w = v) && bool_decide (o + n = i)); [|discriminate].
      injection E as <-. destruct (IH (n + 1)) as (n' & rest & Hp & Hn).
      exists n', rest. split; [exact Hp|lia].
    + eexists n, _. split; [reflexivity|lia].
Qed.

(** Two consecutive bits of a wire that follow one another in a signal lie
    in one chunk of it, which the coalescer acts on. *)
Lemma chunk_of_neighbours (l1 l2 : list SigBit) (w : IdString) (o : Z) :
  ∃ c, c ∈ chunks (l1 ++ Bit w o :: Bit w (o + 1) :: l2)
       ∧ mergeable c = true
       ∧ Bit w o ∈ chunk_bits c ∧ Bit w (o + 1) ∈ chunk_bits c.
Proof.
  destruct (chunks_reach l1 w o (Bit w (o + 1) :: l2)) as (pre & last' & Hp & Hend).
  destruct Hend as (o0 & n & -> & Ho & Hn). rewrite Hp. cbn [pack_from chunk_extend].
  rewrite !bool_decide_eq_true_2 by (reflexivity || lia). cbn [andb].
  destruct (pack_from_head l2 w o0 (n + 1)) as (n' & rest & -> & Hn').
  exists (Chunk_wire w o0 n'). split; [|split; [|split]].
  - apply elem_of_app. right. apply list_elem_of_here.
  - cbn. rewrite bool_decide_eq_false_2 by lia. reflexivity.
  - apply elem_of_chunk_bits. split; [reflexivity|lia].
  - apply elem_of_chunk_bits. split; [reflexivity|lia].
Qed.

(** Without consecutive bits of one wire, no chunk is acted on. *)
Lemma pack_from_no_neighbours (bits : list SigBit) :
  ∀ last,
    mergeable last = false →
    (∀ w o, last = Chunk_wire w o 1 → Bit w (o + 1) ∉ bits) →
    no_neighbours bits →
    Forall (λ c, mergeable c = false) (pack_from last bits).
Proof.
  induction bits as [|b bits IH]; intros last Hlast Hnext Hnone; cbn [pack_from].
  - repeat constructor. exact Hlast.
  - assert (no_neighbours bits) as Hnone'.
    { intros w o H1 H2. apply (Hnone w o); apply list_elem_of_further; assumption. }
    assert (∀ w o, chunk_of_bit b = Chunk_wire w o 1 → Bit w (o + 1) ∉ bits) as Hb.
    { intros w o E H. destruct b as [v i|s]; cbn in E; [|discriminate]. injection E as -> ->.
      apply (Hnone w o); [apply list_elem_of_here | apply list_elem_of_further, H]. }
    assert (mergeable (chunk_of_bit b) = false) as Hmb by (destruct b; reflexivity).
    destruct (chunk_extend last b) as [last'|] eqn:E.
    + destruct last as [w o n|data], b as [v i|s]; cbn in E; try discriminate.
      * exfalso. destruct (decide (w = v)) as [->|Hne];
          [|rewrite (bool_decide_eq_false_2 (w = v)) in E by exact Hne; discriminate].
        destruct (decide (o + n = i)) as [<-|Hne];
          [|rewrite (bool_decide_eq_false_2 (o + n = i)) in E by exact Hne;
            rewrite andb_false_r in E; discriminate].
        cbn in Hlast. apply negb_false_iff, bool_decide_eq_true_1 in Hlast. subst n.
        apply (Hnext v o eq_refl). apply list_elem_of_here.
      * injection E as <-. apply IH; [reflexivity | discriminate | exact Hnone'].
    + constructor; [exact Hlast|]. apply IH; assumption.
Qed.

Lemma chunks_no_neighbours (bits : list SigBit) :
  no_neighbours bits → Forall (λ c, mergeable c = false) (chunks bits).
Proof.
  intros Hnone. destruct bits as [|b bits]; [constructor|]. cbn [chunks].
  apply pack_from_no_neighbours.
  - destruct b; reflexivity.
  - intros w o E H. destruct b as [v i|s]; cbn in E; [|discriminate]. injection E as -> ->.
    apply (Hnone w o); [apply list_elem_of_here | apply list_elem_of_further, H].
  - intros w o H1 H2. apply (Hnone w o); apply list_elem_of_further; assumption.
Qed.

(** *** What one iteration does to the candidates *)

Lemma without_nil (l : list Cell) : without [] l = l.
Proof.
  unfold without. induction l as [|c l IH]; [reflexivity|].
  rewrite filter_cons_True by apply not_elem_of_nil. rewrite IH. reflexivity.
Qed.

Lemma without_without (A B : list IdString) (l : list Cell) :
  without A (without B l) = without (B ++ A) l.
Proof.
  unfold without. induction l as [|c l IH]; [reflexivity|].
  rewrite (filter_cons (λ c, cell_name c ∉ B)), (filter_cons (λ c, cell_name c ∉ B ++ A)).
  destruct (decide (cell_name c ∉ B)) as [HB|HB].
  - rewrite filter_cons. destruct (decide (cell_name c ∉ A)) as [HA|HA].
    + rewrite decide_True by (rewrite not_elem_of_app; tauto). rewrite IH. reflexivity.
    + rewrite decide_False by (rewrite not_elem_of_app; tauto). exact IH.
  - rewrite decide_False by (rewrite not_elem_of_app; tauto). exact IH.
Qed.

Lemma elem_of_without (names : list IdString) (l : list Cell) (c : Cell) :
  c ∈ without names l ↔ (cell_name c ∉ names) ∧ c ∈ l.
Proof. unfold without. rewrite list_elem_of_filter. reflexivity. Qed.

Lemma without_length (names : list IdString) (l : list Cell) :
  (length (without names l) ≤ length l)%nat.
Proof. apply length_filter. Qed.

Lemma without_length_lt (names : list IdString) (l : list Cell) (c : Cell) :
  c ∈ l → cell_name c ∈ names → (length (without names l) < length l)%nat.
Proof. intros Hc Hn. apply (length_filter_lt _ _ c Hc). intros H. exact (H Hn). Qed.

Lemma pool_erase_without (c : Cell) (l : list Cell) : pool_erase c l = without [cell_name c] l.
Proof.
  unfold pool_erase, without. apply list_filter_iff. intros x.
  rewrite list_elem_of_singleton. reflexivity.
Qed.

Lemma nonempty_app {A} (l k : list A) :
  negb (bool_decide (l = [])) || negb (bool_decide (k = []))
  = negb (bool_decide (l ++ k = [])).
Proof.
  destruct l as [|x l]; [destruct k; reflexivity|].
  cbn [app]. rewrite !(bool_decide_eq_false_2 (x :: _ = [])) by discriminate. reflexivity.
Qed.

Lemma replace_old_ff_inv (q : SigBit) (old : Cell) (st st' : merge_state) :
  replace_old_ff q old st = Ok st' →
  ∃ old_q, ff_Q old = Ok old_q
    ∧ st' = mkMergeState (SigMap_add old_q q (ms_sigmap st))
              (remove old (connect [old_q] [q] (ms_module st)))
              (pool_erase old (ms_candidates st)) true.
Proof.
  unfold replace_old_ff. destruct (ff_Q old) as [old_q|e]; cbn [mbind result_bind];
    [|discriminate].
  intros [= <-]. exists old_q. split; reflexivity.
Qed.

Lemma replace_fold_cands (q : SigBit) (olds : list Cell) :
  ∀ st st', foldM (replace_old_ff q) olds st = Ok st' →
    ms_candidates st' = without (cell_name <$> olds) (ms_candidates st)
    ∧ keep_running st' = keep_running st || negb (bool_decide (olds = [])).
Proof.
  induction olds as [|old olds IH]; intros st st'; cbn [foldM].
  - intros [= <-]. rewrite without_nil, orb_false_r. split; reflexivity.
  - destruct (replace_old_ff q old st) as [st1|e] eqn:E1; cbn [mbind result_bind];
      [|discriminate].
    apply replace_old_ff_inv in E1 as (old_q & _ & ->).
    intros H. apply IH in H as [Hc Hk]. cbn [ms_candidates keep_running] in Hc, Hk.
    rewrite Hc, Hk, pool_erase_without, without_without, orb_true_r. split; reflexivity.
Qed.

Lemma bit_fold_cands (dbits_db : list (SigBit * Cell)) (pairs : list (SigBit * SigBit)) :
  ∀ st st',
    foldM (λ '(d_i, q_i) st, foldM (replace_old_ff q_i) (dbits_db_at dbits_db d_i) st)
      pairs st = Ok st' →
    ms_candidates st'
    = without (cell_name <$> flat_map (dbits_db_at dbits_db) (pairs.*1)) (ms_candidates st)
    ∧ keep_running st'
      = keep_running st
        || negb (bool_decide (flat_map (dbits_db_at dbits_db) (pairs.*1) = [])).
Proof.
  induction pairs as [|[d q] pairs IH]; intros st st'; cbn [foldM].
  - intros [= <-]. cbn. rewrite without_nil, orb_false_r. split; reflexivity.
  - destruct (foldM (replace_old_ff q) _ st) as [st1|e] eqn:E1; cbn [mbind result_bind]; [|discriminate].
    intros H. apply IH in H as [Hc Hk].
    apply replace_fold_cands in E1 as [Hc1 Hk1].
    cbn [fmap list_fmap flat_map fst]. rewrite Hc, Hk, Hc1, Hk1, without_without, fmap_app.
    split; [reflexivity|]. rewrite <- orb_assoc, nonempty_app. reflexivity.
Qed.

Lemma length_wire_bits (w : IdString) (n : Z) : length (wire_bits w n) = Z.to_nat n.
Proof. unfold wire_bits. rewrite length_map, length_seq. reflexivity. Qed.

Lemma merge_chunk_skip clock clock_pol dbits_db (chunk : SigChunk) (st : merge_state) :
  mergeable chunk = false → merge_chunk clock clock_pol dbits_db chunk st = Ok st.
Proof.
  destruct chunk as [w o n|data]; cbn; [|reflexivity].
  intros H. apply negb_false_iff in H. rewrite H. reflexivity.
Qed.

Lemma merge_chunk_cands clock clock_pol dbits_db (chunk : SigChunk) (st st' : merge_state) :
  merge_chunk clock clock_pol dbits_db chunk st = Ok st' →
  ms_candidates st' = without (cell_name <$> chunk_work dbits_db chunk) (ms_candidates st)
  ∧ keep_running st'
    = keep_running st || negb (bool_decide (chunk_work dbits_db chunk = [])).
Proof.
  unfold chunk_work. destruct (mergeable chunk) eqn:Hm.
  - destruct chunk as [w o n|data]; [|discriminate]. cbn in Hm.
    apply negb_true_iff in Hm. cbn [merge_chunk]. rewrite Hm. cbn.
    intros H. apply bit_fold_cands in H as [Hc Hk]. cbn [ms_candidates keep_running] in Hc, Hk.
    rewrite fst_zip in Hc, Hk
      by (rewrite length_wire_bits; unfold GetSize; rewrite Nat2Z.id; reflexivity).
    split; assumption.
  - rewrite merge_chunk_skip by exact Hm. intros [= <-]. cbn.
    rewrite without_nil, orb_false_r. split; reflexivity.
Qed.

Lemma chunk_fold_cands clock clock_pol dbits_db (cs : list SigChunk) :
  ∀ st st', foldM (merge_chunk clock clock_pol dbits_db) cs st = Ok st' →
    ms_candidates st'
    = without (cell_name <$> flat_map (chunk_work dbits_db) cs) (ms_candidates st)
    ∧ keep_running st'
      = keep_running st || negb (bool_decide (flat_map (chunk_work dbits_db) cs = [])).
Proof.
  induction cs as [|c cs IH]; intros st st'; cbn [foldM].
  - intros [= <-]. cbn. rewrite without_nil, orb_false_r. split; reflexivity.
  - destruct (merge_chunk _ _ _ c st) as [st1|e] eqn:E1; cbn [mbind result_bind]; [|discriminate].
    intros H. apply IH in H as [Hc Hk].
    apply merge_chunk_cands in E1 as [Hc1 Hk1].
    cbn [flat_map]. rewrite Hc, Hk, Hc1, Hk1, without_without, fmap_app.
    split; [reflexivity|]. rewrite <- orb_assoc, nonempty_app. reflexivity.
Qed.

(** One iteration erases the candidates it replaces, and asks for another
    iteration exactly when it has replaced one. *)
Lemma merge_pass_cands clock clock_pol (st st' : merge_state) :
  merge_pass clock clock_pol st = Ok st' →
  ∃ dbits_db,
    collect_dbits (ms_sigmap st) (ms_candidates st) = Ok dbits_db
    ∧ ms_candidates st' = without (cell_name <$> pass_work dbits_db) (ms_candidates st)
    ∧ keep_running st' = negb (bool_decide (pass_work dbits_db = [])).
Proof.
  unfold merge_pass. destruct (collect_dbits _ _) as [db|e]; cbn [mbind result_bind]; [|discriminate].
  intros H. apply chunk_fold_cands in H as [Hc Hk].
  exists db. split; [reflexivity|]. split; assumption.
Qed.

Lemma collect_dbits_spec (sigmap : SigMap) (l : list Cell) :
  ∀ db, collect_dbits sigmap l = Ok db →
    db.*2 = l ∧ Forall (λ e, ff_D sigmap e.2 = Ok e.1) db.
Proof.
  induction l as [|c l IH]; intros db; cbn [collect_dbits].
  - intros [= <-]. split; [reflexivity|constructor].
  - destruct (ff_D sigmap c) as [b|e] eqn:Eb; cbn [mbind result_bind]; [|discriminate].
    destruct (collect_dbits sigmap l) as [db0|e]; cbn [mbind result_bind]; [|discriminate].
    intros [= <-]. destruct (IH db0 eq_refl) as [H1 H2]. cbn. rewrite H1.
    split; [reflexivity|]. constructor; [exact Eb | exact H2].
Qed.

Lemma collect_dbits_elem (sigmap : SigMap) (l : list Cell) (db : list (SigBit * Cell)) (c : Cell) :
  collect_dbits sigmap l = Ok db → c ∈ l → ∃ b, (b, c) ∈ db ∧ ff_D sigmap c = Ok b.
Proof.
  intros H Hc. apply collect_dbits_spec in H as [H1 H2]. rewrite <- H1 in Hc.
  apply list_elem_of_fmap in Hc as ([b c'] & -> & He). exists b. split; [exact He|].
  rewrite Forall_forall in H2. exact (H2 _ He).
Qed.

(** The candidates that remain are read as before. *)
Lemma collect_dbits_sub (sigmap : SigMap) (l l' : list Cell) (db : list (SigBit * Cell)) :
  collect_dbits sigmap l = Ok db → (∀ c, c ∈ l' → c ∈ l) →
  ∃ db', collect_dbits sigmap l' = Ok db' ∧ ∀ e, e ∈ db' → e ∈ db.
Proof.
  intros H. induction l' as [|c l' IH]; intros Hsub; cbn [collect_dbits].
  - exists []. split; [reflexivity|]. intros e He. inversion He.
  - destruct (collect_dbits_elem _ _ _ c H (Hsub c (list_elem_of_here _ _))) as (b & Hb & ->).
    destruct IH as (db' & -> & Hdb'); [intros x Hx; apply Hsub, list_elem_of_further, Hx|].
    exists ((b, c) :: db'). split; [reflexivity|].
    intros e He. apply elem_of_cons in He as [->|He]; [exact Hb | exact (Hdb' e He)].
Qed.

Lemma elem_of_dbits_db_at (db : list (SigBit * Cell)) (b : SigBit) (c : Cell) :
  c ∈ dbits_db_at db b ↔ (b, c) ∈ db.
Proof.
  unfold dbits_db_at. rewrite list_elem_of_fmap. split.
  - intros ([b' c'] & -> & He). apply list_elem_of_filter in He as [Hb He]. cbn in Hb.
    subst b'. exact He.
  - intros He. exists (b, c). split; [reflexivity|]. apply list_elem_of_filter.
    split; [reflexivity | exact He].
Qed.

Lemma elem_of_chunk_work (db : list (SigBit * Cell)) (chunk : SigChunk) (c : Cell) :
  c ∈ chunk_work db chunk ↔ mergeable chunk = true ∧ ∃ b, b ∈ chunk_bits chunk ∧ (b, c) ∈ db.
Proof.
  unfold chunk_work. destruct (mergeable chunk).
  - rewrite elem_of_flat_map. setoid_rewrite elem_of_dbits_db_at. tauto.
  - rewrite elem_of_nil. split; [tauto|]. intros [H _]. discriminate.
Qed.

Lemma elem_of_pass_work (db : list (SigBit * Cell)) (c : Cell) :
  c ∈ pass_work db ↔
  ∃ chunk b, chunk ∈ chunks (sort_and_unify db.*1) ∧ mergeable chunk = true
             ∧ b ∈ chunk_bits chunk ∧ (b, c) ∈ db.
Proof.
  unfold pass_work. rewrite elem_of_flat_map. setoid_rewrite elem_of_chunk_work. split.
  - intros (chunk & Hch & Hm & b & Hb & Hc). exists chunk, b. tauto.
  - intros (chunk & b & Hch & Hm & Hb & Hc). exists chunk. split; [exact Hch|].
    split; [exact Hm|]. exists b. tauto.
Qed.

(** *** Termination *)

Lemma merge_pass_progress clock clock_pol (st st' : merge_state) :
  merge_pass clock clock_pol st = Ok st' →
  (∀ c, c ∈ ms_candidates st' → c ∈ ms_candidates st)
  ∧ (keep_running st' = true →
     (length (ms_candidates st') < length (ms_candidates st))%nat).
Proof.
  intros H. apply merge_pass_cands in H as (db & Hdb & Hc & Hk). split.
  - intros c. rewrite Hc, elem_of_without. tauto.
  - rewrite Hk, Hc. intros Hrun. apply negb_true_iff, bool_decide_eq_false_1 in Hrun.
    destruct (pass_work db) as [|c work] eqn:Hwork; [congruence|].
    assert (c ∈ pass_work db) as Hin by (rewrite Hwork; apply list_elem_of_here).
    apply elem_of_pass_work in Hin as (chunk & b & _ & _ & _ & Hbc).
    apply collect_dbits_spec in Hdb as [Hdb _].
    apply (without_length_lt _ _ c).
    + rewrite <- Hdb. apply list_elem_of_fmap. exists (b, c). split; [reflexivity | exact Hbc].
    + cbn. apply list_elem_of_here.
Qed.

Lemma merge_loop_terminates clock clock_pol (fuel : nat) :
  ∀ st, (length (ms_candidates st) < fuel)%nat → is_Some (merge_loop fuel clock clock_pol st).
Proof.
  induction fuel as [|fuel IH]; intros st Hlen; [lia|]. cbn [merge_loop].
  destruct (merge_pass clock clock_pol st) as [st'|e] eqn:E; [|eexists; reflexivity].
  destruct (keep_running st') eqn:Hk; [|eexists; reflexivity].
  apply IH. apply merge_pass_progress in E as [_ Hlt]. specialize (Hlt Hk). lia.
Qed.

(** The coalescer comes to an end on every input. *)
Lemma merge_past_ffs_clock_terminates (candidates : list Cell) clock clock_pol (m : Module) :
  is_Some (merge_past_ffs_clock candidates clock clock_pol m).
Proof.
  unfold merge_past_ffs_clock.
  destruct (merge_loop_terminates clock clock_pol (S (length candidates))
              (mkMergeState SigMap_empty m candidates true)) as [r Hr]; [cbn; lia|].
  rewrite Hr. eexists. reflexivity.
Qed.

Lemma merge_loop_sub clock clock_pol (fuel : nat) :
  ∀ st st', merge_loop fuel clock clock_pol st = Some (Ok st') →
    ∀ c, c ∈ ms_candidates st' → c ∈ ms_candidates st.
Proof.
  induction fuel as [|fuel IH]; intros st st'; cbn [merge_loop]; [discriminate|].
  destruct (merge_pass clock clock_pol st) as [st1|e] eqn:E; [|discriminate].
  apply merge_pass_progress in E as [Hsub _].
  destruct (keep_running st1).
  - intros H c Hc. apply Hsub. exact (IH _ _ H c Hc).
  - intros [= <-]. exact Hsub.
Qed.

(** *** Registers without a neighbour are left alone *)

Lemma merge_chunks_skip clock clock_pol db (cs : list SigChunk) (st : merge_state) :
  Forall (λ c, mergeable c = false) cs →
  foldM (merge_chunk clock clock_pol db) cs st = Ok st.
Proof.
  induction 1 as [|c cs Hc _ IH]; cbn [foldM]; [reflexivity|].
  rewrite merge_chunk_skip by exact Hc. exact IH.
Qed.

Lemma no_neighbours_sort (bits : list SigBit) :
  no_neighbours bits → no_neighbours (sort_and_unify bits).
Proof.
  intros H w o. rewrite !elem_of_sort_and_unify. apply H.
Qed.

Lemma merge_pass_idle clock clock_pol (st : merge_state) (db : list (SigBit * Cell)) :
  collect_dbits (ms_sigmap st) (ms_candidates st) = Ok db →
  no_neighbours (db.*1) →
  merge_pass clock clock_pol st
  = Ok (mkMergeState (ms_sigmap st) (ms_module st) (ms_candidates st) false).
Proof.
  intros Hdb Hnone. unfold merge_pass. rewrite Hdb. cbn [mbind result_bind].
  apply merge_chunks_skip, chunks_no_neighbours, no_neighbours_sort, Hnone.
Qed.

(** When no two candidates are fed by consecutive bits of one wire, in
    particular when all are fed by one and the same bit, the coalescer
    changes neither the module nor the candidates. *)
Lemma merge_idle (candidates : list Cell) clock clock_pol (m : Module)
    (db : list (SigBit * Cell)) :
  collect_dbits SigMap_empty candidates = Ok db →
  no_neighbours (db.*1) →
  merge_past_ffs_clock candidates clock clock_pol m = Some (Ok (m, candidates)).
Proof.
  intros Hdb Hnone. unfold merge_past_ffs_clock. cbn [merge_loop].
  rewrite (merge_pass_idle _ _ _ db) by assumption. reflexivity.
Qed.

(** *** The fixed point *)

(** After an iteration no remaining candidate is fed by a bit of a chunk
    the iteration acted on. *)
Lemma merge_pass_remaining clock clock_pol (st st' : merge_state) (db : list (SigBit * Cell)) :
  merge_pass clock clock_pol st = Ok st' →
  collect_dbits (ms_sigmap st) (ms_candidates st) = Ok db →
  ∀ c b chunk, c ∈ ms_candidates st' → (b, c) ∈ db →
    chunk ∈ chunks (sort_and_unify db.*1) → mergeable chunk = true → b ∉ chunk_bits chunk.
Proof.
  intros H Hdb c b chunk Hc Hbc Hch Hm Hb.
  apply merge_pass_cands in H as (db' & Hdb' & Hcands & _).
  rewrite Hdb in Hdb'. injection Hdb' as <-.
  rewrite Hcands in Hc. apply elem_of_without in Hc as [Hname _].
  apply Hname, list_elem_of_fmap. exists c. split; [reflexivity|].
  apply elem_of_pass_work. exists chunk, b. tauto.
Qed.

(** Running the coalescer again on what it returned changes nothing. *)
Lemma merge_fixed_point (candidates candidates' : list Cell) clock clock_pol (m m' : Module) :
  merge_past_ffs_clock candidates clock clock_pol m = Some (Ok (m', candidates')) →
  merge_past_ffs_clock candidates' clock clock_pol m' = Some (Ok (m', candidates')).
Proof.
  unfold merge_past_ffs_clock at 1.
  destruct (merge_loop _ _ _ _) as [[st_f|e]|] eqn:Hloop; cbn; try discriminate.
  intros [= <- <-]. cbn [merge_loop] in Hloop.
  destruct (merge_pass clock clock_pol (mkMergeState SigMap_empty m candidates true))
    as [st1|e] eqn:Hpass; [|discriminate].
  assert (∀ c, c ∈ ms_candidates st_f → c ∈ ms_candidates st1) as Hsub1.
  { destruct (keep_running st1).
    - exact (merge_loop_sub _ _ _ _ _ Hloop).
    - injection Hloop as <-. tauto. }
  destruct (merge_pass_cands _ _ _ _ Hpass) as (db & Hdb & _ & _). cbn in Hdb.
  assert (∀ c, c ∈ ms_candidates st_f → c ∈ candidates) as Hsub.
  { intros c Hc. apply merge_pass_progress in Hpass as [Hp _]. exact (Hp c (Hsub1 c Hc)). }
  destruct (collect_dbits_sub _ _ _ _ Hdb Hsub) as (db_f & Hdb_f & Hsub_db).
  apply (merge_idle _ _ _ _ db_f Hdb_f).
  intros w o Hx Hy.
  apply list_elem_of_fmap in Hx as ([b c] & Hb & Hx). cbn in Hb. subst b.
  apply list_elem_of_fmap in Hy as ([b' c'] & Hb' & Hy). cbn in Hb'. subst b'.
  assert (c ∈ ms_candidates st_f) as Hc.
  { apply collect_dbits_spec in Hdb_f as [<- _]. apply list_elem_of_fmap.
    exists (Bit w o, c). split; [reflexivity | exact Hx]. }
  assert (Bit w o ∈ sort_and_unify db.*1) as Hx'.
  { apply elem_of_sort_and_unify, list_elem_of_fmap. exists (Bit w o, c).
    split; [reflexivity | exact (Hsub_db _ Hx)]. }
  assert (Bit w (o + 1) ∈ sort_and_unify db.*1) as Hy'.
  { apply elem_of_sort_and_unify, list_elem_of_fmap. exists (Bit w (o + 1), c').
    split; [reflexivity | exact (Hsub_db _ Hy)]. }
  destruct (sorted_next_bit _ w o (sort_and_unify_sorted _) Hx' Hy') as (l1 & l2 & Hl).
  destruct (chunk_of_neighbours l1 l2 w o) as (chunk & Hch & Hm & Hbit & _).
  rewrite <- Hl in Hch.
  exact (merge_pass_remaining _ _ _ _ db Hpass Hdb c (Bit w o) chunk (Hsub1 c Hc)
           (Hsub_db _ Hx) Hch Hm Hbit).
Qed.

(** *** Registers fed by consecutive bits of a wire are merged *)

Lemma chunk_bits_cons (w : IdString) (o n : Z) :
  1 ≤ n → chunk_bits (Chunk_wire w o n) = Bit w o :: chunk_bits (Chunk_wire w (o + 1) (n - 1)).
Proof.
  intros Hn. cbn [chunk_bits]. replace (Z.to_nat n) with (S (Z.to_nat (n - 1))) by lia.
  cbn [seq map]. f_equal; [f_equal; lia|].
  rewrite <- seq_shift, map_map. apply map_ext. intros i. f_equal. lia.
Qed.

Lemma chunk_bits_nil (w : IdString) (o n : Z) : n ≤ 0 → chunk_bits (Chunk_wire w o n) = [].
Proof. intros Hn. cbn. replace (Z.to_nat n) with 0%nat by lia. reflexivity. Qed.

Lemma chunk_bits_sorted (w : IdString) (j : nat) :
  ∀ o, StronglySorted SigBit_lt (chunk_bits (Chunk_wire w o (Z.of_nat j))).
Proof.
  induction j as [|j IH]; intros o.
  - rewrite chunk_bits_nil by lia. constructor.
  - rewrite chunk_bits_cons by lia. replace (Z.of_nat (S j) - 1) with (Z.of_nat j) by lia.
    constructor; [apply IH|]. apply Forall_forall. intros [v i|s] Hb.
    + apply elem_of_chunk_bits in Hb as [-> Hi]. unfold SigBit_lt. cbn [SigBit_compare].
      rewrite IdString_compare_refl. apply Z_lt_cmp. lia.
    + cbn in Hb. apply list_elem_of_fmap in Hb as (i & Hi & _). discriminate.
Qed.

Lemma sorted_NoDup (l : list SigBit) : StronglySorted SigBit_lt l → NoDup l.
Proof.
  induction 1 as [|x l Hs IH Hx]; constructor; [|exact IH].
  intros Hin. rewrite Forall_forall in Hx. exact (irreflexivity SigBit_lt x (Hx x Hin)).
Qed.

(** A sorted sequence is determined by its elements. *)
Lemma sorted_unique (l k : list SigBit) :
  StronglySorted SigBit_lt l → StronglySorted SigBit_lt k →
  (∀ x, x ∈ l ↔ x ∈ k) → l = k.
Proof.
  intros Hl Hk Hlk. apply (StronglySorted_unique_strong SigBit_lt); [|assumption..|].
  - intros x y _ _ Hxy Hyx. exfalso. exact (irreflexivity SigBit_lt x (transitivity Hxy Hyx)).
  - apply NoDup_Permutation; [apply sorted_NoDup, Hl | apply sorted_NoDup, Hk | exact Hlk].
Qed.

Lemma pack_from_run (w : IdString) (o : Z) (j : nat) :
  ∀ n, pack_from (Chunk_wire w o n) (chunk_bits (Chunk_wire w (o + n) (Z.of_nat j)))
       = [Chunk_wire w o (n + Z.of_nat j)].
Proof.
  induction j as [|j IH]; intros n.
  - rewrite chunk_bits_nil by lia. cbn. do 2 f_equal. lia.
  - rewrite chunk_bits_cons by lia. cbn [pack_from chunk_extend].
    rewrite !bool_decide_eq_true_2 by reflexivity. cbn [andb].
    replace (Z.of_nat (S j) - 1) with (Z.of_nat j) by lia.
    replace (o + n + 1) with (o + (n + 1)) by lia. rewrite IH. do 2 f_equal. lia.
Qed.

(** A run of consecutive bits of a wire is one chunk. *)
Lemma chunks_run (w : IdString) (o k : Z) :
  1 ≤ k → chunks (chunk_bits (Chunk_wire w o k)) = [Chunk_wire w o k].
Proof.
  intros Hk. rewrite chunk_bits_cons by exact Hk. cbn [chunks chunk_of_bit].
  replace (k - 1) with (Z.of_nat (Z.to_nat (k - 1))) by lia.
  rewrite (pack_from_run w o (Z.to_nat (k - 1)) 1). do 2 f_equal. lia.
Qed.

Lemma without_all (names : list IdString) (l : list Cell) :
  (∀ c, c ∈ l → cell_name c ∈ names) → without names l = [].
Proof.
  intros H. unfold without. induction l as [|c l IH]; [reflexivity|].
  rewrite filter_cons_False by (intros Hn; exact (Hn (H c (list_elem_of_here _ _)))).
  apply IH. intros x Hx. apply H, list_elem_of_further, Hx.
Qed.

Lemma without_ext (A B : list IdString) (l : list Cell) :
  (∀ n, n ∈ A ↔ n ∈ B) → without A l = without B l.
Proof. intros H. unfold without. apply list_filter_iff. intros c. rewrite H. reflexivity. Qed.

Lemma without_app (names : list IdString) (l k : list Cell) :
  without names (l ++ k) = without names l ++ without names k.
Proof. apply list.filter_app. Qed.

(** What replacing the old registers of one bit does to the module *)
Lemma replace_fold_module (q : SigBit) (olds : list Cell) :
  ∀ st, Forall (λ c, ∃ qb, ff_Q c = Ok qb) olds →
    ∃ st', foldM (replace_old_ff q) olds st = Ok st'
      ∧ wires_ (ms_module st') = wires_ (ms_module st)
      ∧ cells_ (ms_module st') = without (cell_name <$> olds) (cells_ (ms_module st))
      ∧ (∀ x, x ∈ connections_ (ms_module st) → x ∈ connections_ (ms_module st'))
      ∧ (∀ c qb, c ∈ olds → ff_Q c = Ok qb → ([qb], [q]) ∈ connections_ (ms_module st')).
Proof.
  induction olds as [|old olds IH]; intros st Hq; cbn [foldM].
  - exists st. split; [reflexivity|]. split; [reflexivity|].
    split; [cbn; rewrite without_nil; reflexivity|]. split; [tauto|].
    intros c qb Hc. inversion Hc.
  - apply Forall_cons_1 in Hq as [[old_q Hold] Hq].
    assert (Hstep : replace_old_ff q old st
                    = Ok (mkMergeState (SigMap_add old_q q (ms_sigmap st))
                            (remove old (connect [old_q] [q] (ms_module st)))
                            (pool_erase old (ms_candidates st)) true))
      by (unfold replace_old_ff; rewrite Hold; reflexivity).
    rewrite Hstep. cbn [mbind result_bind].
    destruct (IH (mkMergeState (SigMap_add old_q q (ms_sigmap st))
                    (remove old (connect [old_q] [q] (ms_module st)))
                    (pool_erase old (ms_candidates st)) true) Hq)
      as (st' & Hfold & Hw & Hc & Hmono & Hconn).
    exists st'. split; [exact Hfold|].
    cbn [ms_module cells_ wires_ connections_ remove connect] in Hw, Hc, Hmono, Hconn.
    split; [exact Hw|]. split; [|split].
    + rewrite Hc. change (filter _ (cells_ (ms_module st)))
        with (pool_erase old (cells_ (ms_module st))).
      rewrite pool_erase_without, without_without. reflexivity.
    + intros x Hx. apply Hmono, elem_of_app. left. exact Hx.
    + intros c qb Hin Hqb. apply elem_of_cons in Hin as [->|Hin].
      * rewrite Hold in Hqb. injection Hqb as <-. apply Hmono, elem_of_app. right.
        apply list_elem_of_here.
      * exact (Hconn c qb Hin Hqb).
Qed.

Lemma bit_fold_module (db : list (SigBit * Cell)) (pairs : list (SigBit * SigBit)) :
  (∀ d c, (d, c) ∈ db → ∃ qb, ff_Q c = Ok qb) →
  ∀ st,
    ∃ st',
      foldM (λ '(d_i, q_i) st, foldM (replace_old_ff q_i) (dbits_db_at db d_i) st) pairs st
      = Ok st'
      ∧ wires_ (ms_module st') = wires_ (ms_module st)
      ∧ cells_ (ms_module st')
        = without (cell_name <$> flat_map (dbits_db_at db) (pairs.*1)) (cells_ (ms_module st))
      ∧ (∀ x, x ∈ connections_ (ms_module st) → x ∈ connections_ (ms_module st'))
      ∧ (∀ d q c qb, (d, q) ∈ pairs → (d, c) ∈ db → ff_Q c = Ok qb →
           ([qb], [q]) ∈ connections_ (ms_module st')).
Proof.
  intros Hq. induction pairs as [|[d q] pairs IH]; intros st; cbn [foldM].
  - exists st. split; [reflexivity|]. split; [reflexivity|].
    split; [cbn; rewrite without_nil; reflexivity|]. split; [tauto|].
    intros d q c qb H. inversion H.
  - destruct (replace_fold_module q (dbits_db_at db d) st)
      as (st1 & Hfold1 & Hw1 & Hc1 & Hmono1 & Hconn1).
    { apply Forall_forall. intros c Hc. apply elem_of_dbits_db_at in Hc. exact (Hq d c Hc). }
    rewrite Hfold1. cbn [mbind result_bind].
    destruct (IH st1) as (st' & Hfold & Hw & Hc & Hmono & Hconn).
    exists st'. split; [exact Hfold|]. split; [congruence|]. split; [|split].
    + rewrite Hc, Hc1, without_without. cbn [fmap list_fmap flat_map fst].
      rewrite fmap_app. reflexivity.
    + intros x Hx. exact (Hmono x (Hmono1 x Hx)).
    + intros d' q' c qb Hin Hdb Hqb. apply elem_of_cons in Hin as [[= -> ->]|Hin].
      * apply Hmono, (Hconn1 c qb); [apply elem_of_dbits_db_at, Hdb | exact Hqb].
      * exact (Hconn d' q' c qb Hin Hdb Hqb).
Qed.

Lemma zip_map_same {A B C} (f : A → B) (g : A → C) (l : list A) :
  zip (map f l) (map g l) = map (λ i, (f i, g i)) l.
Proof. induction l as [|x l IH]; cbn; [reflexivity|]. rewrite IH. reflexivity. Qed.

Lemma GetSize_chunk_bits (w : IdString) (o k : Z) :
  0 ≤ k → GetSize (chunk_bits (Chunk_wire w o k)) = k.
Proof.
  intros Hk. unfold GetSize. cbn [chunk_bits]. rewrite length_map, length_seq. lia.
Qed.

(** What the coalescer does to the module for one chunk it acts on *)
Lemma merge_chunk_module clock clock_pol (db : list (SigBit * Cell)) (w : IdString) (o k : Z)
    (st : merge_state) :
  0 ≤ k → k ≠ 1 →
  (∀ d c, (d, c) ∈ db → ∃ qb, ff_Q c = Ok qb) →
  ∃ st',
    merge_chunk clock clock_pol db (Chunk_wire w o k) st = Ok st'
    ∧ wires_ (ms_module st')
      = wires_ (ms_module st) ++ [mkWire (NewId (autoidx (ms_module st))) k []]
    ∧ cells_ (ms_module st')
      = without (cell_name <$> chunk_work db (Chunk_wire w o k))
          (cells_ (ms_module st)
           ++ [merged_ff clock clock_pol (Chunk_wire w o k) (autoidx (ms_module st))])
    ∧ (∀ x, x ∈ connections_ (ms_module st) → x ∈ connections_ (ms_module st'))
    ∧ (∀ i c qb, 0 ≤ i < k → (Bit w (o + i), c) ∈ db → ff_Q c = Ok qb →
         ([qb], [Bit (NewId (autoidx (ms_module st))) i]) ∈ connections_ (ms_module st')).
Proof.
  intros Hk Hk1 Hq. cbn [merge_chunk]. rewrite bool_decide_eq_false_2 by exact Hk1.
  unfold new_wire, NEW_ID, addWire, addDff, addCell. cbn [wire_name wire_width autoidx add_wire_obj].
  set (sig_d := chunk_bits (Chunk_wire w o k)).
  set (sig_q := wire_bits (NewId (autoidx (ms_module st))) (GetSize sig_d)).
  match goal with
  | |- context [foldM ?f ?l ?s] => destruct (bit_fold_module db l Hq s)
                                     as (st' & Hfold & Hw & Hc & Hmono & Hconn)
  end.
  exists st'. split; [exact Hfold|].
  cbn [ms_module wires_ cells_ connections_ add_cell_obj] in Hw, Hc, Hmono, Hconn.
  assert (Hsize : GetSize sig_d = k) by (apply GetSize_chunk_bits, Hk).
  assert (Hfst : (zip sig_d sig_q).*1 = sig_d).
  { apply fst_zip. unfold sig_q. rewrite length_wire_bits. unfold GetSize. lia. }
  split; [rewrite Hw, Hsize; reflexivity|]. split; [|split].
  - rewrite Hc, Hfst. unfold chunk_work. cbn [mergeable].
    rewrite bool_decide_eq_false_2 by exact Hk1. cbn [negb].
    unfold merged_ff. fold sig_d. fold sig_q. reflexivity.
  - exact Hmono.
  - intros i c qb Hi Hdb Hqb.
    apply (Hconn (Bit w (o + i)) (Bit (NewId (autoidx (ms_module st))) i) c qb);
      [|exact Hdb|exact Hqb].
    unfold sig_q. rewrite Hsize. unfold sig_d, wire_bits. cbn [chunk_bits].
    rewrite zip_map_same. apply list_elem_of_fmap. exists (Z.to_nat i).
    split; [f_equal; f_equal; lia|]. apply elem_of_seq. lia.
Qed.

(** Registers whose inputs are, together, the bits of one slice of a wire
    of two bits or more, are replaced by one register of that width: a
    fresh wire of the width is added, the registers are removed, the new
    register is added, and the output of each old register is connected to
    the bit of the new wire at the position of its input in the slice. *)
Lemma merge_run (candidates : list Cell) clock clock_pol (m : Module)
    (db : list (SigBit * Cell)) (w : IdString) (o k : Z) :
  collect_dbits SigMap_empty candidates = Ok db →
  Forall (λ c, ∃ qb, ff_Q c = Ok qb) candidates →
  2 ≤ k →
  (∀ b, b ∈ db.*1 ↔ b ∈ chunk_bits (Chunk_wire w o k)) →
  (∀ c, c ∈ candidates → cell_name c ≠ NewId (autoidx m + 1)) →
  ∃ m',
    merge_past_ffs_clock candidates clock clock_pol m = Some (Ok (m', []))
    ∧ wires_ m' = wires_ m ++ [mkWire (NewId (autoidx m)) k []]
    ∧ cells_ m' = without (cell_name <$> candidates) (cells_ m)
                  ++ [merged_ff clock clock_pol (Chunk_wire w o k) (autoidx m)]
    ∧ (∀ x, x ∈ connections_ m → x ∈ connections_ m')
    ∧ (∀ i c qb, c ∈ candidates → ff_D SigMap_empty c = Ok (Bit w (o + i)) →
         ff_Q c = Ok qb → ([qb], [Bit (NewId (autoidx m)) i]) ∈ connections_ m').
Proof.
  intros Hdb Hq Hk Hbits Hfresh.
  destruct (collect_dbits_spec _ _ _ Hdb) as [Hsnd HD].
  assert (Hqdb : ∀ d c, (d, c) ∈ db → ∃ qb, ff_Q c = Ok qb).
  { intros d c Hdc. rewrite Forall_forall in Hq. apply Hq. rewrite <- Hsnd.
    apply list_elem_of_fmap. exists (d, c). split; [reflexivity | exact Hdc]. }
  assert (Hsort : sort_and_unify db.*1 = chunk_bits (Chunk_wire w o k)).
  { apply sorted_unique.
    - apply sort_and_unify_sorted.
    - replace k with (Z.of_nat (Z.to_nat k)) by lia. apply chunk_bits_sorted.
    - intros x. rewrite elem_of_sort_and_unify. apply Hbits. }
  set (st0 := mkMergeState SigMap_empty m candidates false).
  destruct (merge_chunk_module clock clock_pol db w o k st0 ltac:(lia) ltac:(lia) Hqdb)
    as (st1 & Hchunk & Hw & Hc & Hmono & Hconn).
  assert (Hpass : merge_pass clock clock_pol (mkMergeState SigMap_empty m candidates true)
                  = Ok st1).
  { unfold merge_pass. cbn [ms_sigmap ms_candidates ms_module]. rewrite Hdb.
    cbn [mbind result_bind]. rewrite Hsort, chunks_run by lia. cbn [foldM].
    fold st0. rewrite Hchunk. reflexivity. }
  assert (Hwork : ∀ c, c ∈ candidates → c ∈ chunk_work db (Chunk_wire w o k)).
  { intros c Hin. destruct (collect_dbits_elem _ _ _ c Hdb Hin) as (b & Hb & _).
    apply elem_of_chunk_work. split.
    - cbn. rewrite bool_decide_eq_false_2 by lia. reflexivity.
    - exists b. split; [|exact Hb]. apply Hbits, list_elem_of_fmap.
      exists (b, c). split; [reflexivity | exact Hb]. }
  assert (Hwork' : ∀ c, c ∈ chunk_work db (Chunk_wire w o k) → c ∈ candidates).
  { intros c Hin. apply elem_of_chunk_work in Hin as (_ & b & _ & Hb). rewrite <- Hsnd.
    apply list_elem_of_fmap. exists (b, c). split; [reflexivity | exact Hb]. }
  destruct (merge_chunk_cands _ _ _ _ _ _ Hchunk) as [Hcands Hkeep].
  cbn [ms_candidates keep_running st0 orb] in Hcands, Hkeep.
  assert (Hnone : ms_candidates st1 = []).
  { rewrite Hcands. apply without_all. intros c Hin. apply list_elem_of_fmap.
    exists c. split; [reflexivity | exact (Hwork c Hin)]. }
  assert (Hne : ∃ c, c ∈ candidates).
  { assert (Bit w o ∈ db.*1) as Hb by (apply Hbits, elem_of_chunk_bits; split; [reflexivity|lia]).
    apply list_elem_of_fmap in Hb as ([b c] & _ & Hb). exists c. rewrite <- Hsnd.
    apply list_elem_of_fmap. exists (b, c). split; [reflexivity | exact Hb]. }
  assert (Hrun : keep_running st1 = true).
  { rewrite Hkeep. destruct Hne as [c Hin]. apply Hwork in Hin.
    destruct (chunk_work db (Chunk_wire w o k)); [inversion Hin | reflexivity]. }
  exists (ms_module st1). split; [|split; [|split; [|split]]].
  - unfold merge_past_ffs_clock.
    destruct candidates as [|c0 rest]; [destruct Hne as [c Hin]; inversion Hin|].
    cbn [length merge_loop]. rewrite Hpass, Hrun.
    assert (Hidle : merge_pass clock clock_pol st1
                    = Ok (mkMergeState (ms_sigmap st1) (ms_module st1) (ms_candidates st1) false)).
    { apply (merge_pass_idle _ _ _ []); [rewrite Hnone; reflexivity|].
      intros v i Hin. inversion Hin. }
    rewrite Hidle. cbn. rewrite Hnone. reflexivity.
  - exact Hw.
  - rewrite Hc. cbn [ms_module st0]. rewrite without_app. f_equal.
    + apply without_ext. intros n. rewrite !list_elem_of_fmap. split.
      * intros (c & -> & Hin). exists c. split; [reflexivity | exact (Hwork' c Hin)].
      * intros (c & -> & Hin). exists c. split; [reflexivity | exact (Hwork c Hin)].
    + unfold without. rewrite filter_cons_True; [reflexivity|].
      intros Hin. apply list_elem_of_fmap in Hin as (c & Hname & Hin).
      apply (Hfresh c (Hwork' c Hin)). rewrite <- Hname. reflexivity.
  - exact Hmono.
  - intros i c qb Hin HDc Hqb.
    destruct (collect_dbits_elem _ _ _ c Hdb Hin) as (b & Hb & HDb).
    rewrite HDc in HDb. injection HDb as <-.
    assert (0 ≤ i < k) as Hi.
    { assert (Bit w (o + i) ∈ db.*1) as Hx
        by (apply list_elem_of_fmap; exists (Bit w (o + i), c); split; [reflexivity | exact Hb]).
      apply Hbits, elem_of_chunk_bits in Hx. lia. }
    exact (Hconn i c qb Hi Hb Hqb).
Qed.

(** Registers of one clock and polarity form one group. *)
Lemma database_one_group (clock : SigBit) (clock_pol : bool) (l : list Cell) :
  Forall (λ c, ff_clock c = Ok (clock, clock_pol)) l →
  ∀ acc,
    foldM (λ cell database, key ← ff_clock cell; Ok (database_insert key cell database))
      l [((clock, clock_pol), acc)]
    = Ok [((clock, clock_pol), acc ++ l)].
Proof.
  induction 1 as [|c l Hc Hl IH]; intros acc; cbn [foldM].
  - rewrite app_nil_r. reflexivity.
  - rewrite Hc. cbn [mbind result_bind database_insert].
    rewrite bool_decide_eq_true_2 by reflexivity. rewrite IH, <- app_assoc. reflexivity.
Qed.

Lemma merge_past_ffs_one_group (clock : SigBit) (clock_pol : bool) (c0 : Cell)
    (rest : list Cell) (m : Module) :
  Forall (λ c, ff_clock c = Ok (clock, clock_pol)) (c0 :: rest) →
  merge_past_ffs (c0 :: rest) m
  = (r ← merge_past_ffs_clock (c0 :: rest) clock clock_pol m; Some (r' ← r; Ok r'.1)).
Proof.
  intros H. apply Forall_cons_1 in H as [H0 Hrest]. unfold merge_past_ffs. cbn [foldM].
  rewrite H0. cbn [mbind result_bind database_insert].
  rewrite (database_one_group clock clock_pol rest Hrest [c0]). reflexivity.
Qed.

(** *** The coalescer does not fail on single-bit registers *)

Lemma pack_from_ok (bits : list SigBit) :
  ∀ last, chunk_ok last → Forall chunk_ok (pack_from last bits).
Proof.
  induction bits as [|b bits IH]; intros last Hok; cbn [pack_from].
  - constructor; [exact Hok | constructor].
  - destruct (chunk_extend last b) as [last'|] eqn:E.
    + apply IH. exact (chunk_extend_ok _ _ _ Hok E).
    + constructor; [exact Hok|]. apply IH, chunk_of_bit_ok.
Qed.

Lemma chunks_ok (bits : list SigBit) : Forall chunk_ok (chunks bits).
Proof. destruct bits as [|b bits]; cbn [chunks]; [constructor|]. apply pack_from_ok, chunk_of_bit_ok. Qed.

Lemma collect_dbits_total (sigmap : SigMap) (l : list Cell) :
  Forall (λ c, ∃ b, getPort c "\D" = Ok [b]) l → ∃ db, collect_dbits sigmap l = Ok db.
Proof.
  induction 1 as [|c l [b Hb] _ [db IH]]; cbn [collect_dbits].
  - exists []. reflexivity.
  - unfold ff_D. rewrite Hb. cbn [mbind result_bind map as_bit]. rewrite IH.
    eexists. reflexivity.
Qed.

Lemma merge_chunks_total clock clock_pol (db : list (SigBit * Cell)) (chs : list SigChunk) :
  (∀ d c, (d, c) ∈ db → ∃ qb, ff_Q c = Ok qb) → Forall chunk_ok chs →
  ∀ st, ∃ st', foldM (merge_chunk clock clock_pol db) chs st = Ok st'.
Proof.
  intros Hq. induction 1 as [|ch chs Hok _ IH]; intros st; cbn [foldM].
  - exists st. reflexivity.
  - destruct ch as [w o k|data].
    + cbn in Hok. destruct (decide (k = 1)) as [->|Hk1].
      * rewrite merge_chunk_skip by reflexivity. apply IH.
      * destruct (merge_chunk_module clock clock_pol db w o k st ltac:(lia) Hk1 Hq)
          as (st1 & -> & _). apply IH.
    + rewrite merge_chunk_skip by reflexivity. apply IH.
Qed.

Lemma merge_pass_total clock clock_pol (st : merge_state) :
  Forall (λ c, ∃ b, getPort c "\D" = Ok [b]) (ms_candidates st) →
  Forall (λ c, ∃ qb, ff_Q c = Ok qb) (ms_candidates st) →
  ∃ st', merge_pass clock clock_pol st = Ok st'.
Proof.
  intros HD HQ. unfold merge_pass.
  destruct (collect_dbits_total (ms_sigmap st) _ HD) as [db Hdb]. rewrite Hdb.
  cbn [mbind result_bind]. apply merge_chunks_total; [|apply chunks_ok].
  intros d c Hdc. rewrite Forall_forall in HQ. apply HQ.
  apply collect_dbits_spec in Hdb as [<- _]. apply list_elem_of_fmap.
  exists (d, c). split; [reflexivity | exact Hdc].
Qed.

Lemma Forall_sub {A} (P : A → Prop) (l k : list A) :
  Forall P l → (∀ x, x ∈ k → x ∈ l) → Forall P k.
Proof. rewrite !Forall_forall. intros H Hsub x Hx. exact (H x (Hsub x Hx)). Qed.

Lemma merge_loop_total clock clock_pol (fuel : nat) :
  ∀ st, (length (ms_candidates st) < fuel)%nat →
    Forall (λ c, ∃ b, getPort c "\D" = Ok [b]) (ms_candidates st) →
    Forall (λ c, ∃ qb, ff_Q c = Ok qb) (ms_candidates st) →
    ∃ st', merge_loop fuel clock clock_pol st = Some (Ok st').
Proof.
  induction fuel as [|fuel IH]; intros st Hlen HD HQ; [lia|]. cbn [merge_loop].
  destruct (merge_pass_total clock clock_pol st HD HQ) as [st1 Hpass]. rewrite Hpass.
  destruct (keep_running st1) eqn:Hk; [|exists st1; reflexivity].
  apply merge_pass_progress in Hpass as [Hsub Hlt]. specialize (Hlt Hk).
  apply IH; [lia | exact (Forall_sub _ _ _ HD Hsub) | exact (Forall_sub _ _ _ HQ Hsub)].
Qed.

(** On registers whose input and output are single bits the coalescer
    returns a module and the registers it leaves. *)
Lemma merge_past_ffs_clock_total (candidates : list Cell) clock clock_pol (m : Module) :
  Forall (λ c, ∃ b, getPort c "\D" = Ok [b]) candidates →
  Forall (λ c, ∃ qb, ff_Q c = Ok qb) candidates →
  ∃ m' candidates',
    merge_past_ffs_clock candidates clock clock_pol m = Some (Ok (m', candidates')).
Proof.
  intros HD HQ. unfold merge_past_ffs_clock.
  destruct (merge_loop_total clock clock_pol (S (length candidates))
              (mkMergeState SigMap_empty m candidates true)) as [st' Hst'];
    [cbn; lia | exact HD | exact HQ |].
  rewrite Hst'. exists (ms_module st'), (ms_candidates st'). reflexivity.
Qed.

Lemma collect_dbits_ports (l : list Cell) (db : list (SigBit * Cell)) :
  collect_dbits SigMap_empty l = Ok db → Forall (λ c, ∃ b, getPort c "\D" = Ok [b]) l.
Proof.
  revert db. induction l as [|c l IH]; intros db; cbn [collect_dbits]; [constructor|].
  destruct (ff_D SigMap_empty c) as [b|e] eqn:Eb; cbn [mbind result_bind]; [|discriminate].
  destruct (collect_dbits SigMap_empty l) as [db0|e]; cbn [mbind result_bind]; [|discriminate].
  intros _. constructor; [|exact (IH db0 eq_refl)].
  unfold ff_D in Eb. destruct (getPort c "\D") as [sig|e]; cbn [mbind result_bind] in Eb;
    [|discriminate].
  destruct sig as [|x [|y sig]]; try discriminate. exists x. reflexivity.
Qed.

Lemma same_bit_no_neighbours (bits : list SigBit) (b : SigBit) :
  Forall (λ x, x = b) bits → no_neighbours bits.
Proof.
  rewrite Forall_forall. intros H w o H1 H2. apply H in H1, H2. rewrite <- H2 in H1.
  injection H1 as H1. lia.
Qed.

(** ** The register coalescer *)

(** C4, amended.  Let single-bit past-value registers share the clock
    signal and the clock polarity, so that [merge_past_ffs] hands them as
    one group to [merge_past_ffs_clock], and let the name the module gives
    next to a cell be borne by none of them.

    - When their input bits are, together, the bits of one slice of [k]
      bits of a wire, [k] at least 2, the coalescer replaces them by exactly
      one shared register of [k] bits on a fresh wire of [k] bits: it
      removes every original and connects the output of each to the bit of
      the new wire at the position of its input in the slice.  The width is
      the number of distinct input bits, not the number of registers.
    - When no two of their input bits are consecutive bits of one wire, in
      particular when all of them are driven by one identical bit, the
      coalescer changes nothing.
    - The coalescer always returns, and running it again on the module and
      the registers it leaves changes nothing. *)
Theorem coalescer_merges_slices (candidates : list Cell) (clock : SigBit) (clock_pol : bool)
    (m : Module) (db : list (SigBit * Cell)) :
  Forall (λ c, ff_clock c = Ok (clock, clock_pol)) candidates →
  collect_dbits SigMap_empty candidates = Ok db →
  Forall (λ c, ∃ qb, ff_Q c = Ok qb) candidates →
  (∀ c, c ∈ candidates → cell_name c ≠ NewId (autoidx m + 1)) →
  merge_past_ffs candidates m
  = (r ← merge_past_ffs_clock candidates clock clock_pol m; Some (r' ← r; Ok r'.1))
  ∧ (∀ w o k,
       2 ≤ k → (∀ b, b ∈ db.*1 ↔ b ∈ chunk_bits (Chunk_wire w o k)) →
       ∃ m',
         merge_past_ffs_clock candidates clock clock_pol m = Some (Ok (m', []))
         ∧ wires_ m' = wires_ m ++ [mkWire (NewId (autoidx m)) k []]
         ∧ cells_ m' = without (cell_name <$> candidates) (cells_ m)
                       ++ [merged_ff clock clock_pol (Chunk_wire w o k) (autoidx m)]
         ∧ (∀ i c qb, c ∈ candidates → ff_D SigMap_empty c = Ok (Bit w (o + i)) →
              ff_Q c = Ok qb → ([qb], [Bit (NewId (autoidx m)) i]) ∈ connections_ m'))
  ∧ (no_neighbours (db.*1) →
     merge_past_ffs_clock candidates clock clock_pol m = Some (Ok (m, candidates)))
  ∧ (∀ b, Forall (λ x, x = b) (db.*1) →
     merge_past_ffs_clock candidates clock clock_pol m = Some (Ok (m, candidates)))
  ∧ ∃ m' candidates',
      merge_past_ffs_clock candidates clock clock_pol m = Some (Ok (m', candidates'))
      ∧ merge_past_ffs_clock candidates' clock clock_pol m' = Some (Ok (m', candidates')).
Proof.
  intros Hclk Hdb HQ Hfresh. split; [|split; [|split; [|split]]].
  - destruct candidates as [|c0 rest]; [reflexivity|].
    apply merge_past_ffs_one_group, Hclk.
  - intros w o k Hk Hbits.
    destruct (merge_run candidates clock clock_pol m db w o k Hdb HQ Hk Hbits Hfresh)
      as (m' & Hrun & Hw & Hc & _ & Hconn).
    exists m'. split; [exact Hrun|]. split; [exact Hw|]. split; [exact Hc | exact Hconn].
  - intros Hnone. exact (merge_idle candidates clock clock_pol m db Hdb Hnone).
  - intros b Hb. apply (merge_idle candidates clock clock_pol m db Hdb).
    exact (same_bit_no_neighbours _ b Hb).
  - destruct (merge_past_ffs_clock_total candidates clock clock_pol m
                (collect_dbits_ports _ _ Hdb) HQ) as (m' & candidates' & Hrun).
    exists m', candidates'. split; [exact Hrun|].
    exact (merge_fixed_point _ _ _ _ _ _ Hrun).
Qed.

(** The claim as the design document words it fails on two registers of
    one clock that are driven by one identical bit: they are not replaced
    by a shared register of two bits, the module keeps both. *)
Lemma coalescer_counterexample :
  merge_past_ffs Sample.same_input_ffs (Sample.past_module Sample.same_input_ffs)
  = Some (Ok (Sample.past_module Sample.same_input_ffs))
  ∧ ¬ (∃ m' new_ff,
         merge_past_ffs_clock Sample.same_input_ffs (Sample.wire_of Sample.clk) true
           (Sample.past_module Sample.same_input_ffs) = Some (Ok (m', []))
         ∧ cells_ m' = [new_ff]).
Proof.
  split; [vm_compute; reflexivity|].
  intros (m' & new_ff & Hrun & _). vm_compute in Hrun. discriminate Hrun.
Qed.

Lemma coalescer_merges_slices_witness :
  ∃ m',
    merge_past_ffs Sample.adjacent_ffs (Sample.past_module Sample.adjacent_ffs) = Some (Ok m')
    ∧ wires_ m' = [mkWire (NewId 20) 2 []]
    ∧ cells_ m' = [merged_ff (Sample.wire_of Sample.clk) true (Chunk_wire (IdStr "\bus") 0 2) 20]
    ∧ connections_ m' = [([Bit (NewId 11) 0], [Bit (NewId 20) 0]);
                         ([Bit (NewId 12) 0], [Bit (NewId 20) 1])].
Proof.
  pose proof (coalescer_merges_slices Sample.adjacent_ffs (Sample.wire_of Sample.clk) true
                (Sample.past_module Sample.adjacent_ffs)
                [(Bit (IdStr "\bus") 0, Sample.past_ff 1 (Bit (IdStr "\bus") 0) (Bit (NewId 11) 0));
                 (Bit (IdStr "\bus") 1, Sample.past_ff 2 (Bit (IdStr "\bus") 1) (Bit (NewId 12) 0))])
    as H.
  destruct H as (Hgroup & Hmerge & _).
  - repeat constructor.
  - reflexivity.
  - repeat constructor; eexists; reflexivity.
  - intros c Hc. repeat (apply elem_of_cons in Hc as [->|Hc]); [discriminate..|inversion Hc].
  - destruct (Hmerge (IdStr "\bus") 0 2 ltac:(lia)) as (m' & Hrun & Hw & Hc & _).
    + intros b. cbn. tauto.
    + exists m'. rewrite Hgroup, Hrun. split; [reflexivity|]. split; [exact Hw|].
      split; [exact Hc|]. vm_compute in Hrun. injection Hrun as <-. reflexivity.
Defined.

(** * Further properties of the front end *)

(** ** The options of [verific -import] *)

(** Tests of equality between two given words are evaluated. *)
Ltac eval_string_tests :=
  repeat match goal with
         | |- context [@bool_decide (@eq string ?a ?b) ?d] =>
             let v := eval vm_compute in (@bool_decide (@eq string a b) d) in
             progress change (@bool_decide (@eq string a b) d) with v
         end.

(** A flag is read and the loop goes on with the next word. *)
Lemma parse_options_flag (arg : string) (o : VerificPass.options) :
  arg ∈ VerificPass.flag_words →
  ∃ o', ∀ rest argidx,
    VerificPass.parse_options (arg :: rest) argidx o
    = VerificPass.parse_options rest (argidx + 1) o'.
Proof.
  unfold VerificPass.flag_words. intros Hin.
  repeat (apply elem_of_cons in Hin as [->|Hin];
          [eexists; intros rest argidx; cbn [VerificPass.parse_options];
           eval_string_tests; cbn match; reflexivity|]).
  inversion Hin.
Qed.

Lemma parse_options_dumpfile (file : string) (rest : list string) (argidx : Z)
    (o : VerificPass.options) :
  VerificPass.parse_options ("-d" :: file :: rest) argidx o
  = VerificPass.parse_options rest (argidx + 2)
      (VerificPass.mkOptions (VerificPass.mode_all o) (VerificPass.mode_gates o)
         (VerificPass.mode_keep o) (VerificPass.mode_nosva o) (VerificPass.mode_nosvapp o)
         (VerificPass.mode_names o) (VerificPass.verbose o) (VerificPass.flatten o)
         (VerificPass.extnets o) file).
Proof. reflexivity. Qed.

(** At a word that is no option the loop is left. *)
Lemma parse_options_break (rest : list string) (argidx : Z) (o : VerificPass.options) :
  VerificPass.no_option_ahead rest → VerificPass.parse_options rest argidx o = (argidx, o).
Proof.
  destruct rest as [|arg rest]; [reflexivity|]. intros [Hflag Hd].
  assert (∀ w, w ∈ VerificPass.flag_words → bool_decide (arg = w) = false) as Hno.
  { intros w Hw. apply bool_decide_eq_false_2. intros ->. exact (Hflag Hw). }
  cbn [VerificPass.parse_options].
  rewrite !Hno by (unfold VerificPass.flag_words;
                   repeat first [apply list_elem_of_here | apply list_elem_of_further]).
  case_bool_decide as Harg; [|reflexivity]. rewrite (Hd Harg). reflexivity.
Qed.

(** The loop reads a sequence of options and stops where no option is
    ahead. *)
Lemma parse_options_split (n : nat) :
  ∀ l argidx o, (length l ≤ n)%nat →
    ∃ opts rest,
      l = opts ++ rest
      ∧ VerificPass.option_words opts = true
      ∧ VerificPass.no_option_ahead rest
      ∧ VerificPass.parse_options l argidx o
        = (argidx + Z.of_nat (length opts), (VerificPass.parse_options opts argidx o).2).
Proof.
  induction n as [|n IH]; intros l argidx o Hlen.
  - destruct l; [|cbn in Hlen; lia]. exists [], []. cbn. rewrite Z.add_0_r.
    repeat split.
  - destruct l as [|arg l].
    { exists [], []. cbn. rewrite Z.add_0_r. repeat split. }
    cbn [length] in Hlen.
    destruct (decide (arg ∈ VerificPass.flag_words)) as [Hflag|Hflag].
    { destruct (parse_options_flag arg o Hflag) as [o' Ho'].
      destruct (IH l (argidx + 1) o' ltac:(lia)) as (opts & rest & -> & Hopts & Hrest & Hrun).
      exists (arg :: opts), rest. split; [reflexivity|]. split.
      { cbn [VerificPass.option_words]. rewrite bool_decide_eq_true_2 by exact Hflag.
        exact Hopts. }
      split; [exact Hrest|]. rewrite !Ho', Hrun. cbn [length]. f_equal. lia. }
    destruct (decide (arg = "-d")) as [->|Hd].
    + destruct l as [|file l].
      * exists [], ["-d"]. split; [reflexivity|]. split; [reflexivity|].
        split; [split; [exact Hflag | reflexivity]|]. cbn. rewrite Z.add_0_r. reflexivity.
      * cbn [length] in Hlen. rewrite parse_options_dumpfile.
        match goal with
        | |- context [VerificPass.parse_options l (argidx + 2) ?o1] =>
            destruct (IH l (argidx + 2) o1 ltac:(lia))
              as (opts & rest & -> & Hopts & Hrest & Hrun)
        end.
        exists ("-d" :: file :: opts), rest. split; [reflexivity|]. split.
        { cbn [VerificPass.option_words]. rewrite bool_decide_eq_false_2 by exact Hflag.
          rewrite bool_decide_eq_true_2 by reflexivity. exact Hopts. }
        split; [exact Hrest|]. rewrite Hrun.
        change (("-d" :: file :: opts) ++ rest) with ("-d" :: file :: opts ++ rest).
        rewrite parse_options_dumpfile. cbn [length]. f_equal. lia.
    + exists [], (arg :: l). split; [reflexivity|]. split; [reflexivity|].
      assert (VerificPass.no_option_ahead (arg :: l)) as Hstop
        by (split; [exact Hflag | intros E; contradiction]).
      split; [exact Hstop|]. rewrite (parse_options_break _ _ _ Hstop). cbn.
      rewrite Z.add_0_r. reflexivity.
Qed.

(** Read on a sequence of options followed by words at which no option
    is ahead, the loop stops where the sequence ends. *)
Lemma parse_options_app (n : nat) :
  ∀ opts rest argidx o, (length opts ≤ n)%nat →
    VerificPass.option_words opts = true → VerificPass.no_option_ahead rest →
    VerificPass.parse_options (opts ++ rest) argidx o
    = (argidx + Z.of_nat (length opts), (VerificPass.parse_options opts argidx o).2).
Proof.
  induction n as [|n IH]; intros opts rest argidx o Hlen Hopts Hrest.
  - destruct opts; [|cbn in Hlen; lia]. cbn [app length].
    rewrite (parse_options_break _ _ _ Hrest), Z.add_0_r. reflexivity.
  - destruct opts as [|arg opts].
    { cbn [app length]. rewrite (parse_options_break _ _ _ Hrest), Z.add_0_r. reflexivity. }
    cbn [length] in Hlen. cbn [VerificPass.option_words] in Hopts.
    destruct (decide (arg ∈ VerificPass.flag_words)) as [Hflag|Hflag].
    + rewrite bool_decide_eq_true_2 in Hopts by exact Hflag.
      destruct (parse_options_flag arg o Hflag) as [o' Ho'].
      change ((arg :: opts) ++ rest) with (arg :: opts ++ rest).
      rewrite !Ho', (IH opts rest (argidx + 1) o' ltac:(lia) Hopts Hrest).
      cbn [length]. f_equal. lia.
    + rewrite bool_decide_eq_false_2 in Hopts by exact Hflag.
      destruct (decide (arg = "-d")) as [->|Hd];
        [|rewrite bool_decide_eq_false_2 in Hopts by exact Hd; discriminate Hopts].
      rewrite bool_decide_eq_true_2 in Hopts by reflexivity.
      destruct opts as [|file opts]; [discriminate Hopts|]. cbn [length] in Hlen.
      change (("-d" :: file :: opts) ++ rest) with ("-d" :: file :: opts ++ rest).
      rewrite !parse_options_dumpfile, (IH opts rest (argidx + 2) _ ltac:(lia) Hopts Hrest).
      cbn [length]. f_equal. lia.
Qed.

(** X1. The options of [verific -import] are read up to the first word
    that is no option, and the error for an unknown option is never
    raised.  The words after [-import] split in one way into a sequence of
    options (flags, and [-d] with the file that follows it) and the rest, at
    which no option is ahead: the rest is empty or begins with a word that
    is no flag, and is [-d] only as the last word; there is no other such
    split.  The index at which
    reading stops is that of the rest, the options read are those of the
    sequence alone, and the rest, even when it begins with a word such as
    [-foo], is handed on as the names of the top modules. *)
Theorem unknown_option_is_never_reported
    (veri_ok vhdl_ok : bool) (lib_cells : list (string * N))
    (veri_GetModule : string → bool) (veri_Elaborate vhdl_Elaborate : string → option N)
    (args : list string) :
  args !! 1%nat = Some "-import" →
  ∃ opts rest o,
    drop 2 args = opts ++ rest
    ∧ VerificPass.option_words opts = true
    ∧ VerificPass.no_option_ahead rest
    ∧ o = (VerificPass.parse_options opts 2 VerificPass.no_options).2
    ∧ VerificPass.import_options args = Ok (2 + Z.of_nat (length opts), o)
    ∧ VerificPass.import_command veri_ok vhdl_ok lib_cells veri_GetModule
        veri_Elaborate vhdl_Elaborate args
      = (nl_todo ← VerificPass.select_netlists veri_ok vhdl_ok lib_cells veri_GetModule
                     veri_Elaborate vhdl_Elaborate o rest;
         Ok (o, nl_todo))
    ∧ ∀ opts' rest', drop 2 args = opts' ++ rest' →
        VerificPass.option_words opts' = true → VerificPass.no_option_ahead rest' →
        opts' = opts ∧ rest' = rest.
Proof.
  intros Hmode. assert (2 ≤ length args)%nat as Hlen.
  { apply lookup_lt_Some in Hmode. lia. }
  destruct (parse_options_split (length (drop 2 args)) (drop 2 args) 2
              VerificPass.no_options (le_n _)) as (opts & rest & Hsplit & Hopts & Hrest & Hrun).
  exists opts, rest, (VerificPass.parse_options opts 2 VerificPass.no_options).2.
  split; [exact Hsplit|]. split; [exact Hopts|]. split; [exact Hrest|].
  split; [reflexivity|].
  assert (Z.of_nat (length opts) ≤ Z.of_nat (length args) - 2) as Hb.
  { apply (f_equal length) in Hsplit. rewrite length_drop, length_app in Hsplit. lia. }
  assert (VerificPass.import_options args
          = Ok (2 + Z.of_nat (length opts),
                (VerificPass.parse_options opts 2 VerificPass.no_options).2)) as Hopt.
  { unfold VerificPass.import_options. rewrite Hrun.
    unfold VerificPass.check_unknown_option.
    rewrite bool_decide_eq_false_2 by lia. reflexivity. }
  split; [exact Hopt|]. split.
  { unfold VerificPass.import_command. rewrite Hopt.
    cbn [mbind result_bind].
    replace (Z.to_nat (2 + Z.of_nat (length opts))) with (2 + length opts)%nat by lia.
    rewrite <- drop_drop, Hsplit, drop_app_length. reflexivity. }
  intros opts' rest' Hsplit' Hopts' Hrest'.
  pose proof (parse_options_app (length opts') opts' rest' 2 VerificPass.no_options
                (le_n _) Hopts' Hrest') as Hrun'.
  rewrite <- Hsplit', Hrun in Hrun'. injection Hrun' as Hlen' _.
  assert (length opts' = length opts) as Hsame by lia.
  rewrite Hsplit in Hsplit'.
  apply app_inj_1 in Hsplit' as [-> ->]; [split; reflexivity | symmetry; exact Hsame].
Qed.

Lemma unknown_option_is_never_reported_witness :
  ∃ opts rest o,
    drop 2 ["verific"; "-import"; "-gates"; "-foo"; "top"] = opts ++ rest
    ∧ VerificPass.option_words opts = true
    ∧ VerificPass.no_option_ahead rest
    ∧ o = (VerificPass.parse_options opts 2 VerificPass.no_options).2
    ∧ VerificPass.import_options ["verific"; "-import"; "-gates"; "-foo"; "top"]
      = Ok (2 + Z.of_nat (length opts), o)
    ∧ VerificPass.import_command false false [] (λ _, true) (λ _, Some 7%N) (λ _, None)
        ["verific"; "-import"; "-gates"; "-foo"; "top"]
      = (nl_todo ← VerificPass.select_netlists false false [] (λ _, true) (λ _, Some 7%N)
                     (λ _, None) o rest;
         Ok (o, nl_todo))
    ∧ (["-gates"] = opts ∧ ["-foo"; "top"] = rest).
Proof.
  destruct (unknown_option_is_never_reported false false [] (λ _, true) (λ _, Some 7%N)
              (λ _, None) ["verific"; "-import"; "-gates"; "-foo"; "top"] eq_refl)
    as (opts & rest & o & H1 & H2 & H3 & H4 & H5 & H6 & Huniq).
  exists opts, rest, o. repeat (split; [assumption|]).
  apply (Huniq ["-gates"] ["-foo"; "top"]); [reflexivity | reflexivity|].
  split; [|discriminate]. unfold VerificPass.flag_words. intros Hin.
  repeat (apply elem_of_cons in Hin as [Hin|Hin]; [discriminate Hin|]). inversion Hin.
Defined.

Lemma bool_decide_elem_of_cons (x a : string) (l : list string) :
  bool_decide (x ∈ a :: l) = bool_decide (x = a) || bool_decide (x ∈ l).
Proof.
  destruct (decide (x = a)) as [->|Hne].
  - rewrite (bool_decide_eq_true_2 (a ∈ a :: l)) by apply list_elem_of_here.
    rewrite (bool_decide_eq_true_2 (a = a)) by reflexivity. reflexivity.
  - rewrite (bool_decide_eq_false_2 (x = a)) by exact Hne. cbn [orb].
    apply bool_decide_ext. rewrite elem_of_cons. tauto.
Qed.

Lemma parse_flags (flags : list string) :
  Forall (λ w, w ∈ VerificPass.flag_words) flags →
  ∀ argidx o,
    VerificPass.parse_options flags argidx o
    = (argidx + Z.of_nat (length flags),
       VerificPass.mkOptions
         (VerificPass.mode_all o || bool_decide ("-all" ∈ flags))
         (VerificPass.mode_gates o || bool_decide ("-gates" ∈ flags))
         (VerificPass.mode_keep o || bool_decide ("-k" ∈ flags))
         (VerificPass.mode_nosva o
          || (bool_decide ("-nosva" ∈ flags) || bool_decide ("-nosvapp" ∈ flags)))
         (VerificPass.mode_nosvapp o || bool_decide ("-nosvapp" ∈ flags))
         (VerificPass.mode_names o || bool_decide ("-n" ∈ flags))
         (VerificPass.verbose o || bool_decide ("-v" ∈ flags))
         (VerificPass.flatten o || bool_decide ("-flatten" ∈ flags))
         (VerificPass.extnets o || bool_decide ("-extnets" ∈ flags))
         (VerificPass.dumpfile o)).
Proof.
  induction 1 as [|w flags Hw _ IH]; intros argidx o.
  - cbn. rewrite !orb_false_r, Z.add_0_r. destruct o; reflexivity.
  - unfold VerificPass.flag_words in Hw.
    repeat (apply elem_of_cons in Hw as [->|Hw]);
      [..|inversion Hw];
      cbn [VerificPass.parse_options]; eval_string_tests; cbv iota; rewrite IH;
      rewrite !bool_decide_elem_of_cons; eval_string_tests;
      cbn [VerificPass.mode_all VerificPass.mode_gates VerificPass.mode_keep
           VerificPass.mode_nosva VerificPass.mode_nosvapp VerificPass.mode_names
           VerificPass.verbose VerificPass.flatten VerificPass.extnets
           VerificPass.dumpfile length];
      (apply (f_equal2 pair); [lia|]);
      (f_equal; cbn [orb]; rewrite ?orb_true_r, ?orb_false_r; reflexivity).
Qed.

Lemma nosvapp_implies_nosva (n : nat) :
  ∀ rest argidx o, (length rest ≤ n)%nat →
    (VerificPass.mode_nosvapp o = true → VerificPass.mode_nosva o = true) →
    let r := VerificPass.parse_options rest argidx o in
    VerificPass.mode_nosvapp r.2 = true → VerificPass.mode_nosva r.2 = true.
Proof.
  induction n as [|n IH]; intros rest argidx o Hlen Ho.
  - destruct rest; [exact Ho | cbn in Hlen; lia].
  - destruct rest as [|arg rest]; [exact Ho|]. cbn [length] in Hlen.
    cbn [VerificPass.parse_options].
    repeat (case_bool_decide; [apply IH; [lia | cbn; tauto]|]).
    case_bool_decide; [|exact Ho].
    destruct rest as [|file rest]; [exact Ho|]. cbn [length] in Hlen.
    apply IH; [lia | exact Ho].
Qed.

(** X2. A command line made of flags only is read to its end, and each
    variable is set exactly when its flag occurs, [mode_nosva] also when
    [-nosvapp] occurs; so the order of the flags and their repetition do
    not matter.  On every command line, [mode_nosvapp] is set only together
    with [mode_nosva]. *)
Theorem flags_accumulate (flags : list string) :
  Forall (λ w, w ∈ VerificPass.flag_words) flags →
  VerificPass.parse_options flags 2 VerificPass.no_options
  = (2 + Z.of_nat (length flags),
     VerificPass.mkOptions
       (bool_decide ("-all" ∈ flags)) (bool_decide ("-gates" ∈ flags))
       (bool_decide ("-k" ∈ flags))
       (bool_decide ("-nosva" ∈ flags) || bool_decide ("-nosvapp" ∈ flags))
       (bool_decide ("-nosvapp" ∈ flags)) (bool_decide ("-n" ∈ flags))
       (bool_decide ("-v" ∈ flags)) (bool_decide ("-flatten" ∈ flags))
       (bool_decide ("-extnets" ∈ flags)) "")
  ∧ (∀ flags', flags' ≡ₚ flags →
       (VerificPass.parse_options flags' 2 VerificPass.no_options).2
       = (VerificPass.parse_options flags 2 VerificPass.no_options).2)
  ∧ (∀ rest argidx,
       let o := (VerificPass.parse_options rest argidx VerificPass.no_options).2 in
       VerificPass.mode_nosvapp o = true → VerificPass.mode_nosva o = true).
Proof.
  intros Hflags. split; [|split].
  - rewrite (parse_flags flags Hflags). reflexivity.
  - intros flags' Hperm.
    assert (Forall (λ w, w ∈ VerificPass.flag_words) flags') as Hflags'
      by (rewrite Hperm; exact Hflags).
    assert (∀ x : string, bool_decide (x ∈ flags') = bool_decide (x ∈ flags)) as Hmem
      by (intros x; apply bool_decide_ext; rewrite Hperm; reflexivity).
    rewrite (parse_flags flags Hflags), (parse_flags flags' Hflags'). cbn [snd].
    rewrite !Hmem. reflexivity.
  - intros rest argidx.
    apply (nosvapp_implies_nosva (length rest) rest argidx VerificPass.no_options (le_n _)).
    discriminate.
Qed.

Lemma flags_accumulate_witness :
  VerificPass.parse_options ["-v"; "-nosvapp"; "-gates"; "-v"] 2 VerificPass.no_options
  = (6, VerificPass.mkOptions false true false true true false true false false "").
Proof.
  destruct (flags_accumulate ["-v"; "-nosvapp"; "-gates"; "-v"]) as [H _].
  - repeat constructor; unfold VerificPass.flag_words;
      repeat (first [apply list_elem_of_here | apply list_elem_of_further]).
  - rewrite H. reflexivity.
Defined.

(** X3. A command line [verific -import] followed by flags only names no
    top module: without [-all] the command ends in the error that no top
    module is specified; with [-all], once both languages are elaborated,
    the work-list starts from the first netlist of every cell of the
    library whose name does not begin with a dollar sign. *)
Theorem import_without_top_module
    (veri_ok vhdl_ok : bool) (lib_cells : list (string * N))
    (veri_GetModule : string → bool) (veri_Elaborate vhdl_Elaborate : string → option N)
    (flags : list string) :
  Forall (λ w, w ∈ VerificPass.flag_words) flags →
  let run := VerificPass.import_command veri_ok vhdl_ok lib_cells veri_GetModule
               veri_Elaborate vhdl_Elaborate ("verific" :: "-import" :: flags) in
  (("-all" ∉ flags) → run = Fail (log_cmd_error "No top module specified."))
  ∧ ("-all" ∈ flags → veri_ok = true → vhdl_ok = true →
     ∃ o, run = Ok (o, list_to_set
                         (filter (λ e, VerificPass.not_internal e.1 = true) lib_cells).*2)
          ∧ ∀ nl, nl ∈ (list_to_set
                          (filter (λ e, VerificPass.not_internal e.1 = true) lib_cells).*2
                        : gset N) ↔
                  ∃ nm, (nm, nl) ∈ lib_cells ∧ VerificPass.not_internal nm = true).
Proof.
  intros Hflags run. subst run.
  unfold VerificPass.import_command, VerificPass.import_options. cbn [drop].
  rewrite (parse_flags flags Hflags). cbn [VerificPass.no_options orb].
  unfold VerificPass.check_unknown_option. cbn [length].
  rewrite (bool_decide_eq_false_2 (_ < _)) by lia. cbn [mbind result_bind].
  replace (Z.to_nat (2 + Z.of_nat (length flags))) with (2 + length flags)%nat by lia.
  cbn [Nat.add drop]. rewrite drop_all.
  unfold VerificPass.select_netlists. cbn [VerificPass.mode_all]. split.
  - intros Hall. rewrite bool_decide_eq_false_2 by exact Hall. reflexivity.
  - intros Hall -> ->. rewrite bool_decide_eq_true_2 by exact Hall.
    cbn [negb mbind result_bind]. eexists. split; [reflexivity|].
    intros nl. rewrite elem_of_list_to_set, list_elem_of_fmap. split.
    + intros ([nm nl'] & -> & He). apply list_elem_of_filter in He as [Hn He].
      exists nm. split; [exact He | exact Hn].
    + intros (nm & He & Hn). exists (nm, nl). split; [reflexivity|].
      apply list_elem_of_filter. split; [exact Hn | exact He].
Qed.

Lemma import_without_top_module_witness :
  VerificPass.import_command true true [("top", 1%N); ("$add_8", 2%N)] (λ _, true)
    (λ _, None) (λ _, None) ["verific"; "-import"; "-gates"; "-v"]
  = Fail (log_cmd_error "No top module specified.").
Proof.
  refine (proj1 (import_without_top_module true true [("top", 1%N); ("$add_8", 2%N)]
                   (λ _, true) (λ _, None) (λ _, None) ["-gates"; "-v"] _) _).
  - repeat constructor; unfold VerificPass.flag_words;
      repeat (first [apply list_elem_of_here | apply list_elem_of_further]).
  - intros Hin. repeat (apply elem_of_cons in Hin as [Hin|Hin]; [discriminate Hin|]).
    inversion Hin.
Defined.

(** ** Messages of Verific *)

Lemma msg_func_latched (msgs : list verific_message) :
  ∀ st, verific_error_msg st ≠ "" →
    verific_error_msg (foldl (λ st msg, msg_func msg st) st msgs) = verific_error_msg st.
Proof.
  induction msgs as [|msg msgs IH]; intros st Hst; cbn [foldl]; [reflexivity|].
  rewrite IH; cbn [msg_func verific_error_msg];
    rewrite (bool_decide_eq_false_2 _ Hst); [reflexivity | exact Hst].
Qed.

Lemma msg_func_first (msgs : list verific_message) :
  ∀ st, verific_error_msg st = "" →
    verific_error_msg (foldl (λ st msg, msg_func msg st) st msgs)
    = match list_find (λ m, is_error_message m = true ∧ message_of m ≠ "") msgs with
      | Some (_, m) => message_of m
      | None => ""
      end.
Proof.
  induction msgs as [|msg msgs IH]; intros st Hst; cbn [foldl list_find]; [exact Hst|].
  destruct (decide (is_error_message msg = true ∧ message_of msg ≠ "")) as [[He Hn]|Hno].
  - cbn [fmap option_fmap option_map]. rewrite msg_func_latched.
    + cbn [msg_func verific_error_msg]. rewrite Hst, He. reflexivity.
    + cbn [msg_func verific_error_msg]. rewrite Hst, He. exact Hn.
  - rewrite IH.
    + destruct (list_find _ msgs) as [[i m]|]; reflexivity.
    + cbn [msg_func verific_error_msg]. rewrite Hst.
      rewrite (bool_decide_eq_true_2 ("" = "")) by reflexivity. cbn [andb].
      destruct (is_error_message msg); [|reflexivity].
      destruct (decide (message_of msg = "")) as [E|E]; [exact E|].
      exfalso. apply Hno. split; [reflexivity | exact E].
Qed.

Lemma msg_func_log (msgs : list verific_message) :
  ∀ st, length (log_lines (foldl (λ st msg, msg_func msg st) st msgs))
        = (length (log_lines st) + length msgs)%nat.
Proof.
  induction msgs as [|msg msgs IH]; intros st; cbn [foldl]; [cbn; lia|].
  rewrite IH. cbn [msg_func log_lines]. rewrite length_app. cbn. lia.
Qed.

(** X4. The global [verific_error_msg] latches the first failure: after
    any run of messages, starting with it empty, it holds the message
    (location and text) of the first message of kind error or program
    error whose message is not empty, and is empty when there is none;
    warnings and later errors never change it.  The check at the end of the
    command raises a fatal error exactly when there is such a message.
    Every message adds one line to the log. *)
Theorem first_error_is_latched (msgs : list verific_message) (log : list (bool * string)) :
  let reported m := is_error_message m = true ∧ message_of m ≠ "" in
  let st' := foldl (λ st msg, msg_func msg st) (mkLogState log "") msgs in
  verific_error_msg st'
  = match list_find reported msgs with
    | Some (_, m) => message_of m
    | None => ""
    end
  ∧ (check_error st' = Ok tt ↔ ∀ m, m ∈ msgs → ¬ reported m)
  ∧ length (log_lines st') = (length log + length msgs)%nat.
Proof.
  cbn zeta. pose proof (msg_func_first msgs (mkLogState log "") eq_refl) as Hfirst.
  split; [exact Hfirst|]. split; [|apply msg_func_log].
  unfold check_error. rewrite Hfirst.
  destruct (list_find _ msgs) as [[i m]|] eqn:Hfind.
  - apply list_find_Some in Hfind as (Hm & [He Hn] & _).
    rewrite (bool_decide_eq_false_2 _ Hn). cbn [negb]. split; [discriminate|].
    intros H. exfalso. apply (H m); [|split; assumption].
    apply list_elem_of_lookup. exists i. exact Hm.
  - rewrite (bool_decide_eq_true_2 ("" = "")) by reflexivity. cbn [negb].
    split; [|reflexivity]. intros _ m Hm.
    apply list_find_None in Hfind. rewrite Forall_forall in Hfind. exact (Hfind m Hm).
Qed.

(** ** The initial contents of a memory *)

Lemma string_app_assoc (a b c : string) : (a +:+ b) +:+ c = a +:+ (b +:+ c).
Proof.
  induction a as [|x a IH]; [reflexivity|].
  change (String x ((a +:+ b) +:+ c) = String x (a +:+ (b +:+ c))). f_equal. exact IH.
Qed.

Lemma skip_to_quote_none (s : string) : mentions "'" s = false → skip_to_quote s = "".
Proof.
  induction s as [|c s IH]; cbn; [reflexivity|]. intros H.
  apply orb_false_iff in H as [Hc Hs]. rewrite Hc. exact (IH Hs).
Qed.

Lemma skip_to_quote_app (s rest : string) :
  mentions "'" s = false → skip_to_quote (s +:+ String "'" rest) = String "'" rest.
Proof.
  induction s as [|c s IH]; [reflexivity|]. intros H.
  change (String c s +:+ String "'" rest) with (String c (s +:+ String "'" rest)).
  cbn in H |- *. apply orb_false_iff in H as [Hc Hs]. rewrite Hc. exact (IH Hs).
Qed.

Lemma digits_string_app (l k : list bool) :
  digits_string (l ++ k) = digits_string l +:+ digits_string k.
Proof.
  induction l as [|b l IH]; [reflexivity|].
  change (String (digit_char b) (digits_string (l ++ k))
          = String (digit_char b) (digits_string l +:+ digits_string k)).
  f_equal. exact IH.
Qed.

Lemma string_app_empty (s : string) : s +:+ "" = s.
Proof.
  induction s as [|c s IH]; [reflexivity|].
  change (String c (s +:+ "") = String c s). f_equal. exact IH.
Qed.

Lemma drop_insert_here {A} (l : list A) (n : nat) (x : A) :
  (n < length l)%nat → drop n (<[n := x]> l) = x :: drop (S n) l.
Proof.
  revert l. induction n as [|n IH]; intros [|y l] Hn; cbn in Hn; try lia; cbn.
  - rewrite drop_0. reflexivity.
  - apply IH. lia.
Qed.

(** A word written out in full is read back, most significant bit first. *)
Lemma read_word_digits (w : list bool) (rest : string) :
  ∀ initval valid, (length w ≤ length initval)%nat →
    read_word (length w) (digits_string w +:+ rest) initval valid
    = (reverse (digit_state <$> w) ++ drop (length w) initval,
       valid || negb (bool_decide (w = [])), rest).
Proof.
  induction w as [|b w IH]; intros initval valid Hlen.
  - cbn. rewrite drop_0, orb_false_r. reflexivity.
  - cbn [length] in Hlen. cbn [length digits_string].
    change (String (digit_char b) (digits_string w) +:+ rest)
      with (String (digit_char b) (digits_string w +:+ rest)).
    cbn [read_word]. unfold Const.
    assert (bool_decide (digit_char b = "0"%char) || bool_decide (digit_char b = "1"%char)
            = true) as Hd by (destruct b; reflexivity).
    rewrite Hd. rewrite IH by (rewrite length_insert; lia).
    rewrite drop_insert_here by lia.
    assert ((if bool_decide (digit_char b = "0"%char) then S0 else S1) = digit_state b) as ->
      by (destruct b; reflexivity).
    rewrite fmap_cons, reverse_cons, <- app_assoc. cbn [app orb].
    rewrite (bool_decide_eq_false_2 (b :: w = [])) by discriminate.
    cbn [negb]. rewrite orb_true_r. reflexivity.
Qed.

Lemma init_words_digits (memory : Memory) (ascending : bool) (words : list (list bool)) :
  1 ≤ memory_width memory →
  Forall (λ w, length w = Z.to_nat (memory_width memory)) words →
  ∀ word_idx m rest,
    let m' := init_words (length words) word_idx memory ascending
                (digits_string (concat words) +:+ rest) m in
    cells_ m'
    = cells_ m
      ++ imap (λ k w, meminit_cell (NewId (autoidx m + Z.of_nat k)) memory
                        (word_addr memory ascending (word_idx + Z.of_nat k))
                        (reverse (digit_state <$> w)) (autoidx m + Z.of_nat k)) words
    ∧ wires_ m' = wires_ m ∧ connections_ m' = connections_ m ∧ memories m' = memories m
    ∧ autoidx m' = autoidx m + Z.of_nat (length words).
Proof.
  intros Hwidth. induction 1 as [|w words Hw _ IH]; intros word_idx m rest.
  - cbn. rewrite app_nil_r. repeat split. lia.
  - cbn [length init_words concat]. rewrite digits_string_app, string_app_assoc.
    rewrite <- Hw. rewrite read_word_digits by (rewrite length_replicate; lia).
    rewrite drop_replicate, Nat.sub_diag. cbn [replicate orb].
    rewrite app_nil_r.
    rewrite (bool_decide_eq_false_2 (w = [])) by (intros ->; cbn in Hw; lia).
    cbn [negb NEW_ID].
    match goal with
    | |- context [init_words _ _ _ _ _ ?m1] => destruct (IH (word_idx + 1) m1 rest)
                                                 as (Hc & Hwi & Hco & Hme & Hau)
    end.
    cbn zeta. cbn [autoidx add_cell_obj cells_ wires_ connections_ memories] in *.
    rewrite Hc, Hwi, Hco, Hme, Hau. split; [|repeat split; lia].
    rewrite <- app_assoc. f_equal. cbn [app imap]. f_equal.
    + f_equal; [f_equal|f_equal|]; lia.
    + apply imap_ext. intros k x _. cbn. f_equal; [f_equal|f_equal|]; lia.
Qed.

(** X5. An initial value [<size>'b<digits>] that spells out every bit of
    a memory is turned into one [$meminit] cell for each word, in the order
    of the text: the cell of the [k]-th word carries its digits as data,
    the first digit being the most significant bit, addresses word [k]
    when the range of the memory ascends and word [size - 1 - k] when it
    descends, and has priority [k] above the number of the first.  Wires,
    connections and memories are unchanged. *)
Theorem meminit_from_binary_literal (memory : Memory) (ascending : bool) (m : Module)
    (prefix : string) (words : list (list bool)) :
  mentions "'" prefix = false →
  1 ≤ memory_width memory →
  length words = Z.to_nat (memory_size memory) →
  Forall (λ w, length w = Z.to_nat (memory_width memory)) words →
  ∃ m',
    import_ram_init memory (Some (prefix +:+ "'b" +:+ digits_string (concat words)))
      ascending m = Ok m'
    ∧ cells_ m'
      = cells_ m
        ++ imap (λ k w, meminit_cell (NewId (autoidx m + Z.of_nat k)) memory
                          (word_addr memory ascending (Z.of_nat k))
                          (reverse (digit_state <$> w)) (autoidx m + Z.of_nat k)) words
    ∧ wires_ m' = wires_ m ∧ connections_ m' = connections_ m ∧ memories m' = memories m
    ∧ autoidx m' = autoidx m + Z.of_nat (length words).
Proof.
  intros Hprefix Hwidth Hsize Hwords. unfold import_ram_init, init_digits.
  change (prefix +:+ "'b" +:+ digits_string (concat words))
    with (prefix +:+ String "'" (String "b" (digits_string (concat words)))).
  rewrite skip_to_quote_app by exact Hprefix.
  rewrite (bool_decide_eq_true_2 ("'"%char = "'"%char)) by reflexivity.
  rewrite (bool_decide_eq_true_2 ("b"%char = "b"%char)) by reflexivity.
  cbn [log_assert mbind result_bind]. eexists. split; [reflexivity|].
  rewrite <- Hsize.
  pose proof (init_words_digits memory ascending words Hwidth Hwords 0 m "") as H.
  cbn zeta in H.
  rewrite string_app_empty in H.
  destruct H as (Hc & H). split; [|exact H]. rewrite Hc. f_equal.
Qed.

Lemma meminit_from_binary_literal_witness :
  ∃ m',
    import_ram_init Sample.small_memory (Some "8'b10100011") false
      (new_Module (IdStr "\top") 1) = Ok m'
    ∧ cells_ m'
      = [meminit_cell (NewId 1) Sample.small_memory 1 [S0; S1; S0; S1] 1;
         meminit_cell (NewId 2) Sample.small_memory 0 [S1; S1; S0; S0] 2].
Proof.
  destruct (meminit_from_binary_literal Sample.small_memory false
              (new_Module (IdStr "\top") 1) "8"
              [[true; false; true; false]; [false; false; true; true]])
    as (m' & Hrun & Hcells & _).
  - reflexivity.
  - cbn. lia.
  - reflexivity.
  - repeat constructor.
  - exists m'. split; [exact Hrun|]. rewrite Hcells. reflexivity.
Defined.

Lemma read_word_end (bits : nat) (initval : Const) (valid : bool) :
  read_word bits "" initval valid = (initval, valid, "").
Proof. destruct bits; reflexivity. Qed.

Lemma init_words_end (memory : Memory) (ascending : bool) (words : nat) :
  ∀ word_idx m, init_words words word_idx memory ascending "" m = m.
Proof.
  induction words as [|words IH]; intros word_idx m; cbn [init_words]; [reflexivity|].
  rewrite read_word_end. apply IH.
Qed.

(** X6. No cell is made, and the module is returned as it is, when the
    memory has no initial value, when the text of the value has no
    apostrophe, and when it ends with the apostrophe.  A base other than
    [b] after the apostrophe, as in a hexadecimal literal, fails the
    assertion of the importer. *)
Theorem meminit_without_digits (memory : Memory) (ascending : bool) (m : Module)
    (size_text : string) :
  mentions "'" size_text = false →
  import_ram_init memory None ascending m = Ok m
  ∧ import_ram_init memory (Some size_text) ascending m = Ok m
  ∧ import_ram_init memory (Some (size_text +:+ "'")) ascending m = Ok m
  ∧ ∀ base digits, base ≠ "b"%char →
      import_ram_init memory (Some (size_text +:+ String "'" (String base digits)))
        ascending m = Fail log_assert_failed.
Proof.
  intros Hsize. split; [reflexivity|]. unfold import_ram_init, init_digits. split; [|split].
  - rewrite skip_to_quote_none by exact Hsize. cbn [mbind result_bind].
    rewrite init_words_end. reflexivity.
  - rewrite skip_to_quote_app by exact Hsize.
    rewrite (bool_decide_eq_true_2 ("'"%char = "'"%char)) by reflexivity.
    cbn [mbind result_bind]. rewrite init_words_end. reflexivity.
  - intros base digits Hbase. rewrite skip_to_quote_app by exact Hsize.
    rewrite (bool_decide_eq_true_2 ("'"%char = "'"%char)) by reflexivity.
    rewrite (bool_decide_eq_false_2 (base = "b"%char)) by exact Hbase. reflexivity.
Qed.

Lemma meminit_without_digits_witness :
  import_ram_init Sample.small_memory (Some "8'hA3") false (new_Module (IdStr "\top") 1)
  = Fail log_assert_failed.
Proof.
  destruct (meminit_without_digits Sample.small_memory false (new_Module (IdStr "\top") 1)
              "8" eq_refl) as (_ & _ & _ & H).
  apply (H "h"%char "A3"). discriminate.
Defined.

(** What reading one word does to the vector of its bits *)
Lemma read_word_inv (bits : nat) :
  ∀ p initval valid, (bits ≤ length initval)%nat →
    let r := read_word bits p initval valid in
    length r.1.1 = length initval
    ∧ (∀ i, (bits ≤ i)%nat → r.1.1 !! i = initval !! i)
    ∧ (r.1.2 = true →
       valid = true ∨ ∃ i s, (i < bits)%nat ∧ r.1.1 !! i = Some s ∧ defined_bit s).
Proof.
  induction bits as [|bit_idx IH]; intros p initval valid Hlen.
  - cbn. split; [reflexivity|]. split; [reflexivity|]. intros ->. left. reflexivity.
  - destruct p as [|c p]; cbn [read_word].
    + cbn. split; [reflexivity|]. split; [reflexivity|]. intros ->. left. reflexivity.
    + destruct (bool_decide (c = "0"%char) || bool_decide (c = "1"%char)).
      * set (s := if bool_decide (c = "0"%char) then S0 else S1).
        assert (defined_bit s) as Hs by (unfold s, defined_bit; case_bool_decide; tauto).
        unfold Const in *.
        destruct (IH p (<[bit_idx := s]> initval) true) as (H1 & H2 & _);
          [rewrite length_insert; lia|].
        cbn zeta. rewrite H1, length_insert. split; [reflexivity|]. split.
        -- intros i Hi. rewrite H2 by lia. apply list_lookup_insert_ne. lia.
        -- intros _. right. exists bit_idx, s. split; [lia|]. split; [|exact Hs].
           rewrite H2 by lia. apply list_lookup_insert_eq. lia.
      * destruct (IH p initval valid ltac:(lia)) as (H1 & H2 & H3).
        cbn zeta. split; [exact H1|]. split.
        -- intros i Hi. apply H2. lia.
        -- intros Hv. destruct (H3 Hv) as [Hl|(i & s & Hi & Hs)]; [left; exact Hl|].
           right. exists i, s. split; [lia | exact Hs].
Qed.

(** The cells the loop over the words adds *)
Lemma init_words_inv (memory : Memory) (ascending : bool) (words : nat) :
  0 ≤ memory_width memory →
  ∀ word_idx p m,
    let m' := init_words words word_idx memory ascending p m in
    ∃ new : list Cell,
      cells_ m' = cells_ m ++ new
      ∧ wires_ m' = wires_ m ∧ connections_ m' = connections_ m ∧ memories m' = memories m
      ∧ autoidx m' = autoidx m + Z.of_nat (length new)
      ∧ (length new ≤ words)%nat
      ∧ (∀ j c, new !! j = Some c →
           ∃ k data,
             (k < words)%nat
             ∧ c = meminit_cell (NewId (autoidx m + Z.of_nat j)) memory
                     (word_addr memory ascending (word_idx + Z.of_nat k)) data
                     (autoidx m + Z.of_nat j)
             ∧ length data = Z.to_nat (memory_width memory)
             ∧ ∃ s, s ∈ data ∧ defined_bit s).
Proof.
  intros Hwidth. induction words as [|words IH]; intros word_idx p m.
  - exists []. cbn. rewrite app_nil_r. repeat split; try lia. intros j c H. discriminate H.
  - cbn [init_words].
    pose proof (read_word_inv (Z.to_nat (memory_width memory)) p
                  (replicate (Z.to_nat (memory_width memory)) Sx) false
                  ltac:(rewrite length_replicate; lia)) as Hword.
    destruct (read_word _ p _ false) as [[initval valid] p'].
    cbn [fst snd] in Hword. destruct Hword as (Hlen & _ & Hdef).
    rewrite length_replicate in Hlen.
    destruct valid.
    + cbn [NEW_ID].
      match goal with
      | |- context [init_words _ _ _ _ _ ?m1] =>
          destruct (IH (word_idx + 1) p' m1) as (new & Hc & Hw & Hco & Hme & Hau & Hn & Hcells)
      end.
      cbn zeta. cbn [autoidx add_cell_obj cells_ wires_ connections_ memories] in *.
      exists (meminit_cell (NewId (autoidx m)) memory
                (word_addr memory ascending word_idx) initval (autoidx m + 1 - 1) :: new).
      rewrite Hc, <- app_assoc. cbn [length]. repeat split; try assumption; try lia.
      intros [|j] c Hj; cbn in Hj.
      * injection Hj as <-. exists 0%nat, initval. split; [lia|].
        split; [f_equal; [f_equal|f_equal|]; lia|]. split; [exact Hlen|].
        destruct (Hdef eq_refl) as [Hf|(i & s & _ & Hi & Hs)]; [discriminate Hf|].
        exists s. split; [|exact Hs]. apply list_elem_of_lookup. exists i. exact Hi.
      * destruct (Hcells j c Hj) as (k & data & Hk & -> & Hd).
        exists (S k), data. split; [lia|]. split; [|exact Hd].
        f_equal; [f_equal|f_equal|]; lia.
    + destruct (IH (word_idx + 1) p' m) as (new & Hc & Hw & Hco & Hme & Hau & Hn & Hcells).
      cbn zeta. exists new. repeat split; try assumption; try lia.
      intros j c Hj. destruct (Hcells j c Hj) as (k & data & Hk & -> & Hd).
      exists (S k), data. split; [lia|]. split; [|exact Hd].
      f_equal; f_equal; lia.
Qed.

(** X7. Whatever the text of the initial value, when the import of it
    returns, it has only added cells, at most one for each word of the
    memory and none for a word without a defined bit: each added cell is a
    [$meminit] cell under a fresh name, numbered upwards from the counter
    of the module, whose data has the width of the memory and holds a bit
    that is 0 or 1, and whose address lies within the memory. *)
Theorem meminit_cells_are_well_formed (memory : Memory) (text : string) (ascending : bool)
    (m m' : Module) :
  0 ≤ memory_width memory →
  import_ram_init memory (Some text) ascending m = Ok m' →
  ∃ new : list Cell,
    cells_ m' = cells_ m ++ new
    ∧ wires_ m' = wires_ m ∧ connections_ m' = connections_ m ∧ memories m' = memories m
    ∧ Z.of_nat (length new) ≤ Z.max 0 (memory_size memory)
    ∧ ∀ j c, new !! j = Some c →
        cell_type c = "$meminit"
        ∧ cell_name c = NewId (autoidx m + Z.of_nat j)
        ∧ ∃ addr data,
            getPort c "\ADDR" = Ok (SigSpec_int addr)
            ∧ 0 ≤ addr < memory_size memory
            ∧ getPort c "\DATA" = Ok (SigSpec_const data)
            ∧ Z.of_nat (length data) = memory_width memory
            ∧ ∃ s, s ∈ data ∧ defined_bit s.
Proof.
  intros Hwidth. unfold import_ram_init.
  destruct (init_digits text) as [p|e]; cbn [mbind result_bind]; [|discriminate].
  intros [= <-].
  destruct (init_words_inv memory ascending (Z.to_nat (memory_size memory)) Hwidth 0 p m)
    as (new & Hc & Hw & Hco & Hme & _ & Hn & Hcells).
  exists new. repeat split; try assumption; try lia.
  - destruct (Hcells j c H) as (k & data & _ & -> & _). reflexivity.
  - destruct (Hcells j c H) as (k & data & _ & -> & _). reflexivity.
  - destruct (Hcells j c H) as (k & data & Hk & -> & Hlen & Hs).
    exists (word_addr memory ascending (0 + Z.of_nat k)), data.
    split; [reflexivity|]. split; [unfold word_addr; destruct ascending; lia|].
    split; [reflexivity|]. split; [lia | exact Hs].
Qed.

Lemma meminit_cells_are_well_formed_witness :
  ∃ new : list Cell,
    cells_ (init_words 2 0 Sample.small_memory true "1x" (new_Module (IdStr "\top") 1))
    = [] ++ new
    ∧ Z.of_nat (length new) ≤ 2.
Proof.
  destruct (meminit_cells_are_well_formed Sample.small_memory "4'b1x" true
              (new_Module (IdStr "\top") 1)
              (init_words 2 0 Sample.small_memory true "1x" (new_Module (IdStr "\top") 1)))
    as (new & Hc & _ & _ & _ & Hn & _).
  - cbn. lia.
  - reflexivity.
  - exists new. split; [exact Hc | exact Hn].
Defined.

(** ** The pins of an operator *)

Lemma foldM_append {A B} (f : A → result B) (l : list A) :
  ∀ acc sig,
    foldM (λ x sig, b ← f x; Ok (sig ++ [b])) l acc = Ok sig
    ↔ ∃ bs, Forall2 (λ x b, f x = Ok b) l bs ∧ sig = acc ++ bs.
Proof.
  induction l as [|x l IH]; intros acc sig; cbn [foldM].
  - split.
    + intros [= <-]. exists []. split; [constructor | rewrite app_nil_r; reflexivity].
    + intros (bs & Hbs & ->). apply Forall2_nil_inv_l in Hbs as ->.
      rewrite app_nil_r. reflexivity.
  - destruct (f x) as [b|e] eqn:Hx; cbn [mbind result_bind].
    + rewrite IH. split.
      * intros (bs & Hbs & ->). exists (b :: bs). split; [constructor; assumption|].
        rewrite <- app_assoc. reflexivity.
      * intros (bs & Hbs & ->). apply Forall2_cons_inv_l in Hbs as (b' & bs' & Hb & Hbs & ->).
        rewrite Hx in Hb. injection Hb as <-. exists bs'. split; [exact Hbs|].
        rewrite <- app_assoc. reflexivity.
    + split; [discriminate|]. intros (bs & Hbs & _).
      apply Forall2_cons_inv_l in Hbs as (b' & bs' & Hb & _). rewrite Hx in Hb. discriminate Hb.
Qed.

(** X8. [operatorInput] returns a signal exactly when every connected pin
    of the bus is a mapped net of the netlist being imported; the signal
    then has one bit for each pin, in the reverse order of the pin indices:
    the pin of index [i] gives the bit at position [size - 1 - i], its net's
    signal bit when it is connected and the constant z when it is not. *)
Theorem operator_input_bits (imp : VerificImporter) (pins : list (option Net)) (sig : SigSpec) :
  operatorInput imp pins = Ok sig
  ↔ length sig = length pins
    ∧ ∀ i pin, pins !! i = Some pin →
        sig !! (length pins - 1 - i)%nat
        = Some (match pin with Some n => default (Cst Sz) (net_map imp !! net_id n)
                | None => Cst Sz end)
        ∧ ∀ n, pin = Some n →
            IsExternalTo n (netlist imp) = false ∧ is_Some (net_map imp !! net_id n).
Proof.
  pose proof (foldM_append (operator_bit imp) (reverse pins) [] sig) as Hfold.
  unfold operatorInput. split.
  - intros H. apply (proj1 Hfold) in H. clear Hfold. revert H.
    intros (bs & Hbs & ->). cbn [app].
    pose proof (Forall2_length _ _ _ Hbs) as Hlen. rewrite length_reverse in Hlen.
    split; [lia|]. intros i pin Hi.
    assert (i < length pins)%nat as Hlt by (apply lookup_lt_Some in Hi; exact Hi).
    assert (reverse pins !! (length pins - 1 - i)%nat = Some pin) as Hr.
    { rewrite reverse_lookup by lia.
      replace (length pins - S (length pins - 1 - i))%nat with i by lia. exact Hi. }
    destruct (Forall2_lookup_l _ _ _ _ _ Hbs Hr) as (b & Hb & Hpin).
    destruct pin as [n|]; cbn [operator_bit] in Hpin.
    + unfold net_map_at in Hpin.
      destruct (IsExternalTo n (netlist imp)) eqn:Hext; [discriminate|].
      destruct (net_map imp !! net_id n) as [b'|] eqn:Hm; [|discriminate].
      injection Hpin as <-. split; [exact Hb|]. intros n' [= <-].
      split; [exact Hext|]. rewrite Hm. eexists. reflexivity.
    + injection Hpin as <-. split; [exact Hb|]. intros n' Hn. discriminate Hn.
  - intros [Hlen Hbits]. apply (proj2 Hfold). clear Hfold. exists sig. split; [|reflexivity].
    apply Forall2_same_length_lookup. split; [rewrite length_reverse; lia|].
    intros j pin b Hj Hb.
    assert (j < length pins)%nat as Hlt
      by (apply lookup_lt_Some in Hj; rewrite length_reverse in Hj; exact Hj).
    rewrite reverse_lookup in Hj by lia.
    destruct (Hbits _ pin Hj) as [Hs Hn].
    assert (length pins - 1 - (length pins - S j) = j)%nat as Hidx by lia.
    rewrite Hidx in Hs. pose proof (eq_trans (eq_sym Hb) Hs) as E. injection E as ->.
    destruct pin as [n|]; cbn [operator_bit]; [|reflexivity].
    destruct (Hn n eq_refl) as [Hext [b' Hm]]. unfold net_map_at.
    rewrite Hext, Hm. reflexivity.
Qed.

Lemma dummy_runs_state (done : list (option Net)) :
  (foldl (λ '(n, in_run) pin,
            match pin with
            | None => (if in_run : bool then n else S n, true)
            | Some _ => (n, false)
            end) (O, false) done).2 = true
  ↔ last done = Some None.
Proof.
  induction done as [|pin done _] using rev_ind.
  - cbn. split; discriminate.
  - rewrite foldl_app, last_snoc. cbn [foldl].
    destruct (foldl _ _ done) as [n in_run]. destruct pin as [x|]; cbn.
    + split; discriminate.
    + split; reflexivity.
Qed.

Lemma dummy_runs_snoc (done : list (option Net)) :
  (∀ n, dummy_runs (done ++ [Some n]) = dummy_runs done)
  ∧ (last done = Some None → dummy_runs (done ++ [None]) = dummy_runs done)
  ∧ (last done ≠ Some None → dummy_runs (done ++ [None]) = S (dummy_runs done)).
Proof.
  unfold dummy_runs. pose proof (dummy_runs_state done) as Hst. split; [|split].
  - intros x. rewrite foldl_app. cbn [foldl].
    destruct (foldl _ _ done) as [n in_run]. reflexivity.
  - intros H. rewrite foldl_app. cbn [foldl]. apply Hst in H.
    destruct (foldl _ _ done) as [n in_run]. cbn [snd] in H. subst in_run. reflexivity.
  - intros H. rewrite foldl_app. cbn [foldl].
    destruct (foldl _ _ done) as [n in_run]. cbn [snd] in Hst.
    destruct in_run; [|reflexivity]. exfalso. apply H, Hst. reflexivity.
Qed.

Lemma unconnected_snoc (done : list (option Net)) (pin : option Net) :
  unconnected (done ++ [pin])
  = (unconnected done + match pin with Some _ => 0 | None => 1 end)%nat.
Proof.
  unfold unconnected. rewrite list.filter_app, length_app. f_equal.
  destruct pin; reflexivity.
Qed.

Lemma total_width_app (ws ws' : list Wire) :
  total_width (ws ++ ws') = total_width ws + total_width ws'.
Proof. induction ws as [|w ws IH]; cbn; [reflexivity|]. fold (total_width (ws ++ ws')). fold (total_width ws). lia. Qed.

(** Widening a wire changes that wire only. *)
Lemma set_wire_width_last (m : Module) (ws0 news : list Wire) (id : IdString) (width width' : Z) :
  wires_ m = ws0 ++ news ++ [mkWire id width []] →
  (∀ w, w ∈ ws0 → wire_name w ≠ id) →
  NoDup (wire_name <$> (news ++ [mkWire id width []])) →
  wires_ (set_wire_width id width' m) = ws0 ++ news ++ [mkWire id width' []].
Proof.
  intros Hw H0 Hnd. cbn [set_wire_width wires_]. rewrite Hw, !map_app. clear Hw.
  f_equal; [|f_equal].
  - induction ws0 as [|w ws0 IH]; [reflexivity|]. cbn [map].
    rewrite bool_decide_eq_false_2 by (apply H0, list_elem_of_here).
    f_equal. apply IH. intros x Hx. apply H0, list_elem_of_further, Hx.
  - rewrite fmap_app in Hnd. apply list.NoDup_app in Hnd as (_ & Hdis & _).
    induction news as [|w news IH]; [reflexivity|]. cbn [map].
    rewrite bool_decide_eq_false_2.
    + f_equal. apply IH. intros x Hx. apply Hdis. cbn. apply list_elem_of_further, Hx.
    + intros E. apply (Hdis (wire_name w)); [cbn; apply list_elem_of_here|].
      cbn. rewrite E. apply list_elem_of_here.
  - cbn. rewrite bool_decide_eq_true_2 by reflexivity. reflexivity.
Qed.

Lemma lookup_snoc_cases {A} (l : list A) (x y : A) (i : nat) :
  (l ++ [x]) !! i = Some y → (i < length l)%nat ∧ l !! i = Some y ∨ i = length l ∧ x = y.
Proof.
  intros H. destruct (decide (i < length l)%nat) as [Hlt|Hge].
  - left. split; [exact Hlt|]. rewrite lookup_app_l in H by exact Hlt. exact H.
  - right. rewrite lookup_app_r in H by lia.
    destruct (i - length l)%nat as [|k] eqn:E; cbn in H; [|discriminate H].
    injection H as ->. split; [lia | reflexivity].
Qed.

Lemma lookup_snoc_old {A} (l : list A) (x : A) (i : nat) :
  (i < length l)%nat → (l ++ [x]) !! i = l !! i.
Proof. intros H. apply lookup_app_l, H. Qed.

Lemma lookup_snoc_new {A} (l : list A) (x : A) (i : nat) :
  i = length l → (l ++ [x]) !! i = Some x.
Proof. intros ->. rewrite lookup_app_r by lia. rewrite Nat.sub_diag. reflexivity. Qed.

(** A connected pin in the loop of [operatorOutput] *)
Lemma operatorOutput_step_connected (imp : VerificImporter) (done : list (option Net))
    (n : Net) (st st' : output_state) :
  output_inv imp done st → operatorOutput_step imp (Some n) st = Ok st' →
  output_inv imp (done ++ [Some n]) st'.
Proof.
  destruct st as [[sig dummy] m]. cbn [operatorOutput_step].
  intros (Hlen & Hc & Hco & Hme & Hau & news & Hw & Hruns & Hnames & Hnd & Htot & Hdummy
          & Hconn & Hdum & Hdist).
  destruct (net_map_at imp (Some n)) as [b|e] eqn:Hb; cbn [mbind result_bind]; [|discriminate].
  intros [= <-]. cbn [output_inv]. unfold SigSpec in *.
  split; [rewrite !length_app; cbn; lia|]. do 4 (split; [assumption|]).
  exists news. split; [exact Hw|].
  split; [rewrite (proj1 (dummy_runs_snoc done)); exact Hruns|].
  split; [exact Hnames|]. split; [exact Hnd|].
  split; [rewrite unconnected_snoc; rewrite Htot; lia|].
  split; [rewrite last_snoc; discriminate|].
  split; [|split].
  - intros i x Hi. apply lookup_snoc_cases in Hi as [[Hlt Hi]|[-> [= ->]]].
    + destruct (Hconn i x Hi) as (b' & Hb' & Hs). exists b'. split; [exact Hb'|].
      rewrite lookup_snoc_old by lia. exact Hs.
    + exists b. split; [exact Hb|]. apply lookup_snoc_new. lia.
  - intros i Hi. apply lookup_snoc_cases in Hi as [[Hlt Hi]|[_ Hi]]; [|discriminate Hi].
    destruct (Hdum i Hi) as (w & off & Hs & Hin & Hoff). exists w, off.
    split; [|split; assumption]. rewrite lookup_snoc_old by lia. exact Hs.
  - intros i j Hij Hi Hj.
    apply lookup_snoc_cases in Hi as [[Hlti Hi]|[_ Hi]]; [|discriminate Hi].
    apply lookup_snoc_cases in Hj as [[Hltj Hj]|[_ Hj]]; [|discriminate Hj].
    rewrite !lookup_snoc_old by lia. exact (Hdist i j Hij Hi Hj).
Qed.

(** An unconnected pin in the loop of [operatorOutput] *)
Lemma operatorOutput_step_unconnected (imp : VerificImporter) (done : list (option Net))
    (st st' : output_state) :
  fresh_wire_names (module imp) →
  output_inv imp done st → operatorOutput_step imp None st = Ok st' →
  output_inv imp (done ++ [None]) st'.
Proof.
  intros Hfresh. destruct st as [[sig dummy] m]. cbn [operatorOutput_step].
  intros (Hlen & Hc & Hco & Hme & Hau & news & Hw & Hruns & Hnames & Hnd & Htot & Hdummy
          & Hconn & Hdum & Hdist).
  destruct dummy as [[id width]|].
  - (* the run goes on: the dummy wire grows *)
    destruct Hdummy as [[news0 ->] Hlast]. intros [= <-]. cbn [output_inv].
    unfold SigSpec in *.
    destruct (Hnames (mkWire id width []) ltac:(apply elem_of_app; right; apply list_elem_of_here))
      as (kid & Hid & Hkid & _ & Hwidth). cbn [wire_name wire_width] in Hid, Hwidth.
    assert (wires_ (set_wire_width id (width + 1) m)
            = wires_ (module imp) ++ news0 ++ [mkWire id (width + 1) []]) as Hw'.
    { apply (set_wire_width_last m _ _ id width); [exact Hw | | exact Hnd].
      intros w Hin E. rewrite Hid in E. specialize (Hfresh w kid Hin E). lia. }
    split; [rewrite !length_app; cbn; lia|]. do 4 (split; [assumption|]).
    exists (news0 ++ [mkWire id (width + 1) []]).
    split; [exact Hw'|].
    split; [rewrite (proj1 (proj2 (dummy_runs_snoc done)) Hlast), <- Hruns, !length_app;
            reflexivity|].
    split.
    { intros w Hin. apply elem_of_app in Hin as [Hin|Hin].
      - apply Hnames, elem_of_app. left. exact Hin.
      - apply list_elem_of_singleton in Hin as ->. exists kid. cbn.
        split; [exact Hid|]. split; [exact Hkid|]. split; [reflexivity | lia]. }
    split; [rewrite fmap_app in Hnd |- *; exact Hnd|].
    split; [rewrite unconnected_snoc, total_width_app in *; cbn in *; lia|].
    split; [split; [eexists; reflexivity | apply last_snoc]|].
    assert (Hold : ∀ i, done !! i = Some None →
              ∃ w off, sig !! i = Some (Bit (wire_name w) off)
                       ∧ w ∈ news0 ++ [mkWire id (width + 1) []]
                       ∧ 0 ≤ off < wire_width w
                       ∧ (wire_name w = id → off < width)).
    { intros i Hi. destruct (Hdum i Hi) as (w & off & Hs & Hin & Hoff).
      apply elem_of_app in Hin as [Hin|Hin].
      - exists w, off. split; [exact Hs|]. split; [apply elem_of_app; left; exact Hin|].
        split; [exact Hoff|]. intros E. exfalso.
        rewrite fmap_app in Hnd. apply list.NoDup_app in Hnd as (_ & Hdis & _).
        apply (Hdis (wire_name w)).
        + apply list_elem_of_fmap. exists w. split; [reflexivity | exact Hin].
        + cbn. rewrite E. apply list_elem_of_here.
      - apply list_elem_of_singleton in Hin as ->. cbn [wire_name wire_width] in *.
        exists (mkWire id (width + 1) []), off. cbn [wire_name wire_width].
        split; [exact Hs|]. split; [apply elem_of_app; right; apply list_elem_of_here|].
        split; [lia|]. intros _. lia. }
    split; [|split].
    + intros i x Hi. apply lookup_snoc_cases in Hi as [[Hlt Hi]|[_ Hi]]; [|discriminate Hi].
      destruct (Hconn i x Hi) as (b' & Hb' & Hs). exists b'. split; [exact Hb'|].
      rewrite lookup_snoc_old by lia. exact Hs.
    + intros i Hi. apply lookup_snoc_cases in Hi as [[Hlt Hi]|[-> _]].
      * destruct (Hold i Hi) as (w & off & Hs & Hin & Hoff & _). exists w, off.
        split; [|split; assumption]. rewrite lookup_snoc_old by lia. exact Hs.
      * exists (mkWire id (width + 1) []), (width + 1 - 1). cbn [wire_name wire_width].
        split; [apply lookup_snoc_new; lia|].
        split; [apply elem_of_app; right; apply list_elem_of_here | lia].
    + assert (Hnew : ∀ i, (i < length done)%nat → done !! i = Some None →
                sig !! i ≠ Some (Bit id (width + 1 - 1))).
      { intros i Hlt Hi E. destruct (Hold i Hi) as (w & off & Hs & _ & _ & Hoff).
        rewrite Hs in E. injection E as E1 E2. specialize (Hoff E1). lia. }
      intros i j Hij Hi Hj.
      apply lookup_snoc_cases in Hi as [[Hlti Hi]|[-> _]];
        apply lookup_snoc_cases in Hj as [[Hltj Hj]|[-> _]]; try lia.
      * rewrite !lookup_snoc_old by lia. exact (Hdist i j Hij Hi Hj).
      * rewrite lookup_snoc_old by lia. rewrite (lookup_snoc_new sig) by lia.
        exact (Hnew i Hlti Hi).
      * rewrite (lookup_snoc_old sig _ j) by lia. rewrite (lookup_snoc_new sig) by lia.
        intros E. exact (Hnew j Hltj Hj (eq_sym E)).
  - (* a run begins: a new dummy wire *)
    cbn [NEW_ID addWire wire_name wire_width]. intros [= <-]. cbn [output_inv].
    unfold SigSpec in *. cbn [add_wire_obj cells_ connections_ memories autoidx wires_].
    split; [rewrite !length_app; cbn; lia|]. do 3 (split; [assumption|]).
    split; [lia|].
    exists (news ++ [mkWire (NewId (autoidx m)) 1 []]).
    split; [rewrite Hw, <- app_assoc; reflexivity|].
    split; [rewrite (proj2 (proj2 (dummy_runs_snoc done)) Hdummy), <- Hruns, length_app;
            cbn; lia|].
    split.
    { intros w Hin. apply elem_of_app in Hin as [Hin|Hin].
      - destruct (Hnames w Hin) as (k & Hk & Hr & Ha & Hwd). exists k.
        split; [exact Hk|]. split; [lia|]. split; assumption.
      - apply list_elem_of_singleton in Hin as ->. exists (autoidx m). cbn.
        split; [reflexivity|]. split; [lia|]. split; [reflexivity | lia]. }
    split.
    { rewrite fmap_app. apply list.NoDup_app. split; [exact Hnd|]. split.
      - intros nm Hin Hin'. cbn in Hin'. apply list_elem_of_singleton in Hin' as ->.
        apply list_elem_of_fmap in Hin as (w & Hnm & Hin).
        destruct (Hnames w Hin) as (k & Hk & Hr & _). rewrite Hk in Hnm.
        injection Hnm as Hnm. lia.
      - cbn. apply NoDup_singleton. }
    split; [rewrite unconnected_snoc, total_width_app; cbn; lia|].
    split; [split; [eexists; reflexivity | apply last_snoc]|].
    split; [|split].
    + intros i x Hi. apply lookup_snoc_cases in Hi as [[Hlt Hi]|[_ Hi]]; [|discriminate Hi].
      destruct (Hconn i x Hi) as (b' & Hb' & Hs). exists b'. split; [exact Hb'|].
      rewrite lookup_snoc_old by lia. exact Hs.
    + intros i Hi. apply lookup_snoc_cases in Hi as [[Hlt Hi]|[-> _]].
      * destruct (Hdum i Hi) as (w & off & Hs & Hin & Hoff). exists w, off.
        split; [rewrite lookup_snoc_old by lia; exact Hs|].
        split; [apply elem_of_app; left; exact Hin | exact Hoff].
      * exists (mkWire (NewId (autoidx m)) 1 []), (1 - 1). cbn [wire_name wire_width].
        split; [apply lookup_snoc_new; lia|].
        split; [apply elem_of_app; right; apply list_elem_of_here | lia].
    + assert (Hnew : ∀ i, (i < length done)%nat → done !! i = Some None →
                sig !! i ≠ Some (Bit (NewId (autoidx m)) (1 - 1))).
      { intros i Hlt Hi E. destruct (Hdum i Hi) as (w & off & Hs & Hin & _).
        rewrite Hs in E. injection E as E1 E2.
        destruct (Hnames w Hin) as (k & Hk & Hr & _). rewrite Hk in E1.
        injection E1 as E1. lia. }
      intros i j Hij Hi Hj.
      apply lookup_snoc_cases in Hi as [[Hlti Hi]|[-> _]];
        apply lookup_snoc_cases in Hj as [[Hltj Hj]|[-> _]]; try lia.
      * rewrite !lookup_snoc_old by lia. exact (Hdist i j Hij Hi Hj).
      * rewrite lookup_snoc_old by lia. rewrite (lookup_snoc_new sig) by lia.
        exact (Hnew i Hlti Hi).
      * rewrite (lookup_snoc_old sig _ j) by lia. rewrite (lookup_snoc_new sig) by lia.
        intros E. exact (Hnew j Hltj Hj (eq_sym E)).
Qed.

Lemma operatorOutput_fold (imp : VerificImporter) (pins : list (option Net)) :
  fresh_wire_names (module imp) →
  ∀ done st st',
    output_inv imp done st → foldM (operatorOutput_step imp) pins st = Ok st' →
    output_inv imp (done ++ pins) st'.
Proof.
  intros Hfresh. induction pins as [|pin pins IH]; intros done st st' Hinv; cbn [foldM].
  - intros [= <-]. rewrite app_nil_r. exact Hinv.
  - destruct (operatorOutput_step imp pin st) as [st1|e] eqn:Hstep; cbn [mbind result_bind];
      [|discriminate].
    intros Hrest. replace (done ++ pin :: pins) with ((done ++ [pin]) ++ pins)
      by (rewrite <- app_assoc; reflexivity).
    apply (IH _ st1); [|exact Hrest]. destruct pin as [n|].
    + exact (operatorOutput_step_connected imp done n st st1 Hinv Hstep).
    + exact (operatorOutput_step_unconnected imp done st st1 Hfresh Hinv Hstep).
Qed.

Lemma output_inv_start (imp : VerificImporter) : output_inv imp [] ([], None, module imp).
Proof.
  cbn. split; [reflexivity|]. do 3 (split; [reflexivity|]). split; [lia|].
  exists []. split; [rewrite app_nil_r; reflexivity|]. split; [reflexivity|].
  split; [intros w H; inversion H|]. split; [constructor|]. split; [reflexivity|].
  split; [discriminate|]. split; [|split].
  - intros i n H. discriminate H.
  - intros i H. discriminate H.
  - intros i j _ H. discriminate H.
Qed.

(** X9. [operatorOutput] gives every pin of the output bus a bit of its
    own, in the reverse order of the pin indices: a connected pin the bit of
    its net, an unconnected pin a bit of a dummy wire.  The module gains one
    dummy wire for each maximal run of unconnected pins and nothing else;
    the dummy wires are together as wide as there are unconnected pins,
    every dummy bit lies within its wire, and no two unconnected pins share
    a bit. *)
Theorem operator_output_dummies (imp : VerificImporter) (pins : list (option Net))
    (sig : SigSpec) (m' : Module) :
  fresh_wire_names (module imp) →
  operatorOutput imp pins = Ok (sig, m') →
  length sig = length pins
  ∧ cells_ m' = cells_ (module imp) ∧ connections_ m' = connections_ (module imp)
  ∧ memories m' = memories (module imp)
  ∧ ∃ news : list Wire,
      wires_ m' = wires_ (module imp) ++ news
      ∧ length news = dummy_runs (reverse pins)
      ∧ total_width news = Z.of_nat (unconnected pins)
      ∧ (∀ i n, pins !! i = Some (Some n) →
           ∃ b, net_map_at imp (Some n) = Ok b
                ∧ sig !! (length pins - 1 - i)%nat = Some b)
      ∧ (∀ i, pins !! i = Some None →
           ∃ w off, sig !! (length pins - 1 - i)%nat = Some (Bit (wire_name w) off)
                    ∧ w ∈ news ∧ 0 ≤ off < wire_width w)
      ∧ (∀ i j, i ≠ j → pins !! i = Some None → pins !! j = Some None →
           sig !! (length pins - 1 - i)%nat ≠ sig !! (length pins - 1 - j)%nat).
Proof.
  intros Hfresh. unfold operatorOutput.
  destruct (foldM _ _ _) as [[[sig1 dummy] m1]|e] eqn:Hfold; cbn [mbind result_bind];
    [|discriminate].
  intros [= <- <-].
  pose proof (operatorOutput_fold imp (reverse pins) Hfresh [] _ _ (output_inv_start imp) Hfold)
    as Hinv.
  cbn [app output_inv] in Hinv.
  destruct Hinv as (Hlen & Hc & Hco & Hme & _ & news & Hw & Hruns & _ & _ & Htot & _
                    & Hconn & Hdum & Hdist).
  rewrite length_reverse in Hlen.
  assert (Hrev : ∀ i x, pins !! i = Some x →
            reverse pins !! (length pins - 1 - i)%nat = Some x
            ∧ (length pins - 1 - i < length pins)%nat ∧ (i < length pins)%nat).
  { intros i x Hi. assert (i < length pins)%nat as Hlt by (apply lookup_lt_Some in Hi; exact Hi).
    split; [|lia]. rewrite reverse_lookup by lia.
    replace (length pins - S (length pins - 1 - i))%nat with i by lia. exact Hi. }
  split; [exact Hlen|]. do 3 (split; [assumption|]).
  exists news. split; [exact Hw|]. split; [exact Hruns|].
  split; [rewrite Htot; unfold unconnected; rewrite filter_reverse, length_reverse; reflexivity|].
  split; [|split].
  - intros i n Hi. apply (Hconn _ n), Hrev, Hi.
  - intros i Hi. apply Hdum, Hrev, Hi.
  - intros i j Hij Hi Hj. destruct (Hrev i _ Hi) as (Hi' & _ & Hlti).
    destruct (Hrev j _ Hj) as (Hj' & _ & Hltj). apply Hdist; [lia|assumption..].
Qed.

Lemma operator_output_dummies_witness :
  ∃ sig m' news,
    operatorOutput Sample.imp [None; Some Sample.q; None; None] = Ok (sig, m')
    ∧ length sig = 4%nat
    ∧ wires_ m' = [] ++ news ∧ length news = 2%nat ∧ total_width news = 3.
Proof.
  destruct (operatorOutput Sample.imp [None; Some Sample.q; None; None])
    as [[sig m']|e] eqn:Hrun; [|vm_compute in Hrun; discriminate Hrun].
  destruct (operator_output_dummies Sample.imp [None; Some Sample.q; None; None] sig m')
    as (Hlen & _ & _ & _ & news & Hw & Hn & Htot & _).
  - intros w k Hin. inversion Hin.
  - exact Hrun.
  - exists sig, m', news. split; [reflexivity|]. split; [exact Hlen|].
    split; [exact Hw|]. split; [exact Hn | exact Htot].
Defined.

(** ** What the lowering of a primitive adds to the module *)

(** The calls that may fail are run one after the other. *)
Ltac run_lowering H :=
  repeat first
    [ match type of H with
      | context [net_map_at ?i ?p] =>
          let E := fresh "Hmap" in
          destruct (net_map_at i p) eqn:E; cbn [mbind result_bind] in H; [|discriminate H]
      end
    | match type of H with
      | context [net_IsGnd ?p] =>
          let E := fresh "Hgnd" in
          destruct (net_IsGnd p) as [[|]|] eqn:E; cbn [mbind result_bind andb] in H;
          [| |discriminate H]
      end ].

(** The goal [lowered types inst_name m m'], given the shapes of the cells
    before and after the one that keeps the name *)
Tactic Notation "show_lowered" uconstr(pre) uconstr(post) :=
  cbn; unfold lowered, made_between; cbn;
  split; [reflexivity|]; split; [reflexivity|]; split; [reflexivity|]; split; [lia|];
  split;
  [ eexists; split;
    [ first [ reflexivity | exact (eq_sym (app_nil_r _))
            | rewrite <- !app_assoc; reflexivity ]
    | repeat constructor; eexists; (split; [reflexivity | cbn; lia]) ]
  | refine (ex_intro _ pre _); eexists; refine (ex_intro _ post _); cbn;
    split; [try (rewrite <- !app_assoc); reflexivity|];
    split; [reflexivity|];
    split; repeat constructor; try (eexists; (split; [reflexivity | cbn; lia])) ].

(** One branch of a lowering: the calls are run, then the module is
    compared with the one before. *)
Tactic Notation "lowering_case" hyp(H) uconstr(pre) uconstr(post) :=
  cbn -[net_map_at net_IsGnd] in H; run_lowering H; injection H as <- <-;
  (split; [reflexivity|]); (split; [reflexivity|]); (split; [discriminate|]); intros _;
  show_lowered pre post.

Lemma set_module_same (imp : VerificImporter) : set_module imp (module imp) = imp.
Proof. destruct imp; reflexivity. Qed.

(** X10. The gate-level lowering handles exactly twelve kinds of
    primitive.  For any other kind it returns false and leaves the importer
    as it is.  For a kind it handles, when it returns, only the module has
    changed: it has gained fine-grain gates, exactly one of them under the
    name of the instance and the helpers under private names, and helper
    wires under private names; connections, memories and the map of the
    nets are untouched. *)
Theorem gate_lowering_frame (imp : VerificImporter) (inst : Instance) (inst_name : IdString)
    (handled : bool) (imp' : VerificImporter) :
  import_netlist_instance_gates imp inst inst_name = Ok (handled, imp') →
  handled = is_gate_primitive (Type_ inst)
  ∧ imp' = set_module imp (module imp')
  ∧ (handled = false → imp' = imp)
  ∧ (handled = true → lowered fine_grain_types inst_name (module imp) (module imp')).
Proof.
  intros H. unfold import_netlist_instance_gates in H.
  destruct (Type_ inst) eqn:Hty; cbn [is_gate_primitive];
    try (injection H as <- <-; split; [reflexivity|]; split; [symmetry; apply set_module_same|];
         split; [reflexivity | discriminate]).
  - lowering_case H [] [].
  - lowering_case H [_] [].
  - lowering_case H [] [].
  - lowering_case H [_] [].
  - lowering_case H [] [].
  - lowering_case H [] [].
  - lowering_case H [] [].
  - lowering_case H [] [].
  - lowering_case H [] [].
  - lowering_case H [] [].
  - unfold output_or_wire in H. destruct (GetCout inst), (GetOutput inst);
      lowering_case H [_] [_; _; _].
  - lowering_case H [] [].
Qed.

Lemma gate_lowering_frame_witness :
  lowered fine_grain_types (IdStr "\ff") (module Sample.imp)
    (module (set_module Sample.imp
               (addAdffGate (IdStr "\ff") [Sample.wire_of Sample.clk]
                  [Sample.wire_of Sample.rst] [Sample.wire_of Sample.d]
                  [Sample.wire_of Sample.q] false (module Sample.imp)).2)).
Proof.
  refine (proj2 (proj2 (proj2 (gate_lowering_frame Sample.imp Sample.dffrs (IdStr "\ff")
                                 true _ _))) eq_refl).
  reflexivity.
Defined.

(** X11. The cell-level lowering of one of its twelve primitives, when it
    returns, reports the instance as handled and has changed only the
    module: it has gained coarse-grain cells, exactly one of them under the
    name of the instance and the helpers under private names, and helper
    wires under private names.  Any other kind is passed on to the branches
    for the word-level operators. *)
Theorem cell_lowering_frame
    (ops : VerificImporter → Instance → IdString → result (bool * VerificImporter))
    (imp : VerificImporter) (inst : Instance) (inst_name : IdString) :
  (is_cell_primitive (Type_ inst) = false →
   import_netlist_instance_cells ops imp inst inst_name = ops imp inst inst_name)
  ∧ (is_cell_primitive (Type_ inst) = true →
     ∀ handled imp',
       import_netlist_instance_cells ops imp inst inst_name = Ok (handled, imp') →
       handled = true
       ∧ imp' = set_module imp (module imp')
       ∧ (handled = false → imp' = imp)
       ∧ (handled = true →
          lowered coarse_grain_types inst_name (module imp) (module imp'))).
Proof.
  unfold import_netlist_instance_cells.
  destruct (Type_ inst) eqn:Hty; cbn [is_cell_primitive];
    (split; [first [reflexivity | discriminate]|]); try discriminate; intros _ handled imp' H.
  - lowering_case H [] [].
  - lowering_case H [_] [].
  - lowering_case H [] [].
  - lowering_case H [_] [].
  - lowering_case H [] [].
  - lowering_case H [] [].
  - lowering_case H [] [].
  - lowering_case H [] [].
  - lowering_case H [] [].
  - unfold output_or_wire in H. destruct (GetCout inst), (GetOutput inst);
      lowering_case H [_] [].
  - lowering_case H [] [].
  - lowering_case H [] [].
Qed.

Lemma cell_lowering_frame_witness :
  lowered coarse_grain_types (IdStr "\ff") (module Sample.imp)
    (module (set_module Sample.imp
               (addAdff (IdStr "\ff") [Sample.wire_of Sample.clk]
                  [Sample.wire_of Sample.rst] [Sample.wire_of Sample.d]
                  [Sample.wire_of Sample.q] [S0] (module Sample.imp)).2)).
Proof.
  refine (proj2 (proj2 (proj2 (proj2 (cell_lowering_frame Sample.no_operator Sample.imp
                                        Sample.dffrs (IdStr "\ff")) eq_refl true _ _)))
            eq_refl).
  reflexivity.
Defined.

(** ** The groups of the register coalescer *)

Lemma database_insert_spec (key : SigBit * bool) (cell : Cell)
    (db : list (SigBit * bool * list Cell)) :
  NoDup db.*1 →
  NoDup (database_insert key cell db).*1
  ∧ ∀ k cs, (k, cs) ∈ database_insert key cell db ↔
      (k ≠ key ∧ (k, cs) ∈ db)
      ∨ (k = key ∧ ((∃ old, (key, old) ∈ db ∧ cs = old ++ [cell])
                    ∨ ((key ∉ db.*1) ∧ cs = [cell]))).
Proof.
  induction db as [|[k0 cs0] db IH]; intros Hnd; cbn [database_insert].
  - split; [cbn; apply NoDup_singleton|]. intros k cs. rewrite list_elem_of_singleton. split.
    + intros [= -> ->]. right. split; [reflexivity|]. right. split; [apply not_elem_of_nil|].
      reflexivity.
    + intros [[_ H]|[-> [(old & H & _)|[_ ->]]]]; [inversion H | inversion H | reflexivity].
  - cbn in Hnd. apply NoDup_cons in Hnd as [Hk0 Hnd]. case_bool_decide as Hkey.
    + subst k0. split; [cbn; apply NoDup_cons; split; assumption|].
      assert (∀ cs, (key, cs) ∈ db → False) as Hno0.
      { intros cs Hin. apply Hk0. apply list_elem_of_fmap. exists (key, cs).
        split; [reflexivity | exact Hin]. }
      intros k cs. rewrite !elem_of_cons. cbn [fmap list_fmap fst].
      rewrite not_elem_of_cons. split.
      * intros [[= -> ->]|Hin].
        -- right. split; [reflexivity|]. left. exists cs0.
           split; [apply list_elem_of_here | reflexivity].
        -- left. split; [intros ->; exact (Hno0 cs Hin) | right; exact Hin].
      * intros [[Hne [Heq|Hin]]|[-> [(old & Hold & ->)|[[Hno _] _]]]].
        -- injection Heq as -> _. contradiction.
        -- right. exact Hin.
        -- apply elem_of_cons in Hold as [Heq|Hin].
           ++ injection Heq as ->. left. reflexivity.
           ++ exfalso. exact (Hno0 old Hin).
        -- contradiction.
    + destruct (IH Hnd) as [Hnd' Hin']. split.
      * cbn. apply NoDup_cons. split; [|exact Hnd'].
        intros Hin. apply list_elem_of_fmap in Hin as ([k cs] & Hk & Hin). cbn in Hk. subst k.
        apply Hin' in Hin as [[_ Hin]|[-> _]]; [|contradiction].
        apply Hk0. apply list_elem_of_fmap. exists (k0, cs). split; [reflexivity | exact Hin].
      * intros k cs. rewrite elem_of_cons, Hin'. cbn [fmap list_fmap fst].
        rewrite not_elem_of_cons, !elem_of_cons. split.
        -- intros [Heq|[[Hne Hin]|[-> [(old & Hin & ->)|[Hno ->]]]]].
           ++ injection Heq as -> ->. left. split; [exact Hkey|]. left. reflexivity.
           ++ left. split; [exact Hne|]. right. exact Hin.
           ++ right. split; [reflexivity|]. left. exists old.
              split; [apply list_elem_of_further; exact Hin | reflexivity].
           ++ right. split; [reflexivity|]. right. split; [|reflexivity].
              split; [intros E; apply Hkey; symmetry; exact E | exact Hno].
        -- intros [[Hne [Heq|Hin]]|[-> [(old & Hold & ->)|[[_ Hno] ->]]]].
           ++ left. exact Heq.
           ++ right. left. split; assumption.
           ++ apply elem_of_cons in Hold as [Heq|Hin].
              ** injection Heq as E _. exfalso. apply Hkey. symmetry. exact E.
              ** right. right. split; [reflexivity|]. left. exists old.
                 split; [exact Hin | reflexivity].
           ++ right. right. split; [reflexivity|]. right. split; [exact Hno | reflexivity].
Qed.

Lemma has_clock_filter_snoc (key k : SigBit * bool) (done : list Cell) (cell : Cell) :
  ff_clock cell = Ok key →
  filter (λ c, has_clock k c = true) (done ++ [cell])
  = filter (λ c, has_clock k c = true) done ++ (if bool_decide (k = key) then [cell] else []).
Proof.
  intros Hkey. rewrite list.filter_app. f_equal.
  assert (has_clock k cell = bool_decide (k = key)) as Hc.
  { unfold has_clock. rewrite Hkey. apply bool_decide_ext. split; intros ->; reflexivity. }
  destruct (bool_decide (k = key)) eqn:E.
  - rewrite filter_cons_True by exact Hc. reflexivity.
  - rewrite filter_cons_False by (rewrite Hc; discriminate). reflexivity.
Qed.

Lemma clock_database_inv (cands : list Cell) :
  ∀ done db db',
    NoDup db.*1 →
    (∀ k cs, (k, cs) ∈ db ↔ cs = filter (λ c, has_clock k c = true) done ∧ cs ≠ []) →
    foldM (λ cell database, key ← ff_clock cell; Ok (database_insert key cell database))
      cands db = Ok db' →
    NoDup db'.*1
    ∧ (∀ k cs, (k, cs) ∈ db' ↔
         cs = filter (λ c, has_clock k c = true) (done ++ cands) ∧ cs ≠ [])
    ∧ Forall (λ c, is_Ok (ff_clock c) = true) cands.
Proof.
  induction cands as [|cell cands IH]; intros done db db' Hnd Hdb; cbn [foldM].
  - intros [= <-]. rewrite app_nil_r. split; [exact Hnd|]. split; [exact Hdb | constructor].
  - destruct (ff_clock cell) as [key|e] eqn:Hkey; cbn [mbind result_bind]; [|discriminate].
    intros Hrest. destruct (database_insert_spec key cell db Hnd) as [Hnd1 Hin1].
    replace (done ++ cell :: cands) with ((done ++ [cell]) ++ cands)
      by (rewrite <- app_assoc; reflexivity).
    destruct (IH (done ++ [cell]) _ db' Hnd1) as (H1 & H2 & H3); [|exact Hrest|].
    + intros k cs. rewrite Hin1, (has_clock_filter_snoc key k done cell Hkey).
      case_bool_decide as Hk.
      * subst k. split.
        -- intros [[Hne _]|[_ [(old & Hold & ->)|[Hno ->]]]]; [contradiction| |].
           ++ apply Hdb in Hold as [-> _]. split; [reflexivity|].
              intros E. apply app_eq_nil in E as [_ E]. discriminate E.
           ++ split; [|discriminate].
              destruct (filter (λ c, has_clock key c = true) done) as [|c0 l] eqn:Ef;
                [reflexivity|].
              exfalso. apply Hno. apply list_elem_of_fmap. exists (key, c0 :: l).
              split; [reflexivity|]. apply Hdb. split; [symmetry; exact Ef | discriminate].
        -- intros [-> _]. right. split; [reflexivity|].
           destruct (filter (λ c, has_clock key c = true) done) as [|c0 l] eqn:Ef.
           ++ right. split; [|reflexivity]. intros Hin.
              apply list_elem_of_fmap in Hin as ([k cs] & Hk & Hin). cbn in Hk. subst k.
              apply Hdb in Hin as [-> Hne]. apply Hne. exact Ef.
           ++ left. exists (c0 :: l). split; [|reflexivity]. apply Hdb.
              split; [symmetry; exact Ef | discriminate].
      * rewrite app_nil_r. split.
        -- intros [[_ Hin]|[E _]]; [apply Hdb; exact Hin | contradiction].
        -- intros H. left. split; [exact Hk|]. apply Hdb. exact H.
    + split; [exact H1|]. split; [exact H2|]. constructor; [rewrite Hkey; reflexivity | exact H3].
Qed.

(** X12. The first loop of [merge_past_ffs] sorts the candidate
    registers into groups by clock bit and clock polarity.  When every
    candidate has a clock and a polarity, the dictionary has one entry for
    each pair that occurs, and the group of a pair holds exactly the
    candidates with that clock and polarity, in their order.  So every
    candidate is in one group and in one only, and registers that differ
    in clock or polarity are never merged with one another: each group is
    handed to [merge_past_ffs_clock] on its own. *)
Theorem clock_groups (candidates : list Cell) (db : list (SigBit * bool * list Cell))
    (m : Module) :
  clock_database candidates = Ok db →
  NoDup db.*1
  ∧ (∀ key cells, (key, cells) ∈ db ↔
       cells = filter (λ c, has_clock key c = true) candidates ∧ cells ≠ [])
  ∧ (∀ c, c ∈ candidates → ∃ key cells, ff_clock c = Ok key ∧ (key, cells) ∈ db ∧ c ∈ cells)
  ∧ merge_past_ffs candidates m
    = foldl (λ acc group,
               r ← acc;
               match r with
               | Fail e => Some (Fail e)
               | Ok m =>
                   r' ← merge_past_ffs_clock group.2 group.1.1 group.1.2 m;
                   Some (r'' ← r'; Ok r''.1)
               end) (Some (Ok m)) db.
Proof.
  intros Hdb. unfold clock_database in Hdb.
  destruct (clock_database_inv candidates [] [] db (NoDup_nil_2 (A:=SigBit * bool))) as (Hnd & Hin & Hok);
    [|exact Hdb|].
  { intros k cs. cbn. split; [intros H; inversion H | intros [-> H]; contradiction]. }
  cbn [app] in Hin. split; [exact Hnd|]. split; [exact Hin|]. split.
  - intros c Hc. rewrite Forall_forall in Hok. specialize (Hok c Hc).
    destruct (ff_clock c) as [key|e] eqn:Hkey; [|discriminate Hok].
    exists key, (filter (λ c, has_clock key c = true) candidates).
    assert (c ∈ filter (λ c, has_clock key c = true) candidates) as Hcin.
    { apply list_elem_of_filter. split; [|exact Hc]. unfold has_clock. rewrite Hkey.
      apply bool_decide_eq_true_2. reflexivity. }
    split; [reflexivity|]. split; [|exact Hcin]. apply Hin. split; [reflexivity|].
    intros E. rewrite E in Hcin. inversion Hcin.
  - unfold merge_past_ffs. rewrite Hdb. reflexivity.
Qed.

Lemma clock_groups_witness :
  ∃ db, clock_database Sample.adjacent_ffs = Ok db
        ∧ ∀ c, c ∈ Sample.adjacent_ffs →
            ∃ key cells, ff_clock c = Ok key ∧ (key, cells) ∈ db ∧ c ∈ cells.
Proof.
  destruct (clock_database Sample.adjacent_ffs) as [db|e] eqn:Hdb;
    [|vm_compute in Hdb; discriminate Hdb].
  exists db. split; [reflexivity|].
  exact (proj1 (proj2 (proj2 (clock_groups Sample.adjacent_ffs db
                                (Sample.past_module Sample.adjacent_ffs) Hdb)))).
Defined.

(** ** What the register coalescer leaves in place *)

Lemma names_inj (l : list Cell) (x y : Cell) :
  NoDup (cell_name <$> l) → x ∈ l → y ∈ l → cell_name x = cell_name y → x = y.
Proof.
  intros Hnd Hx Hy E. apply list_elem_of_lookup in Hx as [i Hi].
  apply list_elem_of_lookup in Hy as [j Hj].
  assert (i = j) as ->.
  { apply (NoDup_lookup _ i j (cell_name x) Hnd).
    - rewrite list_lookup_fmap, Hi. reflexivity.
    - rewrite list_lookup_fmap, Hj, E. reflexivity. }
  rewrite Hi in Hj. injection Hj as ->. reflexivity.
Qed.

Lemma bind_inv {A B} (r : result A) (f : A → result B) (b : B) :
  r ≫= f = Ok b → ∃ a, r = Ok a ∧ f a = Ok b.
Proof. destruct r as [a|e]; cbn; [|discriminate]. intros H. exists a. split; [reflexivity | exact H]. Qed.

Lemma foldM_invariant {A St : Type} (f : A → St → result St) (I : list A → St → Prop)
    (l : list A) :
  (∀ done x s s', I done s → f x s = Ok s' → I (done ++ [x]) s') →
  ∀ done s s', I done s → foldM f l s = Ok s' → I (done ++ l) s'.
Proof.
  intros Hstep. induction l as [|x l IH]; intros done s s' HI; cbn [foldM].
  - intros [= <-]. rewrite app_nil_r. exact HI.
  - intros H. apply bind_inv in H as (s1 & Hx & H).
    replace (done ++ x :: l) with ((done ++ [x]) ++ l)
      by (rewrite <- app_assoc; reflexivity).
    exact (IH _ _ _ (Hstep _ _ _ _ HI Hx) H).
Qed.

Lemma replace_fold_autoidx (q : SigBit) (l : list Cell) :
  ∀ st st', foldM (replace_old_ff q) l st = Ok st' →
    autoidx (ms_module st') = autoidx (ms_module st).
Proof.
  induction l as [|c l IH]; intros st st'; cbn [foldM]; [intros [= <-]; reflexivity|].
  intros H. apply bind_inv in H as (st1 & Hc & H). rewrite (IH _ _ H).
  unfold replace_old_ff in Hc. apply bind_inv in Hc as (qb & _ & Hc). injection Hc as <-.
  reflexivity.
Qed.

Lemma bit_fold_autoidx (db : list (SigBit * Cell)) (pairs : list (SigBit * SigBit)) :
  ∀ st st',
    foldM (λ '(d_i, q_i) st, foldM (replace_old_ff q_i) (dbits_db_at db d_i) st) pairs st
    = Ok st' →
    autoidx (ms_module st') = autoidx (ms_module st).
Proof.
  induction pairs as [|[d q] pairs IH]; intros st st'; cbn [foldM];
    [intros [= <-]; reflexivity|].
  intros H. apply bind_inv in H as (st1 & Hc & H). rewrite (IH _ _ H).
  exact (replace_fold_autoidx _ _ _ _ Hc).
Qed.

(** The counter of private names never goes back. *)
Lemma merge_chunk_autoidx clock clock_pol (db : list (SigBit * Cell)) (chunk : SigChunk)
    (st st' : merge_state) :
  merge_chunk clock clock_pol db chunk st = Ok st' →
  autoidx (ms_module st) ≤ autoidx (ms_module st').
Proof.
  destruct chunk as [w o k|data]; cbn [merge_chunk]; [|intros [= <-]; lia].
  case_bool_decide as Hk1; [intros [= <-]; lia|].
  unfold new_wire, NEW_ID, addWire, addDff, addCell. cbn [wire_name wire_width]. intros Hrun.
  apply bit_fold_autoidx in Hrun. cbn in Hrun. lia.
Qed.

Lemma new_register_bit_mono clock clock_pol (from from' : Z) (m1 m2 : Module) (q : SigBit) :
  from' ≤ from →
  (∃ ws, wires_ m2 = wires_ m1 ++ ws) →
  (∀ c k, c ∈ cells_ m1 → cell_name c = NewId k → from' < k → c ∈ cells_ m2) →
  new_register_bit clock clock_pol from m1 q → new_register_bit clock clock_pol from' m2 q.
Proof.
  intros Hle [ws Hw] Hkeep (chunk & idx & i & Hidx & Hi & Hq & Hwire & Hcell & Hport).
  exists chunk, idx, i. split; [lia|]. split; [exact Hi|]. split; [exact Hq|].
  split; [rewrite Hw; apply elem_of_app; left; exact Hwire|]. split; [|exact Hport].
  apply (Hkeep _ (idx + 1) Hcell); [reflexivity | lia].
Qed.

(** A cell under a private name at or above [from] is not one of the
    registers at work, whose private names are below [from]. *)
Lemma above_not_at_work (work : list Cell) (from : Z) (c : Cell) (k : Z) :
  (∀ c' k', c' ∈ work → cell_name c' = NewId k' → k' < from) →
  cell_name c = NewId k → from ≤ k → cell_name c ∉ cell_name <$> work.
Proof.
  intros Hwork Hname Hk Hin. apply list_elem_of_fmap in Hin as (c' & E & Hc').
  rewrite Hname in E. specialize (Hwork c' k Hc' (eq_sym E)). lia.
Qed.

(** One chunk: wires are only added, a cell is removed only if it is one
    of the old registers the chunk stands for, connections are only added,
    and the output of each of those registers is connected to a bit of the
    register made for the chunk. *)
Lemma merge_chunk_frame clock clock_pol (db : list (SigBit * Cell)) (chunk : SigChunk)
    (st st' : merge_state) :
  chunk_ok chunk →
  (∀ d c, (d, c) ∈ db → ∃ qb, ff_Q c = Ok qb) →
  (∀ d c k, (d, c) ∈ db → cell_name c = NewId k → k < autoidx (ms_module st)) →
  merge_chunk clock clock_pol db chunk st = Ok st' →
  autoidx (ms_module st) ≤ autoidx (ms_module st')
  ∧ (∃ ws, wires_ (ms_module st') = wires_ (ms_module st) ++ ws)
  ∧ (∀ c, c ∈ cells_ (ms_module st) →
       (cell_name c ∉ cell_name <$> chunk_work db chunk) → c ∈ cells_ (ms_module st'))
  ∧ (∀ x, x ∈ connections_ (ms_module st) → x ∈ connections_ (ms_module st'))
  ∧ (∀ c, c ∈ chunk_work db chunk →
       ∃ qb q, ff_Q c = Ok qb ∧ ([qb], [q]) ∈ connections_ (ms_module st')
               ∧ new_register_bit clock clock_pol (autoidx (ms_module st)) (ms_module st') q).
Proof.
  intros Hok Hq Hfresh Hrun.
  split; [exact (merge_chunk_autoidx _ _ _ _ _ _ Hrun)|].
  destruct (mergeable chunk) eqn:Hm.
  - destruct chunk as [w o k|data]; [|discriminate Hm]. cbn in Hok, Hm.
    apply negb_true_iff, bool_decide_eq_false in Hm.
    destruct (merge_chunk_module clock clock_pol db w o k st ltac:(lia) Hm Hq)
      as (st1 & Hrun1 & Hw & Hc & Hmono & Hconn).
    rewrite Hrun in Hrun1. injection Hrun1 as <-.
    split; [eexists; exact Hw|]. split; [|split; [exact Hmono|]].
    + intros c Hin Hname. rewrite Hc. apply elem_of_without. split; [exact Hname|].
      apply elem_of_app. left. exact Hin.
    + intros c Hin. pose proof Hin as Hwork.
      apply elem_of_chunk_work in Hin as (_ & b & Hb & Hbc).
      destruct (Hq b c Hbc) as [qb Hqb]. destruct b as [v j|s].
      * apply elem_of_chunk_bits in Hb as [-> Hj].
        exists qb, (Bit (NewId (autoidx (ms_module st))) (j - o)). split; [exact Hqb|].
        split.
        { apply (Hconn (j - o) c qb); [lia | | exact Hqb].
          replace (o + (j - o)) with j by lia. exact Hbc. }
        exists (Chunk_wire w o k), (autoidx (ms_module st)), (j - o).
        rewrite (GetSize_chunk_bits w o k) by lia.
        split; [lia|]. split; [lia|]. split; [reflexivity|].
        split; [rewrite Hw; apply elem_of_app; right; apply list_elem_of_here|].
        split; [|unfold merged_ff; rewrite (GetSize_chunk_bits w o k) by lia; reflexivity].
        rewrite Hc. apply elem_of_without. split.
        -- apply (above_not_at_work _ (autoidx (ms_module st)) _ (autoidx (ms_module st) + 1));
             [|reflexivity|lia].
           intros c' k' Hc' Hname. apply elem_of_chunk_work in Hc' as (_ & b' & _ & Hbc').
           exact (Hfresh b' c' k' Hbc' Hname).
        -- apply elem_of_app. right. apply list_elem_of_here.
      * cbn in Hb. apply list_elem_of_fmap in Hb as (i & Hi & _). discriminate Hi.
  - rewrite merge_chunk_skip in Hrun by exact Hm. injection Hrun as <-.
    split; [exists []; rewrite app_nil_r; reflexivity|]. split; [tauto|]. split; [tauto|].
    intros c Hin. unfold chunk_work in Hin. rewrite Hm in Hin. inversion Hin.
Qed.

Lemma merge_chunks_frame clock clock_pol (db : list (SigBit * Cell)) (chs : list SigChunk) :
  Forall chunk_ok chs →
  (∀ d c, (d, c) ∈ db → ∃ qb, ff_Q c = Ok qb) →
  ∀ st st',
    (∀ d c k, (d, c) ∈ db → cell_name c = NewId k → k < autoidx (ms_module st)) →
    foldM (merge_chunk clock clock_pol db) chs st = Ok st' →
    autoidx (ms_module st) ≤ autoidx (ms_module st')
    ∧ (∃ ws, wires_ (ms_module st') = wires_ (ms_module st) ++ ws)
    ∧ (∀ c, c ∈ cells_ (ms_module st) →
         (cell_name c ∉ cell_name <$> flat_map (chunk_work db) chs) →
         c ∈ cells_ (ms_module st'))
    ∧ (∀ x, x ∈ connections_ (ms_module st) → x ∈ connections_ (ms_module st'))
    ∧ (∀ c, c ∈ flat_map (chunk_work db) chs →
         ∃ qb q, ff_Q c = Ok qb ∧ ([qb], [q]) ∈ connections_ (ms_module st')
                 ∧ new_register_bit clock clock_pol (autoidx (ms_module st))
                     (ms_module st') q).
Proof.
  intros Hok Hq. induction Hok as [|ch chs Hch _ IH]; intros st st' Hfresh; cbn [foldM].
  - intros [= <-]. split; [lia|]. split; [exists []; rewrite app_nil_r; reflexivity|].
    split; [tauto|]. split; [tauto|]. intros c Hin. inversion Hin.
  - destruct (merge_chunk _ _ _ ch st) as [st1|e] eqn:Hrun; cbn [mbind result_bind];
      [|discriminate].
    intros Hrest.
    destruct (merge_chunk_frame _ _ _ _ _ _ Hch Hq Hfresh Hrun)
      as (Hidx1 & [ws1 Hw1] & Hc1 & Hm1 & Hconn1).
    assert (Hfresh1 : ∀ d c k, (d, c) ∈ db → cell_name c = NewId k →
                               k < autoidx (ms_module st1)).
    { intros d c k Hdc Hname. specialize (Hfresh d c k Hdc Hname). lia. }
    destruct (IH _ _ Hfresh1 Hrest) as (Hidx & [ws Hw] & Hc & Hm & Hconn).
    cbn [flat_map]. split; [lia|].
    split; [exists (ws1 ++ ws); rewrite Hw, Hw1, app_assoc; reflexivity|].
    split; [|split].
    + intros c Hin Hname. rewrite fmap_app, not_elem_of_app in Hname.
      destruct Hname as [Hn1 Hn]. apply Hc; [|exact Hn]. apply Hc1; assumption.
    + intros x Hx. apply Hm, Hm1, Hx.
    + intros c Hin. apply elem_of_app in Hin as [Hin|Hin].
      * destruct (Hconn1 c Hin) as (qb & q & Hqb & Hx & Hnew). exists qb, q.
        split; [exact Hqb|]. split; [apply Hm, Hx|].
        apply (new_register_bit_mono _ _ _ _ _ _ _ (Z.le_refl _) (ex_intro _ ws Hw)); [|exact Hnew].
        intros c' k Hc' Hname Hk. apply Hc; [exact Hc'|].
        apply (above_not_at_work _ (autoidx (ms_module st)) _ k); [|exact Hname|lia].
        intros c2 k2 Hc2 Hname2. apply elem_of_flat_map in Hc2 as (ch' & _ & Hc2).
        apply elem_of_chunk_work in Hc2 as (_ & b' & _ & Hbc').
        exact (Hfresh b' c2 k2 Hbc' Hname2).
      * destruct (Hconn c Hin) as (qb & q & Hqb & Hx & Hnew). exists qb, q.
        split; [exact Hqb|]. split; [exact Hx|].
        apply (new_register_bit_mono _ _ _ _ _ _ _ Hidx1 (ex_intro _ [] (eq_sym (app_nil_r _))));
          [|exact Hnew].
        intros c' k Hc' _ _. exact Hc'.
Qed.

(** One iteration of the coalescer *)
Lemma merge_pass_frame clock clock_pol (st st' : merge_state) :
  Forall (λ c, ∃ qb, ff_Q c = Ok qb) (ms_candidates st) →
  (∀ c k, c ∈ ms_candidates st → cell_name c = NewId k → k < autoidx (ms_module st)) →
  merge_pass clock clock_pol st = Ok st' →
  ∃ work : list Cell,
    ms_candidates st' = without (cell_name <$> work) (ms_candidates st)
    ∧ (∀ c, c ∈ work → c ∈ ms_candidates st)
    ∧ autoidx (ms_module st) ≤ autoidx (ms_module st')
    ∧ (∃ ws, wires_ (ms_module st') = wires_ (ms_module st) ++ ws)
    ∧ (∀ c, c ∈ cells_ (ms_module st) → (cell_name c ∉ cell_name <$> work) →
         c ∈ cells_ (ms_module st'))
    ∧ (∀ x, x ∈ connections_ (ms_module st) → x ∈ connections_ (ms_module st'))
    ∧ (∀ c, c ∈ work →
         ∃ qb q, ff_Q c = Ok qb ∧ ([qb], [q]) ∈ connections_ (ms_module st')
                 ∧ new_register_bit clock clock_pol (autoidx (ms_module st))
                     (ms_module st') q).
Proof.
  intros HQ Hfresh Hpass. destruct (merge_pass_cands _ _ _ _ Hpass) as (db & Hdb & Hcands & _).
  exists (pass_work db). split; [exact Hcands|].
  destruct (collect_dbits_spec _ _ _ Hdb) as [Hsnd _].
  assert (Hin : ∀ d c, (d, c) ∈ db → c ∈ ms_candidates st).
  { intros d c Hdc. rewrite <- Hsnd. apply list_elem_of_fmap. exists (d, c).
    split; [reflexivity | exact Hdc]. }
  assert (Hq : ∀ d c, (d, c) ∈ db → ∃ qb, ff_Q c = Ok qb).
  { intros d c Hdc. rewrite Forall_forall in HQ. apply HQ. exact (Hin d c Hdc). }
  split.
  { intros c Hc. apply elem_of_pass_work in Hc as (ch & b & _ & _ & _ & Hbc).
    exact (Hin b c Hbc). }
  unfold merge_pass in Hpass. rewrite Hdb in Hpass. cbn [mbind result_bind] in Hpass.
  refine (merge_chunks_frame clock clock_pol db _ (chunks_ok _) Hq _ _ _ Hpass).
  intros d c k Hdc. exact (Hfresh c k (Hin d c Hdc)).
Qed.

Lemma merge_loop_frame clock clock_pol (cands0 : list Cell) (fuel : nat) :
  NoDup (cell_name <$> cands0) →
  Forall (λ c, ∃ qb, ff_Q c = Ok qb) cands0 →
  ∀ st st',
    (∀ c, c ∈ ms_candidates st → c ∈ cands0) →
    (∀ c k, c ∈ cands0 → cell_name c = NewId k → k < autoidx (ms_module st)) →
    merge_loop fuel clock clock_pol st = Some (Ok st') →
    autoidx (ms_module st) ≤ autoidx (ms_module st')
    ∧ (∃ ws, wires_ (ms_module st') = wires_ (ms_module st) ++ ws)
    ∧ (∀ c, c ∈ cells_ (ms_module st) →
         (cell_name c ∉ cell_name <$> cands0) ∨ c ∈ ms_candidates st' →
         c ∈ cells_ (ms_module st'))
    ∧ (∀ x, x ∈ connections_ (ms_module st) → x ∈ connections_ (ms_module st'))
    ∧ (∀ c, c ∈ ms_candidates st → c ∉ ms_candidates st' →
         ∃ qb q, ff_Q c = Ok qb ∧ ([qb], [q]) ∈ connections_ (ms_module st')
                 ∧ new_register_bit clock clock_pol (autoidx (ms_module st))
                     (ms_module st') q).
Proof.
  intros Hnd HQ. induction fuel as [|fuel IH]; intros st st' Hsub Hfresh; cbn [merge_loop];
    [discriminate|].
  destruct (merge_pass clock clock_pol st) as [st1|e] eqn:Hpass; [|discriminate].
  assert (Forall (λ c, ∃ qb, ff_Q c = Ok qb) (ms_candidates st)) as HQst
    by exact (Forall_sub _ _ _ HQ Hsub).
  destruct (merge_pass_frame _ _ _ _ HQst (λ c k Hc, Hfresh c k (Hsub c Hc)) Hpass)
    as (work & Hcands & Hwork & Hidx1 & [ws1 Hw1] & Hc1 & Hm1 & Hconn1).
  assert (Hsub1 : ∀ c, c ∈ ms_candidates st1 → c ∈ ms_candidates st)
    by (intros c; rewrite Hcands, elem_of_without; tauto).
  assert (Hgone : ∀ c, c ∈ ms_candidates st → c ∉ ms_candidates st1 → c ∈ work).
  { intros c Hc Hno. rewrite Hcands, elem_of_without in Hno.
    destruct (decide (cell_name c ∈ cell_name <$> work)) as [Hin|Hout]; [|tauto].
    apply list_elem_of_fmap in Hin as (c' & Hname & Hc').
    rewrite (names_inj cands0 c c' Hnd (Hsub c Hc) (Hsub c' (Hwork c' Hc')) Hname). exact Hc'. }
  assert (Hkeep : ∀ c, c ∈ cells_ (ms_module st) →
            (cell_name c ∉ cell_name <$> cands0) ∨ c ∈ ms_candidates st1 →
            c ∈ cells_ (ms_module st1)).
  { intros c Hc Hor. apply Hc1; [exact Hc|]. intros Hin. destruct Hor as [Hout|Hc'].
    - apply Hout. apply list_elem_of_fmap in Hin as (c' & -> & Hc').
      apply list_elem_of_fmap. exists c'. split; [reflexivity|]. apply Hsub, Hwork, Hc'.
    - rewrite Hcands, elem_of_without in Hc'. tauto. }
  destruct (keep_running st1).
  - intros Hloop.
    assert (Hfresh1 : ∀ c k, c ∈ cands0 → cell_name c = NewId k →
                             k < autoidx (ms_module st1)).
    { intros c k Hc Hname. specialize (Hfresh c k Hc Hname). lia. }
    destruct (IH st1 st' (λ c Hc, Hsub c (Hsub1 c Hc)) Hfresh1 Hloop)
      as (Hidx & [ws Hw] & Hc & Hm & Hconn).
    pose proof (merge_loop_sub _ _ _ _ _ Hloop) as Hsubf.
    split; [lia|].
    split; [exists (ws1 ++ ws); rewrite Hw, Hw1, app_assoc; reflexivity|].
    split; [|split].
    + intros c Hin Hor. apply Hc; [|exact Hor]. apply Hkeep; [exact Hin|].
      destruct Hor as [Hout|Hf]; [left; exact Hout | right; exact (Hsubf c Hf)].
    + intros x Hx. apply Hm, Hm1, Hx.
    + intros c Hin Hno. destruct (decide (cell_name c ∈ cell_name <$> work)) as [Hin1|Hno1].
      * assert (c ∉ ms_candidates st1) as Hout
          by (rewrite Hcands, elem_of_without; tauto).
        destruct (Hconn1 c (Hgone c Hin Hout)) as (qb & q & Hqb & Hx & Hnew). exists qb, q.
        split; [exact Hqb|]. split; [apply Hm, Hx|].
        apply (new_register_bit_mono _ _ _ _ _ _ _ (Z.le_refl _) (ex_intro _ ws Hw));
          [|exact Hnew].
        intros c' k Hc' Hname Hk. apply Hc; [exact Hc'|]. left.
        apply (above_not_at_work _ (autoidx (ms_module st)) _ k); [|exact Hname|lia].
        intros c2 k2 Hc2 Hname2. exact (Hfresh c2 k2 Hc2 Hname2).
      * destruct (Hconn c) as (qb & q & Hqb & Hx & Hnew); [|exact Hno|].
        { rewrite Hcands, elem_of_without. tauto. }
        exists qb, q. split; [exact Hqb|]. split; [exact Hx|].
        apply (new_register_bit_mono _ _ _ _ _ _ _ Hidx1
                 (ex_intro _ [] (eq_sym (app_nil_r _)))); [|exact Hnew].
        intros c' k Hc' _ _. exact Hc'.
  - intros [= <-]. split; [exact Hidx1|]. split; [exists ws1; exact Hw1|].
    split; [exact Hkeep|]. split; [exact Hm1|].
    intros c Hin Hno. exact (Hconn1 c (Hgone c Hin Hno)).
Qed.

(** X13. The coalescer of one clock group, run on single-bit registers
    with distinct names, the private ones below the counter of the module,
    never leaves an output undriven and touches nothing but its candidates:
    wires and connections are only added; a cell of the module that is no
    candidate, or that is a candidate the coalescer leaves over, remains in
    the module; the candidates left over are among those given; and the
    output of every candidate that is erased is connected to a bit of a new
    register: to a bit of a wire made in the run, which is the output of a
    register made in the run on the clock of the group, a cell of the
    module at the end. *)
Theorem coalescer_keeps_outputs_driven (candidates candidates' : list Cell)
    (clock : SigBit) (clock_pol : bool) (m m' : Module) :
  NoDup (cell_name <$> candidates) →
  Forall (λ c, ∃ qb, ff_Q c = Ok qb) candidates →
  (∀ c k, c ∈ candidates → cell_name c = NewId k → k < autoidx m) →
  merge_past_ffs_clock candidates clock clock_pol m = Some (Ok (m', candidates')) →
  (∃ ws, wires_ m' = wires_ m ++ ws)
  ∧ (∀ x, x ∈ connections_ m → x ∈ connections_ m')
  ∧ (∀ c, c ∈ cells_ m → (cell_name c ∉ cell_name <$> candidates) ∨ c ∈ candidates' →
       c ∈ cells_ m')
  ∧ (∀ c, c ∈ candidates' → c ∈ candidates)
  ∧ (∀ c, c ∈ candidates → c ∉ candidates' →
       ∃ qb q, ff_Q c = Ok qb ∧ ([qb], [q]) ∈ connections_ m'
               ∧ new_register_bit clock clock_pol (autoidx m) m' q).
Proof.
  intros Hnd HQ Hfresh. unfold merge_past_ffs_clock.
  destruct (merge_loop _ _ _ _) as [[st'|e]|] eqn:Hloop; cbn; try discriminate.
  intros [= <- <-].
  destruct (merge_loop_frame clock clock_pol candidates _ Hnd HQ
              (mkMergeState SigMap_empty m candidates true) st' (λ c Hc, Hc) Hfresh Hloop)
    as (_ & Hw & Hc & Hm & Hconn).
  split; [exact Hw|]. split; [exact Hm|]. split; [exact Hc|].
  split; [exact (merge_loop_sub _ _ _ _ _ Hloop) | exact Hconn].
Qed.

Lemma coalescer_keeps_outputs_driven_witness :
  ∃ qb q m',
    merge_past_ffs_clock Sample.adjacent_ffs (Sample.wire_of Sample.clk) true
      (Sample.past_module Sample.adjacent_ffs) = Some (Ok (m', []))
    ∧ ff_Q (Sample.past_ff 2 (Bit (IdStr "\bus") 1) (Bit (NewId 12) 0)) = Ok qb
    ∧ ([qb], [q]) ∈ connections_ m'
    ∧ new_register_bit (Sample.wire_of Sample.clk) true 20 m' q.
Proof.
  set (c := Sample.past_ff 2 (Bit (IdStr "\bus") 1) (Bit (NewId 12) 0)).
  assert (c ∈ Sample.adjacent_ffs) as Hc
    by (apply list_elem_of_further, list_elem_of_here).
  destruct (merge_past_ffs_clock Sample.adjacent_ffs (Sample.wire_of Sample.clk) true
              (Sample.past_module Sample.adjacent_ffs)) as [[[m' cs']|e]|] eqn:Hrun;
    try (vm_compute in Hrun; discriminate Hrun).
  assert (cs' = []) as -> by (vm_compute in Hrun; injection Hrun as _ <-; reflexivity).
  destruct (coalescer_keeps_outputs_driven Sample.adjacent_ffs [] (Sample.wire_of Sample.clk)
              true (Sample.past_module Sample.adjacent_ffs) m') as (_ & _ & _ & _ & Hconn).
  - vm_compute. repeat constructor; intros H; repeat (apply elem_of_cons in H as [H|H];
      [discriminate H|]); inversion H.
  - repeat constructor; eexists; reflexivity.
  - intros c' k Hc'. repeat (apply elem_of_cons in Hc' as [->|Hc']; [intros [= <-]; cbn; lia|]).
    inversion Hc'.
  - exact Hrun.
  - destruct (Hconn c Hc ltac:(intros H; inversion H)) as (qb & q & Hqb & Hx & Hnew).
    exists qb, q, m'. split; [reflexivity|]. split; [exact Hqb|]. split; assumption.
Defined.

(** ** What the sequence compiler adds to the module *)

Lemma compiled_refl (st : sva_state) : compiled_from st st.
Proof.
  unfold compiled_from. repeat split; try lia.
  - exists []. rewrite app_nil_r. reflexivity.
  - exists []. rewrite app_nil_r. split; [reflexivity|]. split; [constructor|]. cbn. lia.
Qed.

Lemma compiled_trans (st1 st2 st3 : sva_state) :
  compiled_from st1 st2 → compiled_from st2 st3 → compiled_from st1 st3.
Proof.
  intros (Hn1 & Hc1 & Hm1 & Ha1 & Hl1 & [ws1 Hw1] & cs1 & Hcs1 & Hty1 & Hff1)
         (Hn2 & Hc2 & Hm2 & Ha2 & Hl2 & [ws2 Hw2] & cs2 & Hcs2 & Hty2 & Hff2).
  unfold compiled_from. split; [congruence|]. split; [congruence|]. split; [congruence|].
  split; [lia|]. split; [lia|].
  split; [exists (ws1 ++ ws2); rewrite Hw2, Hw1, app_assoc; reflexivity|].
  exists (cs1 ++ cs2). split; [rewrite Hcs2, Hcs1, app_assoc; reflexivity|].
  split; [apply Forall_app; split; assumption|].
  rewrite list.filter_app, length_app. lia.
Qed.

(** The goal [compiled_from (seq, m) (seq', m')] for states given in full *)
Ltac show_compiled :=
  unfold compiled_from; cbn;
  split; [reflexivity|]; split; [reflexivity|]; split; [reflexivity|];
  split; [lia|]; split; [lia|];
  split;
  [ eexists; first [reflexivity | rewrite <- !app_assoc; reflexivity]
  | eexists; split; [first [reflexivity | rewrite <- !app_assoc; reflexivity]|];
    split; [repeat constructor; unfold sequence_cell_types;
            repeat (first [apply list_elem_of_here | apply list_elem_of_further])
           | match goal with
             | |- context [@length Cell ?l] =>
                 let v := eval vm_compute in (@length Cell l) in
                 change (@length Cell l) with v
             end; lia ] ].

Lemma sequence_cond_compiled (cond : SigBit) (st st' : sva_state) :
  sequence_cond cond st = Ok st' → compiled_from st st'.
Proof.
  destruct st as [seq m]. unfold sequence_cond. cbn. intros [= <-]. show_compiled.
Qed.

Lemma enable_on_match_compiled (st st' : sva_state) :
  enable_on_match st = Ok st' → compiled_from st st'.
Proof.
  destruct st as [seq m]. unfold enable_on_match. cbn. intros [= <-]. show_compiled.
Qed.

Lemma sequence_ff_compiled (worker : VerificSvaImporter) (st st' : sva_state) :
  sequence_ff worker st = Ok st' → compiled_from st st'.
Proof.
  destruct st as [seq m]. unfold sequence_ff. case_bool_decide; cbn; intros [= <-];
    show_compiled.
Qed.

Lemma repeatM_compiled (f : sva_state → result sva_state) (k : nat) :
  (∀ st st', f st = Ok st' → compiled_from st st') →
  ∀ st st', repeatM k f st = Ok st' → compiled_from st st'.
Proof.
  intros Hf. induction k as [|k IH]; intros st st'; cbn [repeatM].
  - intros [= <-]. apply compiled_refl.
  - destruct (f st) as [st1|e] eqn:E; cbn [mbind result_bind]; [|discriminate].
    intros H. exact (compiled_trans _ _ _ (Hf _ _ E) (IH _ _ H)).
Qed.

Lemma on_pin_compiled (rec : Net → sva_state → result sva_state) (pin : option Net) :
  (∀ n st st', pin = Some n → rec n st = Ok st' → compiled_from st st') →
  ∀ st st', on_pin rec pin st = Ok st' → compiled_from st st'.
Proof.
  intros Hrec st st'. destruct pin as [n|]; cbn [on_pin]; [|discriminate].
  apply Hrec. reflexivity.
Qed.

(** The cases of [parse_sequence] on the kind of the operator, given that
    the recursive calls on its pins only add to the module *)
Lemma parse_sequence_inst_compiled (worker : VerificSvaImporter)
    (rec : Net → sva_state → result sva_state) (inst : Instance) :
  (∀ pin n st st',
     pin ∈ [GetInput inst; GetInput1 inst; GetInput2 inst] → pin = Some n →
     rec n st = Ok st' → compiled_from st st') →
  ∀ st st', parse_sequence_inst worker rec inst st = Ok st' → compiled_from st st'.
Proof.
  intros Hrec.
  assert (H0 : ∀ st st', on_pin rec (GetInput inst) st = Ok st' → compiled_from st st').
  { apply on_pin_compiled. intros n st st'. apply Hrec. apply list_elem_of_here. }
  assert (H1 : ∀ st st', on_pin rec (GetInput1 inst) st = Ok st' → compiled_from st st').
  { apply on_pin_compiled. intros n st st'. apply Hrec.
    apply list_elem_of_further, list_elem_of_here. }
  assert (H2 : ∀ st st', on_pin rec (GetInput2 inst) st = Ok st' → compiled_from st st').
  { apply on_pin_compiled. intros n st st'. apply Hrec.
    do 2 apply list_elem_of_further. apply list_elem_of_here. }
  assert (Himpl : ∀ st st',
            (st1 ← on_pin rec (GetInput1 inst) st; st2 ← enable_on_match st1;
             on_pin rec (GetInput2 inst) st2) = Ok st' → compiled_from st st').
  { intros st st' H. apply bind_inv in H as (st1 & E1 & H).
    apply bind_inv in H as (st2 & E2 & H).
    exact (compiled_trans _ _ _ (H1 _ _ E1)
             (compiled_trans _ _ _ (enable_on_match_compiled _ _ E2) (H2 _ _ H))). }
  assert (Hsuffix : ∀ st st',
            (st1 ← on_pin rec (GetInput1 inst) st; st2 ← enable_on_match st1;
             st3 ← sequence_ff worker st2; on_pin rec (GetInput2 inst) st3) = Ok st' →
            compiled_from st st').
  { intros st st' H. apply bind_inv in H as (st1 & E1 & H).
    apply bind_inv in H as (st2 & E2 & H). apply bind_inv in H as (st3 & E3 & H).
    exact (compiled_trans _ _ _ (H1 _ _ E1)
             (compiled_trans _ _ _ (enable_on_match_compiled _ _ E2)
                (compiled_trans _ _ _ (sequence_ff_compiled _ _ _ E3) (H2 _ _ H)))). }
  assert (Hconcat : ∀ (msg : string) st st',
            (sva_low ← atoi (GetAttValue inst "sva:low");
             sva_high ← atoi (GetAttValue inst "sva:low");
             if bool_decide (sva_low ≠ sva_high) then Fail (log_error msg)
             else
               st1 ← on_pin rec (GetInput1 inst) st;
               st2 ← repeatM (Z.to_nat sva_low) (sequence_ff worker) st1;
               on_pin rec (GetInput2 inst) st2) = Ok st' → compiled_from st st').
  { intros msg st st' H.
    apply bind_inv in H as (lo & _ & H). apply bind_inv in H as (hi & _ & H).
    destruct (bool_decide (lo ≠ hi)); [discriminate|].
    apply bind_inv in H as (st1 & E1 & H). apply bind_inv in H as (st2 & E2 & H).
    exact (compiled_trans _ _ _ (H1 _ _ E1)
             (compiled_trans _ _ _
                (repeatM_compiled _ _ (sequence_ff_compiled worker) _ _ E2) (H2 _ _ H))). }
  assert (Hrepeat : ∀ (msg : string) st st',
            (sva_low ← atoi (GetAttValue inst "sva:low");
             sva_high ← atoi (GetAttValue inst "sva:low");
             if bool_decide (sva_low ≠ sva_high) then Fail (log_error msg)
             else
               st1 ← on_pin rec (GetInput inst) st;
               repeatM (Z.to_nat (sva_low - 1))
                 (λ st2, st3 ← sequence_ff worker st2; on_pin rec (GetInput inst) st3) st1)
            = Ok st' → compiled_from st st').
  { intros msg st st' H.
    apply bind_inv in H as (lo & _ & H). apply bind_inv in H as (hi & _ & H).
    destruct (bool_decide (lo ≠ hi)); [discriminate|].
    apply bind_inv in H as (st1 & E1 & H).
    refine (compiled_trans _ _ _ (H0 _ _ E1) (repeatM_compiled _ _ _ _ _ H)).
    intros sa sb Hs. apply bind_inv in Hs as (sc & E3 & Hs).
    exact (compiled_trans _ _ _ (sequence_ff_compiled _ _ _ E3) (H0 _ _ Hs)). }
  intros st st'. unfold parse_sequence_inst.
  destruct (Type_ inst);
    first [ destruct (negb (mode_keep (importer worker)));
            [discriminate | intros [= <-]; apply compiled_refl]
          | apply Himpl | apply Hsuffix | apply H0 | apply Hconcat | apply Hrepeat ].
Qed.

Lemma pin_height_le (inst : Instance) (pin : option Net) (n : Net) :
  pin ∈ [GetInput inst; GetInput1 inst; GetInput2 inst] → pin = Some n →
  (net_height n ≤ inst_height inst)%nat.
Proof.
  intros Hin ->. destruct inst; cbn [inst_height GetInput GetInput1 GetInput2] in *.
  repeat (apply elem_of_cons in Hin as [<-|Hin]); [lia..|inversion Hin].
Qed.

Lemma parse_sequence_compiled (worker : VerificSvaImporter) (k : nat) :
  ∀ n st st', (net_height n ≤ k)%nat →
    parse_sequence worker n st = Ok st' → compiled_from st st'.
Proof.
  induction k as [|k IH]; intros n st st' Hk; rewrite parse_sequence_unfold;
    destruct (net_to_ast_driver (Some n)) as [inst|] eqn:Hdrv.
  - apply net_to_ast_driver_Driver in Hdrv. destruct n; cbn in *. rewrite Hdrv in Hk. lia.
  - intros H. apply bind_inv in H as (cond & _ & H). exact (sequence_cond_compiled _ _ _ H).
  - apply parse_sequence_inst_compiled. intros pin n' sa sb Hin Hpin. apply IH.
    pose proof (pin_height_le inst pin n' Hin Hpin) as Hle.
    apply net_to_ast_driver_Driver in Hdrv. destruct n; cbn in *. rewrite Hdrv in Hk. lia.
  - intros H. apply bind_inv in H as (cond & _ & H). exact (sequence_cond_compiled _ _ _ H).
Qed.

(** X14. Compiling a sequence only adds to the module, whatever the net:
    name, connections and memories stay, the wires and the cells that were
    there stay in place with new ones after them, every new cell is an
    [$and], a [$mux] or a [$dff], the index of fresh names and the length
    of the sequence do not go down, and two [$dff] cells are added for each
    cycle the sequence has grown by. *)
Theorem sequence_compiler_only_adds (worker : VerificSvaImporter) (n : Net)
    (st st' : sva_state) :
  parse_sequence worker n st = Ok st' → compiled_from st st'.
Proof. exact (parse_sequence_compiled worker (net_height n) n st st' (le_n _)). Qed.

Lemma sequence_compiler_only_adds_witness :
  ∃ st', parse_sequence Sample.worker Sample.concat2_net Sample.start = Ok st'
         ∧ seq_length st'.1 = 2
         ∧ compiled_from Sample.start st'.
Proof.
  assert (∃ st', parse_sequence Sample.worker Sample.concat2_net Sample.start = Ok st'
                 ∧ seq_length st'.1 = 2) as (st' & Hrun & Hlen)
    by (vm_compute; eexists; split; reflexivity).
  exists st'. split; [exact Hrun|]. split; [exact Hlen|].
  exact (sequence_compiler_only_adds _ _ _ _ Hrun).
Defined.

(** ** The map from a net to the net one level up *)

Lemma get_net_level_up_mapped (net up : N) (st : ExtNets.state) :
  ExtNets.net_level_up st.2 !! net = Some up →
  ExtNets.get_net_level_up net st = (up, st).
Proof. destruct st as [db w]. cbn. intros ->. reflexivity. Qed.

(** A call for any net keeps what the map says about a net it maps. *)
Lemma get_net_level_up_keeps (net up n : N) (st : ExtNets.state) :
  ExtNets.net_level_up st.2 !! net = Some up →
  ExtNets.net_level_up (ExtNets.get_net_level_up n st).2.2 !! net = Some up.
Proof.
  destruct st as [db w]. cbn. intros Hnet.
  destruct (ExtNets.net_level_up w !! n) eqn:Hn; cbn; [exact Hnet|].
  case_bool_decide; cbn; [exact Hnet|].
  rewrite lookup_insert_ne; [exact Hnet|]. intros ->. congruence.
Qed.

Lemma get_net_level_up_stays_down (net n : N) (st0 st : ExtNets.state) :
  (net < ExtNets.next_net st0.1)%N →
  ExtNets.NumOfRefs st0.1 (ExtNets.net_Owner st0.1 net) ≠ 1 →
  stays_down net st0 st → stays_down net st0 (ExtNets.get_net_level_up n st).2.
Proof.
  intros Hlt Hrefs (Hmap & Hown & Href & Hnext). destruct st as [db w]. cbn in *.
  destruct (ExtNets.net_level_up w !! n) eqn:Hn; cbn; [repeat split; assumption|].
  case_bool_decide as Hone; cbn; [repeat split; assumption|].
  assert (n ≠ net) as Hne.
  { intros ->. apply Hrefs. unfold ExtNets.NumOfRefs in *. rewrite <- Href, <- Hown.
    exact Hone. }
  unfold stays_down. cbn.
  split; [rewrite lookup_insert_ne; [exact Hmap | exact Hne]|].
  split; [|split; [exact Href | lia]].
  unfold insert, fn_insert. destruct (decide (ExtNets.next_net db = net)); [lia | exact Hown].
Qed.

(** X15. Once a net has been asked for, asking again gives the same answer
    and changes nothing, whatever other nets have been asked for in
    between: a net is given at most one port and one net a level up, and a
    net whose netlist is not referenced exactly once is never given any. *)
Theorem net_level_up_is_memoised (st : ExtNets.state) (net : N) (others : list N) :
  (net < ExtNets.next_net st.1)%N →
  let r := ExtNets.get_net_level_up net st in
  let st2 := foldl (λ s n, (ExtNets.get_net_level_up n s).2) r.2 others in
  ExtNets.get_net_level_up net st2 = (r.1, st2).
Proof.
  intros Hlt r st2.
  destruct (ExtNets.net_level_up r.2.2 !! net) as [up|] eqn:Hr.
  - assert (r.1 = up) as Hup.
    { subst r. destruct st as [db w]. cbn in *.
      destruct (ExtNets.net_level_up w !! net) eqn:Hn; cbn in *; [congruence|].
      case_bool_decide; cbn in *; [congruence|].
      rewrite lookup_insert_eq in Hr. congruence. }
    rewrite Hup. apply get_net_level_up_mapped.
    subst st2. generalize dependent (r.2). clear.
    induction others as [|n others IH]; intros s Hs; cbn; [exact Hs|].
    apply IH. apply get_net_level_up_keeps. exact Hs.
  - assert (r = (net, st)
            ∧ ExtNets.NumOfRefs st.1 (ExtNets.net_Owner st.1 net) ≠ 1) as [Hreq Hrefs].
    { subst r. destruct st as [db w]. cbn in *.
      destruct (ExtNets.net_level_up w !! net) eqn:Hn; cbn in *; [congruence|].
      case_bool_decide; cbn in *; [split; [reflexivity | assumption]|].
      rewrite lookup_insert_eq in Hr. discriminate. }
    assert (stays_down net st st2) as (Hmap & Hown & Href & _).
    { subst st2. rewrite Hreq. cbn [snd].
      assert (stays_down net st st) as Hst.
      { rewrite Hreq in Hr. repeat split; [exact Hr | lia]. }
      revert Hst. generalize st at 2 4 as s. clear - Hlt Hrefs.
      induction others as [|n others IH]; intros s Hs; cbn; [exact Hs|].
      apply IH. apply get_net_level_up_stays_down; assumption. }
    rewrite Hreq. cbn [fst]. destruct st2 as [db2 w2]. cbn in *.
    rewrite Hmap. unfold ExtNets.NumOfRefs in *. rewrite Hown, Href.
    rewrite bool_decide_eq_true_2; [reflexivity | exact Hrefs].
Qed.

Lemma net_level_up_is_memoised_witness :
  (ExtNets.get_net_level_up 100
     (foldl (λ s n, (ExtNets.get_net_level_up n s).2)
        (ExtNets.get_net_level_up 100 Sample.ext_start).2 [101; 200; 100]%N)).1 = 200%N.
Proof.
  pose proof (net_level_up_is_memoised Sample.ext_start 100 [101; 200; 100]%N) as H.
  cbv zeta in H. rewrite H; [reflexivity | vm_compute; reflexivity].
Defined.

(** ** The loop over the indices of a bus *)

Lemma bus_walk_up {St : Type} (body : Z → St → result St) (n : nat) :
  ∀ (fuel : nat) (left : Z) (s : St),
    (n < fuel)%nat → left + Z.of_nat n ≤ INT_MAX → INT_MIN ≤ left →
    bus_walk fuel left (left + Z.of_nat n) 1 body s
    = Some (foldM body (map (λ k, left + Z.of_nat k) (seq 0 (S n))) s).
Proof.
  induction n as [|n IH]; intros fuel left s Hfuel Hmax Hmin;
    (destruct fuel as [|fuel]; [lia|]).
  - cbn [bus_walk seq map foldM]. replace (left + Z.of_nat 0) with left by lia.
    destruct (body left s) as [s'|e]; cbn; [|reflexivity].
    rewrite bool_decide_eq_true_2 by reflexivity. reflexivity.
  - change (seq 0 (S (S n))) with (0%nat :: seq 1 (S n)).
    rewrite <- (seq_shift (S n) 0), map_cons, map_map. cbn [bus_walk foldM].
    replace (left + Z.of_nat 0) with left by lia.
    destruct (body left s) as [s'|e]; cbn [mbind result_bind]; [|reflexivity].
    rewrite bool_decide_eq_false_2 by lia.
    rewrite bool_decide_eq_true_2 by (unfold INT_MIN, INT_MAX in *; lia).
    replace (left + Z.of_nat (S n)) with (left + 1 + Z.of_nat n) by lia.
    rewrite IH by lia. do 2 f_equal.
    apply map_ext. intros k. lia.
Qed.

Lemma bus_walk_down {St : Type} (body : Z → St → result St) (n : nat) :
  ∀ (fuel : nat) (left : Z) (s : St),
    (n < fuel)%nat → left ≤ INT_MAX → INT_MIN ≤ left - Z.of_nat n →
    bus_walk fuel left (left - Z.of_nat n) (-1) body s
    = Some (foldM body (map (λ k, left - Z.of_nat k) (seq 0 (S n))) s).
Proof.
  induction n as [|n IH]; intros fuel left s Hfuel Hmax Hmin;
    (destruct fuel as [|fuel]; [lia|]).
  - cbn [bus_walk seq map foldM]. replace (left - Z.of_nat 0) with left by lia.
    destruct (body left s) as [s'|e]; cbn; [|reflexivity].
    rewrite bool_decide_eq_true_2 by reflexivity. reflexivity.
  - change (seq 0 (S (S n))) with (0%nat :: seq 1 (S n)).
    rewrite <- (seq_shift (S n) 0), map_cons, map_map. cbn [bus_walk foldM].
    replace (left - Z.of_nat 0) with left by lia.
    destruct (body left s) as [s'|e]; cbn [mbind result_bind]; [|reflexivity].
    rewrite bool_decide_eq_false_2 by lia.
    rewrite bool_decide_eq_true_2 by (unfold INT_MIN, INT_MAX in *; lia).
    replace (left - Z.of_nat (S n)) with (left + -1 - Z.of_nat n) by lia.
    rewrite IH by lia. do 2 f_equal.
    apply map_ext. intros k. lia.
Qed.

(** The loop of a bus that counts the way its bounds say is the
    iteration over [bus_indices]. *)
Lemma bus_walk_spec {St : Type} (body : Z → St → result St) (left right : Z)
    (is_up : bool) (fuel : nat) (s : St) :
  bus_consistent left right is_up →
  (Z.to_nat (Z.abs (right - left)) < fuel)%nat →
  bus_walk fuel left right (bus_step is_up) body s
  = Some (foldM body (bus_indices left right) s).
Proof.
  intros (Hl & Hr & Hup & Hdown) Hfuel. unfold bus_indices.
  destruct (decide (left = right)) as [->|Hne].
  - rewrite bool_decide_eq_true_2 by lia.
    replace (right - right) with 0 in * by lia. change (Z.to_nat (Z.abs 0)) with 0%nat in *.
    destruct is_up; cbn [bus_step].
    + pose proof (bus_walk_up body 0 fuel right s) as H.
      change (Z.of_nat 0) with 0 in H. rewrite Z.add_0_r in H. apply H; lia.
    + pose proof (bus_walk_down body 0 fuel right s) as H.
      change (Z.of_nat 0) with 0 in H. rewrite Z.sub_0_r in H. rewrite H by lia.
      cbn [seq map]. change (Z.of_nat 0) with 0. rewrite Z.add_0_r, Z.sub_0_r. reflexivity.
  - case_bool_decide as Hle.
    + rewrite Hup by lia. cbn [bus_step].
      replace right with (left + Z.of_nat (Z.to_nat (Z.abs (right - left)))) at 1 by lia.
      apply bus_walk_up; lia.
    + rewrite Hdown by lia. cbn [bus_step].
      replace right with (left - Z.of_nat (Z.to_nat (Z.abs (right - left)))) at 1 by lia.
      apply bus_walk_down; lia.
Qed.

Lemma bus_indices_length (left right : Z) :
  length (bus_indices left right) = S (Z.to_nat (Z.abs (right - left))).
Proof. unfold bus_indices. rewrite length_map, length_seq. reflexivity. Qed.

Lemma bus_indices_lookup (left right : Z) (k : nat) :
  (k ≤ Z.to_nat (Z.abs (right - left)))%nat →
  bus_indices left right !! k
  = Some (if bool_decide (left ≤ right) then left + Z.of_nat k else left - Z.of_nat k).
Proof.
  intros Hk. unfold bus_indices. rewrite list_lookup_fmap, lookup_seq_lt by lia.
  reflexivity.
Qed.

Lemma bus_indices_elem_of (left right i : Z) :
  i ∈ bus_indices left right ↔ Z.min left right ≤ i ≤ Z.max left right.
Proof.
  unfold bus_indices. rewrite list_elem_of_fmap. split.
  - intros (k & -> & Hk). apply elem_of_seq in Hk. case_bool_decide; lia.
  - intros Hi. case_bool_decide.
    + exists (Z.to_nat (i - left)). split; [lia|]. apply elem_of_seq. lia.
    + exists (Z.to_nat (left - i)). split; [lia|]. apply elem_of_seq. lia.
Qed.

Lemma bus_indices_NoDup (left right : Z) : NoDup (bus_indices left right).
Proof.
  unfold bus_indices. apply NoDup_fmap_2_strong; [|apply NoDup_seq].
  intros a b _ _. case_bool_decide; lia.
Qed.

Lemma bus_indices_reverse (left right : Z) :
  bus_indices right left = reverse (bus_indices left right).
Proof.
  apply list_eq. intros k.
  destruct (decide (k ≤ Z.to_nat (Z.abs (right - left)))%nat) as [Hk|Hk].
  - rewrite reverse_lookup by (rewrite bus_indices_length; lia).
    rewrite bus_indices_length, !bus_indices_lookup by lia.
    f_equal. repeat case_bool_decide; lia.
  - rewrite !lookup_ge_None_2; [reflexivity | |];
      rewrite ?length_reverse, bus_indices_length; lia.
Qed.

(** The loop does not end well on a bus that counts away from its right
    index. *)
Lemma bus_walk_astray {St : Type} (body : Z → St → result St) (last step : Z) (fuel : nat) :
  ∀ (i : Z) (s s' : St),
    (step = 1 ∧ last < i) ∨ (step = -1 ∧ i < last) →
    bus_walk fuel i last step body s ≠ Some (Ok s').
Proof.
  induction fuel as [|fuel IH]; intros i s s' Hside; cbn [bus_walk]; [discriminate|].
  destruct (body i s) as [s1|e]; [|discriminate].
  rewrite bool_decide_eq_false_2 by lia.
  case_bool_decide; [|discriminate]. apply IH. lia.
Qed.

(** X16. The loop over a bus whose direction agrees with its bounds ends
    after one iteration for each index between them: it runs the body on
    the left index first and on the right index last, once on each index
    in between, and the loop from the right index back, in the opposite
    direction, runs it on the same indices in the opposite order.  On a
    bus that counts away from its right index the loop never ends well. *)
Theorem bus_walk_visits {St : Type} (body : Z → St → result St) (left right : Z)
    (is_up : bool) (fuel : nat) (s : St) :
  (bus_consistent left right is_up →
   (Z.to_nat (Z.abs (right - left)) < fuel)%nat →
   bus_walk fuel left right (bus_step is_up) body s
   = Some (foldM body (bus_indices left right) s)
   ∧ bus_walk fuel right left (bus_step (negb is_up)) body s
     = Some (foldM body (reverse (bus_indices left right)) s)
   ∧ head (bus_indices left right) = Some left
   ∧ last (bus_indices left right) = Some right
   ∧ NoDup (bus_indices left right)
   ∧ ∀ i, i ∈ bus_indices left right ↔ Z.min left right ≤ i ≤ Z.max left right)
  ∧ ((left < right ∧ is_up = false) ∨ (right < left ∧ is_up = true) →
     ∀ s', bus_walk fuel left right (bus_step is_up) body s ≠ Some (Ok s')).
Proof.
  split.
  - intros Hc Hfuel. split; [exact (bus_walk_spec body left right is_up fuel s Hc Hfuel)|].
    split.
    { rewrite <- bus_indices_reverse. apply bus_walk_spec.
      - destruct Hc as (Hl & Hr & Hup & Hdown). repeat split; try lia.
        + intros H. rewrite (Hdown H). reflexivity.
        + intros H. rewrite (Hup H). reflexivity.
      - replace (left - right) with (- (right - left)) by lia. rewrite Z.abs_opp. exact Hfuel. }
    split; [|split; [|split; [apply bus_indices_NoDup | apply bus_indices_elem_of]]].
    + rewrite head_lookup, bus_indices_lookup by lia. f_equal. case_bool_decide; lia.
    + rewrite last_lookup, bus_indices_length. cbn [pred].
      rewrite bus_indices_lookup by lia. f_equal. case_bool_decide; lia.
  - intros Hside s'. apply bus_walk_astray.
    destruct Hside as [[Hlt ->]|[Hlt ->]]; cbn [bus_step]; lia.
Qed.

Lemma bus_walk_visits_witness :
  bus_walk 4 7 4 (bus_step false) (λ i l, Ok (l ++ [i])) [] = Some (Ok [7; 6; 5; 4])
  ∧ bus_walk 4 4 7 (bus_step true) (λ i l, Ok (l ++ [i])) [] = Some (Ok [4; 5; 6; 7])
  ∧ bus_walk 9 4 7 (bus_step false) (λ i l, Ok (l ++ [i])) [] ≠ Some (Ok [4; 5; 6; 7]).
Proof.
  pose proof (bus_walk_visits (λ i l, Ok (l ++ [i])) 7 4 false 4 []) as [Hgood _].
  pose proof (bus_walk_visits (λ i l, Ok (l ++ [i])) 4 7 false 9 []) as [_ Hbad].
  destruct Hgood as (H1 & H2 & _);
    [unfold bus_consistent, INT_MIN, INT_MAX; repeat split; (lia || reflexivity)
    | cbn; lia |].
  split; [exact H1|]. split; [exact H2|].
  apply Hbad. left. split; [lia | reflexivity].
Defined.

(** ** Port buses *)

(** A loop body that keeps an invariant of the elements visited *)
Lemma net_map_at_lookup (imp : VerificImporter) (n : Net) (b : SigBit) :
  net_map_at imp (Some n) = Ok b → net_map imp !! net_id n = Some b.
Proof.
  unfold net_map_at. destruct (IsExternalTo n (netlist imp)); [discriminate|].
  destruct (net_map imp !! net_id n) as [b'|]; [|discriminate]. intros [= <-]. reflexivity.
Qed.

Lemma portbus_inv_step (portbus : PortBus) (wire : Wire) (offset : Z) (input : bool)
    (imp0 : VerificImporter) (done : list Z) (i : Z) (imp imp' : VerificImporter) :
  portbus_inv portbus (wire_name wire) offset input imp0 done imp →
  import_portbus_bit portbus wire offset input i imp = Ok imp' →
  portbus_inv portbus (wire_name wire) offset input imp0 (done ++ [i]) imp'.
Proof.
  intros (Hw & Hold & Hvis & Hnew & cs & Hcs & Hall & Hconn) Hstep.
  set (conn := λ (j : Z) (b : SigBit),
         if input then ([b], [Bit (wire_name wire) (j - offset)])
         else ([Bit (wire_name wire) (j - offset)], [b])).
  assert (Hall' : ∀ imp1, (∀ k b, net_map imp !! k = Some b → net_map imp1 !! k = Some b) →
            Forall (λ c, ∃ j e n b, j ∈ done ++ [i]
                      ∧ portbus_ElementAtIndex portbus j = Some e
                      ∧ port_GetNet e = Some n
                      ∧ net_map imp1 !! net_id n = Some b
                      ∧ c = conn j b) cs).
  { intros imp1 Hgrow. eapply Forall_impl; [exact Hall|].
    intros c (j & e & n & b & Hj & He & Hn & Hb & Hc).
    exists j, e, n, b. split; [apply elem_of_app; left; exact Hj|].
    split; [exact He|]. split; [exact Hn|]. split; [exact (Hgrow _ _ Hb) | exact Hc]. }
  assert (Hnew' : ∀ imp1, net_map imp1 = net_map imp →
            ∀ k b, net_map imp1 !! k = Some b →
              net_map imp0 !! k = Some b
              ∨ ∃ j e n, j ∈ done ++ [i] ∧ portbus_ElementAtIndex portbus j = Some e
                         ∧ port_GetNet e = Some n ∧ net_id n = k
                         ∧ b = Bit (wire_name wire) (j - offset)).
  { intros imp1 -> k b Hk. destruct (Hnew k b Hk) as [H|(j & e & n & Hj & H)];
      [left; exact H | right]. exists j, e, n. split; [|exact H].
    apply elem_of_app. left. exact Hj. }
  unfold import_portbus_bit in Hstep.
  destruct (portbus_ElementAtIndex portbus i) as [element|] eqn:He;
    [destruct (port_GetNet element) as [net|] eqn:Hn|].
  2,3: injection Hstep as <-; split; [exact Hw|]; split; [exact Hold|];
       (split; [|split; [exact (Hnew' imp eq_refl)
                        | exists cs; split; [exact Hcs|]; split; [exact (Hall' imp (λ _ _ H, H))|]]]);
       intros j e n; [|intros b]; intros Hj Hje Hjn; apply elem_of_app in Hj as [Hj|Hj];
       [exact (Hvis j e n Hj Hje Hjn) | apply list_elem_of_singleton in Hj as ->; congruence
       |exact (Hconn j e n b Hj Hje Hjn) | apply list_elem_of_singleton in Hj as ->; congruence].
  unfold connect_port_bit in Hstep.
  destruct (net_map imp !! net_id net) as [b0|] eqn:Hmap.
  - apply bind_inv in Hstep as (b & Hb & Hstep). injection Hstep as <-.
    apply net_map_at_lookup in Hb. rewrite Hmap in Hb. injection Hb as ->.
    split; [destruct input; exact Hw|]. split; [exact Hold|].
    split; [|split; [apply Hnew'; reflexivity|]].
    + intros j e n Hj Hje Hjn. cbn. apply elem_of_app in Hj as [Hj|Hj];
        [exact (Hvis j e n Hj Hje Hjn)|].
      apply list_elem_of_singleton in Hj as ->.
      rewrite He in Hje. injection Hje as <-. rewrite Hn in Hjn. injection Hjn as <-.
      rewrite Hmap. eexists; reflexivity.
    + exists (cs ++ [conn i b]). split; [|split].
      * unfold conn. destruct input; cbn; rewrite Hcs, <- app_assoc; reflexivity.
      * apply Forall_app. split; [exact (Hall' _ (λ _ _ H, H))|]. constructor; [|constructor].
        exists i, element, net, b. split; [apply elem_of_app; right; apply list_elem_of_here|].
        split; [exact He|]. split; [exact Hn|]. split; [exact Hmap | reflexivity].
      * intros j e n b' Hj Hje Hjn Hb'. apply elem_of_app in Hj as [Hj|Hj].
        -- apply elem_of_app. left. exact (Hconn j e n b' Hj Hje Hjn Hb').
        -- apply list_elem_of_singleton in Hj as ->.
           rewrite He in Hje. injection Hje as <-. rewrite Hn in Hjn. injection Hjn as <-.
           apply Hold in Hb'. rewrite Hmap in Hb'. injection Hb' as <-.
           apply elem_of_app. right. apply list_elem_of_here.
  - injection Hstep as <-. unfold portbus_inv, set_net_map. cbn [net_map module].
    assert (Hgrow : ∀ k b, net_map imp !! k = Some b →
                           <[net_id net := Bit (wire_name wire) (i - offset)]> (net_map imp) !! k
                           = Some b).
    { intros k b Hk. rewrite lookup_insert_ne; [exact Hk|]. intros <-. congruence. }
    split; [exact Hw|]. split; [|split; [|split]].
    + intros k b Hk. exact (Hgrow k b (Hold _ _ Hk)).
    + intros j e n Hj Hje Hjn. destruct (decide (net_id n = net_id net)) as [->|Hne].
      * rewrite lookup_insert_eq. eexists; reflexivity.
      * rewrite lookup_insert_ne by congruence.
        apply elem_of_app in Hj as [Hj|Hj]; [exact (Hvis j e n Hj Hje Hjn)|].
        apply list_elem_of_singleton in Hj as ->.
        rewrite He in Hje. injection Hje as <-. rewrite Hn in Hjn. injection Hjn as <-.
        congruence.
    + intros k b Hk. destruct (decide (k = net_id net)) as [->|Hne].
      * rewrite lookup_insert_eq in Hk. injection Hk as <-. right.
        exists i, element, net. split; [apply elem_of_app; right; apply list_elem_of_here|].
        repeat split; assumption.
      * rewrite lookup_insert_ne in Hk by congruence. exact (Hnew' imp eq_refl k b Hk).
    + exists cs. split; [exact Hcs|]. split.
      * exact (Hall' (set_net_map imp net (Bit (wire_name wire) (i - offset))) Hgrow).
      * intros j e n b Hj Hje Hjn Hb. apply elem_of_app in Hj as [Hj|Hj];
          [exact (Hconn j e n b Hj Hje Hjn Hb)|].
        apply list_elem_of_singleton in Hj as ->.
        rewrite He in Hje. injection Hje as <-. rewrite Hn in Hjn. injection Hjn as <-.
        apply Hold in Hb. congruence.
Qed.

(** X17. Importing a port bus whose direction agrees with its bounds adds
    one wire, of the name and the size of the bus, offset by the lesser of
    its bounds.  The entries of [net_map] stay; the net of every element of
    the bus has an entry afterwards; every entry that is new maps the net of
    an element to the bit of the wire at the index of the element less the
    offset, a position from 0 to the distance of the bounds.  Every
    connection that is new joins that bit of the wire, for some element,
    with the signal [net_map] holds for the net of the element, the wire on
    the right for an input bus and on the left otherwise; and every element
    whose net had an entry before the bus was imported has that connection,
    to the signal of the entry. *)
Theorem portbus_bits (fuel : nat) (portbus : PortBus) (st st' : netlist_state) :
  let left := portbus_LeftIndex portbus in
  let right := portbus_RightIndex portbus in
  let offset := Z.min left right in
  let wire := IdStr (escape_id (portbus_Name portbus)) in
  let input := dir_is_input (portbus_GetDir portbus) in
  let conn := λ (j : Z) (b : SigBit),
                if input then ([b], [Bit wire (j - offset)])
                else ([Bit wire (j - offset)], [b]) in
  bus_consistent left right (portbus_IsUp portbus) →
  (Z.to_nat (Z.abs (right - left)) < fuel)%nat →
  import_portbus fuel portbus st = Some (Ok st') →
  wires_ (module (ns_imp st'))
  = wires_ (module (ns_imp st))
    ++ [mkWire wire (portbus_Size portbus) (import_attributes [] (portbus_obj portbus))]
  ∧ ns_wire_ports st'
    = ns_wire_ports st
      ++ [(wire, mkWirePorts 0 input (dir_is_output (portbus_GetDir portbus)) offset)]
  ∧ (∀ k b, net_map (ns_imp st) !! k = Some b → net_map (ns_imp st') !! k = Some b)
  ∧ (∀ i e n, offset ≤ i ≤ Z.max left right →
       portbus_ElementAtIndex portbus i = Some e → port_GetNet e = Some n →
       is_Some (net_map (ns_imp st') !! net_id n))
  ∧ (∀ k b, net_map (ns_imp st') !! k = Some b →
       net_map (ns_imp st) !! k = Some b
       ∨ ∃ j e n, portbus_ElementAtIndex portbus j = Some e ∧ port_GetNet e = Some n
                  ∧ net_id n = k ∧ b = Bit wire (j - offset)
                  ∧ 0 ≤ j - offset ≤ Z.abs (right - left))
  ∧ ∃ cs, connections_ (module (ns_imp st')) = connections_ (module (ns_imp st)) ++ cs
          ∧ Forall (λ c, ∃ j e n b, 0 ≤ j - offset ≤ Z.abs (right - left)
                           ∧ portbus_ElementAtIndex portbus j = Some e
                           ∧ port_GetNet e = Some n
                           ∧ net_map (ns_imp st') !! net_id n = Some b
                           ∧ c = conn j b) cs
          ∧ ∀ j e n b, offset ≤ j ≤ Z.max left right →
              portbus_ElementAtIndex portbus j = Some e → port_GetNet e = Some n →
              net_map (ns_imp st) !! net_id n = Some b → conn j b ∈ cs.
Proof.
  intros left right offset wire input conn Hc Hfuel. unfold import_portbus.
  cbn [addWire_with wire_name].
  rewrite (bus_walk_spec _ _ _ _ _ _ Hc Hfuel). cbn [and_then].
  set (w := mkWire _ _ _).
  set (imp0 := set_module (ns_imp st) (add_wire_obj w (module (ns_imp st)))).
  destruct (foldM _ _ imp0) as [imp'|e] eqn:Hfold; [|discriminate].
  intros [= <-]. cbn [ns_imp ns_wire_ports with_imp with_wire_ports].
  assert (portbus_inv portbus (wire_name w) offset input imp0 [] imp0) as Hstart.
  { split; [reflexivity|]. split; [auto|]. split; [intros i e n Hi; inversion Hi|].
    split; [auto|]. exists []. split; [rewrite app_nil_r; reflexivity|].
    split; [constructor|]. intros j e n b Hj. inversion Hj. }
  pose proof (foldM_invariant _
                (portbus_inv portbus (wire_name w) offset input imp0) _
                (λ done x s s', portbus_inv_step portbus w offset input imp0 done x s s')
                [] imp0 imp' Hstart Hfold)
    as (Hw & Hold & Hvis & Hnew & cs & Hcs & Hall & Hconn).
  rewrite app_nil_l in *.
  assert (Hrange : ∀ j, j ∈ bus_indices left right → 0 ≤ j - offset ≤ Z.abs (right - left)).
  { intros j Hj. apply bus_indices_elem_of in Hj. subst offset. lia. }
  split; [exact Hw|]. split; [reflexivity|]. split; [exact Hold|].
  split; [|split].
  - intros i e n Hi. apply Hvis. apply bus_indices_elem_of. exact Hi.
  - intros k b Hk. destruct (Hnew k b Hk) as [H|(j & e & n & Hj & He & Hn & Hid & Hb)];
      [left; exact H | right].
    exists j, e, n. repeat split; try assumption; apply (Hrange j Hj).
  - exists cs. split; [exact Hcs|]. split.
    + eapply Forall_impl; [exact Hall|].
      intros c (j & e & n & b & Hj & He & Hn & Hb & Heq). exists j, e, n, b.
      split; [exact (Hrange j Hj)|]. repeat split; assumption.
    + intros j e n b Hj. apply Hconn. apply bus_indices_elem_of. exact Hj.
Qed.

Lemma portbus_bits_witness :
  ∃ st', import_portbus 3 Sample.data_bus Sample.netlist_start = Some (Ok st')
         ∧ net_map (ns_imp st') !! 30%N = Some (Bit (IdStr "\data") 1)
         ∧ net_map (ns_imp st') !! 4%N = Some (Sample.wire_of Sample.d)
         ∧ connections_ (module (ns_imp st'))
           = [([Sample.wire_of Sample.d], [Bit (IdStr "\data") 2])].
Proof.
  assert (∃ st', import_portbus 3 Sample.data_bus Sample.netlist_start = Some (Ok st')
                 ∧ net_map (ns_imp st') !! 30%N = Some (Bit (IdStr "\data") 1)
                 ∧ connections_ (module (ns_imp st'))
                   = [([Sample.wire_of Sample.d], [Bit (IdStr "\data") 2])])
    as (st' & Hrun & Hnew & Hconn)
    by (eexists; split; [vm_compute; reflexivity | split; vm_compute; reflexivity]).
  exists st'. split; [exact Hrun|]. split; [exact Hnew|]. split; [|exact Hconn].
  assert (bus_consistent 2 0 false) as Hc
    by (unfold bus_consistent, INT_MIN, INT_MAX; repeat split; (lia || reflexivity)).
  destruct (portbus_bits 3 Sample.data_bus Sample.netlist_start st' Hc
              ltac:(cbn; lia) Hrun) as (_ & _ & Hold & _).
  apply Hold. vm_compute. reflexivity.
Defined.

(** ** Nets and buses of nets *)

Lemma and_then_inv {A B : Type} (x : option (result A)) (k : A → option (result B))
    (b : B) :
  and_then x k = Some (Ok b) → ∃ a, x = Some (Ok a) ∧ k a = Some (Ok b).
Proof.
  destruct x as [[a|e]|]; cbn; try discriminate. intros H. exists a. split; [reflexivity | exact H].
Qed.

Lemma found_new_net_step_eq (netbus : NetBus) (imp : VerificImporter) (i : Z) (found : bool) :
  found_new_net_step netbus imp i found = Ok (found || needs_wire netbus imp i).
Proof.
  unfold found_new_net_step, needs_wire.
  destruct (netbus_ElementAtIndex netbus i) as [net|]; [case_bool_decide|];
    destruct found; reflexivity.
Qed.

Lemma found_new_net_fold (netbus : NetBus) (imp : VerificImporter) (l : list Z) :
  ∀ found, foldM (found_new_net_step netbus imp) l found
           = Ok (found || existsb (needs_wire netbus imp) l).
Proof.
  induction l as [|i l IH]; intros found; cbn [foldM existsb].
  - rewrite orb_false_r. reflexivity.
  - rewrite found_new_net_step_eq. cbn [mbind result_bind]. rewrite IH, orb_assoc.
    reflexivity.
Qed.

Lemma netbus_inv_step (netbus : NetBus) (wire : Wire) (offset : Z)
    (imp0 : VerificImporter) (done : list Z) (i : Z) (s s' : netbus_state) :
  netbus_inv netbus (wire_name wire) offset imp0 done s →
  import_netbus_bit netbus wire offset i s = Ok s' →
  netbus_inv netbus (wire_name wire) offset imp0 (done ++ [i]) s'.
Proof.
  destruct s as [[[imp init] initval] valid]. intros (Hw & Hold & Hvis & Hnew) Hstep.
  cbn [fst] in *.
  assert (Hnew' : ∀ k b, net_map imp !! k = Some b →
              net_map imp0 !! k = Some b
              ∨ ∃ j n, j ∈ done ++ [i] ∧ netbus_ElementAtIndex netbus j = Some n
                       ∧ net_id n = k ∧ b = Bit (wire_name wire) (j - offset)).
  { intros k b Hk. destruct (Hnew k b Hk) as [H|(j & n & Hj & H)]; [left; exact H | right].
    exists j, n. split; [apply elem_of_app; left; exact Hj | exact H]. }
  unfold import_netbus_bit in Hstep.
  destruct (netbus_ElementAtIndex netbus i) as [net|] eqn:He.
  2: { injection Hstep as <-. split; [exact Hw|]. split; [exact Hold|]. split; [|exact Hnew'].
       intros j n Hj Hjn. apply elem_of_app in Hj as [Hj|Hj]; [exact (Hvis j n Hj Hjn)|].
       apply list_elem_of_singleton in Hj as ->. congruence. }
  apply bind_inv in Hstep as ([[init1 initval1] valid1] & _ & Hstep).
  destruct (net_map imp !! net_id net) as [b0|] eqn:Hmap.
  - apply bind_inv in Hstep as (b & _ & Hstep). injection Hstep as <-.
    split; [exact Hw|]. split; [exact Hold|]. split; [|exact Hnew'].
    intros j n Hj Hjn. cbn. apply elem_of_app in Hj as [Hj|Hj]; [exact (Hvis j n Hj Hjn)|].
    apply list_elem_of_singleton in Hj as ->.
    rewrite He in Hjn. injection Hjn as <-. rewrite Hmap. eexists; reflexivity.
  - injection Hstep as <-. unfold netbus_inv, set_net_map. cbn [fst net_map module].
    split; [exact Hw|]. split; [|split].
    + etrans; [exact Hold|]. apply insert_subseteq. exact Hmap.
    + intros j n Hj Hjn. destruct (decide (net_id n = net_id net)) as [->|Hne].
      * rewrite lookup_insert_eq. eexists; reflexivity.
      * rewrite lookup_insert_ne by congruence.
        apply elem_of_app in Hj as [Hj|Hj]; [exact (Hvis j n Hj Hjn)|].
        apply list_elem_of_singleton in Hj as ->.
        rewrite He in Hjn. injection Hjn as <-. congruence.
    + intros k b Hk. destruct (decide (k = net_id net)) as [->|Hne].
      * rewrite lookup_insert_eq in Hk. injection Hk as <-. right.
        exists i, net. split; [apply elem_of_app; right; apply list_elem_of_here|].
        repeat split; assumption.
      * rewrite lookup_insert_ne in Hk by congruence. exact (Hnew' k b Hk).
Qed.

Lemma import_netbus_wire_maps (uniquify : Module → IdString → IdString) (fuel : nat)
    (netbus : NetBus) (st st' : netlist_state) :
  let left := netbus_LeftIndex netbus in
  let right := netbus_RightIndex netbus in
  let offset := Z.min left right in
  let wire := (new_wire_name uniquify (ns_imp st) (netbus_IsUserDeclared netbus)
                 (netbus_Name netbus) (module (ns_imp st))).1 in
  bus_consistent left right (netbus_IsUp netbus) →
  (Z.to_nat (Z.abs (right - left)) < fuel)%nat →
  import_netbus_wire uniquify fuel netbus st = Some (Ok st') →
  net_map (ns_imp st) ⊆ net_map (ns_imp st')
  ∧ (∀ i n, i ∈ bus_indices left right → netbus_ElementAtIndex netbus i = Some n →
       is_Some (net_map (ns_imp st') !! net_id n))
  ∧ (∀ k b, net_map (ns_imp st') !! k = Some b →
       net_map (ns_imp st) !! k = Some b
       ∨ ∃ j n, j ∈ bus_indices left right ∧ netbus_ElementAtIndex netbus j = Some n
                ∧ net_id n = k ∧ b = Bit wire (j - offset))
  ∧ ns_wire_ports st' = ns_wire_ports st ++ [(wire, mkWirePorts 0 false false offset)]
  ∧ anyconst_nets st' = anyconst_nets st ∧ anyseq_nets st' = anyseq_nets st.
Proof.
  intros left right offset wire Hc Hfuel. unfold import_netbus_wire. subst wire.
  destruct (new_wire_name _ _ _ _ _) as [nm m] eqn:Hname. cbn [fst addWire_with wire_name].
  rewrite (bus_walk_spec _ _ _ _ _ _ Hc Hfuel). cbn [and_then].
  set (w := mkWire _ _ _). set (s0 := (_, _, _, _)).
  destruct (foldM (import_netbus_bit netbus w _) _ s0)
    as [[[[imp' init'] initval'] valid']|e] eqn:Hfold; [|discriminate].
  intros [= <-]. cbn [ns_imp ns_wire_ports anyconst_nets anyseq_nets].
  assert (netbus_inv netbus (wire_name w) offset s0.1.1.1 [] s0) as Hstart.
  { split; [reflexivity|]. split; [reflexivity|]. split; [intros i n Hi; inversion Hi|].
    intros k b Hk. left. exact Hk. }
  pose proof (foldM_invariant _ (netbus_inv netbus (wire_name w) offset s0.1.1.1) _
                (λ done x s s', netbus_inv_step netbus w offset s0.1.1.1 done x s s')
                [] s0 _ Hstart Hfold) as (Hw & Hold & Hvis & Hnew).
  rewrite app_nil_l in *. cbn [fst] in *.
  destruct valid'; cbn [net_map set_module];
    (split; [exact Hold|]); (split; [exact Hvis|]); (split; [exact Hnew|]);
    (split; [reflexivity|]); split; reflexivity.
Qed.

Lemma take_rand_net_empty (imp : VerificImporter) (net : Net) (sig : SigSpec)
    (pool : gmap N Net) :
  pool !! net_id net = None → take_rand_net imp net sig pool = Ok (sig, pool).
Proof. unfold take_rand_net. intros ->. reflexivity. Qed.

Lemma import_netbus_rand_frame (Anyconst Anyseq : IdString → Z → Module → SigSpec * Module)
    (fuel : nat) (netbus : NetBus) (st st' : netlist_state) :
  import_netbus_rand Anyconst Anyseq fuel netbus st = Some (Ok st') →
  net_map (ns_imp st') = net_map (ns_imp st)
  ∧ ns_wire_ports st' = ns_wire_ports st ∧ init_nets st' = init_nets st.
Proof.
  unfold import_netbus_rand. intros H.
  apply and_then_inv in H as ([[[csig ssig] cnets] snets] & _ & H).
  injection H as <-. repeat split.
Qed.

Lemma import_netbus_maps (uniquify : Module → IdString → IdString)
    (Anyconst Anyseq : IdString → Z → Module → SigSpec * Module) (fuel : nat)
    (netbus : NetBus) (st st' : netlist_state) :
  let left := netbus_LeftIndex netbus in
  let right := netbus_RightIndex netbus in
  let offset := Z.min left right in
  let wire := (new_wire_name uniquify (ns_imp st) (netbus_IsUserDeclared netbus)
                 (netbus_Name netbus) (module (ns_imp st))).1 in
  bus_consistent left right (netbus_IsUp netbus) →
  (Z.to_nat (Z.abs (right - left)) < fuel)%nat →
  import_netbus uniquify Anyconst Anyseq fuel netbus st = Some (Ok st') →
  net_map (ns_imp st) ⊆ net_map (ns_imp st')
  ∧ (∀ i n, offset ≤ i ≤ Z.max left right → netbus_ElementAtIndex netbus i = Some n →
       is_Some (net_map (ns_imp st') !! net_id n))
  ∧ (∀ k b, net_map (ns_imp st') !! k = Some b →
       net_map (ns_imp st) !! k = Some b
       ∨ ∃ j n, netbus_ElementAtIndex netbus j = Some n ∧ net_id n = k
                ∧ b = Bit wire (j - offset) ∧ 0 ≤ j - offset ≤ Z.abs (right - left)).
Proof.
  intros left right offset wire Hc Hfuel. unfold import_netbus.
  rewrite (bus_walk_spec _ _ _ _ _ _ Hc Hfuel), found_new_net_fold. cbn [and_then orb].
  intros H. apply and_then_inv in H as (st1 & Hwire & Hrand).
  apply import_netbus_rand_frame in Hrand as (-> & _).
  destruct (existsb _ _) eqn:Hfound.
  - destruct (import_netbus_wire_maps uniquify fuel netbus st st1 Hc Hfuel Hwire)
      as (Hold & Hvis & Hnew & _).
    split; [exact Hold|]. split.
    + intros i n Hi. apply Hvis. apply bus_indices_elem_of. exact Hi.
    + intros k b Hk. destruct (Hnew k b Hk) as [Hb|(j & n & Hj & He & Hid & Hb)];
        [left; exact Hb | right].
      exists j, n. repeat split; try assumption;
        apply bus_indices_elem_of in Hj; subst offset; lia.
  - injection Hwire as <-. split; [reflexivity|]. split; [|intros k b Hk; left; exact Hk].
    intros i n Hi He.
    assert (needs_wire netbus (ns_imp st) i = false) as Hi'.
    { destruct (needs_wire netbus (ns_imp st) i) eqn:Hn; [|reflexivity].
      rewrite <- Hfound. symmetry. apply existsb_exists. exists i.
      split; [|exact Hn]. apply list_elem_of_In, bus_indices_elem_of. exact Hi. }
    unfold needs_wire in Hi'. rewrite He in Hi'. apply bool_decide_eq_false in Hi'.
    destruct (net_map (ns_imp st) !! net_id n); [eexists; reflexivity | contradiction].
Qed.

(** X18. Importing a bus of nets whose direction agrees with its bounds
    keeps every entry of [net_map] and leaves every net of the bus with an
    entry; an entry that is new maps a net of the bus to the bit of the
    wire of the bus at the index of the net less the lesser bound, a
    position from 0 to the distance of the bounds. *)
Theorem netbus_nets_are_mapped (uniquify : Module → IdString → IdString)
    (Anyconst Anyseq : IdString → Z → Module → SigSpec * Module) (fuel : nat)
    (netbus : NetBus) (st st' : netlist_state) :
  let left := netbus_LeftIndex netbus in
  let right := netbus_RightIndex netbus in
  let offset := Z.min left right in
  let wire := (new_wire_name uniquify (ns_imp st) (netbus_IsUserDeclared netbus)
                 (netbus_Name netbus) (module (ns_imp st))).1 in
  bus_consistent left right (netbus_IsUp netbus) →
  (Z.to_nat (Z.abs (right - left)) < fuel)%nat →
  import_netbus uniquify Anyconst Anyseq fuel netbus st = Some (Ok st') →
  net_map (ns_imp st) ⊆ net_map (ns_imp st')
  ∧ (∀ i n, offset ≤ i ≤ Z.max left right → netbus_ElementAtIndex netbus i = Some n →
       is_Some (net_map (ns_imp st') !! net_id n))
  ∧ (∀ k b, net_map (ns_imp st') !! k = Some b →
       net_map (ns_imp st) !! k = Some b
       ∨ ∃ j n, netbus_ElementAtIndex netbus j = Some n ∧ net_id n = k
                ∧ b = Bit wire (j - offset) ∧ 0 ≤ j - offset ≤ Z.abs (right - left)).
Proof. exact (import_netbus_maps uniquify Anyconst Anyseq fuel netbus st st'). Qed.

Lemma bus_consistent_swap (left right : Z) (is_up : bool) :
  bus_consistent left right is_up → bus_consistent right left (negb is_up).
Proof.
  intros (Hl & Hr & Hup & Hdown). split; [exact Hr|]. split; [exact Hl|]. split.
  - intros H. rewrite (Hdown H). reflexivity.
  - intros H. rewrite (Hup H). reflexivity.
Qed.

Lemma netbus_rand_fold_idle (netbus : NetBus) (imp : VerificImporter) (l : list Z)
    (s : rand_state) :
  (∀ i n, i ∈ l → netbus_ElementAtIndex netbus i = Some n →
     s.1.2 !! net_id n = None ∧ s.2 !! net_id n = None) →
  foldM (netbus_rand_step netbus imp) l s = Ok s.
Proof.
  destruct s as [[[csig ssig] cnets] snets]. cbn [fst snd].
  induction l as [|i l IH]; intros Hl; cbn [foldM]; [reflexivity|].
  assert (netbus_rand_step netbus imp i (csig, ssig, cnets, snets)
          = Ok (csig, ssig, cnets, snets)) as ->.
  { unfold netbus_rand_step. destruct (netbus_ElementAtIndex netbus i) as [n|] eqn:He;
      [|reflexivity].
    destruct (Hl i n (list_elem_of_here _ _) He) as [Hc Hs].
    rewrite !take_rand_net_empty by assumption. reflexivity. }
  cbn [mbind result_bind]. apply IH. intros j n Hj. apply Hl. apply list_elem_of_further, Hj.
Qed.

(** X19. A bus of nets all of whose nets have an entry in [net_map], and
    none of them marked as a random constant or a random sequence, is
    passed over: the state stays as it is.  A bus with an index between
    its bounds that has no net, or whose net has no entry, gets a wire of
    its own, whether or not its other nets have entries. *)
Theorem netbus_without_new_net (uniquify : Module → IdString → IdString)
    (Anyconst Anyseq : IdString → Z → Module → SigSpec * Module) (fuel : nat)
    (netbus : NetBus) (st : netlist_state) :
  let left := netbus_LeftIndex netbus in
  let right := netbus_RightIndex netbus in
  let offset := Z.min left right in
  let wire := (new_wire_name uniquify (ns_imp st) (netbus_IsUserDeclared netbus)
                 (netbus_Name netbus) (module (ns_imp st))).1 in
  bus_consistent left right (netbus_IsUp netbus) →
  (Z.to_nat (Z.abs (right - left)) < fuel)%nat →
  ((∀ i, offset ≤ i ≤ Z.max left right →
      ∃ n, netbus_ElementAtIndex netbus i = Some n
           ∧ is_Some (net_map (ns_imp st) !! net_id n)
           ∧ anyconst_nets st !! net_id n = None ∧ anyseq_nets st !! net_id n = None) →
   import_netbus uniquify Anyconst Anyseq fuel netbus st = Some (Ok st))
  ∧ (∀ i st', offset ≤ i ≤ Z.max left right → needs_wire netbus (ns_imp st) i = true →
       import_netbus uniquify Anyconst Anyseq fuel netbus st = Some (Ok st') →
       ns_wire_ports st' = ns_wire_ports st ++ [(wire, mkWirePorts 0 false false offset)]).
Proof.
  intros left right offset wire Hc Hfuel. unfold import_netbus.
  rewrite (bus_walk_spec _ _ _ _ _ _ Hc Hfuel), found_new_net_fold. cbn [and_then orb].
  split.
  - intros Hall.
    assert (existsb (needs_wire netbus (ns_imp st)) (bus_indices left right) = false) as ->.
    { apply not_true_is_false. intros H. apply existsb_exists in H as (i & Hi & Hn).
      apply list_elem_of_In, bus_indices_elem_of in Hi.
      destruct (Hall i Hi) as (n & He & [b Hb] & _).
      unfold needs_wire in Hn. rewrite He, Hb in Hn. discriminate. }
    cbn [and_then]. unfold import_netbus_rand.
    rewrite (bus_walk_spec _ _ _ _ _ _ (bus_consistent_swap _ _ _ Hc))
      by (replace (left - right) with (- (right - left)) by lia; rewrite Z.abs_opp; exact Hfuel).
    rewrite netbus_rand_fold_idle.
    + cbn [and_then]. unfold connect_rand. cbn.
      destruct st as [[] ? ? ? ?]. reflexivity.
    + intros i n Hi He. cbn [fst snd].
      apply bus_indices_elem_of in Hi.
      destruct (Hall i ltac:(subst offset; lia)) as (n' & He' & _ & Hc' & Hs').
      rewrite He in He'. injection He' as <-. split; assumption.
  - intros i st' Hi Hn.
    assert (existsb (needs_wire netbus (ns_imp st)) (bus_indices left right) = true) as ->.
    { apply existsb_exists. exists i. split; [|exact Hn].
      apply list_elem_of_In, bus_indices_elem_of. exact Hi. }
    intros H. apply and_then_inv in H as (st1 & Hwire & Hrand).
    apply import_netbus_rand_frame in Hrand as (_ & -> & _).
    exact (proj1 (proj2 (proj2 (proj2
             (import_netbus_wire_maps uniquify fuel netbus st st1 Hc Hfuel Hwire))))).
Qed.

Lemma import_net_maps (uniquify : Module → IdString → IdString) (n : NetlistNet)
    (st st' : netlist_state) :
  import_net uniquify n st = Ok st' →
  net_map (ns_imp st) ⊆ net_map (ns_imp st')
  ∧ (nn_IsRamNet n = None → nn_Bus n = false →
     is_Some (net_map (ns_imp st') !! net_id (nn_net n))).
Proof.
  unfold import_net. destruct (nn_IsRamNet n) as [ram|].
  - intros H. apply bind_inv in H as (m1 & _ & H). apply bind_inv in H as (mem & _ & H).
    apply bind_inv in H as (m2 & _ & H). injection H as <-.
    split; [reflexivity | discriminate].
  - destruct (if bool_decide (obj_GetAttValue (nn_obj n) " rand_const" = Some "1")
              then _ else _) as [anyconst anyseq].
    destruct (net_map (ns_imp st) !! net_id (nn_net n)) as [b|] eqn:Hmap.
    + intros [= <-]. cbn [ns_imp]. split; [reflexivity|]. intros _ _. rewrite Hmap.
      eexists; reflexivity.
    + destruct (nn_Bus n).
      * intros [= <-]. cbn [ns_imp]. split; [reflexivity | discriminate].
      * destruct (new_wire_name _ _ _ _ _) as [nm m]. cbn [addWire_with].
        intros [= <-]. cbn [ns_imp]. unfold set_net_map. cbn [net_map set_module].
        split; [apply insert_subseteq; exact Hmap|]. intros _ _.
        rewrite lookup_insert_eq. eexists; reflexivity.
Qed.

Lemma import_net_fold_maps (uniquify : Module → IdString → IdString)
    (nets : list NetlistNet) :
  ∀ st st', foldM (import_net uniquify) nets st = Ok st' →
    net_map (ns_imp st) ⊆ net_map (ns_imp st')
    ∧ ∀ n, n ∈ nets → nn_IsRamNet n = None → nn_Bus n = false →
        is_Some (net_map (ns_imp st') !! net_id (nn_net n)).
Proof.
  induction nets as [|n nets IH]; intros st st'; cbn [foldM].
  - intros [= <-]. split; [reflexivity|]. intros n Hn. inversion Hn.
  - intros H. apply bind_inv in H as (st1 & H1 & H).
    destruct (import_net_maps uniquify n st st1 H1) as [Hsub Hn].
    destruct (IH st1 st' H) as [Hsub' Hrest].
    split; [etrans; eassumption|].
    intros n' Hin Hram Hbus. apply elem_of_cons in Hin as [->|Hin];
      [|exact (Hrest n' Hin Hram Hbus)].
    destruct (Hn Hram Hbus) as [b Hb]. exists b.
    exact (lookup_weaken _ _ _ _ Hb Hsub').
Qed.

Lemma import_netbuses_maps (uniquify : Module → IdString → IdString)
    (Anyconst Anyseq : IdString → Z → Module → SigSpec * Module) (fuel : nat)
    (netbuses : list NetBus) :
  Forall (λ nb, bus_consistent (netbus_LeftIndex nb) (netbus_RightIndex nb) (netbus_IsUp nb)
                ∧ (Z.to_nat (Z.abs (netbus_RightIndex nb - netbus_LeftIndex nb)) < fuel)%nat)
    netbuses →
  ∀ st st', import_netbuses uniquify Anyconst Anyseq fuel netbuses st = Some (Ok st') →
    net_map (ns_imp st) ⊆ net_map (ns_imp st')
    ∧ ∀ nb i n, nb ∈ netbuses →
        Z.min (netbus_LeftIndex nb) (netbus_RightIndex nb) ≤ i
        ≤ Z.max (netbus_LeftIndex nb) (netbus_RightIndex nb) →
        netbus_ElementAtIndex nb i = Some n →
        is_Some (net_map (ns_imp st') !! net_id n).
Proof.
  induction 1 as [|nb netbuses [Hc Hfuel] _ IH]; intros st st'; cbn [import_netbuses].
  - intros [= <-]. split; [reflexivity|]. intros nb i n Hnb. inversion Hnb.
  - intros H. apply and_then_inv in H as (st1 & H1 & H).
    destruct (import_netbus_maps uniquify Anyconst Anyseq fuel nb st st1 Hc Hfuel H1)
      as (Hsub & Hvis & _).
    destruct (IH st1 st' H) as [Hsub' Hrest].
    split; [etrans; eassumption|].
    intros nb' i n Hin Hi He. apply elem_of_cons in Hin as [->|Hin];
      [|exact (Hrest nb' i n Hin Hi He)].
    destruct (Hvis i n Hi He) as [b Hb]. exists b.
    exact (lookup_weaken _ _ _ _ Hb Hsub').
Qed.

Lemma netbus_nets_are_mapped_witness :
  ∃ st', import_netbus Sample.uniquify Sample.no_rand Sample.no_rand 2 Sample.new_bus
           Sample.netlist_start = Some (Ok st')
         ∧ net_map (ns_imp st') !! 31%N = Some (Bit (IdStr "\bus") 0)
         ∧ net_map (ns_imp st') !! 5%N = Some (Sample.wire_of Sample.q)
         ∧ connections_ (module (ns_imp st'))
           = [([Bit (IdStr "\bus") 1], [Sample.wire_of Sample.q])].
Proof.
  assert (∃ st', import_netbus Sample.uniquify Sample.no_rand Sample.no_rand 2
                   Sample.new_bus Sample.netlist_start = Some (Ok st')
                 ∧ net_map (ns_imp st') !! 31%N = Some (Bit (IdStr "\bus") 0)
                 ∧ connections_ (module (ns_imp st'))
                   = [([Bit (IdStr "\bus") 1], [Sample.wire_of Sample.q])])
    as (st' & Hrun & Hnew & Hconn)
    by (eexists; split; [vm_compute; reflexivity | split; vm_compute; reflexivity]).
  exists st'. split; [exact Hrun|]. split; [exact Hnew|]. split; [|exact Hconn].
  assert (bus_consistent 0 1 true) as Hc
    by (unfold bus_consistent, INT_MIN, INT_MAX; repeat split; (lia || reflexivity)).
  destruct (netbus_nets_are_mapped Sample.uniquify Sample.no_rand Sample.no_rand 2
              Sample.new_bus Sample.netlist_start st' Hc ltac:(cbn; lia) Hrun) as (Hold & _).
  refine (lookup_weaken _ _ _ _ _ Hold). vm_compute. reflexivity.
Defined.

Lemma netbus_without_new_net_witness :
  import_netbus Sample.uniquify Sample.no_rand Sample.no_rand 2 Sample.mapped_bus
    Sample.netlist_start = Some (Ok Sample.netlist_start)
  ∧ ∃ st', import_netbus Sample.uniquify Sample.no_rand Sample.no_rand 2 Sample.gap_bus
             Sample.netlist_start = Some (Ok st')
           ∧ ns_wire_ports st' = [(IdStr "\gap", mkWirePorts 0 false false 0)].
Proof.
  assert (bus_consistent 0 1 true) as Hc
    by (unfold bus_consistent, INT_MIN, INT_MAX; repeat split; (lia || reflexivity)).
  destruct (netbus_without_new_net Sample.uniquify Sample.no_rand Sample.no_rand 2
              Sample.mapped_bus Sample.netlist_start Hc ltac:(cbn; lia)) as [Hskip _].
  destruct (netbus_without_new_net Sample.uniquify Sample.no_rand Sample.no_rand 2
              Sample.gap_bus Sample.netlist_start Hc ltac:(cbn; lia)) as [_ Hgap].
  split.
  - apply Hskip. intros i Hi. cbn in Hi.
    assert (i = 0 ∨ i = 1) as [-> | ->] by lia.
    + exists Sample.d. repeat split. vm_compute. eexists; reflexivity.
    + exists Sample.q. repeat split. vm_compute. eexists; reflexivity.
  - assert (∃ st', import_netbus Sample.uniquify Sample.no_rand Sample.no_rand 2
                     Sample.gap_bus Sample.netlist_start = Some (Ok st')) as [st' Hrun]
      by (vm_compute; eexists; reflexivity).
    exists st'. split; [exact Hrun|].
    exact (Hgap 1 st' ltac:(cbn; lia) eq_refl Hrun).
Defined.

(** X20. After the loop over the nets and the loop over the buses of nets,
    run on buses whose direction agrees with their bounds, every entry of
    [net_map] is still there, and every net of the netlist that is not a
    RAM has an entry, provided that a net that belongs to a bus is the net
    of some bus of the netlist at an index between its bounds. *)
Theorem every_net_gets_a_wire (uniquify : Module → IdString → IdString)
    (Anyconst Anyseq : IdString → Z → Module → SigSpec * Module) (fuel : nat)
    (nets : list NetlistNet) (netbuses : list NetBus) (st st' : netlist_state) :
  Forall (λ nb, bus_consistent (netbus_LeftIndex nb) (netbus_RightIndex nb) (netbus_IsUp nb)
                ∧ (Z.to_nat (Z.abs (netbus_RightIndex nb - netbus_LeftIndex nb)) < fuel)%nat)
    netbuses →
  import_nets uniquify Anyconst Anyseq fuel nets netbuses st = Some (Ok st') →
  net_map (ns_imp st) ⊆ net_map (ns_imp st')
  ∧ ∀ n, n ∈ nets → nn_IsRamNet n = None →
      (nn_Bus n = true →
       ∃ nb i net, nb ∈ netbuses
         ∧ Z.min (netbus_LeftIndex nb) (netbus_RightIndex nb) ≤ i
           ≤ Z.max (netbus_LeftIndex nb) (netbus_RightIndex nb)
         ∧ netbus_ElementAtIndex nb i = Some net ∧ net_id net = net_id (nn_net n)) →
      is_Some (net_map (ns_imp st') !! net_id (nn_net n)).
Proof.
  intros Hbuses H. unfold import_nets in H.
  apply and_then_inv in H as (st1 & Hnets & Hnb). injection Hnets as Hnets.
  destruct (import_net_fold_maps uniquify nets st st1 Hnets) as [Hsub Hplain].
  destruct (import_netbuses_maps uniquify Anyconst Anyseq fuel netbuses Hbuses st1 st' Hnb)
    as [Hsub' Hbus].
  split; [etrans; eassumption|].
  intros n Hn Hram Hmember. destruct (nn_Bus n) eqn:Hb.
  - destruct (Hmember eq_refl) as (nb & i & net & Hin & Hi & He & <-).
    exact (Hbus nb i net Hin Hi He).
  - destruct (Hplain n Hn Hram Hb) as [b Hb']. exists b.
    exact (lookup_weaken _ _ _ _ Hb' Hsub').
Qed.

Lemma every_net_gets_a_wire_witness :
  ∃ st', import_nets Sample.uniquify Sample.no_rand Sample.no_rand 2
           [Sample.tmp_net; Sample.bus_member] [Sample.new_bus] Sample.netlist_start
         = Some (Ok st')
       ∧ is_Some (net_map (ns_imp st') !! 31%N)
       ∧ is_Some (net_map (ns_imp st') !! 32%N).
Proof.
  assert (∃ st', import_nets Sample.uniquify Sample.no_rand Sample.no_rand 2
                   [Sample.tmp_net; Sample.bus_member] [Sample.new_bus]
                   Sample.netlist_start = Some (Ok st')) as [st' Hrun]
    by (vm_compute; eexists; reflexivity).
  exists st'. split; [exact Hrun|].
  destruct (every_net_gets_a_wire Sample.uniquify Sample.no_rand Sample.no_rand 2
              [Sample.tmp_net; Sample.bus_member] [Sample.new_bus] Sample.netlist_start st')
    as [_ Hall].
  - constructor; [|constructor]. split; [|cbn; lia].
    change (bus_consistent 0 1 true).
    unfold bus_consistent, INT_MIN, INT_MAX. repeat split; (lia || reflexivity).
  - exact Hrun.
  - split.
    + apply (Hall Sample.bus_member);
        [apply list_elem_of_further, list_elem_of_here | reflexivity |].
      intros _. exists Sample.new_bus, 0, Sample.bus_net0.
      split; [apply list_elem_of_here|]. split; [cbn; lia|]. split; reflexivity.
    + apply (Hall Sample.tmp_net); [apply list_elem_of_here | reflexivity | discriminate].
Defined.

(** ** The initial value of a bus of nets *)

(** A loop body that keeps an invariant of the elements visited, told
    where in the list it is *)
Lemma foldM_invariant_at {A St : Type} (f : A → St → result St) (I : list A → St → Prop)
    (l : list A) :
  (∀ done x rest s s', l = done ++ x :: rest → I done s → f x s = Ok s' →
     I (done ++ [x]) s') →
  ∀ s s', I [] s → foldM f l s = Ok s' → I l s'.
Proof.
  intros Hstep.
  assert (∀ rest done s s', l = done ++ rest → I done s → foldM f rest s = Ok s' → I l s')
    as Hgen.
  { induction rest as [|x rest IH]; intros done s s' Hl HI; cbn [foldM].
    - intros [= <-]. rewrite Hl, app_nil_r. exact HI.
    - intros H. apply bind_inv in H as (s1 & Hx & H).
      apply (IH (done ++ [x]) s1 s'); [rewrite <- app_assoc; exact Hl | | exact H].
      exact (Hstep done x rest s s1 Hl HI Hx). }
  intros s s'. apply (Hgen l []). reflexivity.
Qed.

Lemma Const_set_ok (bitidx : Z) (s : State) (c : Const) :
  0 ≤ bitidx < Z.of_nat (length c) → Const_set bitidx s c = Ok (<[Z.to_nat bitidx := s]> c).
Proof. intros H. unfold Const_set. rewrite bool_decide_eq_true_2 by exact H. reflexivity. Qed.

Lemma existsb_snoc {A : Type} (f : A → bool) (l : list A) (x : A) :
  existsb f (l ++ [x]) = existsb f l || f x.
Proof. rewrite existsb_app. cbn. rewrite orb_false_r. reflexivity. Qed.

Lemma netbus_init_inv_step (netbus : NetBus) (wire : Wire) (left right : Z) (size : nat)
    (init0 : gmap N (Net * ascii)) (done rest : list Z) (i : Z) (s s' : netbus_state) :
  let offset := Z.min left right in
  bus_indices left right = done ++ i :: rest →
  size = S (Z.to_nat (Z.abs (right - left))) →
  (∀ j j' n n', netbus_ElementAtIndex netbus j = Some n →
     netbus_ElementAtIndex netbus j' = Some n' → net_id n = net_id n' → j = j') →
  netbus_init_inv netbus offset size init0 done s →
  import_netbus_bit netbus wire offset i s = Ok s' →
  netbus_init_inv netbus offset size init0 (done ++ [i]) s'.
Proof.
  intros offset Hsplit Hsize Hdistinct.
  destruct s as [[[imp init] initval] valid].
  intros (Hlen & Hgone & Hkept & Hset & Hunset & Hvalid) Hstep. cbn [fst snd] in *.
  pose proof (bus_indices_NoDup left right) as Hnd. rewrite Hsplit in Hnd.
  apply NoDup_app in Hnd as (_ & Hfresh & _).
  assert (Hin : ∀ j, j ∈ done ++ [i] → Z.min left right ≤ j ≤ Z.max left right).
  { intros j Hj. apply bus_indices_elem_of. rewrite Hsplit.
    apply elem_of_app in Hj as [Hj|Hj]; [apply elem_of_app; left; exact Hj|].
    apply list_elem_of_singleton in Hj as ->. apply elem_of_app. right. apply list_elem_of_here. }
  assert (Hi : Z.min left right ≤ i ≤ Z.max left right).
  { apply Hin, elem_of_app. right. apply list_elem_of_here. }
  assert (Hother : ∀ j, j ∈ done → Z.to_nat (j - offset) ≠ Z.to_nat (i - offset)).
  { intros j Hj Heq.
    pose proof (Hin j ltac:(apply elem_of_app; left; exact Hj)) as Hjr.
    apply (Hfresh j Hj). replace j with i by (subst offset; lia). apply list_elem_of_here. }
  assert (Hpos : (Z.to_nat (i - offset) < size)%nat) by (subst offset size; lia).
  assert (Hhere : initval !! Z.to_nat (i - offset) = Some Sx) by (apply Hunset; assumption).
  unfold import_netbus_bit in Hstep.
  destruct (netbus_ElementAtIndex netbus i) as [net|] eqn:He.
  2: { injection Hstep as <-. cbn [fst snd]. split; [exact Hlen|].
       split; [|split; [|split; [|split]]].
       - intros j n Hj Hjn. apply elem_of_app in Hj as [Hj|Hj]; [exact (Hgone j n Hj Hjn)|].
         apply list_elem_of_singleton in Hj as ->. congruence.
       - intros k Hk. apply Hkept. intros j n Hj. apply Hk. apply elem_of_app. left. exact Hj.
       - intros j Hj. apply elem_of_app in Hj as [Hj|Hj]; [exact (Hset j Hj)|].
         apply list_elem_of_singleton in Hj as ->. unfold init_state. rewrite He. exact Hhere.
       - intros p Hp Hfree. apply Hunset; [exact Hp|]. intros j Hj. apply Hfree.
         apply elem_of_app. left. exact Hj.
       - rewrite existsb_snoc. unfold has_init at 2. rewrite He, orb_false_r. exact Hvalid. }
  assert (Hlook : init !! net_id net = init0 !! net_id net).
  { apply Hkept. intros j n Hj Hjn Hid. apply (Hfresh j Hj).
    rewrite (Hdistinct j i n net Hjn He Hid). apply list_elem_of_here. }
  apply bind_inv in Hstep as ([[init1 initval1] valid1] & Hinit & Hstep).
  assert (s'.1.1.2 = init1 ∧ s'.1.2 = initval1 ∧ s'.2 = valid1) as (Hs1 & Hs2 & Hs3).
  { destruct (net_map imp !! net_id net).
    - apply bind_inv in Hstep as (b & _ & Hstep). injection Hstep as <-. repeat split.
    - injection Hstep as <-. repeat split. }
  clear Hstep. unfold netbus_init_inv. rewrite Hs1, Hs2, Hs3. clear Hs1 Hs2 Hs3 s'.
  destruct (init !! net_id net) as [[n0 c]|] eqn:Hinit0.
  - assert (initval1 = (if bool_decide (c = "0"%char)
                        then <[Z.to_nat (i - offset) := S0]> initval
                        else if bool_decide (c = "1"%char)
                             then <[Z.to_nat (i - offset) := S1]> initval else initval)
            ∧ init1 = delete (net_id net) init ∧ valid1 = true) as (-> & -> & ->).
    { assert (0 ≤ i - offset < Z.of_nat (length initval)) as Hrange
        by (rewrite Hlen; subst offset size; lia).
      destruct (bool_decide (c = "0"%char)) eqn:H0; destruct (bool_decide (c = "1"%char)) eqn:H1.
      - apply bool_decide_eq_true in H0, H1. congruence.
      - rewrite Const_set_ok in Hinit by exact Hrange. cbn in Hinit.
        injection Hinit as <- <- <-. repeat split.
      - cbn [mbind result_bind] in Hinit.
        rewrite Const_set_ok in Hinit by exact Hrange. cbn in Hinit.
        injection Hinit as <- <- <-. repeat split.
      - cbn in Hinit. injection Hinit as <- <- <-. repeat split. }
    assert (Hlen' : ∀ v : Const, v = initval ∨ (∃ x, v = <[Z.to_nat (i - offset) := x]> initval) →
              length v = size).
    { intros v [->|[x ->]]; [exact Hlen|]. unfold Const. rewrite length_insert. exact Hlen. }
    split; [|split; [|split; [|split; [|split]]]].
    + apply Hlen'. destruct (bool_decide (c = "0"%char)); [right; eexists; reflexivity|].
      destruct (bool_decide (c = "1"%char)); [right; eexists; reflexivity | left; reflexivity].
    + intros j n Hj Hjn. destruct (decide (net_id n = net_id net)) as [->|Hne].
      * apply lookup_delete_eq.
      * rewrite lookup_delete_ne by congruence.
        apply elem_of_app in Hj as [Hj|Hj]; [exact (Hgone j n Hj Hjn)|].
        apply list_elem_of_singleton in Hj as ->. rewrite He in Hjn. congruence.
    + intros k Hk. rewrite lookup_delete_ne.
      * apply Hkept. intros j n Hj. apply Hk. apply elem_of_app. left. exact Hj.
      * apply (Hk i net); [apply elem_of_app; right; apply list_elem_of_here | exact He].
    + intros j Hj. apply elem_of_app in Hj as [Hj|Hj].
      * pose proof (Hother j Hj) as Hne. pose proof (Hset j Hj) as Hj'.
        destruct (bool_decide (c = "0"%char));
          [unfold Const; rewrite list_lookup_insert_ne by congruence; exact Hj'|].
        destruct (bool_decide (c = "1"%char));
          [unfold Const; rewrite list_lookup_insert_ne by congruence; exact Hj' | exact Hj'].
      * apply list_elem_of_singleton in Hj as ->. unfold init_state.
        rewrite He, <- Hlook.
        destruct (bool_decide (c = "0"%char));
          [unfold Const; apply list_lookup_insert_eq; rewrite Hlen; exact Hpos|].
        destruct (bool_decide (c = "1"%char));
          [unfold Const; apply list_lookup_insert_eq; rewrite Hlen; exact Hpos | exact Hhere].
    + intros p Hp Hfree.
      assert (Z.to_nat (i - offset) ≠ p) as Hne
        by (apply Hfree, elem_of_app; right; apply list_elem_of_here).
      assert (initval !! p = Some Sx) as Hp'.
      { apply Hunset; [exact Hp|]. intros j Hj. apply Hfree, elem_of_app. left. exact Hj. }
      destruct (bool_decide (c = "0"%char));
        [unfold Const; rewrite list_lookup_insert_ne by congruence; exact Hp'|].
      destruct (bool_decide (c = "1"%char));
        [unfold Const; rewrite list_lookup_insert_ne by congruence; exact Hp' | exact Hp'].
    + rewrite existsb_snoc. unfold has_init at 2. rewrite He, <- Hlook.
      rewrite bool_decide_eq_true_2 by (eexists; reflexivity). rewrite orb_true_r. reflexivity.
  - injection Hinit as <- <- <-.
    split; [exact Hlen|]. split; [|split; [|split; [|split]]].
    + intros j n Hj Hjn. apply elem_of_app in Hj as [Hj|Hj]; [exact (Hgone j n Hj Hjn)|].
      apply list_elem_of_singleton in Hj as ->. rewrite He in Hjn. injection Hjn as <-.
      exact Hinit0.
    + intros k Hk. apply Hkept. intros j n Hj. apply Hk. apply elem_of_app. left. exact Hj.
    + intros j Hj. apply elem_of_app in Hj as [Hj|Hj]; [exact (Hset j Hj)|].
      apply list_elem_of_singleton in Hj as ->. unfold init_state.
      rewrite He, <- Hlook. exact Hhere.
    + intros p Hp Hfree. apply Hunset; [exact Hp|]. intros j Hj. apply Hfree.
      apply elem_of_app. left. exact Hj.
    + rewrite existsb_snoc. unfold has_init at 2. rewrite He, <- Hlook.
      rewrite bool_decide_eq_false_2 by (intros [x Hx]; discriminate).
      rewrite orb_false_r. exact Hvalid.
Qed.

Lemma new_wire_name_wires (uniquify : Module → IdString → IdString) (imp : VerificImporter)
    (user_declared : bool) (nm : string) (m : Module) :
  wires_ (new_wire_name uniquify imp user_declared nm m).2 = wires_ m.
Proof. unfold new_wire_name. destruct (mode_names imp || user_declared); reflexivity. Qed.

Lemma set_wire_attribute_last (nm : IdString) (key : string) (v : Const) (m : Module)
    (ws : list Wire) (w : Wire) :
  wires_ m = ws ++ [w] → wire_name w = nm → nm ∉ wire_name <$> ws →
  wires_ (set_wire_attribute nm key v m)
  = ws ++ [mkWire nm (wire_width w) (attr_set key v (wire_attributes w))].
Proof.
  intros Hw Hnm Hfresh. unfold set_wire_attribute. cbn [wires_]. rewrite Hw, map_app.
  cbn [map]. rewrite bool_decide_eq_true_2 by exact Hnm. rewrite Hnm. f_equal.
  clear Hw. induction ws as [|x ws IH]; [reflexivity|]. cbn [map].
  rewrite fmap_cons in Hfresh. apply not_elem_of_cons in Hfresh as [Hx Hfresh].
  rewrite bool_decide_eq_false_2 by congruence. rewrite IH by exact Hfresh. reflexivity.
Qed.

Lemma bus_initval_lookup (netbus : NetBus) (init : gmap N (Net * ascii)) (offset : Z)
    (size p : nat) :
  (p < size)%nat →
  bus_initval netbus init offset size !! p
  = Some (init_state netbus init (offset + Z.of_nat p)).
Proof.
  intros Hp. unfold bus_initval, Const.
  change (map ?f ?l) with (f <$> l).
  rewrite list_lookup_fmap, lookup_seq_lt by exact Hp. reflexivity.
Qed.

(** X21. When a bus of nets gets its wire, the initial values of its nets
    become the initial value of the wire, bit by bit, and leave the
    [init_nets] that wait for the end of the import.  For a bus whose size
    is the number of its indices and whose nets are distinct: the wire is
    the one wire added; it carries the attribute [\init] exactly when some
    net of the bus has an initial value, and then the bit of every index is
    0 or 1 as the initial value of its net reads and undefined for any
    other character, for a net without initial value and for an index
    without a net. *)
Theorem netbus_initial_value (uniquify : Module → IdString → IdString) (fuel : nat)
    (netbus : NetBus) (st st' : netlist_state) :
  let left := netbus_LeftIndex netbus in
  let right := netbus_RightIndex netbus in
  let offset := Z.min left right in
  let wire := (new_wire_name uniquify (ns_imp st) (netbus_IsUserDeclared netbus)
                 (netbus_Name netbus) (module (ns_imp st))).1 in
  let attributes := import_attributes [] (netbus_obj netbus) in
  let init := init_nets st in
  bus_consistent left right (netbus_IsUp netbus) →
  (Z.to_nat (Z.abs (right - left)) < fuel)%nat →
  netbus_Size netbus = Z.abs (right - left) + 1 →
  (∀ j j' n n', netbus_ElementAtIndex netbus j = Some n →
     netbus_ElementAtIndex netbus j' = Some n' → net_id n = net_id n' → j = j') →
  wire ∉ wire_name <$> wires_ (module (ns_imp st)) →
  import_netbus_wire uniquify fuel netbus st = Some (Ok st') →
  wires_ (module (ns_imp st'))
  = wires_ (module (ns_imp st))
    ++ [mkWire wire (netbus_Size netbus)
          (if existsb (has_init netbus init) (bus_indices left right)
           then attr_set "\init"
                  (bus_initval netbus init offset (Z.to_nat (netbus_Size netbus)))
                  attributes
           else attributes)]
  ∧ (∀ i n, offset ≤ i ≤ Z.max left right → netbus_ElementAtIndex netbus i = Some n →
       init_nets st' !! net_id n = None)
  ∧ (∀ k, (∀ i n, offset ≤ i ≤ Z.max left right →
             netbus_ElementAtIndex netbus i = Some n → net_id n ≠ k) →
       init_nets st' !! k = init !! k).
Proof.
  intros left right offset wire attributes init Hc Hfuel Hsize Hdistinct Hfresh.
  unfold import_netbus_wire. subst wire.
  pose proof (new_wire_name_wires uniquify (ns_imp st) (netbus_IsUserDeclared netbus)
                (netbus_Name netbus) (module (ns_imp st))) as Hwires.
  destruct (new_wire_name _ _ _ _ _) as [nm m] eqn:Hname.
  cbn [fst snd addWire_with wire_name wire_width] in *.
  rewrite (bus_walk_spec _ _ _ _ _ _ Hc Hfuel). cbn [and_then].
  set (w := mkWire _ _ _). set (s0 := (_, _, _, _)).
  destruct (foldM (import_netbus_bit netbus w _) _ s0)
    as [[[[imp' init'] initval'] valid']|e] eqn:Hfold; [|discriminate].
  intros [= <-]. cbn [ns_imp init_nets].
  assert (netbus_inv netbus (wire_name w) offset s0.1.1.1 [] s0) as Hstart.
  { split; [reflexivity|]. split; [reflexivity|]. split; [intros i n Hi; inversion Hi|].
    intros k b Hk. left. exact Hk. }
  pose proof (foldM_invariant _ (netbus_inv netbus (wire_name w) offset s0.1.1.1) _
                (λ done x s s', netbus_inv_step netbus w offset s0.1.1.1 done x s s')
                [] s0 _ Hstart Hfold) as (Hw & _).
  set (size := Z.to_nat (netbus_Size netbus)).
  assert (size = S (Z.to_nat (Z.abs (right - left)))) as Hsz by (subst size; lia).
  assert (netbus_init_inv netbus offset size init [] s0) as Hstart'.
  { split; [apply length_replicate|]. split; [intros j n Hj; inversion Hj|].
    split; [reflexivity|]. split; [intros j Hj; inversion Hj|].
    split; [|reflexivity]. intros p Hp _. apply lookup_replicate_2. exact Hp. }
  pose proof (foldM_invariant_at _ (netbus_init_inv netbus offset size init) _
                (λ done x rest s s' Hl,
                   netbus_init_inv_step netbus w left right size init done rest x s s'
                     Hl Hsz Hdistinct)
                s0 _ Hstart' Hfold) as (Hlen & Hgone & Hkept & Hset & _ & Hvalid).
  cbn [fst snd] in *.
  assert (initval' = bus_initval netbus init offset size) as Hval.
  { apply list_eq. intros p. destruct (decide (p < size)%nat) as [Hp|Hp].
    - rewrite bus_initval_lookup by exact Hp.
      replace p with (Z.to_nat (offset + Z.of_nat p - offset)) at 1 by lia.
      apply Hset. apply bus_indices_elem_of. subst offset. lia.
    - rewrite !lookup_ge_None_2; [reflexivity | |];
        [unfold bus_initval; rewrite length_map, length_seq; lia | rewrite Hlen; lia]. }
  split; [|split].
  - rewrite <- Hvalid. destruct valid'; cbn [module set_module].
    + rewrite Hval.
      apply (set_wire_attribute_last nm "\init" _ (module imp') (wires_ (module (ns_imp st))) w);
        [rewrite Hw, <- Hwires; reflexivity | reflexivity | exact Hfresh].
    + rewrite Hw, <- Hwires. reflexivity.
  - intros i n Hi. apply Hgone. apply bus_indices_elem_of. exact Hi.
  - intros k Hk. apply Hkept. intros j n Hj. apply Hk. apply bus_indices_elem_of. exact Hj.
Qed.

Lemma netbus_initial_value_witness :
  ∃ st', import_netbus_wire Sample.uniquify 2 Sample.new_bus Sample.init_start
         = Some (Ok st')
       ∧ wires_ (module (ns_imp st')) = [mkWire (IdStr "\bus") 2 [("\init", [S1; Sx])]]
       ∧ init_nets st' !! 31%N = None.
Proof.
  assert (∃ st', import_netbus_wire Sample.uniquify 2 Sample.new_bus Sample.init_start
                 = Some (Ok st')) as [st' Hrun]
    by (vm_compute; eexists; reflexivity).
  exists st'. split; [exact Hrun|].
  assert (bus_consistent 0 1 true) as Hc
    by (unfold bus_consistent, INT_MIN, INT_MAX; repeat split; (lia || reflexivity)).
  destruct (netbus_initial_value Sample.uniquify 2 Sample.new_bus Sample.init_start st' Hc)
    as (Hwires & Hgone & _).
  - cbn. lia.
  - reflexivity.
  - intros j j' n n'. cbn [netbus_ElementAtIndex Sample.new_bus]. unfold Sample.two_nets.
    repeat case_bool_decide; intros Hn Hn' Hid; try discriminate; try lia;
      injection Hn as <-; injection Hn' as <-; cbn in Hid; discriminate.
  - cbn. apply not_elem_of_nil.
  - exact Hrun.
  - split; [exact Hwires|]. apply (Hgone 0 Sample.bus_net0); [cbn; lia | reflexivity].
Defined.

(** ** The connections of the cell of an instance *)

Lemma made_between_mono (m m1 m2 : Module) (id : IdString) :
  autoidx m1 ≤ autoidx m2 → made_between m m1 id → made_between m m2 id.
Proof. intros Hle (k & -> & Hk). exists k. split; [reflexivity | lia]. Qed.

Lemma writers_snoc (done : list PortRef) (pr : PortRef) (key : string) (o : nat) :
  writers (done ++ [pr]) key o
  = writers done key o
    ++ (if bool_decide (port_key pr = key ∧ Z.to_nat (port_offset pr) = o) then [pr] else []).
Proof.
  unfold writers. rewrite list.filter_app. f_equal.
  case_bool_decide as H; [rewrite filter_cons_True by exact H | rewrite filter_cons_False by exact H];
    reflexivity.
Qed.

Lemma writers_none (done : list PortRef) (key : string) (o : nat) :
  (∀ pr, pr ∈ done → port_key pr = key → Z.to_nat (port_offset pr) ≠ o) →
  writers done key o = [].
Proof.
  intros H. unfold writers. induction done as [|pr done IH]; [reflexivity|].
  rewrite filter_cons_False.
  - apply IH. intros pr' Hpr'. apply H. apply list_elem_of_further, Hpr'.
  - intros [Hk Ho]. exact (H pr (list_elem_of_here _ _) Hk Ho).
Qed.

Lemma wire_bits_length (w : IdString) (width : Z) :
  length (wire_bits w width) = Z.to_nat width.
Proof. unfold wire_bits. rewrite length_map, length_seq. reflexivity. Qed.

Lemma wire_bits_lookup (w : IdString) (width : Z) (i : nat) (b : SigBit) :
  wire_bits w width !! i = Some b → b = Bit w (Z.of_nat i).
Proof.
  unfold wire_bits, SigSpec. change (map ?f ?l) with (f <$> l). rewrite list_lookup_fmap.
  destruct (seq 0 (Z.to_nat width) !! i) as [k|] eqn:Hk; [|discriminate].
  apply lookup_seq in Hk as [-> _]. cbn. intros [= <-]. reflexivity.
Qed.

Lemma conns_inv_step (imp : VerificImporter) (m : Module) (done : list PortRef)
    (pr : PortRef) (s s' : conns_state) :
  conns_inv imp m done s → port_conn_step imp pr s = Ok s' →
  conns_inv imp m (done ++ [pr]) s'.
Proof.
  destruct s as [conns m1].
  intros (Hname & Hcells & Hconn & Hmem & Hidx & (ws & Hws & Hcount & Hprivate) & Hkeys & Hvec).
  cbn [fst snd] in *. unfold port_conn_step.
  set (key := port_key pr). set (o := port_offset pr).
  set (sigvec0 := default [] (conns !! key)).
  destruct (if bool_decide (GetSize sigvec0 ≤ o) then _ else _) as [sigvec1 m2] eqn:Hext.
  intros H. apply bind_inv in H as (b & Hb & H).
  case_bool_decide as Hneg; [discriminate|]. injection H as <-.
  unfold conns_inv. cbn [fst snd].
  assert (Hm2 : name m2 = name m ∧ cells_ m2 = cells_ m ∧ connections_ m2 = connections_ m
                ∧ memories m2 = memories m ∧ autoidx m1 ≤ autoidx m2
                ∧ (∃ ws', wires_ m2 = wires_ m ++ ws'
                          ∧ (length ws' ≤ length (done ++ [pr]))%nat
                          ∧ Forall (λ w, made_between m m2 (wire_name w)) ws')
                ∧ length sigvec1 = Z.to_nat (Z.max (GetSize sigvec0) (o + 1))
                ∧ (∀ i bit, sigvec1 !! i = Some bit →
                     sigvec0 !! i = Some bit
                     ∨ ((length sigvec0 ≤ i)%nat ∧ ∃ id off, bit = Bit id off ∧ made_between m m2 id))
                ∧ (GetSize sigvec0 ≤ o → GetSize sigvec1 = o + 1)
                ∧ (o < GetSize sigvec0 → sigvec1 = sigvec0)).
  { case_bool_decide as Hshort.
    - cbn in Hext. injection Hext as <- <-. cbn.
      split; [exact Hname|]. split; [exact Hcells|]. split; [exact Hconn|].
      split; [exact Hmem|]. split; [lia|]. split; [|split; [|split; [|split]]].
      + exists (ws ++ [mkWire (NewId (autoidx m1)) (o + 1 - GetSize sigvec0) []]).
        split; [rewrite Hws, <- app_assoc; reflexivity|].
        split; [rewrite !length_app; cbn; lia|].
        apply Forall_app. split.
        * eapply Forall_impl; [exact Hprivate|]. intros w Hw.
          apply (made_between_mono m m1); [cbn; lia | exact Hw].
        * constructor; [|constructor]. exists (autoidx m1). split; [reflexivity | cbn; lia].
      + unfold SigSpec in *. rewrite length_app, wire_bits_length. unfold GetSize in *. lia.
      + intros i bit Hi. destruct (decide (i < length sigvec0)%nat) as [Hlt|Hge].
        * left. unfold SigSpec in *. rewrite lookup_app_l in Hi by exact Hlt. exact Hi.
        * right. split; [lia|]. unfold SigSpec in *. rewrite lookup_app_r in Hi by lia.
          apply wire_bits_lookup in Hi. eexists _, _. split; [exact Hi|].
          exists (autoidx m1). split; [reflexivity | cbn; lia].
      + intros _. unfold GetSize, SigSpec in *. rewrite length_app, wire_bits_length. lia.
      + intros Hlt. lia.
    - injection Hext as <- <-.
      split; [exact Hname|]. split; [exact Hcells|]. split; [exact Hconn|].
      split; [exact Hmem|]. split; [lia|]. split; [|split; [|split; [|split]]].
      + exists ws. split; [exact Hws|]. split; [rewrite length_app; lia | exact Hprivate].
      + unfold GetSize in *. lia.
      + intros i bit Hi. left. exact Hi.
      + intros Hle. lia.
      + intros _. reflexivity. }
  destruct Hm2 as (Hname2 & Hcells2 & Hconn2 & Hmem2 & Hidx2 & Hws2 & Hlen1 & Hbits1 & Hnew & Hsame).
  split; [exact Hname2|]. split; [exact Hcells2|]. split; [exact Hconn2|].
  split; [exact Hmem2|]. split; [lia|]. split; [exact Hws2|].
  assert (Ho : 0 ≤ o) by lia.
  assert (Hdone : ∀ pr', pr' ∈ done → port_key pr' = key →
            0 ≤ port_offset pr' < GetSize sigvec0).
  { intros pr' Hpr' Hk. destruct (conns !! key) as [v0|] eqn:Hv0.
    - exact (proj1 (Hvec key v0 Hv0) pr' Hpr' Hk).
    - exfalso. exact (proj1 (Hkeys key) Hv0 pr' Hpr' Hk). }
  split.
  - intros k. destruct (decide (k = key)) as [->|Hne].
    + rewrite lookup_insert_eq. split; [discriminate|]. intros Hall. exfalso.
      apply (Hall pr); [apply elem_of_app; right; apply list_elem_of_here | reflexivity].
    + rewrite lookup_insert_ne by congruence. rewrite Hkeys. split.
      * intros Hall pr' Hpr'. apply elem_of_app in Hpr' as [Hpr'|Hpr']; [exact (Hall pr' Hpr')|].
        apply list_elem_of_singleton in Hpr' as ->. fold key. congruence.
      * intros Hall pr' Hpr'. apply Hall. apply elem_of_app. left. exact Hpr'.
  - intros k vec. destruct (decide (k = key)) as [->|Hne].
    + rewrite lookup_insert_eq. intros [= <-].
      assert (GetSize (<[Z.to_nat o := b]> sigvec1) = GetSize sigvec1) as Hsize
        by (unfold GetSize, SigSpec; rewrite length_insert; reflexivity).
      assert (o < GetSize sigvec1) as Hin by (unfold GetSize in *; lia).
      split; [|split].
      * intros pr' Hpr' Hk. rewrite Hsize.
        apply elem_of_app in Hpr' as [Hpr'|Hpr'].
        -- pose proof (Hdone pr' Hpr' Hk). unfold GetSize in *. lia.
        -- apply list_elem_of_singleton in Hpr' as ->. fold o. lia.
      * rewrite Hsize. destruct (decide (GetSize sigvec0 ≤ o)) as [Hshort|Hlong].
        -- exists pr. split; [apply elem_of_app; right; apply list_elem_of_here|].
           split; [reflexivity | exact (Hnew Hshort)].
        -- rewrite Hsame by lia. destruct (conns !! key) as [v0|] eqn:Hv0.
           ++ destruct (proj1 (proj2 (Hvec key v0 Hv0))) as (pr' & Hpr' & Hk & Hsz).
              exists pr'. split; [apply elem_of_app; left; exact Hpr' | split; assumption].
           ++ subst sigvec0. rewrite ?Hv0 in Hlong. unfold GetSize in Hlong.
              cbn in Hlong. lia.
      * intros o' b' Hb'. rewrite writers_snoc.
        destruct (decide (o' = Z.to_nat o)) as [->|Hother].
        -- rewrite bool_decide_eq_true_2 by (split; reflexivity). rewrite last_snoc.
           unfold SigSpec in *. rewrite list_lookup_insert_eq in Hb' by (unfold GetSize in *; lia).
           injection Hb' as <-. exact Hb.
        -- rewrite bool_decide_eq_false_2 by (intros [_ Heq]; fold o in Heq; congruence).
           rewrite app_nil_r. unfold SigSpec in *.
           rewrite list_lookup_insert_ne in Hb' by congruence.
           destruct (Hbits1 o' b' Hb') as [Hold|[Hge Hpriv]].
           ++ destruct (conns !! key) as [v0|] eqn:Hv0; [|subst sigvec0; rewrite ?Hv0 in Hold; discriminate].
              subst sigvec0. rewrite ?Hv0 in Hold. cbn in Hold.
              pose proof (proj2 (proj2 (Hvec key v0 Hv0)) o' b' Hold) as Hc.
              destruct (last (writers done key o')); [exact Hc|].
              destruct Hc as (id & off & -> & Hmade). exists id, off.
              split; [reflexivity | exact (made_between_mono m m1 m2 id Hidx2 Hmade)].
           ++ rewrite writers_none; [exact Hpriv|].
              intros pr' Hpr' Hk Heq. pose proof (Hdone pr' Hpr' Hk). unfold GetSize in *. lia.
    + rewrite lookup_insert_ne by congruence. intros Hv.
      destruct (Hvec k vec Hv) as (Ha & (pr0 & Hpr0 & Hk0 & Hsz0) & Hc).
      split; [|split].
      * intros pr' Hpr' Hk. apply elem_of_app in Hpr' as [Hpr'|Hpr']; [exact (Ha pr' Hpr' Hk)|].
        apply list_elem_of_singleton in Hpr' as ->. fold key in Hk. congruence.
      * exists pr0. split; [apply elem_of_app; left; exact Hpr0 | split; assumption].
      * intros o' b' Hb'. rewrite writers_snoc.
        rewrite bool_decide_eq_false_2 by (intros [Heq _]; fold key in Heq; congruence).
        rewrite app_nil_r. pose proof (Hc o' b' Hb') as Hc'.
        destruct (last (writers done k o')); [exact Hc'|].
        destruct Hc' as (id & off & -> & Hmade). exists id, off.
        split; [reflexivity | exact (made_between_mono m m1 m2 id Hidx2 Hmade)].
Qed.

(** X24. The loop over the port references of an instance changes the
    module only by wires under private names, at most one for each
    reference.  A port of the cell has a vector exactly when a reference
    names it; the vector ends at the greatest offset of these references;
    each of its bits is the signal of the net of the last reference that
    names its position, and a bit of one of the new wires where no
    reference does. *)
Theorem cell_port_vectors (imp : VerificImporter) (prs : list PortRef) (m m' : Module)
    (conns : gmap string (list SigBit)) :
  cell_port_conns imp prs m = Ok (conns, m') →
  name m' = name m ∧ cells_ m' = cells_ m ∧ connections_ m' = connections_ m
  ∧ memories m' = memories m ∧ autoidx m ≤ autoidx m'
  ∧ (∃ ws, wires_ m' = wires_ m ++ ws ∧ (length ws ≤ length prs)%nat
           ∧ Forall (λ w, made_between m m' (wire_name w)) ws)
  ∧ (∀ key, conns !! key = None ↔ ∀ pr, pr ∈ prs → port_key pr ≠ key)
  ∧ ∀ key vec, conns !! key = Some vec →
      (∀ pr, pr ∈ prs → port_key pr = key → 0 ≤ port_offset pr < GetSize vec)
      ∧ (∃ pr, pr ∈ prs ∧ port_key pr = key ∧ GetSize vec = port_offset pr + 1)
      ∧ ∀ o b, vec !! o = Some b →
          match last (writers prs key o) with
          | Some pr => net_map_at imp (pr_GetNet pr) = Ok b
          | None => ∃ id off, b = Bit id off ∧ made_between m m' id
          end.
Proof.
  intros H.
  refine (foldM_invariant (port_conn_step imp) (conns_inv imp m) prs
            (conns_inv_step imp m) [] (∅, m) (conns, m') _ H).
  split; [reflexivity|]. split; [reflexivity|]. split; [reflexivity|].
  split; [reflexivity|]. split; [cbn; lia|]. split; [|split].
  - exists []. split; [rewrite app_nil_r; reflexivity|]. split; [cbn; lia | constructor].
  - intros key. split; [intros _ pr Hpr; inversion Hpr | intros _; apply lookup_empty].
  - intros key vec Hv. cbn in Hv. rewrite lookup_empty in Hv. discriminate.
Qed.

Lemma cell_port_vectors_witness :
  ∃ conns m', cell_port_conns Sample.imp Sample.port_refs (module Sample.imp) = Ok (conns, m')
    ∧ conns !! "\data"%string
      = Some [Sample.wire_of Sample.clk; Bit (NewId 2) 1; Sample.wire_of Sample.q]
    ∧ conns !! "\a"%string = Some [Sample.wire_of Sample.d]
    ∧ conns !! "\b"%string = None.
Proof.
  assert (∃ conns m',
            cell_port_conns Sample.imp Sample.port_refs (module Sample.imp) = Ok (conns, m')
            ∧ conns !! "\data"%string
              = Some [Sample.wire_of Sample.clk; Bit (NewId 2) 1; Sample.wire_of Sample.q]
            ∧ conns !! "\a"%string = Some [Sample.wire_of Sample.d])
    as (conns & m' & Hrun & Hdata & Ha)
    by (eexists _, _; split; [vm_compute; reflexivity | split; vm_compute; reflexivity]).
  exists conns, m'. split; [exact Hrun|]. split; [exact Hdata|]. split; [exact Ha|].
  destruct (cell_port_vectors _ _ _ _ _ Hrun) as (_ & _ & _ & _ & _ & _ & Hkeys & _).
  apply Hkeys. intros pr Hpr.
  repeat (apply elem_of_cons in Hpr as [->|Hpr]); [discriminate.. | inversion Hpr].
Defined.

(** ** The ports of a netlist *)

Lemma connect_port_bit_spec (input : bool) (net : Net) (bit : SigBit)
    (imp imp' : VerificImporter) :
  connect_port_bit input net bit imp = Ok imp' →
  wires_ (module imp') = wires_ (module imp)
  ∧ net_map imp ⊆ net_map imp'
  ∧ is_Some (net_map imp' !! net_id net)
  ∧ (∀ k b, net_map imp' !! k = Some b →
       net_map imp !! k = Some b ∨ (k = net_id net ∧ b = bit))
  ∧ (net_map imp !! net_id net = None
     ∧ connections_ (module imp') = connections_ (module imp)
     ∨ ∃ b, net_map imp !! net_id net = Some b
            ∧ connections_ (module imp')
              = connections_ (module imp) ++ [if input then ([b], [bit]) else ([bit], [b])]).
Proof.
  unfold connect_port_bit. destruct (net_map imp !! net_id net) as [b0|] eqn:Hmap.
  - intros H. apply bind_inv in H as (b & Hb & H). injection H as <-.
    apply net_map_at_lookup in Hb. rewrite Hmap in Hb. injection Hb as ->.
    split; [destruct input; reflexivity|]. split; [reflexivity|].
    split; [cbn; rewrite Hmap; eexists; reflexivity|].
    split; [intros k b' Hk; left; exact Hk|].
    right. exists b. split; [reflexivity|]. destruct input; reflexivity.
  - intros [= <-]. unfold set_net_map. cbn [module net_map].
    split; [reflexivity|]. split; [apply insert_subseteq; exact Hmap|].
    split; [rewrite lookup_insert_eq; eexists; reflexivity|].
    split; [|left; split; reflexivity].
    intros k b Hk. destruct (decide (k = net_id net)) as [->|Hne].
    + rewrite lookup_insert_eq in Hk. injection Hk as <-. right. split; reflexivity.
    + rewrite lookup_insert_ne in Hk by congruence. left. exact Hk.
Qed.

Lemma plain_ports_snoc (done : list Port) (port : Port) :
  plain_ports (done ++ [port])
  = plain_ports done ++ (if port_Bus port then [] else [port]).
Proof.
  unfold plain_ports. rewrite list.filter_app. f_equal.
  destruct (port_Bus port) eqn:Hb;
    [rewrite filter_cons_False by congruence | rewrite filter_cons_True by exact Hb];
    reflexivity.
Qed.

Lemma ports_inv_step (st0 : netlist_state) (done : list Port) (port : Port)
    (st st' : netlist_state) :
  ports_inv st0 done st → import_port port st = Ok st' → ports_inv st0 (done ++ [port]) st'.
Proof.
  intros (Hw & Hp & Hold & Hvis & Hnew & cs & Hcs & Hall & Hconn). unfold import_port, ports_inv.
  rewrite plain_ports_snoc. destruct (port_Bus port) eqn:Hbus.
  { intros [= <-]. rewrite !app_nil_r.
    repeat (split; [assumption|]). exists cs. split; [assumption|]. split; assumption. }
  cbn [addWire_with]. fold (port_wire port).
  set (imp1 := set_module (ns_imp st) (add_wire_obj (port_wire port) (module (ns_imp st)))).
  assert (Hall' : ∀ nm : gmap N SigBit, net_map (ns_imp st) ⊆ nm →
            Forall (λ c, ∃ p n b, p ∈ plain_ports done ++ [port]
                      ∧ port_GetNet p = Some n ∧ nm !! net_id n = Some b
                      ∧ c = port_connection p b) cs).
  { intros nm Hsub. eapply Forall_impl; [exact Hall|].
    intros c (p & n & b & Hin & Hn & Hb & Hc). exists p, n, b.
    split; [apply elem_of_app; left; exact Hin|]. split; [exact Hn|].
    split; [exact (lookup_weaken _ _ _ _ Hb Hsub) | exact Hc]. }
  assert (Hnew' : ∀ k b, net_map (ns_imp st) !! k = Some b →
            net_map (ns_imp st0) !! k = Some b
            ∨ ∃ p n, p ∈ plain_ports done ++ [port] ∧ port_GetNet p = Some n ∧ net_id n = k
                     ∧ b = Bit (wire_name (port_wire p)) 0).
  { intros k b Hk. destruct (Hnew k b Hk) as [H|(p & n & Hin & H)]; [left; exact H | right].
    exists p, n. split; [apply elem_of_app; left; exact Hin | exact H]. }
  destruct (port_GetNet port) as [net|] eqn:Hnet.
  - intros H. apply bind_inv in H as (imp2 & Hbit & H). injection H as <-.
    cbn [ns_imp ns_wire_ports with_imp with_wire_ports].
    destruct (connect_port_bit_spec _ _ _ _ _ Hbit) as (Hw2 & Hsub2 & Hin2 & Hnew2 & Hconn2).
    split; [rewrite Hw2; cbn; rewrite Hw, map_app, <- app_assoc; reflexivity|].
    split; [rewrite Hp, map_app, <- app_assoc; reflexivity|].
    split; [etrans; [exact Hold | exact Hsub2]|].
    split; [|split].
    + intros p n Hin Hpn. apply elem_of_app in Hin as [Hin|Hin].
      * destruct (Hvis p n Hin Hpn) as [b Hb]. exists b.
        exact (lookup_weaken _ _ _ _ Hb Hsub2).
      * apply list_elem_of_singleton in Hin as ->. rewrite Hnet in Hpn. injection Hpn as <-.
        exact Hin2.
    + intros k b Hk. destruct (Hnew2 k b Hk) as [Hb|[-> ->]]; [exact (Hnew' k b Hb)|].
      right. exists port, net. split; [apply elem_of_app; right; apply list_elem_of_here|].
      repeat split; assumption.
    + destruct Hconn2 as [[Hnone Hc]|(b & Hb & Hc)]; rewrite Hc;
        cbn [module imp1 set_module connections_ add_wire_obj].
      * exists cs. split; [exact Hcs|]. split; [exact (Hall' _ Hsub2)|].
        intros p n b Hin Hpn Hb0. apply elem_of_app in Hin as [Hin|Hin];
          [exact (Hconn p n b Hin Hpn Hb0)|].
        apply list_elem_of_singleton in Hin as ->. rewrite Hnet in Hpn. injection Hpn as <-.
        pose proof (lookup_weaken _ _ _ _ Hb0 Hold) as Hb1. cbn in Hnone. congruence.
      * exists (cs ++ [port_connection port b]).
        split; [rewrite Hcs, <- app_assoc; reflexivity|]. split.
        -- apply Forall_app. split; [exact (Hall' _ Hsub2)|]. constructor; [|constructor].
           exists port, net, b. split; [apply elem_of_app; right; apply list_elem_of_here|].
           split; [exact Hnet|]. split; [|reflexivity].
           exact (lookup_weaken _ _ _ _ Hb Hsub2).
        -- intros p n b' Hin Hpn Hb0. apply elem_of_app in Hin as [Hin|Hin].
           ++ apply elem_of_app. left. exact (Hconn p n b' Hin Hpn Hb0).
           ++ apply list_elem_of_singleton in Hin as ->. rewrite Hnet in Hpn.
              injection Hpn as <-.
              pose proof (lookup_weaken _ _ _ _ Hb0 Hold) as Hb1. cbn in Hb.
              rewrite Hb in Hb1. injection Hb1 as <-.
              apply elem_of_app. right. apply list_elem_of_here.
  - intros [= <-]. cbn [ns_imp ns_wire_ports with_imp with_wire_ports].
    split; [cbn; rewrite Hw, map_app, <- app_assoc; reflexivity|].
    split; [rewrite Hp, map_app, <- app_assoc; reflexivity|].
    split; [exact Hold|]. split; [|split; [exact Hnew'|]].
    + intros p n Hin Hpn. apply elem_of_app in Hin as [Hin|Hin]; [exact (Hvis p n Hin Hpn)|].
      apply list_elem_of_singleton in Hin as ->. congruence.
    + exists cs. split; [exact Hcs|]. split; [exact (Hall' _ (reflexivity _))|].
      intros p n b Hin Hpn Hb0. apply elem_of_app in Hin as [Hin|Hin];
        [exact (Hconn p n b Hin Hpn Hb0)|].
      apply list_elem_of_singleton in Hin as ->. congruence.
Qed.

(** X22. The loop over the ports of a netlist gives each port that is not
    in a bus a wire of one bit under its escaped name, in the order of the
    ports, with the number of the port plus one as its port number and its
    direction as its input and output flags.  The entries of [net_map]
    stay; the net of each such port has an entry afterwards; an entry that
    is new maps the net of a port to the wire of the port.  Every
    connection that is new joins the wire of such a port with the signal
    [net_map] holds for the net of the port, an input port driving the
    signal and any other port driven by it; and every such port whose net
    had an entry before the loop has that connection, to the signal of the
    entry. *)
Theorem ports_become_wires (ports : list Port) (st st' : netlist_state) :
  foldM import_port ports st = Ok st' →
  wires_ (module (ns_imp st'))
  = wires_ (module (ns_imp st)) ++ map port_wire (plain_ports ports)
  ∧ ns_wire_ports st' = ns_wire_ports st ++ map port_members (plain_ports ports)
  ∧ net_map (ns_imp st) ⊆ net_map (ns_imp st')
  ∧ (∀ port n, port ∈ plain_ports ports → port_GetNet port = Some n →
       is_Some (net_map (ns_imp st') !! net_id n))
  ∧ (∀ k b, net_map (ns_imp st') !! k = Some b →
       net_map (ns_imp st) !! k = Some b
       ∨ ∃ port n, port ∈ plain_ports ports ∧ port_GetNet port = Some n ∧ net_id n = k
                   ∧ b = Bit (wire_name (port_wire port)) 0)
  ∧ ∃ cs, connections_ (module (ns_imp st')) = connections_ (module (ns_imp st)) ++ cs
          ∧ Forall (λ c, ∃ port n b, port ∈ plain_ports ports
                           ∧ port_GetNet port = Some n
                           ∧ net_map (ns_imp st') !! net_id n = Some b
                           ∧ c = port_connection port b) cs
          ∧ ∀ port n b, port ∈ plain_ports ports → port_GetNet port = Some n →
              net_map (ns_imp st) !! net_id n = Some b → port_connection port b ∈ cs.
Proof.
  intros H.
  refine (foldM_invariant import_port (ports_inv st) ports (ports_inv_step st) [] st st' _ H).
  split; [cbn; rewrite app_nil_r; reflexivity|]. split; [cbn; rewrite app_nil_r; reflexivity|].
  split; [reflexivity|]. split; [intros p n Hp; inversion Hp|].
  split; [intros k b Hk; left; exact Hk|].
  exists []. split; [rewrite app_nil_r; reflexivity|]. split; [constructor|].
  intros p n b Hp. inversion Hp.
Qed.

Lemma ports_become_wires_witness :
  ∃ st', foldM import_port Sample.netlist_ports Sample.netlist_start = Ok st'
    ∧ wire_name <$> wires_ (module (ns_imp st')) = [IdStr "\a"; IdStr "\y"]
    ∧ net_map (ns_imp st') !! 33%N = Some (Bit (IdStr "\y") 0)
    ∧ connections_ (module (ns_imp st'))
      = [([Sample.wire_of Sample.d], [Bit (IdStr "\a") 0])].
Proof.
  assert (∃ st', foldM import_port Sample.netlist_ports Sample.netlist_start = Ok st'
            ∧ net_map (ns_imp st') !! 33%N = Some (Bit (IdStr "\y") 0)
            ∧ connections_ (module (ns_imp st'))
              = [([Sample.wire_of Sample.d], [Bit (IdStr "\a") 0])])
    as (st' & Hrun & Hy & Hconn)
    by (eexists; split; [vm_compute; reflexivity | split; vm_compute; reflexivity]).
  exists st'. split; [exact Hrun|]. split; [|split; [exact Hy | exact Hconn]].
  destruct (ports_become_wires _ _ _ Hrun) as (Hw & _). rewrite Hw. reflexivity.
Defined.

(** ** The initial values that are left when the buses are done *)

Lemma attr_get_cons (key k : string) (x : Const) (attributes : list (string * Const)) :
  attr_get key ((k, x) :: attributes)
  = if decide (k = key) then Some x else attr_get key attributes.
Proof.
  unfold attr_get. cbn [list_find fst]. destruct (decide (k = key)); [reflexivity|].
  destruct (list_find _ attributes) as [[i [k' x']]|]; reflexivity.
Qed.

Lemma attr_get_set (key : string) (v : Const) (attributes : list (string * Const)) :
  attr_get key (attr_set key v attributes) = Some v.
Proof.
  unfold attr_set. case_bool_decide as Hin.
  - induction attributes as [|[k x] attributes IH]; [inversion Hin|].
    cbn [map fst]. rewrite fmap_cons in Hin. cbn [fst] in Hin.
    destruct (decide (k = key)) as [->|Hne].
    + rewrite bool_decide_eq_true_2 by reflexivity. rewrite attr_get_cons.
      rewrite decide_True by reflexivity. reflexivity.
    + rewrite bool_decide_eq_false_2 by exact Hne. rewrite attr_get_cons.
      rewrite decide_False by exact Hne.
      apply elem_of_cons in Hin as [Heq|Hin]; [congruence | exact (IH Hin)].
  - induction attributes as [|[k x] attributes IH]; cbn [app].
    + rewrite attr_get_cons, decide_True by reflexivity. reflexivity.
    + rewrite fmap_cons in Hin. apply not_elem_of_cons in Hin as [Hne Hin]. cbn in Hne.
      rewrite attr_get_cons, decide_False by congruence. exact (IH Hin).
Qed.

Lemma wire_named_set_attribute (nm' nm : IdString) (key : string) (v : Const) (m : Module) :
  wire_named (set_wire_attribute nm' key v m) nm
  = (λ w, if bool_decide (wire_name w = nm')
          then mkWire (wire_name w) (wire_width w) (attr_set key v (wire_attributes w))
          else w) <$> wire_named m nm.
Proof.
  unfold wire_named, set_wire_attribute. cbn [wires_].
  change (map ?f ?l) with (f <$> l). rewrite list_find_fmap.
  set (P := λ w : Wire, wire_name w = nm).
  assert (list_find (P ∘ (λ w, if bool_decide (wire_name w = nm')
                               then mkWire (wire_name w) (wire_width w)
                                      (attr_set key v (wire_attributes w))
                               else w)) (wires_ m)
          = list_find P (wires_ m)) as ->.
  { apply list_find_ext. intros w. unfold P. cbn. case_bool_decide; reflexivity. }
  destruct (list_find P (wires_ m)) as [[i w]|]; reflexivity.
Qed.

Lemma wire_named_name (m : Module) (nm : IdString) (w : Wire) :
  wire_named m nm = Some w → wire_name w = nm.
Proof.
  unfold wire_named. destruct (list_find _ (wires_ m)) as [[i w']|] eqn:Hfind; [|discriminate].
  intros [= <-]. apply list_find_Some in Hfind as (_ & Hname & _). exact Hname.
Qed.

Lemma init_char_state_cases (c : ascii) (bitidx : Z) (initval initval' : Const) :
  ((if bool_decide (c = "0"%char) then Const_set bitidx S0 initval else Ok initval)
   ≫= λ v, (if bool_decide (c = "1"%char) then Const_set bitidx S1 v else Ok v)
           ≫= λ v', Ok v') = Ok initval' →
  match init_char_state c with
  | Some s => 0 ≤ bitidx < Z.of_nat (length initval)
              ∧ initval' = <[Z.to_nat bitidx := s]> initval
  | None => initval' = initval
  end.
Proof.
  unfold init_char_state, Const_set.
  destruct (bool_decide (c = "0"%char)) eqn:H0; destruct (bool_decide (c = "1"%char)) eqn:H1.
  - apply bool_decide_eq_true in H0, H1. congruence.
  - destruct (bool_decide (0 ≤ bitidx < Z.of_nat (length initval))) eqn:Hr; cbn;
      [|discriminate].
    apply bool_decide_eq_true in Hr. intros [= <-]. split; [exact Hr | reflexivity].
  - cbn [mbind result_bind].
    destruct (bool_decide (0 ≤ bitidx < Z.of_nat (length initval))) eqn:Hr; cbn;
      [|discriminate].
    apply bool_decide_eq_true in Hr. intros [= <-]. split; [exact Hr | reflexivity].
  - cbn. intros [= <-]. reflexivity.
Qed.

(** One initial value: the map of the nets stays, the bit of the net is
    set as its character tells, and the other bits that were set stay. *)
Lemma import_init_net_spec (net : Net) (c : ascii) (imp imp' : VerificImporter) :
  import_init_net (net, c) imp = Ok imp' →
  net_map imp' = net_map imp ∧ netlist imp' = netlist imp
  ∧ (λ w, (wire_name w, wire_width w)) <$> wires_ (module imp')
    = (λ w, (wire_name w, wire_width w)) <$> wires_ (module imp)
  ∧ ∃ nm off,
      net_map_at imp (Some net) = Ok (Bit nm off)
      ∧ (∀ s, init_char_state c = Some s → init_bit (module imp') nm off s)
      ∧ ∀ nm2 off2 s, init_bit (module imp) nm2 off2 s →
          (nm2, off2) ≠ (nm, off) ∨ init_char_state c = None ∨ init_char_state c = Some s →
          init_bit (module imp') nm2 off2 s.
Proof.
  unfold import_init_net. intros H. apply bind_inv in H as (bit & Hbit & H).
  destruct bit as [nm off|]; [|discriminate].
  destruct (wire_named (module imp) nm) as [wire|] eqn:Hwire; [|discriminate].
  set (initval0 := default [] (attr_get "\init" (wire_attributes wire))) in H.
  set (padded := initval0 ++ replicate (Z.to_nat (wire_width wire) - length initval0) Sx) in H.
  destruct ((if bool_decide (c = "0"%char) then Const_set off S0 padded else Ok padded)
            ≫= λ v, (if bool_decide (c = "1"%char) then Const_set off S1 v else Ok v)
                    ≫= λ v', Ok v') as [initval|e] eqn:Hval.
  2: { exfalso. destruct (if bool_decide (c = "0"%char) then _ else _) as [v|];
         [|discriminate]. cbn in Hval, H.
       destruct (if bool_decide (c = "1"%char) then _ else _) as [v'|]; discriminate. }
  assert (H' : Ok (set_module imp (set_wire_attribute nm "\init" initval (module imp)))
               = Ok imp').
  { rewrite <- H. destruct (if bool_decide (c = "0"%char) then _ else _) as [v|];
      [|discriminate]. cbn in Hval |- *.
    destruct (if bool_decide (c = "1"%char) then _ else _) as [v'|]; [|discriminate].
    cbn in Hval |- *. injection Hval as ->. reflexivity. }
  clear H. injection H' as <-. cbn [net_map netlist module set_module].
  pose proof (init_char_state_cases c off padded initval Hval) as Hcases.
  pose proof (wire_named_name _ _ _ Hwire) as Hname.
  assert (Hpadlen : wire_width wire ≤ Z.of_nat (length padded)).
  { subst padded. unfold Const. rewrite length_app, length_replicate. lia. }
  assert (Hlen : length initval = length padded).
  { destruct (init_char_state c); [destruct Hcases as [_ ->]|subst initval];
      [unfold Const; rewrite length_insert|]; reflexivity. }
  split; [reflexivity|]. split; [reflexivity|]. split.
  { unfold set_wire_attribute. cbn [wires_]. change (map ?f ?l) with (f <$> l).
    rewrite <- list_fmap_compose. apply list_fmap_ext. intros i w _. cbn.
    destruct (bool_decide (wire_name w = nm)); reflexivity. }
  exists nm, off. split; [exact Hbit|]. split.
  - intros s Hs. rewrite Hs in Hcases. destruct Hcases as [Hrange ->].
    exists (mkWire (wire_name wire) (wire_width wire)
              (attr_set "\init" (<[Z.to_nat off := s]> padded) (wire_attributes wire))),
      (<[Z.to_nat off := s]> padded).
    split; [rewrite wire_named_set_attribute, Hwire; cbn;
            rewrite bool_decide_eq_true_2 by exact Hname; reflexivity|].
    split; [apply attr_get_set|]. cbn [wire_width].
    split; [unfold Const in *; rewrite length_insert; exact Hpadlen|].
    split; [lia|]. unfold Const. apply list_lookup_insert_eq. lia.
  - intros nm2 off2 s (wire2 & initval2 & Hwire2 & Hattr2 & Hwidth2 & Hoff2 & Hbit2) Hcompat.
    destruct (decide (nm2 = nm)) as [->|Hne].
    + rewrite Hwire in Hwire2. injection Hwire2 as <-.
      assert (initval0 = initval2) as Heq0 by (subst initval0; rewrite Hattr2; reflexivity).
      assert (padded = initval2) as Hpad.
      { subst padded. rewrite Heq0.
        replace (Z.to_nat (wire_width wire) - length initval2)%nat with 0%nat by lia.
        apply app_nil_r. }
      exists (mkWire (wire_name wire) (wire_width wire)
                (attr_set "\init" initval (wire_attributes wire))), initval.
      split; [rewrite wire_named_set_attribute, Hwire; cbn;
              rewrite bool_decide_eq_true_2 by exact Hname; reflexivity|].
      split; [apply attr_get_set|]. cbn [wire_width].
      split; [rewrite Hlen; exact Hpadlen|]. split; [exact Hoff2|].
      destruct (init_char_state c) as [s'|] eqn:Hc.
      * destruct Hcases as [Hrange ->]. rewrite Hpad.
        destruct (decide (off2 = off)) as [->|Hoff].
        -- destruct Hcompat as [Hd|[Hn|Hs]]; [congruence | discriminate|].
           injection Hs as ->. unfold Const. apply list_lookup_insert_eq.
           rewrite <- Hpad. lia.
        -- unfold Const. rewrite list_lookup_insert_ne by lia. exact Hbit2.
      * rewrite Hcases, Hpad. exact Hbit2.
    + exists wire2, initval2.
      split; [|repeat split; assumption].
      rewrite wire_named_set_attribute, Hwire2. cbn.
      rewrite bool_decide_eq_false_2; [reflexivity|].
      rewrite (wire_named_name _ _ _ Hwire2). exact Hne.
Qed.

Lemma net_map_at_ext (imp imp' : VerificImporter) (net : option Net) :
  net_map imp' = net_map imp → netlist imp' = netlist imp →
  net_map_at imp' net = net_map_at imp net.
Proof. intros Hm Hn. unfold net_map_at. rewrite Hm, Hn. reflexivity. Qed.

(** X23. The loop over the initial values that are left changes no entry
    of [net_map] and no name or width of a wire, and writes each value into
    the attribute [\init] of the wire of its net: for a net with the
    initial value 0 or 1 the attribute is afterwards at least as long as
    the wire is wide and holds that state at the offset of the net,
    provided that no other net with a different value 0 or 1 sits on the
    same bit. *)
Theorem leftover_initial_values (its : list (Net * ascii)) (imp imp' : VerificImporter) :
  foldM import_init_net its imp = Ok imp' →
  net_map imp' = net_map imp
  ∧ (λ w, (wire_name w, wire_width w)) <$> wires_ (module imp')
    = (λ w, (wire_name w, wire_width w)) <$> wires_ (module imp)
  ∧ ∀ net c nm off s,
      (net, c) ∈ its → net_map_at imp (Some net) = Ok (Bit nm off) →
      init_char_state c = Some s →
      (∀ net' c', (net', c') ∈ its → net_map_at imp (Some net') = Ok (Bit nm off) →
         init_char_state c' = None ∨ init_char_state c' = Some s) →
      init_bit (module imp') nm off s.
Proof.
  intros H.
  set (I := λ (done : list (Net * ascii)) (impc : VerificImporter),
         net_map impc = net_map imp ∧ netlist impc = netlist imp
         ∧ (λ w, (wire_name w, wire_width w)) <$> wires_ (module impc)
           = (λ w, (wire_name w, wire_width w)) <$> wires_ (module imp)
         ∧ ∀ net c nm off s,
             (net, c) ∈ done → net_map_at imp (Some net) = Ok (Bit nm off) →
             init_char_state c = Some s →
             (∀ net' c', (net', c') ∈ its → net_map_at imp (Some net') = Ok (Bit nm off) →
                init_char_state c' = None ∨ init_char_state c' = Some s) →
             init_bit (module impc) nm off s).
  assert (I its imp') as (Hmap & _ & Hwires & Hbits).
  { refine (foldM_invariant_at import_init_net I its _ imp imp' _ H).
    - intros done [net1 c1] rest impc impc1 Hsplit (Hm & Hn & Hw & Hb) Hstep.
      destruct (import_init_net_spec net1 c1 impc impc1 Hstep)
        as (Hm1 & Hn1 & Hw1 & nm1 & off1 & Hbit1 & Hset1 & Hkeep1).
      rewrite (net_map_at_ext imp impc _ Hm Hn) in Hbit1.
      split; [congruence|]. split; [congruence|]. split; [congruence|].
      intros net c nm off s Hin Hbit Hc Hcompat.
      apply elem_of_app in Hin as [Hin|Hin].
      + apply Hkeep1; [exact (Hb net c nm off s Hin Hbit Hc Hcompat)|].
        destruct (decide ((nm, off) = (nm1, off1))) as [Heq|Hne]; [|left; exact Hne].
        injection Heq as -> ->. right.
        apply (Hcompat net1 c1); [|exact Hbit1].
        rewrite Hsplit. apply elem_of_app. right. apply list_elem_of_here.
      + apply list_elem_of_singleton in Hin. injection Hin as -> ->.
        rewrite Hbit1 in Hbit. injection Hbit as <- <-. exact (Hset1 s Hc).
    - split; [reflexivity|]. split; [reflexivity|]. split; [reflexivity|].
      intros net c nm off s Hin. inversion Hin. }
  split; [exact Hmap|]. split; [exact Hwires | exact Hbits].
Qed.

Lemma leftover_initial_values_witness :
  ∃ imp', foldM import_init_net [(Sample.w1_net, "1"%char)] Sample.init_imp = Ok imp'
    ∧ init_bit (module imp') (IdStr "\w") 1 S1
    ∧ wire_attributes <$> wires_ (module imp') = [[("\init"%string, [Sx; S1])]].
Proof.
  assert (∃ imp', foldM import_init_net [(Sample.w1_net, "1"%char)] Sample.init_imp = Ok imp'
            ∧ wire_attributes <$> wires_ (module imp') = [[("\init"%string, [Sx; S1])]])
    as (imp' & Hrun & Hattr)
    by (eexists; split; vm_compute; reflexivity).
  exists imp'. split; [exact Hrun|]. split; [|exact Hattr].
  destruct (leftover_initial_values _ _ _ Hrun) as (_ & _ & Hbits).
  apply (Hbits Sample.w1_net "1"%char); [apply list_elem_of_here | reflexivity | reflexivity|].
  intros net' c' Hin _. apply list_elem_of_singleton in Hin. injection Hin as -> ->.
  right. reflexivity.
Defined.

(** ** The word-level operators *)

Lemma operatorOutput_step_name (imp : VerificImporter) (pin : option Net)
    (st st' : output_state) :
  operatorOutput_step imp pin st = Ok st' → name st'.2 = name st.2.
Proof.
  destruct st as [[sig dummy] m]. unfold operatorOutput_step. destruct pin as [n|].
  - intros H. apply bind_inv in H as (b & _ & H). injection H as <-. reflexivity.
  - destruct dummy as [[id width]|]; intros [= <-]; reflexivity.
Qed.

Lemma operatorOutput_fold_name (imp : VerificImporter) (pins : list (option Net)) :
  ∀ st st', foldM (operatorOutput_step imp) pins st = Ok st' → name st'.2 = name st.2.
Proof.
  induction pins as [|pin pins IH]; intros st st'; cbn [foldM].
  - intros [= <-]. reflexivity.
  - intros H. apply bind_inv in H as (st1 & H1 & H).
    rewrite (IH _ _ H). exact (operatorOutput_step_name _ _ _ _ H1).
Qed.

Lemma operatorOutput_only_wires (imp : VerificImporter) (pins : list (option Net))
    (sig : SigSpec) (m' : Module) :
  fresh_wire_names (module imp) →
  operatorOutput imp pins = Ok (sig, m') → only_wires_added (module imp) m'.
Proof.
  intros Hfresh. unfold operatorOutput.
  destruct (foldM _ _ _) as [[[sig1 dummy] m1]|e] eqn:Hfold; cbn [mbind result_bind];
    [|discriminate].
  intros [= <- <-].
  pose proof (operatorOutput_fold_name imp _ _ _ Hfold) as Hname. cbn [snd] in Hname.
  pose proof (operatorOutput_fold imp (reverse pins) Hfresh [] _ _ (output_inv_start imp) Hfold)
    as Hinv.
  cbn [app output_inv] in Hinv.
  destruct Hinv as (_ & Hc & Hco & Hme & Hidx & news & Hw & _ & Hnames & _).
  split; [exact Hname|]. split; [exact Hc|]. split; [exact Hco|]. split; [exact Hme|].
  split; [exact Hidx|]. exists news. split; [exact Hw|].
  apply list.Forall_forall. intros w Hin.
  destruct (Hnames w Hin) as (k & Hk & Hrange & _). exists k. split; assumption.
Qed.

Lemma only_wires_added_refl (m : Module) : only_wires_added m m.
Proof.
  split; [reflexivity|]. split; [reflexivity|]. split; [reflexivity|].
  split; [reflexivity|]. split; [lia|]. exists []. split; [rewrite app_nil_r; reflexivity|].
  constructor.
Qed.

(** The cell that ends a branch, placed under the name of the instance *)
Lemma lowered_one (types : list string) (inst_name : IdString) (m m1 : Module) (c : Cell) :
  only_wires_added m m1 → cell_name c = inst_name →
  bool_decide (cell_type c ∈ types) = true →
  lowered types inst_name m (add_cell_obj c m1).
Proof.
  intros (Hn & Hc & Hco & Hme & Hidx & ws & Hw & Hpriv) Hname Hty.
  unfold lowered. cbn [add_cell_obj name cells_ connections_ memories autoidx wires_].
  split; [exact Hn|]. split; [exact Hco|]. split; [exact Hme|]. split; [exact Hidx|].
  split.
  - exists ws. split; [exact Hw|]. eapply Forall_impl; [exact Hpriv|].
    intros w (k & Hk & Hr). exists k. split; [exact Hk | cbn; lia].
  - exists [], c, []. cbn [app]. split; [rewrite Hc; reflexivity|].
    split; [exact Hname|]. split; [constructor|]. constructor; [exact Hty | constructor].
Qed.

(** The two adders of an adder with a carry input, the first under a
    private name on a wire of its own *)
Lemma lowered_carry (types : list string) (inst_name : IdString) (m m1 m2 m3 : Module)
    (width : Z) (tmp : SigSpec) (id : IdString) (c1 c2 : Cell) :
  only_wires_added m m1 → new_wire width m1 = (tmp, m2) → NEW_ID m2 = (id, m3) →
  cell_name c1 = id → cell_name c2 = inst_name →
  bool_decide (cell_type c1 ∈ types) = true → bool_decide (cell_type c2 ∈ types) = true →
  lowered types inst_name m (add_cell_obj c2 (add_cell_obj c1 m3)).
Proof.
  intros (Hn & Hc & Hco & Hme & Hidx & ws & Hw & Hpriv) Hwire Hid Hname1 Hname2 Hty1 Hty2.
  unfold new_wire in Hwire. cbn in Hwire. injection Hwire as _ <-.
  cbn in Hid. injection Hid as <- <-.
  unfold lowered. cbn.
  split; [exact Hn|]. split; [exact Hco|]. split; [exact Hme|]. split; [lia|].
  split.
  - exists (ws ++ [mkWire (NewId (autoidx m1)) width []]).
    split; [rewrite Hw, <- app_assoc; reflexivity|].
    apply Forall_app. split.
    + eapply Forall_impl; [exact Hpriv|].
      intros w (k & Hk & Hr). exists k. split; [exact Hk | cbn; lia].
    + constructor; [|constructor]. exists (autoidx m1). split; [reflexivity | cbn; lia].
  - exists [c1], c2, []. cbn [app]. split; [rewrite Hc, <- app_assoc; reflexivity|].
    split; [exact Hname2|]. split.
    + constructor; [|constructor]. exists (autoidx m1 + 1). split; [exact Hname1 | cbn; lia].
    + constructor; [exact Hty1|]. constructor; [exact Hty2 | constructor].
Qed.

Lemma one_cell (t : prim_type) (inst_name : IdString) (m m1 : Module) (c : Cell) :
  only_wires_added m m1 → cell_name c = inst_name →
  cells_of_operator t inst_name m (add_cell_obj c m1).
Proof.
  intros (_ & Hc & _) Hname. exists c. split; [exact Hname|]. left.
  cbn [add_cell_obj cells_]. rewrite Hc. reflexivity.
Qed.

Lemma two_cells (inst_name : IdString) (m m1 m2 m3 : Module)
    (width : Z) (tmp : SigSpec) (id : IdString) (c1 c2 : Cell) :
  only_wires_added m m1 → new_wire width m1 = (tmp, m2) → NEW_ID m2 = (id, m3) →
  cell_name c1 = id → cell_name c2 = inst_name →
  cell_type c1 = "$add" → cell_type c2 = "$add" →
  cells_of_operator OPER_ADDER inst_name m (add_cell_obj c2 (add_cell_obj c1 m3)).
Proof.
  intros (_ & Hc & _ & _ & Hidx & _) Hwire Hid Hname1 Hname2 Hty1 Hty2.
  unfold new_wire in Hwire. cbn in Hwire. injection Hwire as _ <-.
  cbn in Hid. injection Hid as <- <-.
  exists c2. split; [exact Hname2|]. right. split; [reflexivity|]. exists c1.
  cbn [add_cell_obj cells_ add_wire_obj]. split; [rewrite Hc, <- app_assoc; reflexivity|].
  split; [|split; assumption].
  exists (autoidx m1 + 1). split; [exact Hname1 | cbn; lia].
Qed.

(** The calls of a branch that may fail are run one after the other. *)
Ltac run_operator H :=
  repeat match type of H with
    | (_ ≫= _) = Ok _ =>
        let x := fresh "x" in let E := fresh "E" in apply bind_inv in H as (x & E & H)
    | (let '(_, _) := ?p in _) = Ok _ => first [is_var p; destruct p | destruct p eqn:?]
    | (if ?c then _ else _) = Ok _ => destruct c
    | Fail _ = Ok _ => discriminate H
    end.

(** The module [operatorOutput] leaves, or the module as it was, has only
    gained wires. *)
Ltac operator_wires Hfresh :=
  first [ match goal with
          | E : operatorOutput _ _ = Ok _ |- _ =>
              exact (operatorOutput_only_wires _ _ _ _ Hfresh E)
          end
        | apply only_wires_added_refl ].

(** The branches that end in one cell on the module [operatorOutput]
    leaves, or on the module as it was *)
Ltac operator_end Hfresh H :=
  injection H as <- <-;
  (split; [reflexivity|]); (split; [reflexivity|]);
  cbn [module set_module snd addBinary addUnary addMux addDff addDffsr addCell];
  (split;
   [ apply lowered_one; [operator_wires Hfresh | reflexivity | vm_compute; reflexivity]
   | apply one_cell; [operator_wires Hfresh | reflexivity] ]).

Ltac operator_case Hfresh H := run_operator H; operator_end Hfresh H.

(** X25. The branches for the word-level operators handle exactly
    twenty-seven kinds of operator.  For any other kind they return false
    and leave the importer as it is.  For one of theirs, in a module whose
    private names are below the counter, a return is a return of true, and
    the module has only gained: wires under private names, and cells of the
    word-level types, namely one cell under the name of the instance, or,
    for an adder, two [$add] cells of which the first is under a private
    name and the second under the name of the instance. *)
Theorem operator_lowering_frame (pins : OperatorPins) (imp : VerificImporter)
    (inst : Instance) (inst_name : IdString) :
  fresh_wire_names (module imp) →
  (is_operator_cell (Type_ inst) = false →
   import_operator_cells pins imp inst inst_name = Ok (false, imp))
  ∧ (is_operator_cell (Type_ inst) = true →
     ∀ handled imp',
       import_operator_cells pins imp inst inst_name = Ok (handled, imp') →
       handled = true
       ∧ imp' = set_module imp (module imp')
       ∧ lowered operator_types inst_name (module imp) (module imp')
       ∧ cells_of_operator (Type_ inst) inst_name (module imp) (module imp')).
Proof.
  intros Hfresh. unfold import_operator_cells.
  destruct (Type_ inst) eqn:Hty; cbn [is_operator_cell];
    (split; [first [reflexivity | discriminate]|]); try discriminate; intros _ handled imp' H;
    try (operator_case Hfresh H; fail).
  run_operator H.
  - operator_end Hfresh H.
  - injection H as <- <-. split; [reflexivity|]. split; [reflexivity|].
    cbn [module set_module snd addBinary addCell]. split.
    + eapply lowered_carry;
        [exact (operatorOutput_only_wires _ _ _ _ Hfresh E) | eassumption | eassumption
        | reflexivity | reflexivity | vm_compute; reflexivity | vm_compute; reflexivity].
    + eapply two_cells;
        [exact (operatorOutput_only_wires _ _ _ _ Hfresh E) | eassumption | eassumption
        | reflexivity | reflexivity | reflexivity | reflexivity].
Qed.

Lemma operator_lowering_frame_witness :
  ∃ imp', import_operator_cells Sample.adder_pins Sample.imp Sample.adder (IdStr "\add")
          = Ok (true, imp')
    ∧ cell_type <$> cells_ (module imp') = ["$add"; "$add"]%string
    ∧ lowered operator_types (IdStr "\add") (module Sample.imp) (module imp')
    ∧ cells_of_operator OPER_ADDER (IdStr "\add") (module Sample.imp) (module imp').
Proof.
  assert (∃ imp', import_operator_cells Sample.adder_pins Sample.imp Sample.adder
                    (IdStr "\add") = Ok (true, imp')
            ∧ cell_type <$> cells_ (module imp') = ["$add"; "$add"]%string)
    as (imp' & Hrun & Hcells)
    by (eexists; split; vm_compute; reflexivity).
  exists imp'. split; [exact Hrun|]. split; [exact Hcells|].
  assert (fresh_wire_names (module Sample.imp)) as Hfresh
    by (intros w k Hw; inversion Hw).
  destruct (operator_lowering_frame Sample.adder_pins Sample.imp Sample.adder
              (IdStr "\add") Hfresh) as [_ Hop].
  exact (proj2 (proj2 (Hop eq_refl true imp' Hrun))).
Defined.

Lemma added_one (m m1 : Module) (c : Cell) :
  only_wires_added m m1 →
  drop (length (cells_ m)) (cells_ (add_cell_obj c m1)) = [c].
Proof.
  intros (_ & Hc & _). cbn [add_cell_obj cells_]. rewrite Hc. apply drop_app_length.
Qed.

Lemma added_two (m m1 m2 m3 : Module) (width : Z) (tmp : SigSpec) (id : IdString)
    (c1 c2 : Cell) :
  only_wires_added m m1 → new_wire width m1 = (tmp, m2) → NEW_ID m2 = (id, m3) →
  drop (length (cells_ m)) (cells_ (add_cell_obj c2 (add_cell_obj c1 m3))) = [c1; c2].
Proof.
  intros (_ & Hc & _) Hwire Hid. unfold new_wire in Hwire. cbn in Hwire.
  injection Hwire as _ <-. cbn in Hid. injection Hid as _ <-. cbn.
  rewrite Hc, <- app_assoc. apply drop_app_length.
Qed.

(** X26. The carry input decides what an adder, a right shift and a
    comparison become, when their import ends well: an adder with a
    grounded carry input is one [$add] cell, with any other carry input
    two, of which the second adds the carry; a right shift is a [$shr] cell
    when its carry input is grounded and a [$sshr] cell when its carry
    input is the net on bit 0 of its left operand, and no other right shift
    is imported; a less-than is a [$lt] cell when its carry input is
    grounded and a [$le] cell when it is tied to power, and no other
    less-than is imported. *)
Theorem carry_in_rules (pins : OperatorPins) (imp : VerificImporter) (inst : Instance)
    (inst_name : IdString) (cin : Net) (handled : bool) (imp' : VerificImporter) :
  fresh_wire_names (module imp) →
  GetCin inst = Some cin →
  import_operator_cells pins imp inst inst_name = Ok (handled, imp') →
  let added := drop (length (cells_ (module imp))) (cells_ (module imp')) in
  (Type_ inst = OPER_ADDER →
   cell_type <$> added = if IsGnd cin then ["$add"] else ["$add"; "$add"])
  ∧ (Type_ inst = OPER_SHIFT_RIGHT →
     (IsGnd cin = true ∧ cell_type <$> added = ["$shr"])
     ∨ (IsGnd cin = false
        ∧ same_net (Some cin) (default None (Input1Bits pins !! 0%nat)) = true
        ∧ cell_type <$> added = ["$sshr"]))
  ∧ (Type_ inst = OPER_LESSTHAN →
     (IsGnd cin = true ∧ cell_type <$> added = ["$lt"])
     ∨ (IsGnd cin = false ∧ IsPwr cin = true ∧ cell_type <$> added = ["$le"])).
Proof.
  intros Hfresh Hcin H added. subst added. unfold import_operator_cells in H.
  rewrite Hcin in H. cbn [net_IsGnd net_IsPwr] in H.
  split; [|split]; intros Hty; rewrite Hty in H.
  - apply bind_inv in H as ([out m1] & Hout & H). apply bind_inv in H as (out' & _ & H).
    cbn [mbind result_bind] in H.
    pose proof (operatorOutput_only_wires _ _ _ _ Hfresh Hout) as Hm1.
    destruct (IsGnd cin).
    + run_operator H. injection H as <- <-.
      cbn [module set_module snd addBinary addCell]. rewrite (added_one _ _ _ Hm1). reflexivity.
    + run_operator H. injection H as <- <-.
      cbn [module set_module snd addBinary addCell].
      erewrite added_two by eassumption. reflexivity.
  - cbn [mbind result_bind] in H. destruct (IsGnd cin).
    + left. split; [reflexivity|]. run_operator H. injection H as <- <-.
      cbn [module set_module snd addBinary addCell].
      rewrite (added_one _ _ _ (operatorOutput_only_wires _ _ _ _ Hfresh E1)). reflexivity.
    + right. split; [reflexivity|].
      destruct (same_net (Some cin) _); [|discriminate]. split; [reflexivity|].
      run_operator H. injection H as <- <-.
      cbn [module set_module snd addBinary addCell].
      rewrite (added_one _ _ _ (operatorOutput_only_wires _ _ _ _ Hfresh E1)). reflexivity.
  - cbn [mbind result_bind] in H. destruct (IsGnd cin).
    + left. split; [reflexivity|]. run_operator H. injection H as <- <-.
      cbn [module set_module snd addBinary addCell].
      rewrite (added_one _ _ _ (only_wires_added_refl _)). reflexivity.
    + right. split; [reflexivity|]. destruct (IsPwr cin); [|discriminate].
      split; [reflexivity|]. run_operator H. injection H as <- <-.
      cbn [module set_module snd addBinary addCell].
      rewrite (added_one _ _ _ (only_wires_added_refl _)). reflexivity.
Qed.

Lemma carry_in_rules_witness :
  ∃ imp', import_operator_cells Sample.adder_pins Sample.imp Sample.adder (IdStr "\add")
          = Ok (true, imp')
    ∧ cell_type <$> drop (length (cells_ (module Sample.imp))) (cells_ (module imp'))
      = ["$add"; "$add"]%string.
Proof.
  assert (∃ imp', import_operator_cells Sample.adder_pins Sample.imp Sample.adder
                    (IdStr "\add") = Ok (true, imp')) as (imp' & Hrun)
    by (eexists; vm_compute; reflexivity).
  exists imp'. split; [exact Hrun|].
  assert (fresh_wire_names (module Sample.imp)) as Hfresh
    by (intros w k Hw; inversion Hw).
  exact (proj1 (carry_in_rules Sample.adder_pins Sample.imp Sample.adder (IdStr "\add")
                  Sample.rst true imp' Hfresh eq_refl Hrun) eq_refl).
Defined.

(** ** The attributes of an object *)

Lemma attr_get_set_ne (key key' : string) (v : Const) (attributes : list (string * Const)) :
  key ≠ key' → attr_get key (attr_set key' v attributes) = attr_get key attributes.
Proof.
  intros Hne. unfold attr_set. destruct (bool_decide (key' ∈ attributes.*1)).
  - induction attributes as [|[k x] attributes IH]; [reflexivity|]. cbn [map fst].
    destruct (bool_decide (k = key')) eqn:Hk.
    + apply bool_decide_eq_true in Hk as ->. rewrite !attr_get_cons.
      rewrite !decide_False by congruence. exact IH.
    + rewrite !attr_get_cons. destruct (decide (k = key)); [reflexivity | exact IH].
  - induction attributes as [|[k x] attributes IH]; cbn [app].
    + rewrite attr_get_cons, decide_False by congruence. reflexivity.
    + rewrite !attr_get_cons. destruct (decide (k = key)); [reflexivity | exact IH].
Qed.

Lemma attributes_fold_lookup (atts : list (string * string)) (key : string) :
  ∀ attributes,
    attr_get key
      (foldl (λ attributes att, attr_set (escape_id att.1) (Const_string att.2) attributes)
         attributes atts)
    = match last (filter (λ att, escape_id att.1 = key) atts) with
      | Some att => Some (Const_string att.2)
      | None => attr_get key attributes
      end.
Proof.
  induction atts as [|att atts IH] using rev_ind; intros attributes; [reflexivity|].
  rewrite foldl_app, list.filter_app. cbn [foldl].
  destruct (decide (escape_id att.1 = key)) as [Heq|Hne].
  - rewrite filter_cons_True by exact Heq. rewrite filter_nil, last_snoc, <- Heq.
    apply attr_get_set.
  - rewrite filter_cons_False by exact Hne. rewrite filter_nil, app_nil_r.
    rewrite attr_get_set_ne by congruence. apply IH.
Qed.

(** X27. What [import_attributes] leaves under a key: the value of the
    last attribute of the object whose escaped name is the key, as a
    string; where there is none, the source location of the object for the
    key [\src]; and otherwise what was there before.  So an attribute
    called [src] hides the source location, and of two attributes with one
    escaped name the later one stays. *)
Theorem import_attributes_lookup (attributes : list (string * Const)) (obj : DesignObj)
    (key : string) :
  attr_get key (import_attributes attributes obj)
  = match last (filter (λ att, escape_id att.1 = key) (obj_atts obj)) with
    | Some att => Some (Const_string att.2)
    | None =>
        match Linefile obj with
        | Some (file, line) =>
            if bool_decide (key = "\src") then Some (Const_string (file +:+ ":" +:+ pretty line))
            else attr_get key attributes
        | None => attr_get key attributes
        end
    end.
Proof.
  unfold import_attributes. rewrite attributes_fold_lookup.
  destruct (last _) as [att|]; [reflexivity|].
  destruct (Linefile obj) as [[file line]|]; [|reflexivity].
  case_bool_decide as Hk.
  - rewrite Hk. apply attr_get_set.
  - apply attr_get_set_ne. exact Hk.
Qed.

(** ** The registers of [$past] and [prev()] *)

Lemma addDff_candidate (id : IdString) (clock d q : SigBit) (posedge : bool) (m : Module) :
  past_candidate (addDff id [clock] [d] [q] posedge m).1.
Proof.
  unfold past_candidate. cbn [addDff addCell fst cell_type].
  split; [reflexivity|]. split; [exists d; reflexivity|]. split; [exists q; reflexivity|].
  split; [|reflexivity]. exists clock, posedge. destruct posedge; reflexivity.
Qed.

(** [past_ffs] keeps its invariant when the module gains a register that
    is entered, and when it gains cells that are not. *)
Lemma past_inv_grow (imp : VerificImporter) (past_ffs : list Cell) (m' : Module) :
  past_inv (imp, past_ffs) →
  (∀ c, c ∈ cells_ (module imp) → c ∈ cells_ m') → autoidx (module imp) ≤ autoidx m' →
  past_inv (set_module imp m', past_ffs).
Proof.
  intros [Hnd Hall] Hcells Hidx. split; [exact Hnd|]. cbn [fst snd module set_module] in *.
  eapply Forall_impl; [exact Hall|]. intros c (Hin & (k & Hk & Hlt) & Hcand).
  split; [exact (Hcells c Hin)|]. split; [exists k; split; [exact Hk | lia] | exact Hcand].
Qed.

Lemma past_inv_enter (imp : VerificImporter) (past_ffs : list Cell)
    (clock d q : SigBit) (posedge : bool) :
  past_inv (imp, past_ffs) →
  let '(id, m) := NEW_ID (module imp) in
  let '(ff, m) := addDff id [clock] [d] [q] posedge m in
  past_inv (set_module imp m, past_ffs ++ [ff]).
Proof.
  intros [Hnd Hall]. cbn [NEW_ID addDff addCell]. cbn [fst snd] in *.
  set (ff := mkCell _ _ _ _). split; cbn [fst snd module set_module add_cell_obj cells_ autoidx].
  - rewrite fmap_app. apply list.NoDup_app. split; [exact Hnd|]. split.
    + intros nm Hnm Hin. cbn in Hin. apply list_elem_of_singleton in Hin. subst nm.
      apply list_elem_of_fmap in Hnm as (c & Hc & Hcin).
      rewrite list.Forall_forall in Hall. destruct (Hall c Hcin) as (_ & (k & Hk & Hlt) & _).
      rewrite Hk in Hc. cbn in Hc. injection Hc as Hc. lia.
    + cbn. apply NoDup_singleton.
  - apply Forall_app. split.
    + eapply Forall_impl; [exact Hall|]. intros c (Hin & (k & Hk & Hlt) & Hcand).
      split; [apply elem_of_app; left; exact Hin|].
      split; [exists k; split; [exact Hk | lia] | exact Hcand].
    + constructor; [|constructor].
      split; [apply elem_of_app; right; apply list_elem_of_here|].
      split; [exists (autoidx (module imp)); split; [reflexivity | lia]|].
      exact (addDff_candidate (NewId (autoidx (module imp))) clock d q posedge (module imp)).
Qed.

(** X28. Every register the loop over the instances enters into
    [past_ffs] is one the coalescer can take: the registers entered are
    cells of the module, [$dff] cells of one bit with a clock, an input and
    an output that can be read, and they bear distinct private names.
    Without the option [-nosva], a [$past] whose block ends well always
    enters its register, a new cell of the module from the signal of its
    first input to the signal of its output; a [prev()] on a clock that is
    not constant makes a register and enters it when it is one bit wide,
    and only then.  With [-nosva], for a [prev()] on a constant clock and
    for any other instance, nothing changes.  The invariant also stays when
    the module gains other cells. *)
Theorem past_registers_are_candidates (IsConstant : Net → bool)
    (pins_of : Instance → OperatorPins) (inst : Instance)
    (s s' : VerificImporter * list Cell) :
  past_inv s → past_step IsConstant pins_of inst s = Ok s' →
  past_inv s'
  ∧ NoDup (cell_name <$> s'.2)
  ∧ Forall (λ c, ∃ qb, ff_Q c = Ok qb) s'.2
  ∧ (s'.2 = s.2 ∨ ∃ ff, s'.2 = s.2 ++ [ff] ∧ ff ∈ cells_ (module s'.1))
  ∧ (mode_nosva s.1 = true → s' = s)
  ∧ (Type_ inst = OPER_PSLPREV → InputSize inst ≠ 1 → s'.2 = s.2)
  ∧ (∀ m', (∀ c, c ∈ cells_ (module s'.1) → c ∈ cells_ m') →
           autoidx (module s'.1) ≤ autoidx m' → past_inv (set_module s'.1 m', s'.2))
  ∧ (mode_nosva s.1 = false → Type_ inst = PRIM_SVA_PAST →
     ∃ sig_d sig_q clock posedge ff,
       net_map_at s.1 (GetInput1 inst) = Ok sig_d
       ∧ net_map_at s.1 (GetOutput inst) = Ok sig_q
       ∧ ff = (addDff (NewId (autoidx (module s.1))) [clock] [sig_d] [sig_q] posedge
                 (module s.1)).1
       ∧ s'.2 = s.2 ++ [ff]
       ∧ cells_ (module s'.1) = cells_ (module s.1) ++ [ff])
  ∧ (mode_nosva s.1 = false → Type_ inst = OPER_PSLPREV →
     ∀ clock, GetClock inst = Some clock →
       if IsConstant clock then s' = s
       else ∃ ff, cells_ (module s'.1) = cells_ (module s.1) ++ [ff]
                  ∧ cell_type ff = "$dff"
                  ∧ s'.2 = if bool_decide (InputSize inst = 1) then s.2 ++ [ff] else s.2)
  ∧ (Type_ inst ≠ PRIM_SVA_PAST → Type_ inst ≠ OPER_PSLPREV → s' = s).
Proof.
  intros Hinv Hstep.
  assert (past_inv s'
          ∧ (s'.2 = s.2 ∨ ∃ ff, s'.2 = s.2 ++ [ff] ∧ ff ∈ cells_ (module s'.1))
          ∧ (mode_nosva s.1 = true → s' = s)
          ∧ (Type_ inst = OPER_PSLPREV → InputSize inst ≠ 1 → s'.2 = s.2))
    as (Hinv' & Hgrow & Hnosva & Hwide).
  { destruct s as [imp past_ffs]. unfold past_step in Hstep. cbn [fst snd].
    destruct (mode_nosva imp) eqn:Hmode.
    { injection Hstep as <-. split; [exact Hinv|]. split; [left; reflexivity|].
      split; [reflexivity|]. reflexivity. }
    assert (Hidle : s' = (imp, past_ffs) →
              past_inv s'
              ∧ (s'.2 = past_ffs ∨ ∃ ff, s'.2 = past_ffs ++ [ff] ∧ ff ∈ cells_ (module s'.1))
              ∧ (false = true → s' = (imp, past_ffs))
              ∧ (Type_ inst = OPER_PSLPREV → InputSize inst ≠ 1 → s'.2 = past_ffs)).
    { intros ->. split; [exact Hinv|]. split; [left; reflexivity|].
      split; [reflexivity|]. reflexivity. }
    destruct (Type_ inst) eqn:Hty; try (apply Hidle; injection Hstep as <-; reflexivity).
    - apply bind_inv in Hstep as (driver & _ & Hstep).
      apply bind_inv in Hstep as (edge & _ & Hstep).
      apply bind_inv in Hstep as (sig_d & _ & Hstep).
      apply bind_inv in Hstep as (sig_q & _ & Hstep).
      apply bind_inv in Hstep as ([clock_sig posedge] & _ & Hstep).
      pose proof (past_inv_enter imp past_ffs clock_sig sig_d sig_q posedge Hinv) as Hnew.
      cbn [NEW_ID addDff addCell] in Hstep, Hnew. injection Hstep as <-.
      split; [exact Hnew|]. split; [|split; [discriminate | discriminate]].
      right. eexists. split; [reflexivity|]. cbn. apply elem_of_app. right.
      apply list_elem_of_here.
    - destruct (GetClock inst) as [clock|]; [|discriminate].
      destruct (IsConstant clock); [apply Hidle; injection Hstep as <-; reflexivity|].
      apply bind_inv in Hstep as (edge & _ & Hstep).
      apply bind_inv in Hstep as ([sig_d sig_q] & Hbits & Hstep).
      apply bind_inv in Hstep as ([clock_sig posedge] & _ & Hstep).
      cbn [NEW_ID addDff addCell] in Hstep. injection Hstep as <-. cbn [fst snd].
      case_bool_decide as Hone.
      + rewrite Hone in Hbits. cbn in Hbits.
        apply bind_inv in Hbits as (d & _ & Hbits). apply bind_inv in Hbits as (q & _ & Hbits).
        injection Hbits as <- <-.
        pose proof (past_inv_enter imp past_ffs clock_sig d q posedge Hinv) as Hnew.
        cbn [NEW_ID addDff addCell] in Hnew.
        split; [exact Hnew|]. split; [|split; [discriminate | intros _ Hne; contradiction]].
        right. eexists. split; [reflexivity|]. cbn. apply elem_of_app. right.
        apply list_elem_of_here.
      + split; [|split; [left; reflexivity | split; [discriminate | reflexivity]]].
        apply (past_inv_grow imp past_ffs); [exact Hinv | | cbn; lia].
        intros c Hc. cbn. apply elem_of_app. left. exact Hc. }
  split; [exact Hinv'|]. split; [exact (proj1 Hinv')|]. split.
  { eapply Forall_impl; [exact (proj2 Hinv')|]. intros c (_ & _ & _ & _ & Hq & _). exact Hq. }
  split; [exact Hgrow|]. split; [exact Hnosva|]. split; [exact Hwide|]. split.
  { intros m'. destruct s' as [imp' ffs']. apply past_inv_grow. exact Hinv'. }
  clear Hinv Hinv' Hgrow Hnosva Hwide. destruct s as [imp past_ffs].
  unfold past_step in Hstep. cbn [fst snd]. split; [|split].
  - intros Hmode Hty. rewrite Hmode, Hty in Hstep.
    apply bind_inv in Hstep as (driver & _ & Hstep).
    apply bind_inv in Hstep as (edge & _ & Hstep).
    apply bind_inv in Hstep as (sig_d & Hd & Hstep).
    apply bind_inv in Hstep as (sig_q & Hq & Hstep).
    apply bind_inv in Hstep as ([clock_sig posedge] & _ & Hstep).
    cbn [NEW_ID addDff addCell] in Hstep. injection Hstep as <-.
    exists sig_d, sig_q, clock_sig, posedge. eexists. split; [exact Hd|]. split; [exact Hq|].
    split; [reflexivity|]. split; reflexivity.
  - intros Hmode Hty clock Hclock. rewrite Hmode, Hty, Hclock in Hstep.
    destruct (IsConstant clock); [injection Hstep as <-; reflexivity|].
    apply bind_inv in Hstep as (edge & _ & Hstep).
    apply bind_inv in Hstep as ([sig_d sig_q] & _ & Hstep).
    apply bind_inv in Hstep as ([clock_sig posedge] & _ & Hstep).
    cbn [NEW_ID addDff addCell] in Hstep. injection Hstep as <-. cbn [fst snd].
    eexists. split; [reflexivity|]. split; reflexivity.
  - intros Hpast Hprev. destruct (mode_nosva imp); [injection Hstep as <-; reflexivity|].
    destruct (Type_ inst); try (injection Hstep as <-; reflexivity); contradiction.
Qed.

Lemma past_registers_are_candidates_witness :
  ∃ imp' ff,
    past_step (λ _, false) (λ _, Sample.adder_pins) Sample.past_inst (Sample.imp, [])
    = Ok (imp', [ff])
    ∧ cell_name ff = NewId 1 ∧ ff_Q ff = Ok (Sample.wire_of Sample.q)
    ∧ past_inv (imp', [ff]).
Proof.
  assert (∃ imp' ff,
            past_step (λ _, false) (λ _, Sample.adder_pins) Sample.past_inst (Sample.imp, [])
            = Ok (imp', [ff])
            ∧ cell_name ff = NewId 1 ∧ ff_Q ff = Ok (Sample.wire_of Sample.q))
    as (imp' & ff & Hrun & Hname & Hq)
    by (eexists _, _; split; [vm_compute; reflexivity | split; reflexivity]).
  exists imp', ff. split; [exact Hrun|]. split; [exact Hname|]. split; [exact Hq|].
  assert (past_inv (Sample.imp, [])) as Hinv by (split; constructor).
  exact (proj1 (past_registers_are_candidates _ _ _ _ _ Hinv Hrun)).
Defined.

(** ** The cells of the memory ports *)




